(** * Compare engine (src/Engine/Engine.cpp): a shallow embedding and its
      verified properties.

    Conventions of the embedding.
    - A C++ [int] is a [Z]; the engine only counts lines, words and bytes of
      documents held in memory, and signed overflow is undefined in the
      source, so no wrap-around is written for [int].
    - A [uint64_t] is a [Z] in [0, 2^64) and every operation on it wraps.
    - A [char] is the [Z] value the platform gives it; the conversion
      [static_cast<uint64_t>] is reduction modulo 2^64.
    - A [std::vector] is a [list]; a pointer into [cmpInfo.blockDiffs] is
      the index of the block.
    - [float] arithmetic is a parameter of the block re-aligner (section
      [Realign]); IEEE binary32 is given as an instance. *)

From Stdlib Require Import ZArith Lia Bool List Sorted.
From Stdlib Require Import SpecFloat.
From stdpp Require Import base option list gmap.

Local Open Scope Z_scope.

(** ** Data model *)

Inductive charType := SPACECHAR | ALPHANUMCHAR | OTHERCHAR.

Record Line := { ln_line : Z; ln_hash : Z }.

Record Word := { w_pos : Z; w_len : Z; w_hash : Z }.

Record Char := { c_ch : Z; c_pos : Z }.

Record section_t := { s_off : Z; s_len : Z }.

Inductive diff_type := DIFF_MATCH | DIFF_IN_1 | DIFF_IN_2.

Record diffLine := { dl_line : Z; dl_changes : list section_t }.

Record blockDiffInfo := {
  matchBlock : option nat;
  changedLines : list diffLine;
  moves : list section_t
}.

(** [diff_info<UserDataT>] is declared in diff.h; the engine reads the
    fields [type], [off], [len] and [info] of it. *)
Record diffInfo := {
  d_type : diff_type;
  d_off : Z;
  d_len : Z;
  d_info : blockDiffInfo
}.

(** [diff_info<void>]: a segment of a word or char diff. *)
Record segment := { sg_type : diff_type; sg_off : Z; sg_len : Z }.

Record MatchInfo := {
  mi_lookupOff : Z;
  mi_matchDiff : option nat;
  mi_matchOff : Z;
  mi_matchLen : Z
}.

(** The two views of the host; [selections] is indexed by them. *)
Definition MAIN_VIEW : Z := 0.
Definition SUB_VIEW : Z := 1.

Record CompareOptions := {
  oldFileViewId : Z;
  findUniqueMode : bool;
  ignoreCase : bool;
  ignoreSpaces : bool;
  ignoreEmptyLines : bool;
  detectMoves : bool;
  charPrecision : bool;
  matchPercentThreshold : Z;
  selectionCompare : bool;
  selections : Z -> Z * Z
}.

(** The marker masks are constants of the host; the engine copies and
    compares them. *)
Inductive MarkerMask :=
| MARKER_MASK_ADDED | MARKER_MASK_REMOVED
| MARKER_MASK_ADDED_LOCAL | MARKER_MASK_REMOVED_LOCAL
| MARKER_MASK_CHANGED | MARKER_MASK_CHANGED_LOCAL
| MARKER_MASK_MOVED_LINE | MARKER_MASK_MOVED_BEGIN
| MARKER_MASK_MOVED_MID | MARKER_MASK_MOVED_END.

Inductive CompareResult :=
  COMPARE_ERROR | COMPARE_CANCELLED | COMPARE_MATCH | COMPARE_MISMATCH.

(** The host text provider of one view: document length in bytes, line
    count, line boundaries and the bytes themselves. *)
Record View := {
  viewId : Z;
  docLength : Z;
  lineCount : Z;
  getLineStart : Z -> Z;
  getLineEnd : Z -> Z;
  byteAt : Z -> Z
}.

Record DocCmpInfo := {
  view : View;
  section : section_t;
  blockDiffMask : MarkerMask;
  lines : list Line;
  nonUniqueLines : gset Z
}.

(** The progress dialog: [None] is the null [progress_ptr]; otherwise the
    answers the coming [Advance]/[NextPhase] calls will give ([false] is a
    cancel), and [true] once the list is used up. *)
Definition Progress := option (list bool).

Definition poll (p : Progress) : bool * Progress :=
  match p with
  | None => (true, None)
  | Some [] => (true, Some [])
  | Some (b :: bs) => (b, Some bs)
  end.

Definition never_cancels (p : Progress) : Prop :=
  match p with
  | None => True
  | Some bs => Forall (fun b => b = true) bs
  end.

Definition eqb_diff_type (a b : diff_type) : bool :=
  match a, b with
  | DIFF_MATCH, DIFF_MATCH | DIFF_IN_1, DIFF_IN_1 | DIFF_IN_2, DIFF_IN_2 => true
  | _, _ => false
  end.

(** ** Hasher *)

Definition u64 (z : Z) : Z := z mod 2 ^ 64.

Definition add64 (a b : Z) : Z := u64 (a + b).

Definition shl64 (a k : Z) : Z := u64 (Z.shiftl a k).

Definition cHashSeed : Z := 0x84222325.

Definition Hash (hval letter : Z) : Z :=
  let hval := Z.lxor hval (u64 letter) in
  add64 hval
    (add64 (add64 (add64 (add64 (add64 (shl64 hval 1) (shl64 hval 4))
                                (shl64 hval 5))
                         (shl64 hval 7))
                  (shl64 hval 8))
           (shl64 hval 40)).

(** Modelled from the spec: [toLowerCase] is defined outside Engine.cpp; the
    specification's "fold ASCII A-Z to a-z". *)
Definition toLowerCase (text : list Z) : list Z :=
  map (fun c => if (65 <=? c) && (c <=? 90) then c + 32 else c) text.

(** Modelled from the spec: [getText(view, startByte, endByte)] is defined
    outside Engine.cpp; the bytes of the range followed by the terminating
    zero the callers subtract from [size()]. *)
Definition getText (v : View) (startPos endPos : Z) : list Z :=
  map (byteAt v) (seqZ startPos (endPos - startPos)) ++ [0].

(** [std::vector::operator[]]: undefined outside the vector, [None] here. *)
Definition vat {A : Type} (l : list A) (i : Z) : option A :=
  if i <? 0 then None else l !! Z.to_nat i.

(** ** Line extractor *)

(** The byte loop of [getLines]: [for (i = 0; i < lineEnd - lineStart; ++i)]
    over the first [lineEnd - lineStart] elements of [line]. *)
Fixpoint hashBytes (ignSpaces : bool) (bytes : list Z) (hash : Z) : Z :=
  match bytes with
  | [] => hash
  | c :: rest =>
      if ignSpaces && ((c =? 32) || (c =? 9))
      then hashBytes ignSpaces rest hash
      else hashBytes ignSpaces rest (Hash hash c)
  end.

Definition lineHashOf (v : View) (options : CompareOptions) (lineStart lineEnd : Z) : Z :=
  if lineEnd - lineStart =? 0 then cHashSeed
  else
    let line := getText v lineStart lineEnd in
    let line := if ignoreCase options then toLowerCase line else line in
    hashBytes (ignoreSpaces options) (take (Z.to_nat (lineEnd - lineStart)) line) cHashSeed.

Definition monitorCancelEveryXLine : Z := 500.

(** The line loop of [getLines]; [None] is the cancelled run. *)
Fixpoint getLines_loop (v : View) (options : CompareOptions) (secOff : Z)
    (lineNums : list Z) (progress : Progress) (acc : list Line)
  : option (list Line) * Progress :=
  match lineNums with
  | [] => (Some acc, progress)
  | lineNum :: rest =>
      let '(go, progress') :=
        match progress with
        | Some _ =>
            if lineNum `rem` monitorCancelEveryXLine =? 0 then poll progress
            else (true, progress)
        | None => (true, progress)
        end in
      if negb go then (None, progress')
      else
        let lineStart := getLineStart v (lineNum + secOff) in
        let lineEnd := getLineEnd v (lineNum + secOff) in
        let newLine := {| ln_line := lineNum + secOff;
                          ln_hash := lineHashOf v options lineStart lineEnd |} in
        let acc' :=
          if negb (ignoreEmptyLines options) || negb (ln_hash newLine =? cHashSeed)
          then acc ++ [newLine] else acc in
        getLines_loop v options secOff rest progress' acc'
  end.

(** How a call ends: it returns to its caller, or an exception leaves it. *)
Inductive Exit := Returned | Thrown.

(** [getLines] changes [doc] in place; the result is the document as the
    call leaves it, the dialog, and how the call ended.
    [doc.lines.reserve(doc.section.len)] takes a [size_type]: a negative
    [section.len] arrives as a size above [max_size()] and [reserve] throws
    [std::length_error], with [lines] cleared and [section.len] already
    rewritten. That happens when the section starts behind the last line. *)
Definition getLines (doc : DocCmpInfo) (options : CompareOptions) (progress : Progress)
  : DocCmpInfo * (Progress * Exit) :=
  let v := view doc in
  if docLength v =? 0 then
    ({| view := v; section := section doc; blockDiffMask := blockDiffMask doc;
        lines := []; nonUniqueLines := nonUniqueLines doc |}, (progress, Returned))
  else
    let linesCount := lineCount v in
    let sec := section doc in
    let sec :=
      if (s_len sec <=? 0) || (linesCount <? s_off sec + s_len sec)
      then {| s_off := s_off sec; s_len := linesCount - s_off sec |} else sec in
    if s_len sec <? 0 then
      ({| view := v; section := sec; blockDiffMask := blockDiffMask doc;
          lines := []; nonUniqueLines := nonUniqueLines doc |}, (progress, Thrown))
    else
      let '(res, progress') :=
        getLines_loop v options (s_off sec) (seqZ 0 (s_len sec)) progress [] in
      ({| view := v; section := sec; blockDiffMask := blockDiffMask doc;
          lines := default [] res; nonUniqueLines := nonUniqueLines doc |},
       (progress', Returned)).

(** The specification's reading of the extractor, for comparison. *)

Definition FNV_prime : Z := 1099511628211.

Definition spec_mix (hash byte : Z) : Z :=
  let h := Z.lxor hash byte in
  (h + Z.shiftl h 1 + Z.shiftl h 4 + Z.shiftl h 5 + Z.shiftl h 7 + Z.shiftl h 8
     + Z.shiftl h 40) mod 2 ^ 64.

Definition spec_hash (bytes : list Z) : Z := fold_left spec_mix bytes 0x84222325.

Definition isSpaceOrTab (c : Z) : bool := (c =? 32) || (c =? 9).

Definition spec_folded (options : CompareOptions) (raw : list Z) : list Z :=
  let cased := if ignoreCase options then toLowerCase raw else raw in
  if ignoreSpaces options then List.filter (fun c => negb (isSpaceOrTab c)) cased else cased.

Definition rawLine (v : View) (i : Z) : list Z :=
  map (byteAt v) (seqZ (getLineStart v i) (getLineEnd v i - getLineStart v i)).

Definition spec_lineHash (v : View) (options : CompareOptions) (i : Z) : Z :=
  spec_hash (map u64 (spec_folded options (rawLine v i))).

Definition spec_getLines (v : View) (options : CompareOptions) (secOff secLen : Z)
  : list Line :=
  omap (fun lineNum =>
          let i := lineNum + secOff in
          let h := spec_lineHash v options i in
          if ignoreEmptyLines options && (h =? 0x84222325) then None
          else Some {| ln_line := i; ln_hash := h |})
       (seqZ 0 secLen).

(** ** Find-unique mode *)

(** [std::unordered_map<uint64_t, std::vector<int>>] keyed by line hash. The
    [emplace] of a fresh key stores the one-line vector; on an existing key
    the line is appended. *)
Definition emplaceLine (m : gmap Z (list Z)) (l : Line) : gmap Z (list Z) :=
  match m !! ln_hash l with
  | None => <[ln_hash l := [ln_line l]]> m
  | Some ls => <[ln_hash l := ls ++ [ln_line l]]> m
  end.

Definition groupLines (ls : list Line) : gmap Z (list Z) := fold_left emplaceLine ls ∅.

(** A [SCI_MARKERADDSET] call: view, line, mask. *)
Definition MarkerCall : Type := Z * Z * MarkerMask.

Record AlignmentViewData := { av_line : Z; av_diffMask : option MarkerMask }.
Record AlignmentPair := { ap_main : AlignmentViewData; ap_sub : AlignmentViewData }.

(** One iteration of [for (const auto& uniqueLine: doc1UniqueLines)]. *)
Definition uniqueStep (doc1 : DocCmpInfo)
    (st : gmap Z (list Z) * Z * list MarkerCall) (uniqueLine : Z * list Z)
  : gmap Z (list Z) * Z * list MarkerCall :=
  let '(doc2UniqueLines, doc1UniqueLinesCount, marks) := st in
  match doc2UniqueLines !! uniqueLine.1 with
  | Some _ => (delete uniqueLine.1 doc2UniqueLines, doc1UniqueLinesCount, marks)
  | None =>
      (doc2UniqueLines,
       doc1UniqueLinesCount + Z.of_nat (length uniqueLine.2),
       marks ++ map (fun line => (viewId (view doc1), line, blockDiffMask doc1)) uniqueLine.2)
  end.

Definition emptyDoc (v : View) : DocCmpInfo :=
  {| view := v; section := {| s_off := 0; s_len := 0 |};
     blockDiffMask := MARKER_MASK_ADDED; lines := []; nonUniqueLines := ∅ |}.

Definition withSelection (options : CompareOptions) (doc : DocCmpInfo) (mask : MarkerMask)
  : DocCmpInfo :=
  let sel := selections options (viewId (view doc)) in
  {| view := view doc;
     section := if selectionCompare options
                then {| s_off := sel.1; s_len := sel.2 - sel.1 + 1 |}
                else section doc;
     blockDiffMask := mask; lines := lines doc; nonUniqueLines := nonUniqueLines doc |}.

(** The hash-set difference at the end of [runFindUnique], from the two
    extracted line vectors on. The iteration order of an unordered map is
    unspecified; [map_to_list] fixes one. *)
Definition findUniqueCore (doc1 doc2 : DocCmpInfo) (progress : Progress)
  : CompareResult * list MarkerCall * list AlignmentPair :=
  let doc1UniqueLines := groupLines (lines doc1) in
  let '(go, progress) := poll progress in
  if negb go then (COMPARE_CANCELLED, [], []) else
  let doc2UniqueLines := groupLines (lines doc2) in
  let '(go, progress) := poll progress in
  if negb go then (COMPARE_CANCELLED, [], []) else
  let '(doc2UniqueLines, doc1UniqueLinesCount, marks) :=
    fold_left (uniqueStep doc1) (map_to_list doc1UniqueLines) (doc2UniqueLines, 0, []) in
  if (doc1UniqueLinesCount =? 0) && bool_decide (doc2UniqueLines = ∅)
  then (COMPARE_MATCH, marks, [])
  else
    let marks2 :=
      flat_map (fun uniqueLine : Z * list Z =>
                  map (fun line => (viewId (view doc2), line, blockDiffMask doc2)) uniqueLine.2)
               (map_to_list doc2UniqueLines) in
    (COMPARE_MISMATCH, marks ++ marks2,
     [ {| ap_main := {| av_line := s_off (section doc1); av_diffMask := None |};
          ap_sub := {| av_line := s_off (section doc2); av_diffMask := None |} |} ]).

(** What a run gives its caller: the value it returns, or nothing when an
    exception leaves it ([compareViews] catches it and answers
    [COMPARE_ERROR]). *)
Inductive Answer := Returns (result : CompareResult) | Throws.

Definition runFindUnique (mainView subView : View) (options : CompareOptions)
    (progress : Progress) : Answer * list MarkerCall * list AlignmentPair :=
  let old := oldFileViewId options =? MAIN_VIEW in
  let doc1 := withSelection options (emptyDoc mainView)
                (if old then MARKER_MASK_REMOVED else MARKER_MASK_ADDED) in
  let doc2 := withSelection options (emptyDoc subView)
                (if old then MARKER_MASK_ADDED else MARKER_MASK_REMOVED) in
  let '(doc1, (progress, exit1)) := getLines doc1 options progress in
  match exit1 with
  | Thrown => (Throws, [], [])
  | Returned =>
      let '(go, progress) := poll progress in
      if negb go then (Returns COMPARE_CANCELLED, [], []) else
      let '(doc2, (progress, exit2)) := getLines doc2 options progress in
      match exit2 with
      | Thrown => (Throws, [], [])
      | Returned =>
          let '(go, progress) := poll progress in
          if negb go then (Returns COMPARE_CANCELLED, [], []) else
          let '(result, marks, alignmentInfo) := findUniqueCore doc1 doc2 progress in
          (Returns result, marks, alignmentInfo)
      end
  end.

(** [reserve] in [getLines] does not throw on the section the runs hand it
    for view [v]: the document is empty, or the section does not start behind
    its last line. *)
Definition sectionInside (v : View) (options : CompareOptions) : Prop :=
  docLength v = 0
  \/ (if selectionCompare options then (selections options (viewId v)).1 else 0) <= lineCount v.

(** The set of normalized line hashes of a document. *)
Definition hashSet (ls : list Line) : gset Z := list_to_set (map ln_hash ls).

(** The normalized lines the find-unique mode extracts from one view. *)
Definition extractedLines (v : View) (options : CompareOptions) : list Line :=
  lines (fst (getLines (withSelection options (emptyDoc v) MARKER_MASK_ADDED) options None)).

(** ** Move detector *)

Record CompareInfo := {
  doc1 : DocCmpInfo;
  doc2 : DocCmpInfo;
  blockDiffs : list diffInfo
}.

Definition inMove (line : Z) (move : section_t) : bool :=
  (s_off move <=? line) && (line <? s_off move + s_len move).

(** [blockDiffInfo::movedSection]: the length of the first move holding
    [line], 0 when there is none. *)
Definition movedSection (info : blockDiffInfo) (line : Z) : Z :=
  match List.find (inMove line) (moves info) with
  | Some move => s_len move
  | None => 0
  end.

(** [blockDiffInfo::getNextUnmoved]: [Some] of the updated [line] when the
    call answers true. *)
Definition getNextUnmoved (info : blockDiffInfo) (line : Z) : option Z :=
  match List.find (inMove line) (moves info) with
  | Some move => Some (s_off move + s_len move)
  | None => None
  end.

(** [Line::operator==] on two vector elements. Reading outside a vector is
    undefined in the source; the model answers "different" there, and no
    index of a block that lies inside its document gets there. *)
Definition lineEq (ls1 : list Line) (i : Z) (ls2 : list Line) (j : Z) : bool :=
  match vat ls1 i, vat ls2 j with
  | Some a, Some b => ln_hash a =? ln_hash b
  | _, _ => false
  end.

(** The two extension loops of [findBestMatch] have empty bodies; [steps]
    is the distance of the lookup index to its bound, after which the loop
    condition is false. *)
Fixpoint scanBack (steps : nat) (cond : Z -> Z -> bool) (lookupStart matchStart : Z) : Z * Z :=
  match steps with
  | O => (lookupStart, matchStart)
  | S n =>
      if cond lookupStart matchStart
      then scanBack n cond (lookupStart - 1) (matchStart - 1)
      else (lookupStart, matchStart)
  end.

Fixpoint scanForth (steps : nat) (cond : Z -> Z -> bool) (lookupEnd matchEnd : Z) : Z * Z :=
  match steps with
  | O => (lookupEnd, matchEnd)
  | S n =>
      if cond lookupEnd matchEnd
      then scanForth n cond (lookupEnd + 1) (matchEnd + 1)
      else (lookupEnd, matchEnd)
  end.

(** A matched run: the block it lies in and its extent on both sides. *)
Record Run := { r_diff : nat; r_lookupStart : Z; r_matchStart : Z; r_len : Z }.

Section FindBestMatch.
Variables (pLookupLines pMatchLines : list Line).
Variables (lookupDiff : diffInfo) (lookupOff : Z).

Definition backCond (matchDiff : diffInfo) (matchLastUnmoved : Z)
    (lookupStart matchStart : Z) : bool :=
  (0 <=? lookupStart) && (matchLastUnmoved <=? matchStart)
  && lineEq pLookupLines (d_off lookupDiff + lookupStart)
            pMatchLines (d_off matchDiff + matchStart)
  && (movedSection (d_info lookupDiff) lookupStart =? 0).

Definition forthCond (matchDiff : diffInfo) (lookupEnd matchEnd : Z) : bool :=
  (lookupEnd <? d_len lookupDiff) && (matchEnd <? d_len matchDiff)
  && lineEq pLookupLines (d_off lookupDiff + lookupEnd)
            pMatchLines (d_off matchDiff + matchEnd)
  && (movedSection (d_info lookupDiff) lookupEnd =? 0)
  && (movedSection (d_info matchDiff) matchEnd =? 0).

(** The run through [lookupOff] and [matchOff] (lines 454-475). *)
Definition runAt (k : nat) (matchDiff : diffInfo) (matchLastUnmoved matchOff : Z) : Run :=
  let '(lookupStart, matchStart) :=
    scanBack (Z.to_nat lookupOff) (backCond matchDiff matchLastUnmoved)
             (lookupOff - 1) (matchOff - 1) in
  let lookupStart := lookupStart + 1 in
  let matchStart := matchStart + 1 in
  let '(lookupEnd, matchEnd) :=
    scanForth (Z.to_nat (d_len lookupDiff - (lookupOff + 1))) (forthCond matchDiff)
              (lookupOff + 1) (matchOff + 1) in
  {| r_diff := k; r_lookupStart := lookupStart; r_matchStart := matchStart;
     r_len := lookupEnd - lookupStart |}.

(** Lines 477-489: the candidate against the best seen so far. The second
    component is the local [minMatchLen]. *)
Definition considerRun (st : MatchInfo * Z) (run : Run) : MatchInfo * Z :=
  let '(mi, minMatchLen) := st in
  if mi_matchLen mi <? r_len run then
    ({| mi_lookupOff := r_lookupStart run; mi_matchDiff := Some (r_diff run);
        mi_matchOff := r_matchStart run; mi_matchLen := r_len run |}, r_len run)
  else if mi_matchLen mi =? r_len run then
    ({| mi_lookupOff := mi_lookupOff mi; mi_matchDiff := None;
        mi_matchOff := mi_matchOff mi; mi_matchLen := mi_matchLen mi |}, minMatchLen)
  else st.

(** The loop over [matchOff] in one block; [steps] bounds the iterations
    by the distance of [matchOff] to [matchDiff.len], which every
    iteration shortens. *)
Fixpoint scanBlock (steps : nat) (k : nat) (matchDiff : diffInfo)
    (matchLastUnmoved matchOff : Z) (st : MatchInfo * Z) : MatchInfo * Z :=
  match steps with
  | O => st
  | S n =>
      if matchOff <? d_len matchDiff then
        if negb (lineEq pLookupLines (d_off lookupDiff + lookupOff)
                        pMatchLines (d_off matchDiff + matchOff))
        then scanBlock n k matchDiff matchLastUnmoved (matchOff + 1) st
        else
          match getNextUnmoved (d_info matchDiff) matchOff with
          | Some next => scanBlock n k matchDiff next next st
          | None =>
              scanBlock n k matchDiff matchLastUnmoved (matchOff + 1)
                (considerRun st (runAt k matchDiff matchLastUnmoved matchOff))
          end
      else st
  end.

(** The loop over [cmpInfo.blockDiffs]; [k] is the index of the head. *)
Fixpoint scanBlocks (matchType : diff_type) (k : nat) (blocks : list diffInfo)
    (st : MatchInfo * Z) : MatchInfo * Z :=
  match blocks with
  | [] => st
  | matchDiff :: rest =>
      let st' :=
        if negb (eqb_diff_type (d_type matchDiff) matchType) || (d_len matchDiff <? st.2)
        then st
        else scanBlock (Z.to_nat (d_len matchDiff)) k matchDiff 0 0 st in
      scanBlocks matchType (S k) rest st'
  end.

(** The candidate runs in the order the scan meets them, without the
    shortcut on [minMatchLen]. *)
Fixpoint blockRuns (steps : nat) (k : nat) (matchDiff : diffInfo)
    (matchLastUnmoved matchOff : Z) : list Run :=
  match steps with
  | O => []
  | S n =>
      if matchOff <? d_len matchDiff then
        if negb (lineEq pLookupLines (d_off lookupDiff + lookupOff)
                        pMatchLines (d_off matchDiff + matchOff))
        then blockRuns n k matchDiff matchLastUnmoved (matchOff + 1)
        else
          match getNextUnmoved (d_info matchDiff) matchOff with
          | Some next => blockRuns n k matchDiff next next
          | None =>
              runAt k matchDiff matchLastUnmoved matchOff
                :: blockRuns n k matchDiff matchLastUnmoved (matchOff + 1)
          end
      else []
  end.

Fixpoint allRuns (matchType : diff_type) (k : nat) (blocks : list diffInfo) : list Run :=
  match blocks with
  | [] => []
  | matchDiff :: rest =>
      (if eqb_diff_type (d_type matchDiff) matchType
       then blockRuns (Z.to_nat (d_len matchDiff)) k matchDiff 0 0 else [])
        ++ allRuns matchType (S k) rest
  end.
End FindBestMatch.

Definition noMatch : MatchInfo :=
  {| mi_lookupOff := 0; mi_matchDiff := None; mi_matchOff := 0; mi_matchLen := 0 |}.

Definition lookupSides (cmpInfo : CompareInfo) (lookupDiff : diffInfo)
  : list Line * list Line * diff_type :=
  if eqb_diff_type (d_type lookupDiff) DIFF_IN_1
  then (lines (doc1 cmpInfo), lines (doc2 cmpInfo), DIFF_IN_2)
  else (lines (doc2 cmpInfo), lines (doc1 cmpInfo), DIFF_IN_1).

(** [findBestMatch]; the fields [lookupOff] and [matchOff] of [mi] are left
    as they were by the source when nothing matches, 0 here. *)
Definition findBestMatch (cmpInfo : CompareInfo) (lookupDiff : diffInfo) (lookupOff : Z)
  : MatchInfo :=
  let '(pLookupLines, pMatchLines, matchType) := lookupSides cmpInfo lookupDiff in
  (scanBlocks pLookupLines pMatchLines lookupDiff lookupOff matchType 0
     (blockDiffs cmpInfo) (noMatch, 1)).1.

(** The candidate runs of a lookup. *)
Definition candidateRuns (cmpInfo : CompareInfo) (lookupDiff : diffInfo) (lookupOff : Z)
  : list Run :=
  let '(pLookupLines, pMatchLines, matchType) := lookupSides cmpInfo lookupDiff in
  allRuns pLookupLines pMatchLines lookupDiff lookupOff matchType 0 (blockDiffs cmpInfo).

(** [moves.emplace_back(off, len)] on the block [k]. *)
Definition addMove (k : nat) (off len : Z) (cmpInfo : CompareInfo) : CompareInfo :=
  {| doc1 := doc1 cmpInfo; doc2 := doc2 cmpInfo;
     blockDiffs :=
       alter (fun d => {| d_type := d_type d; d_off := d_off d; d_len := d_len d;
                          d_info := {| matchBlock := matchBlock (d_info d);
                                       changedLines := changedLines (d_info d);
                                       moves := moves (d_info d)
                                                  ++ [ {| s_off := off; s_len := len |} ] |} |})
             k (blockDiffs cmpInfo) |}.

(** [resolveMatch]; [lookupDiff] is the index of the block the reference
    points to. [None]: the recursion is deeper than [fuel], or a pointer
    that is not a block is followed (which [findBestMatch] never hands
    out). The third component is [lookupMi] as the caller sees it after the
    call. *)
Fixpoint resolveMatch (fuel : nat) (cmpInfo : CompareInfo) (lookupDiff : nat)
    (lookupOff : Z) (lookupMi : MatchInfo) : option (bool * CompareInfo * MatchInfo) :=
  match fuel with
  | O => None
  | S n =>
      match mi_matchDiff lookupMi with
      | None => Some (false, cmpInfo, lookupMi)
      | Some m =>
          matchBlk ← blockDiffs cmpInfo !! m;
          let lookupOff := mi_matchOff lookupMi + (lookupOff - mi_lookupOff lookupMi) in
          let reverseMi := findBestMatch cmpInfo matchBlk lookupOff in
          match mi_matchDiff reverseMi with
          | Some r =>
              if bool_decide (r = lookupDiff) then
                Some (true,
                      addMove m (mi_matchOff lookupMi) (mi_matchLen lookupMi)
                        (addMove lookupDiff (mi_lookupOff lookupMi) (mi_matchLen lookupMi) cmpInfo),
                      lookupMi)
              else
                '(ret, cmpInfo', _) ← resolveMatch n cmpInfo m lookupOff reverseMi;
                Some (ret, cmpInfo',
                      {| mi_lookupOff := mi_lookupOff lookupMi; mi_matchDiff := mi_matchDiff lookupMi;
                         mi_matchOff := mi_matchOff lookupMi; mi_matchLen := 0 |})
          | None => Some (false, cmpInfo, lookupMi)
          end
      end
  end.

(** The loop over [lookupEi] in the block [l] of [findMoves]. The result is
    the state reached and the [repeat] flag, with [true] when the loop ran
    to its end and [false] when [fuel] did not suffice. *)
Fixpoint lookupLoop (fuel : nat) (cmpInfo : CompareInfo) (l : nat) (lookupEi : Z)
    (repeat : bool) : CompareInfo * bool * bool :=
  match fuel with
  | O => (cmpInfo, repeat, false)
  | S n =>
      match blockDiffs cmpInfo !! l with
      | None => (cmpInfo, repeat, true)
      | Some lookupDiff =>
          if lookupEi <? d_len lookupDiff then
            match getNextUnmoved (d_info lookupDiff) lookupEi with
            | Some next => lookupLoop n cmpInfo l next repeat
            | None =>
                let mi := findBestMatch cmpInfo lookupDiff lookupEi in
                match resolveMatch n cmpInfo l lookupEi mi with
                | None => (cmpInfo, repeat, false)
                | Some (true, cmpInfo', mi') =>
                    lookupLoop n cmpInfo' l
                      (if mi_matchLen mi' =? 0 then lookupEi
                       else mi_lookupOff mi' + mi_matchLen mi')
                      true
                | Some (false, cmpInfo', _) => lookupLoop n cmpInfo' l (lookupEi + 1) repeat
                end
            end
          else (cmpInfo, repeat, true)
      end
  end.

(** The loop over the blocks of [findMoves]. *)
Fixpoint blocksLoop (fuel : nat) (cmpInfo : CompareInfo) (ls : list nat) (repeat : bool)
  : CompareInfo * bool * bool :=
  match ls with
  | [] => (cmpInfo, repeat, true)
  | l :: rest =>
      match blockDiffs cmpInfo !! l with
      | Some lookupDiff =>
          if eqb_diff_type (d_type lookupDiff) DIFF_IN_1 then
            let '(cmpInfo', repeat', finished) := lookupLoop fuel cmpInfo l 0 repeat in
            if finished then blocksLoop fuel cmpInfo' rest repeat'
            else (cmpInfo', repeat', false)
          else blocksLoop fuel cmpInfo rest repeat
      | None => blocksLoop fuel cmpInfo rest repeat
      end
  end.

(** [findMoves]: the state reached, and whether the fixed point was reached
    within [fuel] rounds of at most [fuel] steps each. *)
Fixpoint findMoves (fuel : nat) (cmpInfo : CompareInfo) : CompareInfo * bool :=
  match fuel with
  | O => (cmpInfo, false)
  | S n =>
      let '(cmpInfo', repeat, finished) :=
        blocksLoop (S n) cmpInfo (seq 0 (length (blockDiffs cmpInfo))) false in
      if negb finished then (cmpInfo', false)
      else if repeat then findMoves n cmpInfo'
      else (cmpInfo', true)
  end.

(** Properties of the [moves] of a block. *)
Definition spanInBlock (d : diffInfo) (move : section_t) : Prop :=
  0 <= s_off move /\ 0 < s_len move /\ s_off move + s_len move <= d_len d.

Definition movesInBounds (d : diffInfo) : Prop :=
  Forall (spanInBlock d) (moves (d_info d)).

Fixpoint sortedByOffset (ms : list section_t) : bool :=
  match ms with
  | a :: (b :: _) as rest => (s_off a <=? s_off b) && sortedByOffset rest
  | _ => true
  end.

Definition disjointSpans (a b : section_t) : bool :=
  (s_off a + s_len a <=? s_off b) || (s_off b + s_len b <=? s_off a).

Fixpoint pairwiseDisjoint (ms : list section_t) : bool :=
  match ms with
  | [] => true
  | a :: rest => forallb (disjointSpans a) rest && pairwiseDisjoint rest
  end.

(** ** Tokenizer and intra-line refinement *)

(** [changedLines] of [blockDiff1] and of [blockDiff2]. *)
Definition ChangedPair : Type := list diffLine * list diffLine.

(** The block a [diffInfo*] of [compareLines] points to: [false] is
    [blockDiff1], [true] is [blockDiff2]. *)
Definition changedOn (side : bool) (st : ChangedPair) : list diffLine :=
  if side then st.2 else st.1.

Definition setChangedOn (side : bool) (cl : list diffLine) (st : ChangedPair) : ChangedPair :=
  if side then (st.1, cl) else (cl, st.2).

(** [p->info.changedLines.emplace_back(line)] *)
Definition pushLine (side : bool) (line : Z) (st : ChangedPair) : ChangedPair :=
  setChangedOn side (changedOn side st ++ [ {| dl_line := line; dl_changes := [] |} ]) st.

(** [p->info.changedLines.back().changes.emplace_back(change)]; [back()] of
    an empty vector is undefined. *)
Definition addChange (side : bool) (change : section_t) (st : ChangedPair)
  : option ChangedPair :=
  match last (changedOn side st) with
  | Some dl =>
      Some (setChangedOn side
              (removelast (changedOn side st)
                 ++ [ {| dl_line := dl_line dl; dl_changes := dl_changes dl ++ [change] |} ])
              st)
  | None => None
  end.

(** [p->info.changedLines.pop_back()]; undefined on an empty vector. *)
Definition popLine (side : bool) (st : ChangedPair) : option ChangedPair :=
  match changedOn side st with
  | [] => None
  | cl => Some (setChangedOn side (removelast cl) st)
  end.

(** The outcome of the char-level refinement of a substitution: the two
    [++i; continue] exits and the fall-through. *)
Inductive Refinement :=
| MatchWhole (st : ChangedPair) (totalLineMatchLen : Z)
| MatchEnds (st : ChangedPair) (totalLineMatchLen : Z)
| NoRefinement.

Definition isMatch (sd : segment) : bool := eqb_diff_type (sg_type sd) DIFF_MATCH.

(** [while (pSec1[startMatch] == pSec2[startMatch]) ++startMatch;]
    reads both vectors at the same index until the chars differ; running
    off either vector is undefined. *)
Fixpoint startMatchLoop (pSec1 pSec2 : list Char) : option Z :=
  match pSec1, pSec2 with
  | a :: rest1, b :: rest2 =>
      if c_ch a =? c_ch b then Z.succ <$> startMatchLoop rest1 rest2 else Some 0
  | _, _ => None
  end.

(** The [endMatch] loop; the first conjunct of its condition fails after at
    most [|pSec2|] rounds, which [steps] counts. *)
Fixpoint endMatchLoop (steps : nat) (pSec1 pSec2 : list Char) (startMatch endMatch : Z)
  : option Z :=
  match steps with
  | O => Some endMatch
  | S n =>
      if startMatch <? Z.of_nat (length pSec2) - endMatch - 1 then
        a ← vat pSec1 (Z.of_nat (length pSec1) - endMatch - 1);
        b ← vat pSec2 (Z.of_nat (length pSec2) - endMatch - 1);
        if c_ch a =? c_ch b then endMatchLoop n pSec1 pSec2 startMatch (endMatch + 1)
        else Some endMatch
      else Some endMatch
  end.

(** The span from the first to the last word of a word segment. *)
Definition wordSpan (pLine : list Word) (ld : segment) : option section_t :=
  first ← vat pLine (sg_off ld);
  last ← vat pLine (sg_off ld + sg_len ld - 1);
  Some {| s_off := w_pos first; s_len := w_pos last + w_len last - w_pos first |}.

(** The span from the first to the last char of a char segment. *)
Definition charSpan (pSec : list Char) (off : Z) (sd : segment) : option section_t :=
  first ← vat pSec (sg_off sd);
  last ← vat pSec (sg_off sd + sg_len sd - 1);
  Some {| s_off := c_pos first + off; s_len := c_pos last + off + 1 - (c_pos first + off) |}.

(** [for (j = 0; j < ld.len; ++j) totalLineMatchLen += pLine1[ld.off + j].len] *)
Fixpoint addWordLens (pLine1 : list Word) (js : list Z) (off total : Z) : option Z :=
  match js with
  | [] => Some total
  | j :: rest =>
      w ← vat pLine1 (off + j);
      addWordLens pLine1 rest off (total + w_len w)
  end.

(** The sides of a substitution after the char-level diff. *)
Record SubstSides := {
  ss_pSec1 : list Char; ss_pSec2 : list Char; ss_diffs : list segment;
  ss_pBD1 : bool; ss_pBD2 : bool;
  ss_off1 : Z; ss_end1 : Z; ss_off2 : Z; ss_end2 : Z
}.

(** [matchLen] of lines 730-740: the summed lengths of the MATCH segments. *)
Definition charMatchLen (sectionDiffs : list segment) : Z :=
  foldr (fun sd acc => sg_len sd + acc) 0 (List.filter isMatch sectionDiffs).




Section Realign.
(** Parameters: the [float] arithmetic of the platform, the LCS engine
    [DiffCalc] of diff.h at word and at char granularity (the segments
    and the [swapped] flag), and [IsCharAlphaNumericA] of the host. *)
Variable F : Type.
Variable F_of_int : Z -> F.
Variables Fadd Fmul Fdiv : F -> F -> F.
Variables Fltb Feqb Fleb : F -> F -> bool.
Variable DiffCalcWord : list Word -> list Word -> list segment * bool.
Variable DiffCalcChar : list Char -> list Char -> list segment * bool.
Variable IsCharAlphaNumericA : Z -> bool.

Definition getCharType (letter : Z) : charType :=
  if (letter =? 32) || (letter =? 9) then SPACECHAR
  else if IsCharAlphaNumericA letter || (letter =? 95) then ALPHANUMCHAR
  else OTHERCHAR.

Definition eqb_charType (a b : charType) : bool :=
  match a, b with
  | SPACECHAR, SPACECHAR | ALPHANUMCHAR, ALPHANUMCHAR | OTHERCHAR, OTHERCHAR => true
  | _, _ => false
  end.

Definition getSectionChars (v : View) (secStart secEnd : Z) (options : CompareOptions)
  : list Char :=
  if secEnd - secStart =? 0 then []
  else
    let line := getText v secStart secEnd in
    let lineLen := (length line - 1)%nat in
    let line := if ignoreCase options then toLowerCase line else line in
    omap (fun ic : nat * Z =>
            if negb (ignoreSpaces options)
               || negb (eqb_charType (getCharType ic.2) SPACECHAR)
            then Some {| c_ch := ic.2; c_pos := Z.of_nat ic.1 |} else None)
         (imap pair (take lineLen line)).

Definition getChars (doc : DocCmpInfo) (lineOffset linesCount : Z)
    (options : CompareOptions) : option (list (list Char)) :=
  mapM (fun lineNum =>
          l ← vat (lines doc) (lineNum + lineOffset);
          let docLineStart := getLineStart (view doc) (ln_line l) in
          let docLineEnd := getLineEnd (view doc) (ln_line l) in
          Some (if docLineEnd - docLineStart =? 0 then []
                else getSectionChars (view doc) docLineStart docLineEnd options))
       (seqZ 0 linesCount).

(** The loop of [getLineWords] over [i = 1 .. lineLen - 1]. *)
Fixpoint wordsLoop (options : CompareOptions) (rest : list (nat * Z))
    (currentWordType : charType) (word : Word) (words : list Word) : list Word :=
  match rest with
  | [] =>
      if negb (ignoreSpaces options) || negb (eqb_charType currentWordType SPACECHAR)
      then words ++ [word] else words
  | (i, c) :: rest' =>
      let newWordType := getCharType c in
      if eqb_charType newWordType currentWordType then
        wordsLoop options rest' currentWordType
          {| w_pos := w_pos word; w_len := w_len word + 1; w_hash := Hash (w_hash word) c |}
          words
      else
        let words' :=
          if negb (ignoreSpaces options) || negb (eqb_charType currentWordType SPACECHAR)
          then words ++ [word] else words in
        wordsLoop options rest' newWordType
          {| w_pos := Z.of_nat i; w_len := 1; w_hash := Hash cHashSeed c |} words'
  end.

Definition getLineWords (v : View) (lineNum : Z) (options : CompareOptions) : list Word :=
  let docLineStart := getLineStart v lineNum in
  let docLineEnd := getLineEnd v lineNum in
  if docLineEnd - docLineStart =? 0 then []
  else
    let line := getText v docLineStart docLineEnd in
    let lineLen := (length line - 1)%nat in
    let line := if ignoreCase options then toLowerCase line else line in
    let c0 := default 0 (head line) in
    wordsLoop options (drop 1 (imap pair (take lineLen line))) (getCharType c0)
      {| w_pos := 0; w_len := 1; w_hash := Hash cHashSeed c0 |} [].

Section ComparePair.
Variable options : CompareOptions.
(** The sides after the word-level swap: the two views, the start of
    the two lines in them, the two word sequences and the blocks behind
    [pBlockDiff1] and [pBlockDiff2]. *)
Variables (pView1 pView2 : View) (lineOff1 lineOff2 : Z).
Variables (pLine1 pLine2 : list Word).
Variables (pBlockDiff1 pBlockDiff2 : bool).
Variable lineDiffsSize : Z.

(** Lines 750-770: the residual char spans of a refined substitution. *)
Fixpoint charSegLoop (pSec1 pSec2 : list Char) (off1 off2 : Z) (pBD1 pBD2 : bool)
    (sectionDiffs : list segment) (st : ChangedPair) : option ChangedPair :=
  match sectionDiffs with
  | [] => Some st
  | sd :: rest =>
      match sg_type sd with
      | DIFF_IN_1 =>
          change ← charSpan pSec1 off1 sd;
          st' ← addChange pBD1 change st;
          charSegLoop pSec1 pSec2 off1 off2 pBD1 pBD2 rest st'
      | DIFF_IN_2 =>
          change ← charSpan pSec2 off2 sd;
          st' ← addChange pBD2 change st;
          charSegLoop pSec1 pSec2 off1 off2 pBD1 pBD2 rest st'
      | DIFF_MATCH => charSegLoop pSec1 pSec2 off1 off2 pBD1 pBD2 rest st
      end
  end.

(** Lines 780-823: only the common beginning and end of the two char
    sequences are taken as matching. *)
Definition matchEnds (pSec1 pSec2 : list Char) (off1 end1 off2 end2 : Z)
    (pBD1 pBD2 : bool) (st : ChangedPair) (totalLineMatchLen : Z) : option Refinement :=
  startMatch ← startMatchLoop pSec1 pSec2;
  endMatch ← endMatchLoop (length pSec2) pSec1 pSec2 startMatch 0;
  if negb (startMatch =? 0) || negb (endMatch =? 0) then
    let side (pSec : list Char) (off end_ : Z) (pBD : bool) (st : ChangedPair) :=
      changeOff ←
        (if negb (startMatch =? 0)
         then c ← vat pSec (startMatch - 1); Some (off + (c_pos c + 1))
         else Some off);
      changeEnd ←
        (if negb (endMatch =? 0)
         then c ← vat pSec (Z.of_nat (length pSec) - endMatch - 1); Some (c_pos c + 1 + off)
         else Some end_);
      if 0 <? changeEnd - changeOff
      then addChange pBD {| s_off := changeOff; s_len := changeEnd - changeOff |} st
      else Some st in
    st1 ← side pSec1 off1 end1 pBD1 st;
    st2 ← side pSec2 off2 end2 pBD2 st1;
    Some (MatchEnds st2 (totalLineMatchLen + startMatch + endMatch))
  else Some NoRefinement.

(** Lines 691-726: the two char sequences of the IN_1 word segment
    [ld] and of the IN_2 word segment [ld2] that follows it, their
    char diff, and the sides after the swap the engine reports. *)
Definition substitutionSides (ld ld2 : segment) : option SubstSides :=
  span1 ← wordSpan pLine1 ld;
  span2 ← wordSpan pLine2 ld2;
  let off1 := s_off span1 in
  let end1 := s_off span1 + s_len span1 in
  let off2 := s_off span2 in
  let end2 := s_off span2 + s_len span2 in
  let sec1 := getSectionChars pView1 (off1 + lineOff1) (end1 + lineOff1) options in
  let sec2 := getSectionChars pView2 (off2 + lineOff2) (end2 + lineOff2) options in
  let '(sectionDiffs, swapped) := DiffCalcChar sec1 sec2 in
  Some (if swapped
        then {| ss_pSec1 := sec2; ss_pSec2 := sec1; ss_diffs := sectionDiffs;
                ss_pBD1 := pBlockDiff2; ss_pBD2 := pBlockDiff1;
                ss_off1 := off2; ss_end1 := end2; ss_off2 := off1; ss_end2 := end1 |}
        else {| ss_pSec1 := sec1; ss_pSec2 := sec2; ss_diffs := sectionDiffs;
                ss_pBD1 := pBlockDiff1; ss_pBD2 := pBlockDiff2;
                ss_off1 := off1; ss_end1 := end1; ss_off2 := off2; ss_end2 := end2 |}).

(** Lines 730-824: the decision on the char diff. The product
    [matchLen * 100] is divided as a [size_t]; [matchLen] is a sum of
    segment lengths. *)
Definition refineSubstitution (ld ld2 : segment) (st : ChangedPair)
    (totalLineMatchLen : Z) : option Refinement :=
  ss ← substitutionSides ld ld2;
  let matchLen := charMatchLen (ss_diffs ss) in
  let matchSections := length (List.filter isMatch (ss_diffs ss)) in
  if negb (matchSections =? 0)%nat then
    if (length (ss_pSec1 ss) =? 0)%nat then None
    else if matchPercentThreshold options
              <=? (matchLen * 100) `quot` Z.of_nat (length (ss_pSec1 ss))
    then
      st' ← charSegLoop (ss_pSec1 ss) (ss_pSec2 ss) (ss_off1 ss) (ss_off2 ss)
              (ss_pBD1 ss) (ss_pBD2 ss) (ss_diffs ss) st;
      Some (MatchWhole st' (totalLineMatchLen + matchLen))
    else matchEnds (ss_pSec1 ss) (ss_pSec2 ss) (ss_off1 ss) (ss_end1 ss)
           (ss_off2 ss) (ss_end2 ss) (ss_pBD1 ss) (ss_pBD2 ss) st totalLineMatchLen
  else Some NoRefinement.

(** The loop over the word segments (lines 667-838). *)
Fixpoint wordSegLoop (lineDiffs : list segment) (st : ChangedPair)
    (totalLineMatchLen : Z) : option (ChangedPair * Z) :=
  match lineDiffs with
  | [] => Some (st, totalLineMatchLen)
  | ld :: rest =>
      let wholeSpan :=
        change ← wordSpan pLine1 ld;
        st' ← addChange pBlockDiff1 change st;
        wordSegLoop rest st' totalLineMatchLen in
      match sg_type ld with
      | DIFF_MATCH =>
          total ← addWordLens pLine1 (seqZ 0 (sg_len ld)) (sg_off ld) totalLineMatchLen;
          wordSegLoop rest st total
      | DIFF_IN_2 =>
          change ← wordSpan pLine2 ld;
          st' ← addChange pBlockDiff2 change st;
          wordSegLoop rest st' totalLineMatchLen
      | DIFF_IN_1 =>
          match rest with
          | ld2 :: rest' =>
              if charPrecision options && eqb_diff_type (sg_type ld2) DIFF_IN_2 then
                r ← refineSubstitution ld ld2 st totalLineMatchLen;
                match r with
                | MatchWhole st' total | MatchEnds st' total => wordSegLoop rest' st' total
                | NoRefinement =>
                    if lineDiffsSize =? 2 then Some (st, totalLineMatchLen) else wholeSpan
                end
              else wholeSpan
          | [] => wholeSpan
          end
      end
  end.
End ComparePair.

(** One round of the loop of [compareLines] (lines 614-845), for the
    mapping of [line1] to [line2]. *)
Definition comparePairBody (doc1 doc2 : DocCmpInfo) (off1 off2 : Z)
    (options : CompareOptions) (line1 line2 : Z) (st : ChangedPair)
  : option (ChangedPair * Z * Z * bool) :=
  l1 ← vat (lines doc1) (off1 + line1);
  l2 ← vat (lines doc2) (off2 + line2);
  let lineWords1 := getLineWords (view doc1) (ln_line l1) options in
  let lineWords2 := getLineWords (view doc2) (ln_line l2) options in
  let '(lineDiffs, swapped) := DiffCalcWord lineWords1 lineWords2 in
  let '(pLine1, pLine2, pDoc1, pDoc2, pl1, pl2, line1, line2) :=
    if swapped then (lineWords2, lineWords1, doc2, doc1, l2, l1, line2, line1)
    else (lineWords1, lineWords2, doc1, doc2, l1, l2, line1, line2) in
  let pBlockDiff1 := swapped in
  let pBlockDiff2 := negb swapped in
  let st := pushLine pBlockDiff2 line2 (pushLine pBlockDiff1 line1 st) in
  let lineOff1 := getLineStart (view pDoc1) (ln_line pl1) in
  let lineOff2 := getLineStart (view pDoc2) (ln_line pl2) in
  let lineLen1 := foldr (fun w acc => w_len w + acc) 0 pLine1 in
  let lineLen2 := foldr (fun w acc => w_len w + acc) 0 pLine2 in
  '(st, totalLineMatchLen) ←
    wordSegLoop options (view pDoc1) (view pDoc2) lineOff1 lineOff2 pLine1 pLine2
      pBlockDiff1 pBlockDiff2 (Z.of_nat (length lineDiffs)) lineDiffs st 0;
  Some (st, totalLineMatchLen, Z.max lineLen1 lineLen2, pBlockDiff1).

(** Lines 840-845: the whole-line reject. A division by zero is
    undefined. *)
Definition comparePair (doc1 doc2 : DocCmpInfo) (off1 off2 : Z)
    (options : CompareOptions) (line1 line2 : Z) (st : ChangedPair) : option ChangedPair :=
  '(st', totalLineMatchLen, maxLineLen, pBlockDiff1) ←
    comparePairBody doc1 doc2 off1 off2 options line1 line2 st;
  if maxLineLen =? 0 then None
  else if (totalLineMatchLen * 100) `quot` maxLineLen <? matchPercentThreshold options then
    st'' ← popLine pBlockDiff1 st';
    popLine (negb pBlockDiff1) st''
  else Some st'.

(** [compareLines]: [lineMappings] is the [std::map] in key order, each
    entry a [line1] with its convergence and [line2]. *)
Fixpoint compareLines (doc1 doc2 : DocCmpInfo) (off1 off2 : Z) (options : CompareOptions)
    (lineMappings : list (Z * (F * Z))) (lastLine2 : Z) (st : ChangedPair)
  : option ChangedPair :=
  match lineMappings with
  | [] => Some st
  | lm :: rest =>
      if lm.2.2 <=? lastLine2 then compareLines doc1 doc2 off1 off2 options rest lastLine2 st
      else
        st' ← comparePair doc1 doc2 off1 off2 options lm.1 lm.2.2 st;
        compareLines doc1 doc2 off1 off2 options rest lm.2.2 st'
  end.
(** *** Block re-aligner *)

Record conv_key := { convergence : F; ck_line1 : Z; ck_line2 : Z }.

(** [conv_key::operator<] *)
Definition conv_key_lt (lhs rhs : conv_key) : bool :=
  Fltb (convergence rhs) (convergence lhs)
  || (Feqb (convergence lhs) (convergence rhs)
      && ((ck_line1 lhs <? ck_line1 rhs)
          || ((ck_line1 lhs =? ck_line1 rhs) && (ck_line2 lhs <? ck_line2 rhs)))).

(** [std::set<conv_key>::emplace]: the set is the list of its elements in
    iteration order; an element equivalent to the new key keeps it
    out. *)
Fixpoint set_emplace (k : conv_key) (s : list conv_key) : list conv_key :=
  match s with
  | [] => [k]
  | x :: rest =>
      if conv_key_lt k x then k :: s
      else if conv_key_lt x k then x :: set_emplace k rest
      else s
  end.

(** [std::map<int, std::pair<float, int>>::emplace]: entries in key
    order; an existing key keeps its entry. *)
Fixpoint map_emplace (k : Z) (v : F * Z) (m : list (Z * (F * Z))) : list (Z * (F * Z)) :=
  match m with
  | [] => [(k, v)]
  | (k', v') :: rest =>
      if k <? k' then (k, v) :: m
      else if k' <? k then (k', v') :: map_emplace k v rest
      else m
  end.

(** Lines 915-923. *)
Definition lineConvergenceOf (lineDiffs : list segment) (maxSize : Z) : F :=
  let lineConvergence :=
    fold_left (fun acc ld => if isMatch ld then Fadd acc (F_of_int (sg_len ld)) else acc)
              lineDiffs (F_of_int 0) in
  Fdiv (Fmul lineConvergence (F_of_int 100)) (F_of_int maxSize).

(** Lines 900-926: the pair [(line1, line2)] of two non-empty, unmoved
    lines. *)
Definition considerPair (options : CompareOptions) (line1 line2 : Z)
    (pLine1 pLine2 : list Char) (s : list conv_key) : list conv_key :=
  let minSize := Z.min (Z.of_nat (length pLine1)) (Z.of_nat (length pLine2)) in
  let maxSize := Z.max (Z.of_nat (length pLine1)) (Z.of_nat (length pLine2)) in
  if (minSize * 100) `quot` maxSize <? matchPercentThreshold options then s
  else
    let lineDiffs := (DiffCalcChar pLine1 pLine2).1 in
    let lineConvergence := lineConvergenceOf lineDiffs maxSize in
    if Fleb (F_of_int (matchPercentThreshold options)) lineConvergence
    then set_emplace {| convergence := lineConvergence; ck_line1 := line1; ck_line2 := line2 |} s
    else s.

(** The loop over [line2] (lines 889-927); [steps] is the distance of
    [line2] to [linesCount2], which every round shortens. A [chunk2] read
    outside the vector does not occur: [0 <= line2 < linesCount2]. *)
Fixpoint line2Loop (steps : nat) (options : CompareOptions) (chunk2 : list (list Char))
    (info2 : blockDiffInfo) (line1 : Z) (pLine1 : list Char) (line2 : Z)
    (s : list conv_key) : option (list conv_key) :=
  match steps with
  | O => Some s
  | S n =>
      if line2 <? Z.of_nat (length chunk2) then
        pLine2 ← vat chunk2 line2;
        if (length pLine2 =? 0)%nat
        then line2Loop n options chunk2 info2 line1 pLine1 (line2 + 1) s
        else
          match getNextUnmoved info2 line2 with
          | Some next => line2Loop n options chunk2 info2 line1 pLine1 next s
          | None =>
              line2Loop n options chunk2 info2 line1 pLine1 (line2 + 1)
                (considerPair options line1 line2 pLine1 pLine2 s)
          end
      else Some s
  end.

(** The loop over [line1] (lines 878-928). *)
Fixpoint line1Loop (steps : nat) (options : CompareOptions) (chunk1 chunk2 : list (list Char))
    (info1 info2 : blockDiffInfo) (line1 : Z) (s : list conv_key)
  : option (list conv_key) :=
  match steps with
  | O => Some s
  | S n =>
      if line1 <? Z.of_nat (length chunk1) then
        pLine1 ← vat chunk1 line1;
        if (length pLine1 =? 0)%nat
        then line1Loop n options chunk1 chunk2 info1 info2 (line1 + 1) s
        else
          match getNextUnmoved info1 line1 with
          | Some next => line1Loop n options chunk1 chunk2 info1 info2 next s
          | None =>
              s' ← line2Loop (length chunk2) options chunk2 info2 line1 pLine1 0 s;
              line1Loop n options chunk1 chunk2 info1 info2 (line1 + 1) s'
          end
      else Some s
  end.

Definition orderedLinesConvergence (options : CompareOptions)
    (chunk1 chunk2 : list (list Char)) (info1 info2 : blockDiffInfo)
  : option (list conv_key) :=
  line1Loop (length chunk1) options chunk1 chunk2 info1 info2 0 [].

(** Lines 943-955: one greedy walk from [startItr] on. The state is
    [lineMappings], the two [vector<bool>] and the two counters. *)
Fixpoint greedyWalk (linesCount1 linesCount2 : Z) (walk : list conv_key)
    (lineMappings : list (Z * (F * Z))) (mappedLines1 mappedLines2 : list bool)
    (mappedLinesCount1 mappedLinesCount2 : Z) : option (list (Z * (F * Z))) :=
  match walk with
  | [] => Some lineMappings
  | oc :: rest =>
      m1 ← vat mappedLines1 (ck_line1 oc);
      m2 ← vat mappedLines2 (ck_line2 oc);
      if negb m1 && negb m2 then
        let lineMappings :=
          map_emplace (ck_line1 oc) (convergence oc, ck_line2 oc) lineMappings in
        if mappedLinesCount1 + 1 =? linesCount1 then Some lineMappings
        else if mappedLinesCount2 + 1 =? linesCount2 then Some lineMappings
        else
          greedyWalk linesCount1 linesCount2 rest lineMappings
            (<[Z.to_nat (ck_line1 oc) := true]> mappedLines1)
            (<[Z.to_nat (ck_line2 oc) := true]> mappedLines2)
            (mappedLinesCount1 + 1) (mappedLinesCount2 + 1)
      else
        greedyWalk linesCount1 linesCount2 rest lineMappings mappedLines1 mappedLines2
          mappedLinesCount1 mappedLinesCount2
  end.

Definition greedyRun (linesCount1 linesCount2 : Z) (walk : list conv_key)
  : option (list (Z * (F * Z))) :=
  greedyWalk linesCount1 linesCount2 walk []
    (replicate (Z.to_nat linesCount1) false) (replicate (Z.to_nat linesCount2) false) 0 0.

(** Lines 957-968: the score of an assignment. *)
Fixpoint blockConvergence (lineMappings : list (Z * (F * Z)))
    (currentBlockConvergence : F) (lastLine2 : Z) : F :=
  match lineMappings with
  | [] => currentBlockConvergence
  | lm :: rest =>
      if lastLine2 <? lm.2.2
      then blockConvergence rest (Fadd currentBlockConvergence lm.2.1) lm.2.2
      else blockConvergence rest currentBlockConvergence lastLine2
  end.

Definition scoreOf (lineMappings : list (Z * (F * Z))) : F :=
  blockConvergence lineMappings (F_of_int 0) (-1).

(** Lines 970-974. *)
Definition keepBetter (best : F * list (Z * (F * Z))) (lineMappings : list (Z * (F * Z)))
  : F * list (Z * (F * Z)) :=
  if Fltb best.1 (scoreOf lineMappings) then (scoreOf lineMappings, lineMappings) else best.

(** Lines 933-975: [startItr] runs over the set; [from] is the part of
    the set from [startItr] on. *)
Fixpoint searchLoop (linesCount1 linesCount2 : Z) (from : list conv_key)
    (best : F * list (Z * (F * Z))) : option (F * list (Z * (F * Z))) :=
  match from with
  | [] => Some best
  | _ :: rest =>
      lineMappings ← greedyRun linesCount1 linesCount2 from;
      searchLoop linesCount1 linesCount2 rest (keepBetter best lineMappings)
  end.

Definition bestLineMappings (linesCount1 linesCount2 : Z) (s : list conv_key)
  : option (list (Z * (F * Z))) :=
  snd <$> searchLoop linesCount1 linesCount2 s (F_of_int 0, []).

(** [compareBlocks] on the pair of blocks [blockDiff1], [blockDiff2]; the
    state is the [changedLines] of the two. *)
Definition compareBlocks (doc1 doc2 : DocCmpInfo) (blockDiff1 blockDiff2 : diffInfo)
    (options : CompareOptions) : option ChangedPair :=
  chunk1 ← getChars doc1 (d_off blockDiff1) (d_len blockDiff1) options;
  chunk2 ← getChars doc2 (d_off blockDiff2) (d_len blockDiff2) options;
  let linesCount1 := Z.of_nat (length chunk1) in
  let linesCount2 := Z.of_nat (length chunk2) in
  s ← orderedLinesConvergence options chunk1 chunk2 (d_info blockDiff1) (d_info blockDiff2);
  best ← bestLineMappings linesCount1 linesCount2 s;
  let st := (changedLines (d_info blockDiff1), changedLines (d_info blockDiff2)) in
  if (length best =? 0)%nat then Some st
  else compareLines doc1 doc2 (d_off blockDiff1) (d_off blockDiff2) options best (-1) st.

Definition linkBlock (d : diffInfo) (partner : nat) (cl : list diffLine) : diffInfo :=
  {| d_type := d_type d; d_off := d_off d; d_len := d_len d;
     d_info := {| matchBlock := Some partner; changedLines := cl;
                  moves := moves (d_info d) |} |}.

(** The loop "Do block compares" of [runCompare], from block [i] on. The
    flag is [false] when the progress dialog cancelled the run. *)
Fixpoint blockCompareLoop (idxs : list nat) (cmpInfo : CompareInfo) (options : CompareOptions)
    (progress : Progress) : option (CompareInfo * bool) :=
  match idxs with
  | [] => Some (cmpInfo, true)
  | i :: rest =>
      blockDiff2 ← blockDiffs cmpInfo !! i;
      blockDiff1 ← blockDiffs cmpInfo !! (i - 1)%nat;
      cmpInfo' ←
        (if eqb_diff_type (d_type blockDiff2) DIFF_IN_2
            && eqb_diff_type (d_type blockDiff1) DIFF_IN_1
         then
           let blockDiff1 := linkBlock blockDiff1 i (changedLines (d_info blockDiff1)) in
           let blockDiff2 := linkBlock blockDiff2 (i - 1)%nat (changedLines (d_info blockDiff2)) in
           st ← compareBlocks (doc1 cmpInfo) (doc2 cmpInfo) blockDiff1 blockDiff2 options;
           Some {| doc1 := doc1 cmpInfo; doc2 := doc2 cmpInfo;
                   blockDiffs := <[i := linkBlock blockDiff2 (i - 1)%nat st.2]>
                                   (<[(i - 1)%nat := linkBlock blockDiff1 i st.1]>
                                      (blockDiffs cmpInfo)) |}
         else Some cmpInfo);
      let '(go, progress') := poll progress in
      if negb go then Some (cmpInfo', false)
      else blockCompareLoop rest cmpInfo' options progress'
  end.

Definition compareAllBlocks (cmpInfo : CompareInfo) (options : CompareOptions)
    (progress : Progress) : option (CompareInfo * bool) :=
  blockCompareLoop (seq 1 (length (blockDiffs cmpInfo) - 1)) cmpInfo options progress.
End Realign.

Arguments compareLines {F}.
Arguments Build_conv_key {F} _ _ _.
Arguments convergence {F}.
Arguments ck_line1 {F}.
Arguments ck_line2 {F}.
Arguments conv_key_lt {F}.
Arguments set_emplace {F}.
Arguments map_emplace {F}.
Arguments lineConvergenceOf {F}.
Arguments considerPair {F}.
Arguments line2Loop {F}.
Arguments line1Loop {F}.
Arguments orderedLinesConvergence {F}.
Arguments greedyWalk {F}.
Arguments greedyRun {F}.
Arguments blockConvergence {F}.
Arguments scoreOf {F}.
Arguments keepBetter {F}.
Arguments searchLoop {F}.
Arguments bestLineMappings {F}.
Arguments compareBlocks {F}.
Arguments blockCompareLoop {F}.
Arguments compareAllBlocks {F}.

(** What a candidate run satisfies with respect to the two blocks. *)
Definition runInBlocks (lookupDiff matchDiff : diffInfo) (lookupOff : Z) (run : Run) : Prop :=
  1 <= r_len run
  /\ r_lookupStart run <= lookupOff < r_lookupStart run + r_len run
  /\ (0 <= lookupOff -> 0 <= r_lookupStart run)
  /\ (lookupOff < d_len lookupDiff -> r_lookupStart run + r_len run <= d_len lookupDiff)
  /\ 0 <= r_matchStart run
  /\ r_matchStart run + r_len run <= d_len matchDiff.

(** The scan keeps [minMatchLen] at the best length, 1 at least. *)
Definition scanInv (st : MatchInfo * Z) : Prop :=
  0 <= mi_matchLen st.1 /\ st.2 = Z.max 1 (mi_matchLen st.1).

(** The best match, when there is one, is one of the candidate runs. *)
Definition miOfRun (run : Run) : MatchInfo :=
  {| mi_lookupOff := r_lookupStart run; mi_matchDiff := Some (r_diff run);
     mi_matchOff := r_matchStart run; mi_matchLen := r_len run |}.

(** ** Move detector: the moves stay inside their blocks *)

Definition sameBlocks (c c' : CompareInfo) : Prop :=
  doc1 c' = doc1 c /\ doc2 c' = doc2 c
  /\ length (blockDiffs c') = length (blockDiffs c)
  /\ forall k d, blockDiffs c !! k = Some d ->
       exists d', blockDiffs c' !! k = Some d' /\ d_len d' = d_len d /\ d_type d' = d_type d
                  /\ d_off d' = d_off d.

Definition movesOk (c : CompareInfo) : Prop := Forall movesInBounds (blockDiffs c).

(** A match handed to [resolveMatch] for the lookup at [lookupOff] in the
    block [l]. *)
Definition validMatch (c : CompareInfo) (l : nat) (lookupOff : Z) (mi : MatchInfo) : Prop :=
  forall m, mi_matchDiff mi = Some m ->
    exists lb mb,
      blockDiffs c !! l = Some lb /\ blockDiffs c !! m = Some mb
      /\ 1 <= mi_matchLen mi
      /\ 0 <= mi_lookupOff mi
      /\ mi_lookupOff mi <= lookupOff < mi_lookupOff mi + mi_matchLen mi
      /\ mi_lookupOff mi + mi_matchLen mi <= d_len lb
      /\ 0 <= mi_matchOff mi
      /\ mi_matchOff mi + mi_matchLen mi <= d_len mb.

(** ** Sample inputs *)

Definition sampleView (text : list Z) (starts ends : list Z) : View :=
  {| viewId := MAIN_VIEW;
     docLength := Z.of_nat (length text);
     lineCount := Z.of_nat (length starts);
     getLineStart := fun i => default 0 (vat starts i);
     getLineEnd := fun i => default 0 (vat ends i);
     byteAt := fun i => default 0 (vat text i) |}.

Definition sampleOptions (ic isp iel : bool) (thr : Z) : CompareOptions :=
  {| oldFileViewId := MAIN_VIEW; findUniqueMode := false;
     ignoreCase := ic; ignoreSpaces := isp; ignoreEmptyLines := iel;
     detectMoves := true; charPrecision := true; matchPercentThreshold := thr;
     selectionCompare := false; selections := fun _ => (0, 0) |}.

Definition sampleDoc (v : View) (off len : Z) : DocCmpInfo :=
  {| view := v; section := {| s_off := off; s_len := len |};
     blockDiffMask := MARKER_MASK_ADDED; lines := []; nonUniqueLines := ∅ |}.

(** A document given by the hashes of its lines. *)
Definition docOfHashes (hs : list Z) : DocCmpInfo :=
  {| view := sampleView [] [] []; section := {| s_off := 0; s_len := 0 |};
     blockDiffMask := MARKER_MASK_ADDED;
     lines := imap (fun i h => {| ln_line := Z.of_nat i; ln_hash := h |}) hs;
     nonUniqueLines := ∅ |}.

Definition freshBlock (t : diff_type) (off len : Z) : diffInfo :=
  {| d_type := t; d_off := off; d_len := len;
     d_info := {| matchBlock := None; changedLines := []; moves := [] |} |}.

(** Side 1 = A B x y z, side 2 = x y z B A. *)
Definition swappedPair : CompareInfo :=
  {| doc1 := docOfHashes [1; 2; 7; 8; 9];
     doc2 := docOfHashes [7; 8; 9; 2; 1];
     blockDiffs := [freshBlock DIFF_IN_1 0 2; freshBlock DIFF_MATCH 2 3;
                    freshBlock DIFF_IN_2 3 2] |}.

(** Side 1 = K N P a b c P Q d e f, side 2 = a b c d e f K N P Q R. *)
Definition twoSources : CompareInfo :=
  {| doc1 := docOfHashes [11; 12; 13; 1; 2; 3; 13; 14; 4; 5; 6];
     doc2 := docOfHashes [1; 2; 3; 4; 5; 6; 11; 12; 13; 14; 15];
     blockDiffs := [freshBlock DIFF_IN_1 0 3; freshBlock DIFF_MATCH 3 3;
                    freshBlock DIFF_IN_1 6 2; freshBlock DIFF_MATCH 8 3;
                    freshBlock DIFF_IN_2 6 5] |}.

(** Side 1 = x A y, side 2 = A x y A. *)
Definition tiedBlocks : CompareInfo :=
  {| doc1 := docOfHashes [7; 1; 8];
     doc2 := docOfHashes [1; 7; 8; 1];
     blockDiffs := [freshBlock DIFF_IN_2 0 1; freshBlock DIFF_MATCH 0 1;
                    freshBlock DIFF_IN_1 1 1; freshBlock DIFF_MATCH 2 1;
                    freshBlock DIFF_IN_2 3 1] |}.

(** A state of [compareLines] in the middle of a pair: the two lists as
    they were before the pair, each with the entry of the pair at its
    end. *)
Definition pairOpen (before : ChangedPair) (st : ChangedPair) : Prop :=
  exists e1 e2, st = (before.1 ++ [e1], before.2 ++ [e2]).

(** The blocks during the loop "Do block compares": a block without a
    [matchBlock] has no changed lines, and the blocks linked before round
    [i] are neighbours that point at each other and have equally long
    [changedLines]. *)
Definition unlinkedEmpty (bs : list diffInfo) : Prop :=
  forall k d, bs !! k = Some d -> matchBlock (d_info d) = None -> changedLines (d_info d) = [].

Definition linkedInStep (i : nat) (bs : list diffInfo) : Prop :=
  forall k d j, bs !! k = Some d -> matchBlock (d_info d) = Some j ->
    (k < i)%nat /\ (j < i)%nat
    /\ ((d_type d = DIFF_IN_1 /\ j = S k) \/ (d_type d = DIFF_IN_2 /\ k = S j))
    /\ exists d', bs !! j = Some d' /\ matchBlock (d_info d') = Some k
                  /\ length (changedLines (d_info d)) = length (changedLines (d_info d')).

(** An engine answer for two sequences: their common beginning as one MATCH
    segment, the rest of the first as IN_1 and the rest of the second as
    IN_2, never swapped. It is a partition of both inputs, and the answer
    of a longest-common-subsequence engine whenever the two rests share no
    element. *)
Fixpoint commonBeginning {A : Type} (eqb : A -> A -> bool) (a b : list A) : nat :=
  match a, b with
  | x :: a', y :: b' => if eqb x y then S (commonBeginning eqb a' b') else 0%nat
  | _, _ => 0%nat
  end.

Definition beginningEngine {A : Type} (eqb : A -> A -> bool) (a b : list A)
  : list segment * bool :=
  let n := commonBeginning eqb a b in
  let seg t off len :=
    if (len =? 0)%nat then []
    else [ {| sg_type := t; sg_off := Z.of_nat off; sg_len := Z.of_nat len |} ] in
  (seg DIFF_MATCH 0%nat n ++ seg DIFF_IN_1 n (length a - n)%nat
     ++ seg DIFF_IN_2 n (length b - n)%nat, false).

Definition wordEngine : list Word -> list Word -> list segment * bool :=
  beginningEngine (fun a b => w_hash a =? w_hash b).

Definition charEngine : list Char -> list Char -> list segment * bool :=
  beginningEngine (fun a b => c_ch a =? c_ch b).

(** ASCII letters and digits. *)
Definition asciiAlphaNumeric (c : Z) : bool :=
  ((48 <=? c) && (c <=? 57)) || ((65 <=? c) && (c <=? 90)) || ((97 <=? c) && (c <=? 122)).

(** A document of lines given by their bytes, one byte of line end after
    each. *)
Fixpoint lineStarts (start : Z) (ls : list (list Z)) : list Z :=
  match ls with
  | [] => []
  | l :: rest => start :: lineStarts (start + Z.of_nat (length l) + 1) rest
  end.

Definition textView (id : Z) (ls : list (list Z)) : View :=
  let text := flat_map (fun l => l ++ [10]) ls in
  let starts := lineStarts 0 ls in
  let ends := zip_with (fun s l => s + Z.of_nat (length l)) starts ls in
  {| viewId := id;
     docLength := Z.of_nat (length text);
     lineCount := Z.of_nat (length ls);
     getLineStart := fun i => default 0 (vat starts i);
     getLineEnd := fun i => default 0 (vat ends i);
     byteAt := fun i => default 0 (vat text i) |}.

Definition textDoc (id : Z) (ls : list (list Z)) (options : CompareOptions) : DocCmpInfo :=
  (getLines {| view := textView id ls; section := {| s_off := 0; s_len := 0 |};
               blockDiffMask := MARKER_MASK_ADDED; lines := []; nonUniqueLines := ∅ |}
     options None).1.

(** IEEE 754 binary32 with round to nearest even, the [float] of the
    platforms the plugin is built for, as an instance of the [float]
    parameters. *)
Definition f32_of_int (z : Z) : spec_float := binary_normalize 24 128 z 0 false.
Definition f32_add : spec_float -> spec_float -> spec_float := SFadd 24 128.
Definition f32_mul : spec_float -> spec_float -> spec_float := SFmul 24 128.
Definition f32_div : spec_float -> spec_float -> spec_float := SFdiv 24 128.

(** The engine with the sample parameters. *)
Definition sampleCompareAllBlocks :=
  compareAllBlocks f32_of_int f32_add f32_mul f32_div SFltb SFeqb SFleb
    wordEngine charEngine asciiAlphaNumeric.

Definition sampleCompareBlocks :=
  compareBlocks f32_of_int f32_add f32_mul f32_div SFltb SFeqb SFleb
    wordEngine charEngine asciiAlphaNumeric.

(** Side 1 = "abcX", side 2 = "abcY": one removed and one added block. *)
Definition changedLinePair (options : CompareOptions) : CompareInfo :=
  {| doc1 := textDoc MAIN_VIEW [[97; 98; 99; 88]] options;
     doc2 := textDoc SUB_VIEW [[97; 98; 99; 89]] options;
     blockDiffs := [freshBlock DIFF_IN_1 0 1; freshBlock DIFF_IN_2 0 1] |}.

(** Side 1 = "aaaaaaaast", "aaaaaaaaaq"; side 2 = "aaaaaaaaar",
    "aaaaaaaauv": every line shares a beginning of 8 or 9 of its 10 chars
    with every line of the other side. *)
Definition crossedLines1 : list (list Z) :=
  [ [97; 97; 97; 97; 97; 97; 97; 97; 115; 116]; [97; 97; 97; 97; 97; 97; 97; 97; 97; 113] ].

Definition crossedLines2 : list (list Z) :=
  [ [97; 97; 97; 97; 97; 97; 97; 97; 97; 114]; [97; 97; 97; 97; 97; 97; 97; 97; 117; 118] ].

Definition crossedLinePairs (options : CompareOptions) : CompareInfo :=
  {| doc1 := textDoc MAIN_VIEW crossedLines1 options;
     doc2 := textDoc SUB_VIEW crossedLines2 options;
     blockDiffs := [freshBlock DIFF_IN_1 0 2; freshBlock DIFF_IN_2 0 2] |}.

(** Side 1 = "a", side 2 = "b". *)
Definition unrelatedLinePair (options : CompareOptions) : CompareInfo :=
  {| doc1 := textDoc MAIN_VIEW [[97]] options;
     doc2 := textDoc SUB_VIEW [[98]] options;
     blockDiffs := [freshBlock DIFF_IN_1 0 1; freshBlock DIFF_IN_2 0 1] |}.

(** ** The re-aligner in the words of the specification *)

Section RealignSpec.
Variable F : Type.
Variable F_of_int : Z -> F.
Variables Fadd Fmul Fdiv : F -> F -> F.
Variables Fltb Feqb Fleb : F -> F -> bool.
Variable DiffCalcChar : list Char -> list Char -> list segment * bool.

(** What holds of a key of the candidate set. *)
Definition candidateOk (options : CompareOptions) (chunk1 chunk2 : list (list Char))
    (info1 info2 : blockDiffInfo) (k : conv_key F) : Prop :=
  exists pLine1 pLine2,
    vat chunk1 (ck_line1 k) = Some pLine1 /\ vat chunk2 (ck_line2 k) = Some pLine2
    /\ pLine1 <> [] /\ pLine2 <> []
    /\ getNextUnmoved info1 (ck_line1 k) = None
    /\ getNextUnmoved info2 (ck_line2 k) = None
    /\ (let minSize := Z.min (Z.of_nat (length pLine1)) (Z.of_nat (length pLine2)) in
        let maxSize := Z.max (Z.of_nat (length pLine1)) (Z.of_nat (length pLine2)) in
        matchPercentThreshold options <= (minSize * 100) `quot` maxSize
        /\ convergence k
           = Fdiv (Fmul (fold_left Fadd
                           (map (fun ld => F_of_int (sg_len ld))
                                (List.filter isMatch (DiffCalcChar pLine1 pLine2).1))
                           (F_of_int 0))
                        (F_of_int 100))
                  (F_of_int maxSize))
    /\ Fleb (F_of_int (matchPercentThreshold options)) (convergence k) = true.

(** "Highest convergence first, ties broken by the smallest indices". *)
Definition keyBefore (a b : conv_key F) : Prop :=
  Fltb (convergence b) (convergence a) = true
  \/ (Feqb (convergence a) (convergence b) = true
      /\ (ck_line1 a < ck_line1 b \/ (ck_line1 a = ck_line1 b /\ ck_line2 a < ck_line2 b))).

(** Two [float]s that [<] orders in neither direction and that [==]
    does not equate, as a NaN and any value. *)
Definition unordered (a b : F) : Prop :=
  Fltb a b = false /\ Fltb b a = false /\ (Feqb a b = false \/ Feqb b a = false).

(** The key of the pair is in the set, or a key of the set holds a
    convergence that is unordered with the pair's. *)
Definition present (c : F) (line1 line2 : Z) (s : list (conv_key F)) : Prop :=
  In {| convergence := c; ck_line1 := line1; ck_line2 := line2 |} s
  \/ exists x, In x s /\ unordered c (convergence x).

(** The starting elements of the search, each with the rest of the set
    behind it. *)
Fixpoint startingPoints (s : list (conv_key F)) : list (list (conv_key F)) :=
  match s with
  | [] => []
  | _ :: rest => s :: startingPoints rest
  end.

(** "Accept the first candidate whose lines are both still free; stop
    when either side is exhausted." *)
Fixpoint greedySpec (linesCount1 linesCount2 : Z) (walk : list (conv_key F))
    (accepted : list (conv_key F)) : list (conv_key F) :=
  match walk with
  | [] => accepted
  | oc :: rest =>
      if forallb (fun a => negb (ck_line1 a =? ck_line1 oc)) accepted
         && forallb (fun a => negb (ck_line2 a =? ck_line2 oc)) accepted
      then
        let accepted' := accepted ++ [oc] in
        if (Z.of_nat (length accepted') =? linesCount1)
           || (Z.of_nat (length accepted') =? linesCount2)
        then accepted'
        else greedySpec linesCount1 linesCount2 rest accepted'
      else greedySpec linesCount1 linesCount2 rest accepted
  end.

(** The accepted pairs as the map from [line1]. *)
Definition mappingOf (accepted : list (conv_key F)) : list (Z * (F * Z)) :=
  fold_left (fun m a => map_emplace (ck_line1 a) (convergence a, ck_line2 a) m) accepted [].

(** "Drop any pair whose [line2] is not larger than the previous
    accepted's." *)
Fixpoint increasingOnLine2 (lineMappings : list (Z * (F * Z))) (lastLine2 : Z)
  : list (Z * (F * Z)) :=
  match lineMappings with
  | [] => []
  | lm :: rest =>
      if lastLine2 <? lm.2.2 then lm :: increasingOnLine2 rest lm.2.2
      else increasingOnLine2 rest lastLine2
  end.

Definition spec_score (lineMappings : list (Z * (F * Z))) : F :=
  fold_left Fadd (map (fun lm : Z * (F * Z) => lm.2.1) (increasingOnLine2 lineMappings (-1)))
            (F_of_int 0).

(** The two [vector<bool>] and the counters of a walk, against the list
    of the pairs accepted so far. *)
Definition walkInv (accepted : list (conv_key F)) (lineMappings : list (Z * (F * Z)))
    (mappedLines1 mappedLines2 : list bool) (c1 c2 : Z) : Prop :=
  lineMappings = mappingOf accepted
  /\ c1 = Z.of_nat (length accepted) /\ c2 = Z.of_nat (length accepted)
  /\ (forall i b, vat mappedLines1 i = Some b ->
        b = existsb (fun a => ck_line1 a =? i) accepted)
  /\ (forall i b, vat mappedLines2 i = Some b ->
        b = existsb (fun a => ck_line2 a =? i) accepted).
End RealignSpec.

Arguments candidateOk {F}.
Arguments keyBefore {F}.
Arguments unordered {F}.
Arguments present {F}.
Arguments startingPoints {F}.
Arguments greedySpec {F}.
Arguments mappingOf {F}.
Arguments increasingOnLine2 {F}.
Arguments spec_score {F}.
Arguments walkInv {F}.

(** ** Notions for the further properties *)

(** The bytes of a line as the tokenizer sees them: case-folded when
    [ignoreCase] is set. *)
Definition foldedBytes (v : View) (options : CompareOptions) (startPos endPos : Z) : list Z :=
  let raw := map (byteAt v) (seqZ startPos (endPos - startPos)) in
  if ignoreCase options then toLowerCase raw else raw.

(** A tiling of the bytes [B] from position [from] on into words: each word
    is a maximal run of one char class, starts where the one before ends,
    and carries the hash of its bytes. *)
Inductive tiles (cls : Z -> charType) (B : list Z) : Z -> list Word -> Prop :=
| tiles_end : tiles cls B (Z.of_nat (length B)) []
| tiles_word (w : Word) (rest : list Word) (t : charType) :
    1 <= w_len w ->
    0 <= w_pos w ->
    (forall i, w_pos w <= i < w_pos w + w_len w -> cls <$> vat B i = Some t) ->
    cls <$> vat B (w_pos w + w_len w) <> Some t ->
    w_hash w
    = fold_left Hash (take (Z.to_nat (w_len w)) (drop (Z.to_nat (w_pos w)) B)) cHashSeed ->
    tiles cls B (w_pos w + w_len w) rest ->
    tiles cls B (w_pos w) (w :: rest).

(** The words the tokenizer keeps: all of them, or those that are not
    blank when [ignoreSpaces] is set. *)
Definition keptWord (cls : Z -> charType) (options : CompareOptions) (B : list Z) (w : Word)
  : bool :=
  negb (ignoreSpaces options)
  || negb (match cls <$> vat B (w_pos w) with Some SPACECHAR => true | _ => false end).

(** The total length of a list of words. *)
Definition wordsLen (ws : list Word) : Z := fold_right (fun w n => w_len w + n) 0 ws.

(** A char the char extractor keeps. *)
Definition keptChar (cls : Z -> charType) (options : CompareOptions) (ch : Z) : bool :=
  negb (ignoreSpaces options)
  || negb (match cls ch with SPACECHAR => true | _ => false end).

(** A sample line: "ab  c_1+" followed by a line end. *)
Definition sampleLineView : View := textView MAIN_VIEW [[97; 98; 32; 32; 99; 95; 49; 43]].

(** ** [findUniqueLines] *)

(** Lines 586-598: one line of [doc2]. The vectors of [doc1LinesMap] are
    read at index 0; every vector of the map holds at least the line it was
    created with. *)
Definition findUniqueStep (doc1LinesMap : gmap Z (list Z)) (st : gset Z * gset Z) (line : Line)
  : option (gset Z * gset Z) :=
  let '(nonUnique1, nonUnique2) := st in
  match doc1LinesMap !! ln_hash line with
  | None => Some (nonUnique1, nonUnique2)
  | Some second =>
      let nonUnique2 := {[ln_line line]} ∪ nonUnique2 in
      first ← vat second 0;
      if bool_decide (first ∈ nonUnique1) then Some (nonUnique1, nonUnique2)
      else
        Some (fold_left (fun s l => {[l]} ∪ s) (drop 1 second) ({[first]} ∪ nonUnique1),
              nonUnique2)
  end.

Fixpoint findUniqueLoop (doc1LinesMap : gmap Z (list Z)) (ls : list Line) (st : gset Z * gset Z)
  : option (gset Z * gset Z) :=
  match ls with
  | [] => Some st
  | line :: rest => st' ← findUniqueStep doc1LinesMap st line; findUniqueLoop doc1LinesMap rest st'
  end.

Definition findUniqueLines (cmpInfo : CompareInfo) : option CompareInfo :=
  let doc1LinesMap := groupLines (lines (doc1 cmpInfo)) in
  st ← findUniqueLoop doc1LinesMap (lines (doc2 cmpInfo))
         (nonUniqueLines (doc1 cmpInfo), nonUniqueLines (doc2 cmpInfo));
  Some {| doc1 := {| view := view (doc1 cmpInfo); section := section (doc1 cmpInfo);
                     blockDiffMask := blockDiffMask (doc1 cmpInfo);
                     lines := lines (doc1 cmpInfo); nonUniqueLines := st.1 |};
          doc2 := {| view := view (doc2 cmpInfo); section := section (doc2 cmpInfo);
                     blockDiffMask := blockDiffMask (doc2 cmpInfo);
                     lines := lines (doc2 cmpInfo); nonUniqueLines := st.2 |};
          blockDiffs := blockDiffs cmpInfo |}.

(** The line numbers of the lines of hash [h], in order. *)
Definition linesOf (h : Z) (ls : list Line) : list Z :=
  map ln_line (List.filter (fun l => ln_hash l =? h) ls).

(** A line of [ls] numbered [n] whose hash occurs among [others]. *)
Definition hasCounterpart (ls others : list Line) (n : Z) : Prop :=
  exists l, In l ls /\ ln_line l = n /\ ln_hash l ∈ hashSet others.

(** A line of [ls] numbered [n] whose hash does not occur among [others]. *)
Definition hasNoCounterpart (ls others : list Line) (n : Z) : Prop :=
  exists l, In l ls /\ ln_line l = n /\ ln_hash l ∉ hashSet others.

(** ** What [findMoves] commits *)

(** The type of the blocks [findBestMatch] looks into for a lookup block
    of type [t]. *)
Definition opposite (t : diff_type) : diff_type :=
  if eqb_diff_type t DIFF_IN_1 then DIFF_IN_2 else DIFF_IN_1.

(** The lines a block of type [t] indexes. *)
Definition sideLines (c : CompareInfo) (t : diff_type) : list Line :=
  if eqb_diff_type t DIFF_IN_1 then lines (doc1 c) else lines (doc2 c).

(** [len] lines from [off1] in the block [lb] and from [off2] in the block
    [mb] are inside their documents and equal as lines, one by one. *)
Definition equalSpans (c : CompareInfo) (lb mb : diffInfo) (off1 off2 len : Z) : Prop :=
  forall j, 0 <= j < len ->
    lineEq (sideLines c (d_type lb)) (d_off lb + off1 + j)
           (sideLines c (d_type mb)) (d_off mb + off2 + j) = true.

(** One commit of [resolveMatch] (lines 509-510): a span is appended to
    the moves of the block [l] and one as long to the moves of the block
    [m]. *)
Inductive commitsPair (c c' : CompareInfo) : Prop :=
| commitsPair_intro (l m : nat) (lb mb : diffInfo) (off1 off2 len : Z) :
    blockDiffs c !! l = Some lb ->
    blockDiffs c !! m = Some mb ->
    d_type lb <> DIFF_MATCH ->
    d_type mb = opposite (d_type lb) ->
    1 <= len ->
    equalSpans c lb mb off1 off2 len ->
    c' = addMove m off2 len (addMove l off1 len c) ->
    commitsPair c c'.

(** A sequence of commits. *)
Inductive commits : CompareInfo -> CompareInfo -> Prop :=
| commits_none c : commits c c
| commits_more c c1 c2 : commitsPair c c1 -> commits c1 c2 -> commits c c2.

(** The summed lengths of the moves of the blocks of type [t]; a line that
    two moves of a block cover counts twice. *)
Definition movedTotal (t : diff_type) (blocks : list diffInfo) : Z :=
  fold_right (fun d n => (if eqb_diff_type (d_type d) t
                          then fold_right (fun mv k => s_len mv + k) 0 (moves (d_info d))
                          else 0) + n) 0 blocks.

(** The move [mv] of the block [d] has a partner: a move as long in a block
    of the other side, over equal lines. *)
Definition hasPartner (c : CompareInfo) (d : diffInfo) (mv : section_t) : Prop :=
  exists m mb mv2,
    blockDiffs c !! m = Some mb
    /\ d_type d <> DIFF_MATCH
    /\ d_type mb = opposite (d_type d)
    /\ In mv2 (moves (d_info mb))
    /\ s_len mv2 = s_len mv
    /\ equalSpans c d mb (s_off mv) (s_off mv2) (s_len mv).

(** The lines of a run are equal, one by one. *)
Definition runEqual (pL pM : list Line) (lookupDiff matchDiff : diffInfo) (run : Run) : Prop :=
  forall j, 0 <= j < r_len run ->
    lineEq pL (d_off lookupDiff + r_lookupStart run + j)
           pM (d_off matchDiff + r_matchStart run + j) = true.

(** A match handed to [resolveMatch] for a lookup in the block [l]: the
    two blocks are of opposite sides and the two spans hold equal lines. *)
Definition goodMatch (c : CompareInfo) (l : nat) (mi : MatchInfo) : Prop :=
  forall m, mi_matchDiff mi = Some m ->
    exists lb mb,
      blockDiffs c !! l = Some lb /\ blockDiffs c !! m = Some mb
      /\ d_type lb <> DIFF_MATCH
      /\ d_type mb = opposite (d_type lb)
      /\ 1 <= mi_matchLen mi
      /\ equalSpans c lb mb (mi_lookupOff mi) (mi_matchOff mi) (mi_matchLen mi).

(** From [c] to [c'] nothing changes but the moves of blocks that are not
    matches, which are extended at their end. *)
Definition onlyMovesGrow (c c' : CompareInfo) : Prop :=
  doc1 c' = doc1 c /\ doc2 c' = doc2 c
  /\ length (blockDiffs c') = length (blockDiffs c)
  /\ forall k d, blockDiffs c !! k = Some d ->
       exists d', blockDiffs c' !! k = Some d'
                  /\ d_type d' = d_type d /\ d_off d' = d_off d /\ d_len d' = d_len d
                  /\ matchBlock (d_info d') = matchBlock (d_info d)
                  /\ changedLines (d_info d') = changedLines (d_info d)
                  /\ (exists extra, moves (d_info d') = moves (d_info d) ++ extra)
                  /\ (d_type d = DIFF_MATCH -> d' = d).

(** The block [d] with one more move. *)
Definition withMove (off len : Z) (d : diffInfo) : diffInfo :=
  {| d_type := d_type d; d_off := d_off d; d_len := d_len d;
     d_info := {| matchBlock := matchBlock (d_info d);
                  changedLines := changedLines (d_info d);
                  moves := moves (d_info d) ++ [ {| s_off := off; s_len := len |} ] |} |}.

(** No block has a move, as after the line diff. *)
Definition noMoves (c : CompareInfo) : Prop :=
  Forall (fun d => moves (d_info d) = []) (blockDiffs c).

(** ** [toAlignmentLine] *)

(** [front()] and [back()] of an empty vector are undefined. *)
Definition toAlignmentLine (doc : DocCmpInfo) (bdLine : Z) : option Z :=
  if bdLine <? 0 then ln_line <$> head (lines doc)
  else if bdLine <? Z.of_nat (length (lines doc)) then ln_line <$> vat (lines doc) bdLine
  else (fun l => ln_line l + 1) <$> last (lines doc).

(** ** The lines recorded by [compareLines] *)

(** The line indices recorded in the two [changedLines]. *)
Definition linesOfPair (st : ChangedPair) : list Z * list Z :=
  (map dl_line st.1, map dl_line st.2).

(** The pairs [(line1, line2)] of a mapping. *)
Definition pairsOf {F : Type} (lineMappings : list (Z * (F * Z))) : list (Z * Z) :=
  map (fun lm => (lm.1, lm.2.2)) lineMappings.

(** A word engine for the samples that swaps: it takes the shorter
    sequence first, as an engine does that walks its diagonals from the
    shorter side, and reports the swap. *)
Definition swappingWordEngine (a b : list Word) : list segment * bool :=
  if (length b <? length a)%nat then ((wordEngine b a).1, true) else wordEngine a b.

(** Side 1 = "foo bar baz", "x", "foo qux"; side 2 = "y", "foo bar",
    "foo quy". *)
Definition threeLines1 : list (list Z) :=
  [ [102; 111; 111; 32; 98; 97; 114; 32; 98; 97; 122]; [120];
    [102; 111; 111; 32; 113; 117; 120] ].

Definition threeLines2 : list (list Z) :=
  [ [121]; [102; 111; 111; 32; 98; 97; 114]; [102; 111; 111; 32; 113; 117; 121] ].

(** ** The retained assignment *)

(** The candidate of an entry of [lineMappings]. *)
Definition keyOf {F : Type} (lm : Z * (F * Z)) : conv_key F :=
  {| convergence := lm.2.1; ck_line1 := lm.1; ck_line2 := lm.2.2 |}.

(** An assignment is a matching of lines of the two blocks drawn from the
    candidates [s]: its entries ascend strictly by [line1], no [line2]
    occurs twice, and every entry is a candidate whose lines lie inside
    the blocks. *)
Definition matchingWithin {F : Type} (linesCount1 linesCount2 : Z) (s : list (conv_key F))
    (lineMappings : list (Z * (F * Z))) : Prop :=
  StronglySorted Z.lt lineMappings.*1
  /\ NoDup (map (fun lm : Z * (F * Z) => lm.2.2) lineMappings)
  /\ Forall (fun lm => In (keyOf lm) s
                       /\ 0 <= lm.1 < linesCount1 /\ 0 <= lm.2.2 < linesCount2)
            lineMappings.

(** The state of a greedy walk: the assignment so far is a matching and
    its lines are flagged in the two [vector<bool>]. *)
Definition walkState {F : Type} (linesCount1 linesCount2 : Z) (s : list (conv_key F))
    (lineMappings : list (Z * (F * Z))) (mappedLines1 mappedLines2 : list bool) : Prop :=
  matchingWithin linesCount1 linesCount2 s lineMappings
  /\ Forall (fun lm : Z * (F * Z) =>
               vat mappedLines1 lm.1 = Some true /\ vat mappedLines2 lm.2.2 = Some true)
            lineMappings
  /\ length mappedLines1 = Z.to_nat linesCount1
  /\ length mappedLines2 = Z.to_nat linesCount2.

(** ** Marker and alignment emitter *)

(** What the emitter does to the host: [SCI_MARKERADDSET] on a line of a
    view, and [markTextAsChanged] (defined outside Engine.cpp) on a byte
    range of a view. *)
Inductive HostCall :=
| MarkerAdd (vid : Z) (line : Z) (mask : MarkerMask)
| TextChanged (vid : Z) (pos : Z) (len : Z).

Definition withSection (doc : DocCmpInfo) (off len : Z) : DocCmpInfo :=
  {| view := view doc; section := {| s_off := off; s_len := len |};
     blockDiffMask := blockDiffMask doc; lines := lines doc;
     nonUniqueLines := nonUniqueLines doc |}.

(** Lines 1008-1009. *)
Definition blockMark (doc : DocCmpInfo) (docLine : Z) : MarkerMask :=
  if bool_decide (docLine ∈ nonUniqueLines doc) then
    match blockDiffMask doc with
    | MARKER_MASK_ADDED => MARKER_MASK_ADDED_LOCAL
    | _ => MARKER_MASK_REMOVED_LOCAL
    end
  else blockDiffMask doc.

(** The empty [for] of line 999 after its [++i]: the first index from [i]
    on that is at [endOff] or in a move. *)
Fixpoint skipUnmoved (steps : nat) (info : blockDiffInfo) (endOff i : Z) : Z :=
  match steps with
  | O => i
  | S n =>
      if (i <? endOff) && (movedSection info i =? 0)
      then skipUnmoved n info endOff (i + 1) else i
  end.

(** The loop of [markSection]; [line] of the source is [bd.off + i]
    throughout. Every round moves [i] forward, so [fuel] rounds suffice
    from [endOff - fuel] on; [None] is a read outside [doc.lines], or a
    loop left with [i < endOff] for want of fuel. *)
Fixpoint markSectionLoop (fuel : nat) (doc : DocCmpInfo) (bd : diffInfo) (i : Z)
    (calls : list HostCall) : option (list HostCall) :=
  let endOff := s_off (section doc) + s_len (section doc) in
  let vid := viewId (view doc) in
  match fuel with
  | O => if i <? endOff then None else Some calls
  | S n =>
      if i <? endOff then
        l ← vat (lines doc) (d_off bd + i);
        let docLine := ln_line l in
        let movedLen := movedSection (d_info bd) i in
        let movedLen :=
          if s_len (section doc) <? movedLen then s_len (section doc) else movedLen in
        if movedLen =? 0 then
          let i' := skipUnmoved (Z.to_nat (endOff - (i + 1))) (d_info bd) endOff (i + 1) in
          lastLine ← vat (lines doc) (d_off bd + (i' - 1));
          let endDocLine := ln_line lastLine + 1 in
          markSectionLoop n doc bd i'
            (calls ++ map (fun dl => MarkerAdd vid dl (blockMark doc dl))
                          (seqZ docLine (endDocLine - docLine)))
        else if movedLen =? 1 then
          markSectionLoop n doc bd (i + 1) (calls ++ [MarkerAdd vid docLine MARKER_MASK_MOVED_LINE])
        else
          let movedLen := movedLen - 1 in
          let i := i + movedLen in
          lastLine ← vat (lines doc) (d_off bd + i);
          let endDocLine := ln_line lastLine in
          markSectionLoop n doc bd (i + 1)
            (calls ++ [MarkerAdd vid docLine MARKER_MASK_MOVED_BEGIN]
                   ++ map (fun dl => MarkerAdd vid dl MARKER_MASK_MOVED_MID)
                          (seqZ (docLine + 1) (endDocLine - (docLine + 1)))
                   ++ [MarkerAdd vid (Z.max (docLine + 1) endDocLine) MARKER_MASK_MOVED_END])
      else Some calls
  end.

Definition markSection (doc : DocCmpInfo) (bd : diffInfo) : option (list HostCall) :=
  markSectionLoop (Z.to_nat (s_len (section doc))) doc bd (s_off (section doc)) [].

(** One side of [markLineDiffs]. *)
Definition markLineSide (doc : DocCmpInfo) (bd : diffInfo) (lineIdx : Z)
  : option (list HostCall) :=
  cl ← vat (changedLines (d_info bd)) lineIdx;
  l ← vat (lines doc) (d_off bd + dl_line cl);
  let line := ln_line l in
  let linePos := getLineStart (view doc) line in
  Some (map (fun change => TextChanged (viewId (view doc)) (linePos + s_off change)
                             (s_len change))
            (dl_changes cl)
          ++ [MarkerAdd (viewId (view doc)) line
                (if bool_decide (line ∈ nonUniqueLines doc)
                 then MARKER_MASK_CHANGED_LOCAL else MARKER_MASK_CHANGED)]).

(** [markLineDiffs]; following a null [matchBlock] is undefined. *)
Definition markLineDiffs (cmpInfo : CompareInfo) (bd : diffInfo) (lineIdx : Z)
  : option (list HostCall) :=
  calls1 ← markLineSide (doc1 cmpInfo) bd lineIdx;
  m ← matchBlock (d_info bd);
  mb ← blockDiffs cmpInfo !! m;
  calls2 ← markLineSide (doc2 cmpInfo) mb lineIdx;
  Some (calls1 ++ calls2).

(** The state of [markAllDiffs]: [alignLines], the calls made to the host
    and [alignmentInfo]. *)
Record EmitState := {
  e_align1 : Z;
  e_align2 : Z;
  e_calls : list HostCall;
  e_alignment : list AlignmentPair
}.

(** [alignmentInfo.emplace_back(alignPair)] after the four assignments
    through [pMainAlignData] and [pSubAlignData]; [doc1IsSub] tells that
    the two pointers were swapped (lines 1079-1080). A [diffMask] of 0 is
    [None]. *)
Definition alignPairOf (doc1IsSub : bool) (line1 : Z) (mask1 : option MarkerMask)
    (line2 : Z) (mask2 : option MarkerMask) : AlignmentPair :=
  let d1 := {| av_line := line1; av_diffMask := mask1 |} in
  let d2 := {| av_line := line2; av_diffMask := mask2 |} in
  if doc1IsSub then {| ap_main := d2; ap_sub := d1 |} else {| ap_main := d1; ap_sub := d2 |}.

Definition emitPair (cmpInfo : CompareInfo) (doc1IsSub : bool)
    (mask1 mask2 : option MarkerMask) (st : EmitState) : option EmitState :=
  line1 ← toAlignmentLine (doc1 cmpInfo) (e_align1 st);
  line2 ← toAlignmentLine (doc2 cmpInfo) (e_align2 st);
  Some {| e_align1 := e_align1 st; e_align2 := e_align2 st; e_calls := e_calls st;
          e_alignment := e_alignment st ++ [alignPairOf doc1IsSub line1 mask1 line2 mask2] |}.

Definition addCalls (calls : list HostCall) (d1 d2 : Z) (st : EmitState) : EmitState :=
  {| e_align1 := e_align1 st + d1; e_align2 := e_align2 st + d2;
     e_calls := e_calls st ++ calls; e_alignment := e_alignment st |}.

(** Lines 1129-1150 and 1172-1193: the lines of the two blocks between two
    changed lines, or behind the last one. *)
Definition emitResidual (cmpInfo : CompareInfo) (doc1IsSub : bool) (bd mb : diffInfo)
    (off1 len1 off2 len2 : Z) (st : EmitState) : option EmitState :=
  if negb (len1 =? 0) || negb (len2 =? 0) then
    st ← emitPair cmpInfo doc1IsSub
           (if negb (len1 =? 0) then Some (blockDiffMask (doc1 cmpInfo)) else None)
           (if negb (len2 =? 0) then Some (blockDiffMask (doc2 cmpInfo)) else None) st;
    st ← (if negb (len1 =? 0) then
            calls ← markSection (withSection (doc1 cmpInfo) off1 len1) bd;
            Some (addCalls calls len1 0 st)
          else Some st);
    if negb (len2 =? 0) then
      calls ← markSection (withSection (doc2 cmpInfo) off2 len2) mb;
      Some (addCalls calls 0 len2 st)
    else Some st
  else Some st.

(** The loop over [j] of lines 1124-1167; the result carries the two
    [section.off] the loop leaves behind. *)
Fixpoint emitChangedLines (cmpInfo : CompareInfo) (doc1IsSub : bool) (bd mb : diffInfo)
    (changed : list diffLine) (j : Z) (off1 off2 : Z) (st : EmitState)
  : option (EmitState * Z * Z) :=
  match changed with
  | [] => Some (st, off1, off2)
  | cl1 :: rest =>
      cl2 ← vat (changedLines (d_info mb)) j;
      let len1 := dl_line cl1 - off1 in
      let len2 := dl_line cl2 - off2 in
      st ← emitResidual cmpInfo doc1IsSub bd mb off1 len1 off2 len2 st;
      st ← emitPair cmpInfo doc1IsSub (Some MARKER_MASK_CHANGED) (Some MARKER_MASK_CHANGED) st;
      calls ← markLineDiffs cmpInfo bd j;
      emitChangedLines cmpInfo doc1IsSub bd mb rest (j + 1)
        (dl_line cl1 + 1) (dl_line cl2 + 1) (addCalls calls 1 1 st)
  end.

(** One round of the loop over the blocks; the answer tells whether the
    round ended with the [++i] of line 1195. *)
Definition emitBlock (cmpInfo : CompareInfo) (doc1IsSub : bool) (bd : diffInfo)
    (st : EmitState) : option (EmitState * bool) :=
  match d_type bd with
  | DIFF_MATCH =>
      st ← emitPair cmpInfo doc1IsSub None None st;
      Some (addCalls [] (d_len bd) (d_len bd) st, false)
  | DIFF_IN_2 =>
      calls ← markSection (withSection (doc2 cmpInfo) 0 (d_len bd)) bd;
      st ← emitPair cmpInfo doc1IsSub None (Some (blockDiffMask (doc2 cmpInfo)))
             (addCalls calls 0 0 st);
      Some (addCalls [] 0 (d_len bd) st, false)
  | DIFF_IN_1 =>
      match matchBlock (d_info bd) with
      | Some m =>
          mb ← blockDiffs cmpInfo !! m;
          '(st, off1, off2) ←
            emitChangedLines cmpInfo doc1IsSub bd mb (changedLines (d_info bd)) 0 0 0 st;
          st ← emitResidual cmpInfo doc1IsSub bd mb off1 (d_len bd - off1)
                 off2 (d_len mb - off2) st;
          Some (st, true)
      | None =>
          calls ← markSection (withSection (doc1 cmpInfo) 0 (d_len bd)) bd;
          st ← emitPair cmpInfo doc1IsSub (Some (blockDiffMask (doc1 cmpInfo))) None
                 (addCalls calls 0 0 st);
          Some (addCalls [] (d_len bd) 0 st, false)
      end
  end.

(** The loop over the blocks, on the blocks from [i] on. The flag of the
    result is [false] when the progress dialog cancelled the run. *)
Fixpoint emitBlocks (cmpInfo : CompareInfo) (doc1IsSub : bool) (blocks : list diffInfo)
    (st : EmitState) (progress : Progress) : option (EmitState * bool * Progress) :=
  match blocks with
  | [] => Some (st, true, progress)
  | bd :: rest =>
      '(st, skipNext) ← emitBlock cmpInfo doc1IsSub bd st;
      let '(go, progress) := poll progress in
      if negb go then Some (st, false, progress)
      else
        match rest with
        | next :: rest' =>
            if (skipNext : bool) then emitBlocks cmpInfo doc1IsSub rest' st progress
            else emitBlocks cmpInfo doc1IsSub rest st progress
        | [] => Some (st, true, progress)
        end
  end.

(** [markAllDiffs]: the state reached and whether the run went to its
    end. *)
Definition markAllDiffs (cmpInfo : CompareInfo) (options : CompareOptions)
    (progress : Progress) : option (EmitState * bool) :=
  let doc1IsSub := viewId (view (doc1 cmpInfo)) =? SUB_VIEW in
  '(st, finished, progress) ←
    emitBlocks cmpInfo doc1IsSub (blockDiffs cmpInfo)
      {| e_align1 := 0; e_align2 := 0; e_calls := []; e_alignment := [] |} progress;
  if negb finished then Some (st, false)
  else
    st ← (if selectionCompare options then
            st ← emitPair cmpInfo doc1IsSub None None st;
            Some {| e_align1 := e_align1 st; e_align2 := e_align2 st; e_calls := e_calls st;
                    e_alignment :=
                      e_alignment st
                        ++ [alignPairOf doc1IsSub
                              (selections options (viewId (view (doc1 cmpInfo)))).2 None
                              (selections options (viewId (view (doc2 cmpInfo)))).2 None] |}
          else Some st);
    let '(go, _) := poll progress in
    Some (st, go).

(** The lines of the blocks of one side: a matching block counts on both
    sides, an added or removed block on its own. *)
Definition sideTotal (t : diff_type) (blocks : list diffInfo) : Z :=
  fold_right (fun d n => (if eqb_diff_type (d_type d) DIFF_MATCH || eqb_diff_type (d_type d) t
                          then d_len d else 0) + n) 0 blocks.

(** The blocks as the block compare leaves them: a removed block that is
    linked is followed by the block it is linked to, an added block. *)
Fixpoint linkedPairs (cmpInfo : CompareInfo) (blocks : list diffInfo) : Prop :=
  match blocks with
  | [] => True
  | bd :: rest =>
      match d_type bd, matchBlock (d_info bd) with
      | DIFF_IN_1, Some m =>
          match rest with
          | mb :: rest' =>
              blockDiffs cmpInfo !! m = Some mb /\ d_type mb = DIFF_IN_2
              /\ linkedPairs cmpInfo rest'
          | [] => False
          end
      | _, _ => linkedPairs cmpInfo rest
      end
  end.

(** The changed lines of a block ascend strictly and lie inside the
    block. *)
Definition changedWithin (d : diffInfo) : Prop :=
  StronglySorted Z.lt ((-1) :: map dl_line (changedLines (d_info d)) ++ [d_len d]).

(** What the emitter is handed after the block compare: the lines of both
    documents in strictly ascending order, no block of negative length,
    and in every linked pair of blocks the changed lines ascending inside
    their block. *)
Definition emitReady (cmpInfo : CompareInfo) (blocks : list diffInfo) : Prop :=
  StronglySorted (fun a b => ln_line a < ln_line b) (lines (doc1 cmpInfo))
  /\ StronglySorted (fun a b => ln_line a < ln_line b) (lines (doc2 cmpInfo))
  /\ Forall (fun d =>
               0 <= d_len d
               /\ forall m mb, d_type d = DIFF_IN_1 -> matchBlock (d_info d) = Some m ->
                    blockDiffs cmpInfo !! m = Some mb -> changedWithin d /\ changedWithin mb)
            blocks.

(** The lines of the first and of the second document in the alignment
    entries. *)
Definition alignedLines1 (cmpInfo : CompareInfo) (al : list AlignmentPair) : list Z :=
  map (fun p => av_line (if viewId (view (doc1 cmpInfo)) =? SUB_VIEW
                         then ap_sub p else ap_main p)) al.

Definition alignedLines2 (cmpInfo : CompareInfo) (al : list AlignmentPair) : list Z :=
  map (fun p => av_line (if viewId (view (doc1 cmpInfo)) =? SUB_VIEW
                         then ap_main p else ap_sub p)) al.

(** The alignment entries so far ascend on both sides and none lies behind
    the line of the cursor. *)
Definition alignedInOrder (cmpInfo : CompareInfo) (st : EmitState) : Prop :=
  StronglySorted Z.le (alignedLines1 cmpInfo (e_alignment st))
  /\ StronglySorted Z.le (alignedLines2 cmpInfo (e_alignment st))
  /\ (forall la, toAlignmentLine (doc1 cmpInfo) (e_align1 st) = Some la ->
        Forall (fun x => x <= la) (alignedLines1 cmpInfo (e_alignment st)))
  /\ (forall lb, toAlignmentLine (doc2 cmpInfo) (e_align2 st) = Some lb ->
        Forall (fun x => x <= lb) (alignedLines2 cmpInfo (e_alignment st))).

(** A linked pair of blocks with one changed line, "abcX" against
    "abcY", as the block compare leaves it. *)
Definition linkedChangedPair : CompareInfo :=
  let options := sampleOptions false false false 50 in
  let changed := [ {| dl_line := 0; dl_changes := [ {| s_off := 3; s_len := 1 |} ] |} ] in
  {| doc1 := doc1 (changedLinePair options);
     doc2 := doc2 (changedLinePair options);
     blockDiffs := [ linkBlock (freshBlock DIFF_IN_1 0 1) 1 changed;
                     linkBlock (freshBlock DIFF_IN_2 0 1) 0 changed ] |}.

Definition linkedChangedPairEmitted : EmitState :=
  {| e_align1 := 1; e_align2 := 1;
     e_calls := [TextChanged 0 3 1; MarkerAdd 0 0 MARKER_MASK_CHANGED;
                 TextChanged 1 3 1; MarkerAdd 1 0 MARKER_MASK_CHANGED];
     e_alignment :=
       [ {| ap_main := {| av_line := 0; av_diffMask := Some MARKER_MASK_CHANGED |};
            ap_sub := {| av_line := 0; av_diffMask := Some MARKER_MASK_CHANGED |} |} ] |}.

(** Side 1 = "same", "foo bar baz", "x", "foo qux", "tail"; side 2 =
    "same", "y", "foo bar", "foo quy", "tail": a matching line, a linked
    pair of blocks of three lines with the changed lines the block compare
    of [threeLines1] and [threeLines2] leaves, and a matching line. *)
Definition linkedThreeLines : CompareInfo :=
  let options := sampleOptions false false false 50 in
  {| doc1 := textDoc MAIN_VIEW ([[115; 97; 109; 101]] ++ threeLines1 ++ [[116; 97; 105; 108]])
               options;
     doc2 := textDoc SUB_VIEW ([[115; 97; 109; 101]] ++ threeLines2 ++ [[116; 97; 105; 108]])
               options;
     blockDiffs :=
       [ freshBlock DIFF_MATCH 0 1;
         linkBlock (freshBlock DIFF_IN_1 1 3) 2
           [ {| dl_line := 0; dl_changes := [ {| s_off := 7; s_len := 4 |} ] |};
             {| dl_line := 2; dl_changes := [ {| s_off := 6; s_len := 1 |} ] |} ];
         linkBlock (freshBlock DIFF_IN_2 1 3) 1
           [ {| dl_line := 1; dl_changes := [] |};
             {| dl_line := 2; dl_changes := [ {| s_off := 6; s_len := 1 |} ] |} ];
         freshBlock DIFF_MATCH 4 1 ] |}.

(** What the emitter leaves of [linkedThreeLines]. *)
Definition linkedThreeLinesEmitted : EmitState :=
  {| e_align1 := 5; e_align2 := 5;
     e_calls := [MarkerAdd 1 1 MARKER_MASK_ADDED; TextChanged 0 12 4;
                 MarkerAdd 0 1 MARKER_MASK_CHANGED; MarkerAdd 1 2 MARKER_MASK_CHANGED;
                 MarkerAdd 0 2 MARKER_MASK_ADDED; TextChanged 0 25 1;
                 MarkerAdd 0 3 MARKER_MASK_CHANGED; TextChanged 1 21 1;
                 MarkerAdd 1 3 MARKER_MASK_CHANGED];
     e_alignment :=
       [ {| ap_main := {| av_line := 0; av_diffMask := None |};
            ap_sub := {| av_line := 0; av_diffMask := None |} |};
         {| ap_main := {| av_line := 1; av_diffMask := None |};
            ap_sub := {| av_line := 1; av_diffMask := Some MARKER_MASK_ADDED |} |};
         {| ap_main := {| av_line := 1; av_diffMask := Some MARKER_MASK_CHANGED |};
            ap_sub := {| av_line := 2; av_diffMask := Some MARKER_MASK_CHANGED |} |};
         {| ap_main := {| av_line := 2; av_diffMask := Some MARKER_MASK_ADDED |};
            ap_sub := {| av_line := 3; av_diffMask := None |} |};
         {| ap_main := {| av_line := 3; av_diffMask := Some MARKER_MASK_CHANGED |};
            ap_sub := {| av_line := 3; av_diffMask := Some MARKER_MASK_CHANGED |} |};
         {| ap_main := {| av_line := 4; av_diffMask := None |};
            ap_sub := {| av_line := 4; av_diffMask := None |} |} ] |}.

(** ** [runCompare] *)

Section RunCompare.
Context {F : Type}.
Variable F_of_int : Z -> F.
Variables Fadd Fmul Fdiv : F -> F -> F.
Variables Fltb Feqb Fleb : F -> F -> bool.
Variable DiffCalcWord : list Word -> list Word -> list segment * bool.
Variable DiffCalcChar : list Char -> list Char -> list segment * bool.
Variable IsCharAlphaNumericA : Z -> bool.
(** [DiffCalc<Line, blockDiffInfo>] of diff.h at line granularity: the
    blocks and whether the engine swapped the two sequences. *)
Variable DiffCalcLine : list Line -> list Line -> list diffInfo * bool.

(** The loop "Do block compares" together with the progress dialog it
    leaves behind. *)
Fixpoint blockCompareRun (idxs : list nat) (cmpInfo : CompareInfo) (options : CompareOptions)
    (progress : Progress) : option (CompareInfo * bool * Progress) :=
  match idxs with
  | [] => Some (cmpInfo, true, progress)
  | i :: rest =>
      blockDiff2 ← blockDiffs cmpInfo !! i;
      blockDiff1 ← blockDiffs cmpInfo !! (i - 1)%nat;
      cmpInfo' ←
        (if eqb_diff_type (d_type blockDiff2) DIFF_IN_2
            && eqb_diff_type (d_type blockDiff1) DIFF_IN_1
         then
           let blockDiff1 := linkBlock blockDiff1 i (changedLines (d_info blockDiff1)) in
           let blockDiff2 := linkBlock blockDiff2 (i - 1)%nat (changedLines (d_info blockDiff2)) in
           st ← compareBlocks F_of_int Fadd Fmul Fdiv Fltb Feqb Fleb DiffCalcWord DiffCalcChar
                  IsCharAlphaNumericA (doc1 cmpInfo) (doc2 cmpInfo) blockDiff1 blockDiff2
                  options;
           Some {| doc1 := doc1 cmpInfo; doc2 := doc2 cmpInfo;
                   blockDiffs := <[i := linkBlock blockDiff2 (i - 1)%nat st.2]>
                                   (<[(i - 1)%nat := linkBlock blockDiff1 i st.1]>
                                      (blockDiffs cmpInfo)) |}
         else Some cmpInfo);
      let '(go, progress') := poll progress in
      if negb go then Some (cmpInfo', false, progress')
      else blockCompareRun rest cmpInfo' options progress'
  end.

(** What [runCompare] gives its caller, the calls it makes to the host,
    and [alignmentInfo]: [None] when the run does not touch it. A run
    that [getLines] leaves by its exception has called nothing. [fuel]
    bounds the move detector; a detector that has not come to its end
    within [fuel] gives [None], as does undefined behaviour. *)
Definition runCompare (fuel : nat) (mainView subView : View) (options : CompareOptions)
    (progress : Progress)
  : option (Answer * list HostCall * option (list AlignmentPair)) :=
  let old := oldFileViewId options =? MAIN_VIEW in
  let doc1 := withSelection options (emptyDoc mainView)
                (if old then MARKER_MASK_REMOVED else MARKER_MASK_ADDED) in
  let doc2 := withSelection options (emptyDoc subView)
                (if old then MARKER_MASK_ADDED else MARKER_MASK_REMOVED) in
  let '(doc1, (progress, exit1)) := getLines doc1 options progress in
  match exit1 with
  | Thrown => Some (Throws, [], None)
  | Returned =>
  let '(go, progress) := poll progress in
  if negb go then Some (Returns COMPARE_CANCELLED, [], None) else
  let '(doc2, (progress, exit2)) := getLines doc2 options progress in
  match exit2 with
  | Thrown => Some (Throws, [], None)
  | Returned =>
  let '(go, progress) := poll progress in
  if negb go then Some (Returns COMPARE_CANCELLED, [], None) else
  let '(blocks, swapped) := DiffCalcLine (lines doc1) (lines doc2) in
  let cmpInfo := {| doc1 := if swapped then doc2 else doc1;
                    doc2 := if swapped then doc1 else doc2;
                    blockDiffs := blocks |} in
  if (length blocks =? 0)%nat
     || ((length blocks =? 1)%nat
         && match head blocks with
            | Some first => eqb_diff_type (d_type first) DIFF_MATCH
            | None => false
            end)
  then Some (Returns COMPARE_MATCH, [], None)
  else
    cmpInfo ← findUniqueLines cmpInfo;
    cmpInfo ← (if detectMoves options then
                 let '(moved, finished) := findMoves fuel cmpInfo in
                 if finished then Some moved else None
               else Some cmpInfo);
    let '(go, progress) := poll progress in
    if negb go then Some (Returns COMPARE_CANCELLED, [], None) else
    '(cmpInfo, finished, progress) ←
      blockCompareRun (seq 1 (length blocks - 1)) cmpInfo options progress;
    if negb finished then Some (Returns COMPARE_CANCELLED, [], None) else
    let '(go, progress) := poll progress in
    if negb go then Some (Returns COMPARE_CANCELLED, [], None) else
    '(st, finished) ← markAllDiffs cmpInfo options progress;
    Some (Returns (if (finished : bool) then COMPARE_MISMATCH else COMPARE_CANCELLED),
          e_calls st, Some (e_alignment st))
  end
  end.

(** [compareViews]: the run the options ask for, inside [try]; [result]
    is still [COMPARE_ERROR] when an exception is caught. The dialog is
    the one [ProgressDlg::Open] leaves, and the message box of the
    handler is not modelled. The exception of [reserve] in [getLines] is
    the only one modelled: the engine has no [throw] of its own, and
    memory exhaustion is outside the model. *)
Definition compareViews (fuel : nat) (mainView subView : View) (options : CompareOptions)
    (progress : Progress) : option CompareResult :=
  if findUniqueMode options then
    match (runFindUnique mainView subView options progress).1.1 with
    | Returns result => Some result
    | Throws => Some COMPARE_ERROR
    end
  else
    match runCompare fuel mainView subView options progress with
    | Some (Returns result, _, _) => Some result
    | Some (Throws, _, _) => Some COMPARE_ERROR
    | None => None
    end.
End RunCompare.

Arguments blockCompareRun {F}.
Arguments runCompare {F}.
Arguments compareViews {F}.

(** A line engine for the samples: the common beginning of the two
    sequences as one matching block, the rest of the first as a removed
    block and the rest of the second as an added one, never swapped. *)
Definition lineEngine (a b : list Line) : list diffInfo * bool :=
  (map (fun sg => freshBlock (sg_type sg) (sg_off sg) (sg_len sg))
       (beginningEngine (fun x y => ln_hash x =? ln_hash y) a b).1, false).

Definition sampleRunCompare :=
  runCompare f32_of_int f32_add f32_mul f32_div SFltb SFeqb SFleb
    wordEngine charEngine asciiAlphaNumeric lineEngine.

(** The line engine finds no difference: no block, or one matching
    block. *)
Definition noDifference (blocks : list diffInfo) : Prop :=
  blocks = [] \/ exists only, blocks = [only] /\ d_type only = DIFF_MATCH.

(** * Verified properties *)

Lemma u64_eq_quot a : exists q, u64 a = a + q * 2 ^ 64.
Proof. exists (- (a / 2 ^ 64)). unfold u64. rewrite Z.mod_eq by lia. lia. Qed.

Lemma u64_shift a k : u64 (a + k * 2 ^ 64) = u64 a.
Proof. unfold u64. apply Z_mod_plus_full. Qed.

Ltac drop_u64 t :=
  let q := fresh "q" in let E := fresh "E" in
  destruct (u64_eq_quot t) as [q E]; rewrite E; clear E.

Lemma Hash_spec_mix hval letter : Hash hval letter = spec_mix hval (u64 letter).
Proof.
  unfold Hash, spec_mix, add64, shl64. cbv zeta.
  generalize (Z.lxor hval (u64 letter)). intros x.
  change ((x + x ≪ 1 + x ≪ 4 + x ≪ 5 + x ≪ 7 + x ≪ 8 + x ≪ 40) `mod` 2 ^ 64)
    with (u64 (x + x ≪ 1 + x ≪ 4 + x ≪ 5 + x ≪ 7 + x ≪ 8 + x ≪ 40)).
  drop_u64 (x ≪ 1). drop_u64 (x ≪ 4). drop_u64 (x ≪ 5). drop_u64 (x ≪ 7).
  drop_u64 (x ≪ 8). drop_u64 (x ≪ 40).
  generalize (x ≪ 1) (x ≪ 4) (x ≪ 5) (x ≪ 7) (x ≪ 8) (x ≪ 40). intros a b c d e f.
  drop_u64 (a + q * 2 ^ 64 + (b + q0 * 2 ^ 64)).
  match goal with |- context [u64 (?t + (c + _))] => drop_u64 (t + (c + q1 * 2 ^ 64)) end.
  match goal with |- context [u64 (?t + (d + _))] => drop_u64 (t + (d + q2 * 2 ^ 64)) end.
  match goal with |- context [u64 (?t + (e + _))] => drop_u64 (t + (e + q3 * 2 ^ 64)) end.
  match goal with |- context [u64 (?t + (f + _))] => drop_u64 (t + (f + q4 * 2 ^ 64)) end.
  match goal with |- u64 ?l = u64 ?r =>
    replace l with (r + (q + q0 + q1 + q2 + q3 + q4 + q5 + q6 + q7 + q8 + q9) * 2 ^ 64) by lia end.
  apply u64_shift.
Qed.

Lemma spec_mix_FNV hash byte :
  spec_mix hash byte = (Z.lxor hash byte * FNV_prime) mod 2 ^ 64.
Proof.
  unfold spec_mix, FNV_prime. cbv zeta. rewrite !Z.shiftl_mul_pow2 by lia.
  f_equal. lia.
Qed.

Lemma hashBytes_fold ign bytes hash :
  hashBytes ign bytes hash
  = fold_left Hash (if ign then List.filter (fun c => negb (isSpaceOrTab c)) bytes else bytes) hash.
Proof.
  revert hash. induction bytes as [|c rest IH]; intros hash.
  - by destruct ign.
  - simpl. destruct ign; simpl.
    + unfold isSpaceOrTab at 1.
      destruct ((c =? 32) || (c =? 9)) eqn:E; simpl; apply IH.
    + apply IH.
Qed.

Lemma fold_Hash_spec bytes hash :
  fold_left Hash bytes hash = fold_left spec_mix (map u64 bytes) hash.
Proof.
  revert hash. induction bytes as [|c rest IH]; intros hash; [done|].
  simpl. rewrite Hash_spec_mix. apply IH.
Qed.

Lemma toLowerCase_app a b : toLowerCase (a ++ b) = toLowerCase a ++ toLowerCase b.
Proof. unfold toLowerCase. apply map_app. Qed.

Lemma toLowerCase_length a : length (toLowerCase a) = length a.
Proof. unfold toLowerCase. apply length_map. Qed.

Lemma lineHashOf_spec v options a b :
  lineHashOf v options a b
  = spec_hash (map u64 (spec_folded options (map (byteAt v) (seqZ a (b - a))))).
Proof.
  unfold lineHashOf, spec_folded, spec_hash, getText.
  set (raw := map (byteAt v) (seqZ a (b - a))).
  assert (Hlen : length raw = Z.to_nat (b - a)).
  { unfold raw. rewrite length_map, length_seqZ. done. }
  destruct (b - a =? 0) eqn:E.
  - apply Z.eqb_eq in E. rewrite E in Hlen. simpl in Hlen.
    destruct raw; [|done]. by destruct (ignoreCase options), (ignoreSpaces options).
  - assert (Htake : forall l : list Z, length l = Z.to_nat (b - a) ->
                                 take (Z.to_nat (b - a)) (l ++ [0]) = l).
    { intros l Hl. rewrite <- Hl. rewrite take_app_length. done. }
    rewrite hashBytes_fold, fold_Hash_spec.
    destruct (ignoreCase options).
    + rewrite toLowerCase_app, Htake by (by rewrite toLowerCase_length). done.
    + rewrite Htake by done. done.
Qed.

Lemma poll_never_cancels p :
  never_cancels p -> fst (poll p) = true /\ never_cancels (snd (poll p)).
Proof.
  destruct p as [[|b bs]|]; simpl; try done.
  intros H. inversion H; subst. done.
Qed.

Lemma getLines_loop_spec v options secOff lineNums progress acc :
  never_cancels progress ->
  fst (getLines_loop v options secOff lineNums progress acc)
  = Some (acc ++ omap (fun lineNum =>
                 let i := lineNum + secOff in
                 let h := spec_lineHash v options i in
                 if ignoreEmptyLines options && (h =? 0x84222325) then None
                 else Some {| ln_line := i; ln_hash := h |}) lineNums).
Proof.
  revert progress acc. induction lineNums as [|n rest IH]; intros progress acc Hp.
  - simpl. by rewrite app_nil_r.
  - cbn [getLines_loop].
    set (pp := match progress with
               | Some _ => if n `rem` monitorCancelEveryXLine =? 0 then poll progress
                           else (true, progress)
               | None => (true, progress) end).
    assert (Hpp : fst pp = true /\ never_cancels (snd pp)).
    { unfold pp. destruct progress as [bs|]; [|done].
      destruct (n `rem` monitorCancelEveryXLine =? 0); [|done].
      by apply poll_never_cancels. }
    destruct pp as [go progress']. simpl in Hpp. destruct Hpp as [-> Hp'].
    cbn [negb]. cbv zeta. rewrite IH by done. f_equal.
    cbn [omap list_omap ln_hash]. unfold spec_lineHash, rawLine.
    rewrite lineHashOf_spec. change 0x84222325 with cHashSeed.
    set (h := spec_hash _).
    destruct (ignoreEmptyLines options), (h =? cHashSeed); simpl;
      rewrite <- ?app_assoc; done.
Qed.

(** C4: the line hash is the FNV-style fold of the folded bytes from the
    seed [0x84222325]: each byte is xor-ed into the hash, which is then
    replaced by [h + (h<<1) + (h<<4) + (h<<5) + (h<<7) + (h<<8) + (h<<40)]
    modulo 2^64 (a multiplication by the 64-bit FNV prime); a line whose
    folded content is empty hashes to the seed. *)
Theorem C4_line_hash_is_seeded_fnv_fold (v : View) (options : CompareOptions) (a b : Z) :
  let folded := map u64 (spec_folded options (map (byteAt v) (seqZ a (b - a)))) in
  lineHashOf v options a b = fold_left spec_mix folded 0x84222325
  /\ (forall hval letter, Hash hval letter = spec_mix hval (u64 letter))
  /\ (forall hash byte, spec_mix hash byte = (Z.lxor hash byte * FNV_prime) mod 2 ^ 64)
  /\ (forall hval letter, 0 <= Hash hval letter < 2 ^ 64)
  /\ (folded = [] -> lineHashOf v options a b = cHashSeed).
Proof.
  cbv zeta. split; [apply lineHashOf_spec|]. split; [apply Hash_spec_mix|].
  split; [apply spec_mix_FNV|]. split.
  - intros. unfold Hash, add64, u64. apply Z.mod_pos_bound. lia.
  - intros E. rewrite lineHashOf_spec. unfold spec_hash. rewrite E. done.
Qed.

Lemma C4_witness :
  lineHashOf (sampleView [32; 9; 10; 65] [0; 3] [2; 4]) (sampleOptions false true false 50) 0 2
  = cHashSeed.
Proof.
  apply (C4_line_hash_is_seeded_fnv_fold
           (sampleView [32; 9; 10; 65] [0; 3] [2; 4]) (sampleOptions false true false 50) 0 2).
  reflexivity.
Defined.

(** C5: when the run is not cancelled, the extractor emits, for every line
    index of the (clamped) section in order, the pair of the original line
    index and the hash of the line's bytes (case-folded when [ignoreCase];
    without spaces and tabs exactly when [ignoreSpaces]), except that the
    line is left out when [ignoreEmptyLines] is set and its hash is the
    seed. *)
Theorem C5_getLines_emits_normalized_lines
    (doc : DocCmpInfo) (options : CompareOptions) (progress : Progress) :
  docLength (view doc) <> 0 ->
  never_cancels progress ->
  let doc' := fst (getLines doc options progress) in
  lines doc' = spec_getLines (view doc) options (s_off (section doc')) (s_len (section doc'))
  /\ s_off (section doc') = s_off (section doc)
  /\ s_len (section doc')
     = (if (s_len (section doc) <=? 0)
           || (lineCount (view doc) <? s_off (section doc) + s_len (section doc))
        then lineCount (view doc) - s_off (section doc) else s_len (section doc))
  /\ (forall i, spec_lineHash (view doc) options i
                = spec_hash (map u64 (spec_folded options (rawLine (view doc) i))))
  /\ (forall raw, spec_folded options raw
                  = let cased := if ignoreCase options then toLowerCase raw else raw in
                    if ignoreSpaces options
                    then List.filter (fun c => negb ((c =? 32) || (c =? 9))) cased
                    else cased).
Proof.
  intros Hlen Hp. cbv zeta. unfold getLines.
  destruct (docLength (view doc) =? 0) eqn:E; [apply Z.eqb_eq in E; done|].
  set (sec := if (s_len (section doc) <=? 0)
                 || (lineCount (view doc) <? s_off (section doc) + s_len (section doc))
              then {| s_off := s_off (section doc);
                      s_len := lineCount (view doc) - s_off (section doc) |}
              else section doc).
  pose proof (getLines_loop_spec (view doc) options (s_off sec) (seqZ 0 (s_len sec))
                progress [] Hp) as Hloop.
  assert (Hlines :
    lines (fst (if s_len sec <? 0
                then ({| view := view doc; section := sec; blockDiffMask := blockDiffMask doc;
                         lines := []; nonUniqueLines := nonUniqueLines doc |},
                      (progress, Thrown))
                else let '(res, progress') :=
                       getLines_loop (view doc) options (s_off sec) (seqZ 0 (s_len sec))
                         progress [] in
                     ({| view := view doc; section := sec; blockDiffMask := blockDiffMask doc;
                         lines := default [] res; nonUniqueLines := nonUniqueLines doc |},
                      (progress', Returned))))
    = spec_getLines (view doc) options (s_off sec) (s_len sec)
    /\ section (fst (if s_len sec <? 0
                then ({| view := view doc; section := sec; blockDiffMask := blockDiffMask doc;
                         lines := []; nonUniqueLines := nonUniqueLines doc |},
                      (progress, Thrown))
                else let '(res, progress') :=
                       getLines_loop (view doc) options (s_off sec) (seqZ 0 (s_len sec))
                         progress [] in
                     ({| view := view doc; section := sec; blockDiffMask := blockDiffMask doc;
                         lines := default [] res; nonUniqueLines := nonUniqueLines doc |},
                      (progress', Returned)))) = sec).
  { destruct (s_len sec <? 0) eqn:Eneg.
    - simpl. split; [|done]. unfold spec_getLines.
      apply Z.ltb_lt in Eneg. by rewrite seqZ_nil by lia.
    - destruct (getLines_loop (view doc) options (s_off sec) (seqZ 0 (s_len sec)) progress [])
        as [res progress'].
      simpl in Hloop. subst res. done. }
  destruct Hlines as [-> ->].
  split; [done|]. unfold sec.
  destruct ((s_len (section doc) <=? 0)
            || (lineCount (view doc) <? s_off (section doc) + s_len (section doc)));
    simpl; done.
Qed.

Lemma C5_witness :
  map ln_line
    (lines (fst (getLines (sampleDoc (sampleView [70; 111; 10; 32; 10; 66] [0; 3; 5] [2; 4; 6]) 0 0)
                   (sampleOptions true true true 50) (Some [true]))))
  = [0; 2].
Proof.
  destruct (C5_getLines_emits_normalized_lines
              (sampleDoc (sampleView [70; 111; 10; 32; 10; 66] [0; 3; 5] [2; 4; 6]) 0 0)
              (sampleOptions true true true 50) (Some [true])) as [H _].
  - vm_compute. discriminate.
  - repeat constructor.
  - rewrite H. vm_compute. reflexivity.
Defined.

(** ** Find-unique mode *)

Lemma emplaceLine_fold_dom ls (m : gmap Z (list Z)) :
  dom (fold_left emplaceLine ls m) = dom m ∪ list_to_set (map ln_hash ls).
Proof.
  revert m. induction ls as [|l ls IH]; intros m; simpl.
  - by rewrite (right_id_L ∅ (∪)).
  - rewrite IH. unfold emplaceLine.
    assert (dom (<[ln_hash l := [ln_line l]]> m) = dom m ∪ {[ln_hash l]}) as E1.
    { rewrite dom_insert_L. apply (comm_L (∪)). }
    destruct (m !! ln_hash l) as [old|] eqn:E.
    + rewrite dom_insert_L. rewrite (assoc_L (∪)). f_equal.
      rewrite (comm_L (∪)). done.
    + rewrite E1. by rewrite (assoc_L (∪)).
Qed.

Lemma groupLines_dom ls : dom (groupLines ls) = hashSet ls.
Proof.
  unfold groupLines, hashSet. rewrite emplaceLine_fold_dom.
  rewrite dom_empty_L. apply (left_id_L ∅ (∪)).
Qed.

Lemma emplaceLine_fold_nonempty ls (m : gmap Z (list Z)) :
  (forall k l, m !! k = Some l -> l <> []) ->
  forall k l, fold_left emplaceLine ls m !! k = Some l -> l <> [].
Proof.
  revert m. induction ls as [|x ls IH]; intros m Hm; simpl; [done|].
  apply IH. intros k l. unfold emplaceLine.
  destruct (m !! ln_hash x) as [old|] eqn:E.
  - destruct (decide (ln_hash x = k)) as [->|Hne].
    + rewrite lookup_insert_eq. intros [= <-]. by destruct old.
    + rewrite lookup_insert_ne by done. apply Hm.
  - destruct (decide (ln_hash x = k)) as [->|Hne].
    + rewrite lookup_insert_eq. by intros [= <-].
    + rewrite lookup_insert_ne by done. apply Hm.
Qed.

Lemma groupLines_nonempty ls k l : groupLines ls !! k = Some l -> l <> [].
Proof. apply emplaceLine_fold_nonempty. intros ? ?. by rewrite lookup_empty. Qed.

Lemma uniqueStep_fold doc1 (kvs : list (Z * list Z)) d2 c mk :
  NoDup kvs.*1 ->
  (forall k l, (k, l) ∈ kvs -> l <> []) ->
  exists d2' c' mk',
    fold_left (uniqueStep doc1) kvs (d2, c, mk) = (d2', c', mk')
    /\ (forall k, d2' !! k = if decide (k ∈ kvs.*1) then None else d2 !! k)
    /\ c <= c'
    /\ (c' = c <-> forall k, k ∈ kvs.*1 -> is_Some (d2 !! k)).
Proof.
  revert d2 c mk. induction kvs as [|[k l] kvs IH]; intros d2 c mk Hnd Hne.
  - exists d2, c, mk. split; [done|]. split.
    + intros k. destruct (decide (k ∈ ([] : list (Z * list Z)).*1)) as [Hin|_]; [|done].
      by apply elem_of_nil in Hin.
    + split; [lia|]. split; [|done]. intros _ k Hin. by apply elem_of_nil in Hin.
  - rewrite fmap_cons in Hnd. cbn [fst] in Hnd. apply NoDup_cons in Hnd as [Hk Hnd].
    assert (Hne' : forall k l, (k, l) ∈ kvs -> l <> [])
      by (intros k0 l0 ?; apply (Hne k0 l0); by right).
    assert (Hl : l <> []) by (apply (Hne k l); by left).
    cbn [fold_left uniqueStep fst snd].
    assert (Hdec : forall (k' : Z) (X Y : option (list Z)),
               (if decide (k' ∈ ((k, l) :: kvs).*1) then X else Y)
               = if decide (k' = k) then X else if decide (k' ∈ kvs.*1) then X else Y).
    { intros k' X Y. rewrite fmap_cons. cbn [fst].
      destruct (decide (k' ∈ k :: kvs.*1)) as [Hin|Hnin].
      - apply elem_of_cons in Hin as [->|Hin].
        + by rewrite decide_True.
        + destruct (decide (k' = k)); [done|]. by rewrite decide_True.
      - rewrite !decide_False; [done| |].
        + intros Hin. apply Hnin. by right.
        + intros ->. apply Hnin. by left. }
    assert (Hall : forall (P : Z -> Prop),
               (forall k', k' ∈ ((k, l) :: kvs).*1 -> P k')
               <-> P k /\ forall k', k' ∈ kvs.*1 -> P k').
    { intros P. rewrite fmap_cons. cbn [fst]. split.
      - intros H. split; [apply H; by left|]. intros k' Hin. apply H. by right.
      - intros [H1 H2] k' Hin. apply elem_of_cons in Hin as [->|Hin]; [done|by apply H2]. }
    destruct (d2 !! k) as [old|] eqn:E.
    + destruct (IH (delete k d2) c mk Hnd Hne') as (d2' & c' & mk' & Hf & Hd & Hc & Hiff).
      exists d2', c', mk'. split; [done|]. split; [|split; [done|]].
      * intros k'. rewrite Hd, Hdec.
        destruct (decide (k' = k)) as [->|Hkk].
        -- rewrite decide_False by done. apply lookup_delete_eq.
        -- destruct (decide (k' ∈ kvs.*1)); [done|]. by apply lookup_delete_ne.
      * rewrite Hiff, Hall. split.
        -- intros H. split; [by rewrite E|]. intros k' Hk'.
           specialize (H k' Hk'). rewrite lookup_delete_ne in H; [done|].
           intros ->. done.
        -- intros [_ H] k' Hk'. rewrite lookup_delete_ne by (intros ->; done).
           by apply H.
    + destruct (IH d2 (c + Z.of_nat (length l))
                  (mk ++ map (fun line => (viewId (view doc1), line, blockDiffMask doc1)) l)
                  Hnd Hne') as (d2' & c' & mk' & Hf & Hd & Hc & Hiff).
      exists d2', c', mk'. split; [done|].
      assert (0 < Z.of_nat (length l)) by (destruct l; [done|simpl; lia]).
      split; [|split; [lia|]].
      * intros k'. rewrite Hd, Hdec.
        destruct (decide (k' = k)) as [->|Hkk]; [|done].
        by rewrite decide_False.
      * split; [lia|]. rewrite Hall. intros [H' _]. rewrite E in H'.
        by destruct H' as [? ?].
Qed.

Lemma findUniqueCore_match doc1 doc2 progress :
  never_cancels progress ->
  (findUniqueCore doc1 doc2 progress).1.1 = COMPARE_MATCH
  <-> hashSet (lines doc1) = hashSet (lines doc2).
Proof.
  intros Hp. unfold findUniqueCore.
  destruct (poll_never_cancels progress Hp) as [Hgo Hp1].
  destruct (poll progress) as [go p1]. simpl in Hgo, Hp1. subst go. cbn [negb].
  destruct (poll_never_cancels p1 Hp1) as [Hgo Hp2].
  destruct (poll p1) as [go p2]. simpl in Hgo, Hp2. subst go. cbn [negb].
  destruct (uniqueStep_fold doc1 (map_to_list (groupLines (lines doc1)))
              (groupLines (lines doc2)) 0 [])
    as (d2' & c' & mk' & Hf & Hd & Hc & Hiff).
  { apply NoDup_fst_map_to_list. }
  { intros k l Hin. apply elem_of_map_to_list in Hin. by eapply groupLines_nonempty. }
  rewrite Hf. rewrite <- !groupLines_dom.
  assert (Hkeys : forall k, k ∈ (map_to_list (groupLines (lines doc1))).*1
                            <-> k ∈ dom (groupLines (lines doc1))).
  { intros k. rewrite elem_of_dom. rewrite list_elem_of_fmap. split.
    - intros ([k' l] & -> & Hin). apply elem_of_map_to_list in Hin. eauto.
    - intros [l Hl]. exists (k, l). split; [done|]. by apply elem_of_map_to_list. }
  assert (Hempty : d2' = ∅ <-> dom (groupLines (lines doc2)) ⊆ dom (groupLines (lines doc1))).
  { split.
    - intros -> k Hk. apply Hkeys. specialize (Hd k). rewrite lookup_empty in Hd.
      destruct (decide (k ∈ (map_to_list (groupLines (lines doc1))).*1)); [done|].
      apply elem_of_dom in Hk as [? Hk]. congruence.
    - intros Hsub. apply map_eq. intros k. rewrite lookup_empty, Hd.
      destruct (decide (k ∈ (map_to_list (groupLines (lines doc1))).*1)) as [|Hn]; [done|].
      apply not_elem_of_dom. intros Hk. apply Hn, Hkeys, Hsub, Hk. }
  assert (Hcount : c' = 0 <-> dom (groupLines (lines doc1)) ⊆ dom (groupLines (lines doc2))).
  { rewrite Hiff. split.
    - intros H k Hk. apply elem_of_dom, H, Hkeys, Hk.
    - intros H k Hk. apply elem_of_dom, H, Hkeys, Hk. }
  destruct (c' =? 0) eqn:Ec; cbn [andb].
  - apply Z.eqb_eq in Ec. destruct (bool_decide (d2' = ∅)) eqn:Eb.
    + apply bool_decide_eq_true in Eb. simpl. split; [intros _|done].
      apply Hempty in Eb. apply Hcount in Ec. apply set_eq. intros x.
      split; [apply Ec|apply Eb].
    + apply bool_decide_eq_false in Eb. simpl. split; [done|].
      intros Heq. exfalso. apply Eb, Hempty. rewrite Heq. done.
  - apply Z.eqb_neq in Ec. simpl. split; [done|].
    intros Heq. exfalso. apply Ec, Hcount. rewrite Heq. done.
Qed.

Lemma getLines_loop_never_cancels v options secOff lineNums progress acc :
  never_cancels progress ->
  never_cancels (snd (getLines_loop v options secOff lineNums progress acc)).
Proof.
  revert progress acc. induction lineNums as [|n rest IH]; intros progress acc Hp; [done|].
  cbn [getLines_loop].
  set (pp := match progress with
             | Some _ => if n `rem` monitorCancelEveryXLine =? 0 then poll progress
                         else (true, progress)
             | None => (true, progress) end).
  assert (Hpp : fst pp = true /\ never_cancels (snd pp)).
  { unfold pp. destruct progress as [bs|]; [|done].
    destruct (n `rem` monitorCancelEveryXLine =? 0); [|done].
    by apply poll_never_cancels. }
  destruct pp as [go progress']. simpl in Hpp. destruct Hpp as [-> Hp'].
  cbn [negb]. cbv zeta. by apply IH.
Qed.

Lemma getLines_never_cancels doc options progress :
  never_cancels progress ->
  lines (fst (getLines doc options progress)) = lines (fst (getLines doc options None))
  /\ never_cancels (getLines doc options progress).2.1.
Proof.
  intros Hp. unfold getLines. destruct (docLength (view doc) =? 0); [done|].
  set (sec := if (_ || _) then _ else _).
  destruct (s_len sec <? 0); [done|].
  pose proof (getLines_loop_spec (view doc) options (s_off sec) (seqZ 0 (s_len sec))
                progress [] Hp) as H1.
  pose proof (getLines_loop_spec (view doc) options (s_off sec) (seqZ 0 (s_len sec))
                None [] I) as H2.
  pose proof (getLines_loop_never_cancels (view doc) options (s_off sec) (seqZ 0 (s_len sec))
                progress [] Hp) as H3.
  destruct (getLines_loop (view doc) options (s_off sec) (seqZ 0 (s_len sec)) progress [])
    as [r1 p1].
  destruct (getLines_loop (view doc) options (s_off sec) (seqZ 0 (s_len sec)) None [])
    as [r2 p2].
  simpl in *. subst. done.
Qed.

Lemma getLines_mask_irrelevant v options m1 m2 p :
  lines (fst (getLines (withSelection options (emptyDoc v) m1) options p))
  = lines (fst (getLines (withSelection options (emptyDoc v) m2) options p)).
Proof.
  unfold getLines. cbn [view withSelection section emptyDoc].
  destruct (docLength v =? 0); [done|].
  set (sec := if (_ || _) then _ else _).
  destruct (s_len sec <? 0); [done|].
  destruct (getLines_loop v options (s_off sec) (seqZ 0 (s_len sec)) p []). done.
Qed.

(** [reserve] throws exactly when the document is not empty and the section
    starts behind its last line. *)
Lemma getLines_exit doc options progress :
  (getLines doc options progress).2.2 = Thrown
  <-> docLength (view doc) <> 0 /\ lineCount (view doc) < s_off (section doc).
Proof.
  unfold getLines. destruct (docLength (view doc) =? 0) eqn:E.
  { apply Z.eqb_eq in E. simpl. split; [done|]. intros [H _]. done. }
  apply Z.eqb_neq in E.
  destruct ((s_len (section doc) <=? 0)
            || (lineCount (view doc) <? s_off (section doc) + s_len (section doc))) eqn:Ec.
  - cbn [s_len s_off].
    destruct (lineCount (view doc) - s_off (section doc) <? 0) eqn:En.
    + apply Z.ltb_lt in En. simpl. split; [intros _; split; [done|lia]|done].
    + apply Z.ltb_ge in En.
      destruct (getLines_loop _ _ _ _ _ _). simpl. split; [done|]. intros [_ H]. lia.
  - apply orb_false_iff in Ec as [E1 E2].
    apply Z.leb_gt in E1. apply Z.ltb_ge in E2.
    destruct (s_len (section doc) <? 0) eqn:En; [apply Z.ltb_lt in En; lia|].
    destruct (getLines_loop _ _ _ _ _ _). simpl. split; [done|]. intros [_ H]. lia.
Qed.

Lemma getLines_returns_inside v options m progress :
  sectionInside v options ->
  (getLines (withSelection options (emptyDoc v) m) options progress).2.2 = Returned.
Proof.
  intros Hin.
  destruct ((getLines (withSelection options (emptyDoc v) m) options progress).2.2) eqn:E;
    [done|].
  apply getLines_exit in E as [Hne Hlt]. exfalso.
  cbn [view withSelection section emptyDoc] in Hne, Hlt.
  destruct Hin as [H0|Hin]; [done|].
  destruct (selectionCompare options); cbn [s_off] in Hlt; lia.
Qed.

Lemma getLines_throws_outside v options m progress :
  ~ sectionInside v options ->
  (getLines (withSelection options (emptyDoc v) m) options progress).2.2 = Thrown.
Proof.
  intros Hout. apply getLines_exit.
  cbn [view withSelection section emptyDoc].
  split.
  - intros H0. apply Hout. by left.
  - destruct (Z.lt_ge_cases (lineCount v)
                (s_off (if selectionCompare options
                        then {| s_off := (selections options (viewId v)).1;
                                s_len := (selections options (viewId v)).2
                                         - (selections options (viewId v)).1 + 1 |}
                        else {| s_off := 0; s_len := 0 |}))) as [H|H]; [done|].
    exfalso. apply Hout. right.
    destruct (selectionCompare options); cbn [s_off] in H; lia.
Qed.

(** C10: when both sections lie inside their documents (so that [getLines]
    returns) and the run is not cancelled, the find-unique mode answers
    COMPARE_MATCH exactly when the two documents have the same set of
    normalized line hashes; how often a hash occurs on either side plays no
    part. *)
Theorem C10_runFindUnique_match_iff_same_hash_set
    (mainView subView : View) (options : CompareOptions) (progress : Progress) :
  sectionInside mainView options ->
  sectionInside subView options ->
  never_cancels progress ->
  (runFindUnique mainView subView options progress).1.1 = Returns COMPARE_MATCH
  <-> hashSet (extractedLines mainView options) = hashSet (extractedLines subView options).
Proof.
  intros Hin1 Hin2 Hp. unfold runFindUnique, extractedLines.
  set (m1 := if oldFileViewId options =? MAIN_VIEW then MARKER_MASK_REMOVED else MARKER_MASK_ADDED).
  set (m2 := if oldFileViewId options =? MAIN_VIEW then MARKER_MASK_ADDED else MARKER_MASK_REMOVED).
  rewrite (getLines_mask_irrelevant mainView options MARKER_MASK_ADDED m1).
  rewrite (getLines_mask_irrelevant subView options MARKER_MASK_ADDED m2).
  destruct (getLines_never_cancels (withSelection options (emptyDoc mainView) m1) options
              progress Hp) as [E1 Hp1].
  pose proof (getLines_returns_inside mainView options m1 progress Hin1) as Hx1.
  destruct (getLines (withSelection options (emptyDoc mainView) m1) options progress)
    as [doc1 [p1 x1]]. simpl in E1, Hp1, Hx1. rewrite <- E1. subst x1.
  destruct (poll_never_cancels p1 Hp1) as [Hgo Hp2].
  destruct (poll p1) as [go p2]. simpl in Hgo, Hp2. subst go. cbn [negb].
  destruct (getLines_never_cancels (withSelection options (emptyDoc subView) m2) options
              p2 Hp2) as [E2 Hp3].
  pose proof (getLines_returns_inside subView options m2 p2 Hin2) as Hx2.
  destruct (getLines (withSelection options (emptyDoc subView) m2) options p2)
    as [doc2 [p3 x2]]. simpl in E2, Hp3, Hx2. rewrite <- E2. subst x2.
  destruct (poll_never_cancels p3 Hp3) as [Hgo Hp4].
  destruct (poll p3) as [go p4]. simpl in Hgo, Hp4. subst go. cbn [negb].
  pose proof (findUniqueCore_match doc1 doc2 p4 Hp4) as Hcore.
  destruct (findUniqueCore doc1 doc2 p4) as [[result marks] alignmentInfo].
  simpl in Hcore. simpl. rewrite <- Hcore. split; [by intros [= ->]|by intros ->].
Qed.

Lemma C10_witness :
  (runFindUnique (sampleView [97; 10; 97] [0; 2] [1; 3]) (sampleView [97] [0] [1])
     (sampleOptions false false false 50) None).1.1 = Returns COMPARE_MATCH.
Proof.
  destruct (C10_runFindUnique_match_iff_same_hash_set
              (sampleView [97; 10; 97] [0; 2] [1; 3]) (sampleView [97] [0] [1])
              (sampleOptions false false false 50) None) as [_ H].
  - right. vm_compute. discriminate.
  - right. vm_compute. discriminate.
  - exact I.
  -
  apply H. clear H. unfold hashSet.
  replace (extractedLines (sampleView [97; 10; 97] [0; 2] [1; 3])
             (sampleOptions false false false 50))
    with [ {| ln_line := 0; ln_hash := Hash cHashSeed 97 |};
           {| ln_line := 1; ln_hash := Hash cHashSeed 97 |} ] by (vm_compute; reflexivity).
  replace (extractedLines (sampleView [97] [0] [1]) (sampleOptions false false false 50))
    with [ {| ln_line := 0; ln_hash := Hash cHashSeed 97 |} ] by (vm_compute; reflexivity).
  cbn [map ln_hash]. generalize (Hash cHashSeed 97). intros h.
  apply set_eq. intros x. rewrite !elem_of_list_to_set, !elem_of_cons.
  rewrite elem_of_nil. tauto.
Defined.

(** ** Move detector: the best match *)

Lemma scanBack_spec steps cond l m l' m' :
  scanBack steps cond l m = (l', m') ->
  l' <= l /\ l - l' = m - m' /\ (l' = l \/ cond (l' + 1) (m' + 1) = true).
Proof.
  revert l m. induction steps as [|n IH]; intros l m H; simpl in H.
  - injection H as <- <-. lia.
  - destruct (cond l m) eqn:E.
    + apply IH in H as (H1 & H2 & [H3|H3]).
      * subst l'. replace (l - 1 + 1) with l in * by lia.
        assert (m' + 1 = m) as Hm by lia. split; [lia|]. split; [lia|].
        right. replace (l - 1 + 1) with l by lia. by rewrite Hm.
      * split; [lia|]. split; [lia|]. by right.
    + injection H as <- <-. lia.
Qed.

Lemma scanForth_spec steps cond l m l' m' :
  scanForth steps cond l m = (l', m') ->
  l <= l' /\ l' - l = m' - m /\ (l' = l \/ cond (l' - 1) (m' - 1) = true).
Proof.
  revert l m. induction steps as [|n IH]; intros l m H; simpl in H.
  - injection H as <- <-. lia.
  - destruct (cond l m) eqn:E.
    + apply IH in H as (H1 & H2 & [H3|H3]).
      * subst l'. assert (m' - 1 = m) as Hm by lia. split; [lia|]. split; [lia|].
        right. replace (l + 1 - 1) with l by lia. by rewrite Hm.
      * split; [lia|]. split; [lia|]. by right.
    + injection H as <- <-. lia.
Qed.

(** The bounds on [steps] lose nothing: where the recursion stops, the loop
    condition of the source is false. *)
Lemma scanBack_exit pL pM lookupDiff matchDiff mlu l m l' m' :
  scanBack (Z.to_nat (l + 1)) (backCond pL pM lookupDiff matchDiff mlu) l m = (l', m') ->
  backCond pL pM lookupDiff matchDiff mlu l' m' = false.
Proof.
  remember (Z.to_nat (l + 1)) as n eqn:Hn. revert l m Hn.
  induction n as [|n IH]; intros l m Hn H; simpl in H.
  - injection H as <- <-. unfold backCond.
    destruct (0 <=? l) eqn:E; [apply Z.leb_le in E; lia|done].
  - destruct (backCond pL pM lookupDiff matchDiff mlu l m) eqn:E.
    + eapply IH; [|exact H]. lia.
    + by injection H as <- <-.
Qed.

Lemma scanForth_exit pL pM lookupDiff matchDiff l m l' m' :
  scanForth (Z.to_nat (d_len lookupDiff - l)) (forthCond pL pM lookupDiff matchDiff) l m
  = (l', m') ->
  forthCond pL pM lookupDiff matchDiff l' m' = false.
Proof.
  remember (Z.to_nat (d_len lookupDiff - l)) as n eqn:Hn. revert l m Hn.
  induction n as [|n IH]; intros l m Hn H; simpl in H.
  - injection H as <- <-. unfold forthCond.
    destruct (l <? d_len lookupDiff) eqn:E; [apply Z.ltb_lt in E; lia|done].
  - destruct (forthCond pL pM lookupDiff matchDiff l m) eqn:E.
    + eapply IH; [|exact H]. lia.
    + by injection H as <- <-.
Qed.

Lemma runAt_inBlocks pL pM lookupDiff lookupOff k matchDiff mlu matchOff :
  0 <= mlu <= matchOff -> matchOff < d_len matchDiff ->
  runInBlocks lookupDiff matchDiff lookupOff
    (runAt pL pM lookupDiff lookupOff k matchDiff mlu matchOff)
  /\ r_diff (runAt pL pM lookupDiff lookupOff k matchDiff mlu matchOff) = k.
Proof.
  intros Hm Hlt. unfold runAt.
  destruct (scanBack _ _ _ _) as [ls ms] eqn:Eb.
  destruct (scanForth _ _ _ _) as [le me] eqn:Ef.
  apply scanBack_spec in Eb as (Hb1 & Hb2 & Hb3).
  apply scanForth_spec in Ef as (Hf1 & Hf2 & Hf3).
  split; [|done]. unfold runInBlocks. cbn [r_len r_lookupStart r_matchStart].
  assert (Hbc : (0 <= lookupOff -> 0 <= ls + 1) /\ mlu <= ms + 1).
  { destruct Hb3 as [->|Hc]; [lia|]. unfold backCond in Hc.
    apply andb_true_iff in Hc as [Hc _]. apply andb_true_iff in Hc as [Hc _].
    apply andb_true_iff in Hc as [Hc1 Hc2].
    apply Z.leb_le in Hc1. apply Z.leb_le in Hc2. lia. }
  assert (Hfc : (lookupOff < d_len lookupDiff -> le <= d_len lookupDiff) /\ me <= d_len matchDiff).
  { destruct Hf3 as [->|Hc]; [lia|]. unfold forthCond in Hc.
    apply andb_true_iff in Hc as [Hc _]. apply andb_true_iff in Hc as [Hc _].
    apply andb_true_iff in Hc as [Hc _]. apply andb_true_iff in Hc as [Hc1 Hc2].
    apply Z.ltb_lt in Hc1. apply Z.ltb_lt in Hc2. lia. }
  lia.
Qed.

Lemma getNextUnmoved_gt info line next :
  getNextUnmoved info line = Some next -> line < next.
Proof.
  unfold getNextUnmoved. destruct (List.find (inMove line) (moves info)) as [mv|] eqn:E; [|done].
  intros [= <-]. apply find_some in E as [_ E]. unfold inMove in E.
  apply andb_true_iff in E as [_ E]. by apply Z.ltb_lt in E.
Qed.

Lemma blockRuns_inBlocks pL pM lookupDiff lookupOff steps k matchDiff mlu matchOff :
  0 <= mlu <= matchOff ->
  Forall (fun run => runInBlocks lookupDiff matchDiff lookupOff run /\ r_diff run = k)
         (blockRuns pL pM lookupDiff lookupOff steps k matchDiff mlu matchOff).
Proof.
  revert mlu matchOff. induction steps as [|n IH]; intros mlu matchOff Hm; simpl; [constructor|].
  destruct (matchOff <? d_len matchDiff) eqn:Elt; [|constructor].
  apply Z.ltb_lt in Elt.
  destruct (lineEq _ _ _ _); cbn [negb]; [|apply IH; lia].
  destruct (getNextUnmoved (d_info matchDiff) matchOff) as [next|] eqn:En.
  - apply getNextUnmoved_gt in En. apply IH. lia.
  - constructor; [by apply runAt_inBlocks|]. apply IH. lia.
Qed.

Lemma scanBlock_fold pL pM lookupDiff lookupOff steps k matchDiff mlu matchOff st :
  scanBlock pL pM lookupDiff lookupOff steps k matchDiff mlu matchOff st
  = fold_left considerRun (blockRuns pL pM lookupDiff lookupOff steps k matchDiff mlu matchOff) st.
Proof.
  revert mlu matchOff st. induction steps as [|n IH]; intros mlu matchOff st; simpl; [done|].
  destruct (matchOff <? d_len matchDiff); [|done].
  destruct (lineEq _ _ _ _); cbn [negb]; [|apply IH].
  destruct (getNextUnmoved (d_info matchDiff) matchOff); apply IH.
Qed.

Lemma considerRun_inv st run : scanInv st -> 1 <= r_len run -> scanInv (considerRun st run).
Proof.
  destruct st as [mi mm]. unfold scanInv, considerRun. cbn [fst snd]. intros [H1 H2] Hr.
  destruct (mi_matchLen mi <? r_len run) eqn:E1; cbn [fst snd mi_matchLen]; [lia|].
  destruct (mi_matchLen mi =? r_len run); cbn [fst snd mi_matchLen]; lia.
Qed.

Lemma fold_considerRun_inv rs st :
  scanInv st -> Forall (fun run => 1 <= r_len run) rs -> scanInv (fold_left considerRun rs st).
Proof.
  revert st. induction rs as [|r rs IH]; intros st Hst Hrs; [done|].
  inversion Hrs; subst. simpl. apply IH; [by apply considerRun_inv|done].
Qed.

Lemma fold_considerRun_short rs st :
  Forall (fun run => r_len run < mi_matchLen st.1) rs -> fold_left considerRun rs st = st.
Proof.
  induction rs as [|r rs IH]; intros Hrs; [done|].
  inversion Hrs; subst. simpl.
  assert (considerRun st r = st) as ->.
  { destruct st as [mi mm]. unfold considerRun. cbn [fst] in *.
    destruct (mi_matchLen mi <? r_len r) eqn:E1; [apply Z.ltb_lt in E1; lia|].
    destruct (mi_matchLen mi =? r_len r) eqn:E2; [apply Z.eqb_eq in E2; lia|done]. }
  by apply IH.
Qed.

Lemma scanBlocks_fold pL pM lookupDiff lookupOff matchType k blocks st :
  scanInv st ->
  scanBlocks pL pM lookupDiff lookupOff matchType k blocks st
  = fold_left considerRun (allRuns pL pM lookupDiff lookupOff matchType k blocks) st.
Proof.
  revert k st. induction blocks as [|matchDiff rest IH]; intros k st Hst; simpl; [done|].
  rewrite fold_left_app.
  pose proof (blockRuns_inBlocks pL pM lookupDiff lookupOff (Z.to_nat (d_len matchDiff)) k
                matchDiff 0 0 ltac:(lia)) as Hruns.
  assert (Hlen : Forall (fun run => 1 <= r_len run)
                   (blockRuns pL pM lookupDiff lookupOff (Z.to_nat (d_len matchDiff)) k
                      matchDiff 0 0)).
  { eapply Forall_impl; [exact Hruns|]. intros r [Hr _]. apply Hr. }
  destruct (eqb_diff_type (d_type matchDiff) matchType); cbn [negb orb].
  - destruct (d_len matchDiff <? st.2) eqn:E.
    + apply Z.ltb_lt in E.
      assert (fold_left considerRun
                (blockRuns pL pM lookupDiff lookupOff (Z.to_nat (d_len matchDiff)) k
                   matchDiff 0 0) st = st) as ->.
      { destruct Hst as [Hst1 Hst2].
        destruct (Z.le_gt_cases (d_len matchDiff) 0) as [Hz|Hz].
        - replace (Z.to_nat (d_len matchDiff)) with 0%nat by lia. done.
        - apply fold_considerRun_short. eapply Forall_impl; [exact Hruns|].
          intros r [(H1 & H2 & H3 & H4 & H5 & H6) _]. simpl. lia. }
      by apply IH.
    + rewrite scanBlock_fold. apply IH. by apply fold_considerRun_inv.
  - simpl. by apply IH.
Qed.

Lemma scanInv_init : scanInv (noMatch, 1).
Proof. unfold scanInv. simpl. lia. Qed.

Lemma findBestMatch_fold cmpInfo lookupDiff lookupOff :
  findBestMatch cmpInfo lookupDiff lookupOff
  = (fold_left considerRun (candidateRuns cmpInfo lookupDiff lookupOff) (noMatch, 1)).1.
Proof.
  unfold findBestMatch, candidateRuns.
  destruct (lookupSides cmpInfo lookupDiff) as [[pL pM] matchType].
  rewrite scanBlocks_fold; [done|apply scanInv_init].
Qed.

Lemma allRuns_inBlocks pL pM lookupDiff lookupOff matchType k blocks :
  Forall (fun run => exists matchDiff,
              blocks !! (r_diff run - k)%nat = Some matchDiff
              /\ (k <= r_diff run)%nat
              /\ runInBlocks lookupDiff matchDiff lookupOff run)
         (allRuns pL pM lookupDiff lookupOff matchType k blocks).
Proof.
  revert k. induction blocks as [|matchDiff rest IH]; intros k; simpl; [constructor|].
  apply Forall_app. split.
  - destruct (eqb_diff_type (d_type matchDiff) matchType); [|constructor].
    eapply Forall_impl; [apply blockRuns_inBlocks; lia|].
    intros r [Hr ->]. exists matchDiff. rewrite Nat.sub_diag. done.
  - eapply Forall_impl; [apply IH|].
    intros r (md & H1 & H2 & H3). exists md. split; [|split; [lia|done]].
    replace (r_diff r - k)%nat with (S (r_diff r - S k)) by lia. done.
Qed.

Lemma candidateRuns_inBlocks cmpInfo lookupDiff lookupOff :
  Forall (fun run => exists matchDiff,
              blockDiffs cmpInfo !! r_diff run = Some matchDiff
              /\ runInBlocks lookupDiff matchDiff lookupOff run)
         (candidateRuns cmpInfo lookupDiff lookupOff).
Proof.
  unfold candidateRuns. destruct (lookupSides cmpInfo lookupDiff) as [[pL pM] matchType].
  eapply Forall_impl; [apply allRuns_inBlocks|].
  intros r (md & H1 & _ & H3). exists md. by rewrite Nat.sub_0_r in H1.
Qed.

Lemma fold_considerRun_origin rs st m :
  mi_matchDiff (fold_left considerRun rs st).1 = Some m ->
  (fold_left considerRun rs st).1 = st.1 \/ exists run, In run rs /\ (fold_left considerRun rs st).1 = miOfRun run.
Proof.
  revert st. induction rs as [|r rs IH]; intros st H; [by left|].
  simpl in *. destruct (IH _ H) as [E|(run & Hin & E)].
  - rewrite E in *. destruct st as [mi mm]. unfold considerRun in *.
    destruct (mi_matchLen mi <? r_len r).
    + right. exists r. split; [by left|done].
    + destruct (mi_matchLen mi =? r_len r); [|by left].
      simpl in H. done.
  - right. exists run. split; [by right|done].
Qed.

Lemma findBestMatch_origin cmpInfo lookupDiff lookupOff m :
  mi_matchDiff (findBestMatch cmpInfo lookupDiff lookupOff) = Some m ->
  exists run matchDiff,
    findBestMatch cmpInfo lookupDiff lookupOff = miOfRun run
    /\ r_diff run = m
    /\ blockDiffs cmpInfo !! m = Some matchDiff
    /\ runInBlocks lookupDiff matchDiff lookupOff run.
Proof.
  rewrite findBestMatch_fold. intros H.
  destruct (fold_considerRun_origin _ _ _ H) as [E|(run & Hin & E)].
  - rewrite E in H. done.
  - pose proof (candidateRuns_inBlocks cmpInfo lookupDiff lookupOff) as Hall.
    rewrite Forall_forall in Hall. apply list_elem_of_In in Hin.
    destruct (Hall run Hin) as (md & H1 & H2).
    rewrite E in H. simpl in H. injection H as <-.
    exists run, md. done.
Qed.

Lemma considerRun_cases st run :
  (mi_matchLen st.1 < r_len run -> (considerRun st run).1 = miOfRun run)
  /\ (r_len run <= mi_matchLen st.1 ->
      mi_lookupOff (considerRun st run).1 = mi_lookupOff st.1
      /\ mi_matchOff (considerRun st run).1 = mi_matchOff st.1
      /\ mi_matchLen (considerRun st run).1 = mi_matchLen st.1)
  /\ (r_len run = mi_matchLen st.1 -> mi_matchDiff (considerRun st run).1 = None)
  /\ (r_len run < mi_matchLen st.1 -> (considerRun st run).1 = st.1).
Proof.
  destruct st as [mi mm]. unfold considerRun. cbn [fst].
  destruct (mi_matchLen mi <? r_len run) eqn:E1;
    [apply Z.ltb_lt in E1|apply Z.ltb_ge in E1];
    (destruct (mi_matchLen mi =? r_len run) eqn:E2;
     [apply Z.eqb_eq in E2|apply Z.eqb_neq in E2]);
    cbn [fst mi_lookupOff mi_matchOff mi_matchLen mi_matchDiff];
    repeat split; intros; try lia; done.
Qed.

(** C1: [findBestMatch] folds the candidate runs, in scan order, into the
    best match: every candidate run is at least 1 long; a candidate
    replaces the best seen so far when it is strictly longer, and leaves
    the recorded run as it is otherwise; a candidate exactly as long as the
    best seen so far resets [matchDiff] to null, whichever block it lies
    in, so in particular when it lies in a different block. *)
Theorem C1_findBestMatch_strictly_longer_replaces_tie_nulls
    (cmpInfo : CompareInfo) (lookupDiff : diffInfo) (lookupOff : Z) :
  let runs := candidateRuns cmpInfo lookupDiff lookupOff in
  let best := fun rs : list Run => (fold_left considerRun rs (noMatch, 1)).1 in
  findBestMatch cmpInfo lookupDiff lookupOff = best runs
  /\ forall pre run post, runs = pre ++ run :: post ->
       1 <= r_len run
       /\ (mi_matchLen (best pre) < r_len run -> best (pre ++ [run]) = miOfRun run)
       /\ (r_len run <= mi_matchLen (best pre) ->
           mi_lookupOff (best (pre ++ [run])) = mi_lookupOff (best pre)
           /\ mi_matchOff (best (pre ++ [run])) = mi_matchOff (best pre)
           /\ mi_matchLen (best (pre ++ [run])) = mi_matchLen (best pre))
       /\ (r_len run = mi_matchLen (best pre) -> mi_matchDiff (best (pre ++ [run])) = None)
       /\ (r_len run < mi_matchLen (best pre) -> best (pre ++ [run]) = best pre).
Proof.
  cbv zeta. split; [apply findBestMatch_fold|].
  intros pre run post Hruns.
  pose proof (candidateRuns_inBlocks cmpInfo lookupDiff lookupOff) as Hall.
  rewrite Hruns in Hall. apply Forall_app in Hall as [_ Hall].
  apply Forall_cons in Hall as [(md & _ & Hrun & _) _].
  split; [exact Hrun|].
  rewrite fold_left_app. cbn [fold_left]. apply considerRun_cases.
Qed.

Lemma C1_witness :
  mi_matchDiff
    (fold_left considerRun
       ([ {| r_diff := 0; r_lookupStart := 0; r_matchStart := 0; r_len := 1 |} ]
          ++ [ {| r_diff := 4; r_lookupStart := 0; r_matchStart := 0; r_len := 1 |} ])
       (noMatch, 1)).1 = None.
Proof.
  destruct (C1_findBestMatch_strictly_longer_replaces_tie_nulls
              tiedBlocks (freshBlock DIFF_IN_1 1 1) 0) as [_ H].
  destruct (H [ {| r_diff := 0; r_lookupStart := 0; r_matchStart := 0; r_len := 1 |} ]
              {| r_diff := 4; r_lookupStart := 0; r_matchStart := 0; r_len := 1 |} []
              ltac:(reflexivity)) as (_ & _ & _ & Htie & _).
  apply Htie. reflexivity.
Defined.

Lemma sameBlocks_refl c : sameBlocks c c.
Proof. repeat split. eauto. Qed.

Lemma sameBlocks_trans c1 c2 c3 : sameBlocks c1 c2 -> sameBlocks c2 c3 -> sameBlocks c1 c3.
Proof.
  intros (A1 & A2 & A3 & A4) (B1 & B2 & B3 & B4).
  split; [congruence|]. split; [congruence|]. split; [congruence|].
  intros k d Hd. destruct (A4 k d Hd) as (d' & Hd' & E1 & E2 & E3).
  destruct (B4 k d' Hd') as (d'' & Hd'' & F1 & F2 & F3).
  exists d''. repeat split; congruence.
Qed.

Lemma addMove_sameBlocks k off len c : sameBlocks c (addMove k off len c).
Proof.
  unfold addMove, sameBlocks. cbn [doc1 doc2 blockDiffs].
  split; [done|]. split; [done|]. split; [by rewrite length_alter|].
  intros j d Hd. destruct (decide (k = j)) as [->|Hne].
  - rewrite list_lookup_alter_eq, Hd. simpl. eauto.
  - rewrite list_lookup_alter_ne by done. eauto.
Qed.

Lemma addMove_movesOk k off len c :
  movesOk c ->
  (forall d, blockDiffs c !! k = Some d -> 0 <= off /\ 0 < len /\ off + len <= d_len d) ->
  movesOk (addMove k off len c).
Proof.
  unfold movesOk, addMove. cbn [blockDiffs]. intros Hok Hspan.
  apply Forall_lookup. intros j d' Hd'.
  destruct (decide (k = j)) as [->|Hne].
  - rewrite list_lookup_alter_eq in Hd'.
    destruct (blockDiffs c !! j) as [d|] eqn:Ed; [|done].
    simpl in Hd'. injection Hd' as <-.
    unfold movesInBounds. cbn [d_info moves d_len].
    apply Forall_app. split.
    + rewrite Forall_lookup in Hok. apply (Hok j d Ed).
    + constructor; [|constructor]. unfold spanInBlock. cbn [s_off s_len d_len].
      by apply Hspan.
  - rewrite list_lookup_alter_ne in Hd' by done.
    rewrite Forall_lookup in Hok. by apply (Hok j).
Qed.

Lemma findBestMatch_valid c l lb lookupOff :
  blockDiffs c !! l = Some lb -> 0 <= lookupOff < d_len lb ->
  validMatch c l lookupOff (findBestMatch c lb lookupOff).
Proof.
  intros Hl Hoff m Hm.
  destruct (findBestMatch_origin c lb lookupOff m Hm) as (run & md & E & <- & Hmd & Hrun).
  rewrite E. cbn [miOfRun mi_matchLen mi_lookupOff mi_matchOff].
  destruct Hrun as (H1 & H2 & H3 & H4 & H5 & H6).
  exists lb, md. repeat split; try done; lia.
Qed.

Lemma resolveMatch_invariant fuel c l lookupOff mi ret c' mi' :
  movesOk c -> validMatch c l lookupOff mi ->
  resolveMatch fuel c l lookupOff mi = Some (ret, c', mi') ->
  movesOk c' /\ sameBlocks c c'
  /\ (ret = false -> c' = c)
  /\ (mi' = mi \/ mi_matchLen mi' = 0).
Proof.
  revert c l lookupOff mi ret c' mi'.
  induction fuel as [|n IH]; intros c l lookupOff mi ret c' mi' Hok Hv H; [done|].
  cbn [resolveMatch] in H.
  destruct (mi_matchDiff mi) as [m|] eqn:Em.
  2:{ injection H as <- <- <-. split; [done|]. split; [apply sameBlocks_refl|]. by split; [|left]. }
  destruct (Hv m Em) as (lb & mb & Hl & Hmb & V1 & V2 & V3 & V4 & V5 & V6).
  rewrite Hmb in H. cbn [mbind option_bind] in H.
  set (off' := mi_matchOff mi + (lookupOff - mi_lookupOff mi)) in *.
  destruct (mi_matchDiff (findBestMatch c mb off')) as [r|] eqn:Er.
  2:{ injection H as <- <- <-. split; [done|]. split; [apply sameBlocks_refl|]. by split; [|left]. }
  destruct (bool_decide (r = l)) eqn:Erl.
  - injection H as <- <- <-.
    pose proof (addMove_sameBlocks l (mi_lookupOff mi) (mi_matchLen mi) c) as S1.
    assert (movesOk (addMove l (mi_lookupOff mi) (mi_matchLen mi) c)) as Hok1.
    { apply addMove_movesOk; [done|]. intros d Hd. rewrite Hl in Hd. injection Hd as <-. lia. }
    split; [|split; [|split; [done|by left]]].
    + apply addMove_movesOk; [done|]. intros d Hd.
      destruct S1 as (_ & _ & _ & S1). destruct (S1 m mb Hmb) as (d' & Hd' & E1 & _).
      rewrite Hd' in Hd. injection Hd as <-. lia.
    + eapply sameBlocks_trans; [exact S1|apply addMove_sameBlocks].
  - destruct (resolveMatch n c m off' (findBestMatch c mb off')) as [[[ret1 c1] mi1]|] eqn:Erec;
      [|done].
    cbn [mbind option_bind] in H. injection H as <- <- <-.
    apply IH in Erec as (R1 & R2 & R3 & _); [| done |].
    + split; [done|]. split; [done|]. split; [done|]. by right.
    + apply findBestMatch_valid; [done|]. unfold off'. lia.
Qed.

Lemma lookupLoop_invariant fuel c l lookupEi repeat :
  movesOk c -> 0 <= lookupEi ->
  movesOk (lookupLoop fuel c l lookupEi repeat).1.1
  /\ sameBlocks c (lookupLoop fuel c l lookupEi repeat).1.1.
Proof.
  revert c lookupEi repeat.
  induction fuel as [|n IH]; intros c lookupEi repeat Hok Hei;
    [split; [done|apply sameBlocks_refl]|].
  cbn [lookupLoop].
  destruct (blockDiffs c !! l) as [lb|] eqn:El; [|split; [done|apply sameBlocks_refl]].
  destruct (lookupEi <? d_len lb) eqn:Elt; [|split; [done|apply sameBlocks_refl]].
  apply Z.ltb_lt in Elt.
  destruct (getNextUnmoved (d_info lb) lookupEi) as [next|] eqn:En.
  { apply getNextUnmoved_gt in En. apply IH; [done|lia]. }
  pose proof (findBestMatch_valid c l lb lookupEi El ltac:(lia)) as Hv.
  destruct (resolveMatch n c l lookupEi (findBestMatch c lb lookupEi))
    as [[[ret c1] mi1]|] eqn:Er; [|split; [done|apply sameBlocks_refl]].
  destruct (resolveMatch_invariant _ _ _ _ _ _ _ _ Hok Hv Er) as (R1 & R2 & R3 & R4).
  destruct ret.
  - assert (0 <= (if mi_matchLen mi1 =? 0 then lookupEi else mi_lookupOff mi1 + mi_matchLen mi1))
      as Hnext.
    { destruct (mi_matchLen mi1 =? 0) eqn:Ez; [done|]. apply Z.eqb_neq in Ez.
      destruct R4 as [->|R4]; [|done].
      destruct (mi_matchDiff (findBestMatch c lb lookupEi)) as [m|] eqn:Em.
      - destruct (Hv m Em) as (? & ? & ? & ? & ? & ? & ? & ?). lia.
      - destruct n; [done|]. cbn [resolveMatch] in Er. rewrite Em in Er. done. }
    destruct (IH c1 _ true R1 Hnext) as [I1 I2].
    split; [done|]. eapply sameBlocks_trans; [exact R2|exact I2].
  - destruct (IH c1 (lookupEi + 1) repeat R1 ltac:(lia)) as [I1 I2].
    split; [done|]. eapply sameBlocks_trans; [exact R2|exact I2].
Qed.

Lemma blocksLoop_invariant fuel c ls repeat :
  movesOk c ->
  movesOk (blocksLoop fuel c ls repeat).1.1 /\ sameBlocks c (blocksLoop fuel c ls repeat).1.1.
Proof.
  revert c repeat. induction ls as [|l rest IH]; intros c repeat Hok;
    [split; [done|apply sameBlocks_refl]|].
  cbn [blocksLoop].
  destruct (blockDiffs c !! l) as [lb|] eqn:El; [|by apply IH].
  destruct (eqb_diff_type (d_type lb) DIFF_IN_1); [|by apply IH].
  destruct (lookupLoop_invariant fuel c l 0 repeat Hok ltac:(lia)) as [L1 L2].
  destruct (lookupLoop fuel c l 0 repeat) as [[c1 repeat1] finished].
  cbn [fst] in L1, L2. destruct finished; [|done].
  destruct (IH c1 repeat1 L1) as [I1 I2].
  split; [done|]. eapply sameBlocks_trans; [exact L2|exact I2].
Qed.

Lemma findMoves_invariant fuel c :
  movesOk c -> movesOk (findMoves fuel c).1 /\ sameBlocks c (findMoves fuel c).1.
Proof.
  revert c. induction fuel as [|n IH]; intros c Hok; [split; [done|apply sameBlocks_refl]|].
  cbn [findMoves].
  destruct (blocksLoop_invariant (S n) c (seq 0 (length (blockDiffs c))) false Hok) as [B1 B2].
  destruct (blocksLoop (S n) c (seq 0 (length (blockDiffs c))) false) as [[c1 repeat] finished].
  cbn [fst] in B1, B2. destruct finished; cbn [negb]; [|done].
  destruct repeat; [|done].
  destruct (IH c1 B1) as [I1 I2]. split; [done|].
  eapply sameBlocks_trans; [exact B2|exact I2].
Qed.

(** The spans of one source example overlap: the scan to the left stops at
    [matchLastUnmoved] only, which a moved line with another hash never
    sets, while the scan to the right asks [movedSection] on both sides. *)
Example findMoves_twoSources_overlap :
  map (fun d => moves (d_info d)) (blockDiffs (findMoves 20 twoSources).1)
  = [ [ {| s_off := 0; s_len := 3 |} ]; []; [ {| s_off := 0; s_len := 2 |} ]; [];
      [ {| s_off := 0; s_len := 3 |}; {| s_off := 2; s_len := 2 |} ] ]
  /\ (findMoves 20 twoSources).2 = true.
Proof. vm_compute. done. Qed.

(** C2, as stated, fails: on side 1 = A B x y z and side 2 = x y z B A the
    detector finishes and leaves the added block with the moves (1,1), (0,1)
    in commit order, which is not ascending. *)
Lemma C2_counterexample :
  (findMoves 20 swappedPair).2 = true
  /\ ~ (forall d, d ∈ blockDiffs (findMoves 20 swappedPair).1 ->
          sortedByOffset (moves (d_info d)) = true
          /\ pairwiseDisjoint (moves (d_info d)) = true
          /\ movesInBounds d).
Proof.
  split; [vm_compute; done|]. intros H.
  destruct (H {| d_type := DIFF_IN_2; d_off := 3; d_len := 2;
                 d_info := {| matchBlock := None; changedLines := [];
                              moves := [ {| s_off := 1; s_len := 1 |};
                                         {| s_off := 0; s_len := 1 |} ] |} |}) as [Hs _].
  - vm_compute. do 2 right. left.
  - vm_compute in Hs. done.
Qed.

(** C2, amended: whatever the number of steps run, every span in every
    block's [moves] has a positive length and lies within [0, block.len),
    and the detector changes nothing else of the blocks (the spans are kept
    in the order in which the moves were committed). *)
Theorem C2_moves_lie_within_their_block (fuel : nat) (cmpInfo : CompareInfo) :
  Forall movesInBounds (blockDiffs cmpInfo) ->
  Forall movesInBounds (blockDiffs (findMoves fuel cmpInfo).1)
  /\ sameBlocks cmpInfo (findMoves fuel cmpInfo).1.
Proof. apply findMoves_invariant. Qed.

Lemma C2_witness :
  Forall movesInBounds (blockDiffs (findMoves 20 swappedPair).1)
  /\ sameBlocks swappedPair (findMoves 20 swappedPair).1.
Proof.
  apply (C2_moves_lie_within_their_block 20 swappedPair).
  repeat constructor.
Defined.

(** ** Intra-line refinement *)

Lemma last_snoc' {A} (l : list A) (x : A) : last (l ++ [x]) = Some x.
Proof. apply last_snoc. Qed.

Lemma addChange_pairOpen before side change st st' :
  pairOpen before st -> addChange side change st = Some st' -> pairOpen before st'.
Proof.
  intros (e1 & e2 & ->) H. unfold addChange, changedOn, setChangedOn in H.
  destruct side; cbn [fst snd] in H; rewrite last_snoc in H; injection H as <-;
    rewrite removelast_last; eexists _, _; reflexivity.
Qed.

Lemma pushLine_pairOpen before sw l1 l2 :
  pairOpen before (pushLine (negb sw) l2 (pushLine sw l1 before)).
Proof.
  destruct before as [a b]. destruct sw; cbn; eexists _, _; reflexivity.
Qed.

Lemma popLine_pairOpen before sw st :
  pairOpen before st ->
  (st'' ← popLine sw st; popLine (negb sw) st'') = Some before.
Proof.
  intros (e1 & e2 & ->). destruct before as [a b].
  unfold popLine, changedOn, setChangedOn. cbn [fst snd].
  destruct sw; cbn [negb fst snd].
  - destruct (b ++ [e2]) eqn:Eb; [by destruct b|]. rewrite <- Eb. cbn [mbind option_bind fst snd].
    destruct (a ++ [e1]) eqn:Ea; [by destruct a|]. rewrite <- Ea.
    by rewrite !removelast_last.
  - destruct (a ++ [e1]) eqn:Ea; [by destruct a|]. rewrite <- Ea. cbn [mbind option_bind fst snd].
    destruct (b ++ [e2]) eqn:Eb; [by destruct b|]. rewrite <- Eb.
    by rewrite !removelast_last.
Qed.

Section RealignFacts.
Context {F : Type}.
Variable DiffCalcWord : list Word -> list Word -> list segment * bool.
Variable DiffCalcChar : list Char -> list Char -> list segment * bool.
Variable IsCharAlphaNumericA : Z -> bool.

Lemma charSegLoop_pairOpen before pSec1 pSec2 off1 off2 pBD1 pBD2 sectionDiffs st st' :
  pairOpen before st ->
  charSegLoop pSec1 pSec2 off1 off2 pBD1 pBD2 sectionDiffs st = Some st' ->
  pairOpen before st'.
Proof.
  revert st. induction sectionDiffs as [|sd rest IH]; intros st Hst H; simpl in H.
  - by injection H as <-.
  - destruct (sg_type sd).
    + by eapply IH.
    + destruct (charSpan pSec1 off1 sd) as [change|]; [|done]. cbn in H.
      destruct (addChange pBD1 change st) as [st1|] eqn:E; [|done]. cbn in H.
      eapply IH; [|exact H]. by eapply addChange_pairOpen.
    + destruct (charSpan pSec2 off2 sd) as [change|]; [|done]. cbn in H.
      destruct (addChange pBD2 change st) as [st1|] eqn:E; [|done]. cbn in H.
      eapply IH; [|exact H]. by eapply addChange_pairOpen.
Qed.

Lemma matchEnds_pairOpen before pSec1 pSec2 off1 end1 off2 end2 pBD1 pBD2 st total r :
  pairOpen before st ->
  matchEnds pSec1 pSec2 off1 end1 off2 end2 pBD1 pBD2 st total = Some r ->
  match r with
  | MatchWhole st' _ | MatchEnds st' _ => pairOpen before st'
  | NoRefinement => True
  end.
Proof.
  intros Hst H. unfold matchEnds in H.
  destruct (startMatchLoop pSec1 pSec2) as [startMatch|]; [|done]. cbn in H.
  destruct (endMatchLoop _ _ _ _ _) as [endMatch|]; [|done]. cbn in H.
  destruct (negb (startMatch =? 0) || negb (endMatch =? 0)); [|by injection H as <-].
  match type of H with (?a ≫= _) = _ => destruct a as [st1|] eqn:E1; [|done] end.
  cbn in H.
  match type of H with (?a ≫= _) = _ => destruct a as [st2|] eqn:E2; [|done] end.
  cbn in H. injection H as <-.
  assert (pairOpen before st1) as H1.
  { destruct (if negb (startMatch =? 0) then _ else _) as [co|]; [|done]. cbn in E1.
    destruct (if negb (endMatch =? 0) then _ else _) as [ce|]; [|done]. cbn in E1.
    destruct (0 <? ce - co); [eapply addChange_pairOpen; [exact Hst|exact E1]|by injection E1 as <-]. }
  clear E1.
  destruct (if negb (startMatch =? 0) then _ else _) as [co|]; [|done]. cbn in E2.
  destruct (if negb (endMatch =? 0) then _ else _) as [ce|]; [|done]. cbn in E2.
  destruct (0 <? ce - co); [eapply addChange_pairOpen; [exact H1|exact E2]|by injection E2 as <-].
Qed.

Lemma refineSubstitution_pairOpen before options v1 v2 lo1 lo2 pL1 pL2 b1 b2 ld ld2 st total r :
  pairOpen before st ->
  refineSubstitution DiffCalcChar IsCharAlphaNumericA options v1 v2 lo1 lo2 pL1 pL2 b1 b2
    ld ld2 st total = Some r ->
  match r with
  | MatchWhole st' _ | MatchEnds st' _ => pairOpen before st'
  | NoRefinement => True
  end.
Proof.
  intros Hst H. unfold refineSubstitution in H.
  destruct (substitutionSides _ _ _ _ _ _ _ _ _ _ _ _ _) as [ss|];
    cbn [mbind option_bind] in H; [|done].
  destruct (negb _); [|by injection H as <-].
  destruct (_ =? _)%nat; [done|].
  destruct (_ <=? _).
  - destruct (charSegLoop _ _ _ _ _ _ _ _) as [st'|] eqn:E;
      cbn [mbind option_bind] in H; [|done].
    injection H as <-. by eapply charSegLoop_pairOpen.
  - by eapply matchEnds_pairOpen.
Qed.

Lemma wordSegLoop_pairOpen before options v1 v2 lo1 lo2 pL1 pL2 b1 b2 size lineDiffs
    st total st' total' :
  pairOpen before st ->
  wordSegLoop DiffCalcChar IsCharAlphaNumericA options v1 v2 lo1 lo2 pL1 pL2 b1 b2 size
    lineDiffs st total = Some (st', total') ->
  pairOpen before st'.
Proof.
  remember (length lineDiffs) as n eqn:Hn.
  revert lineDiffs Hn st total.
  induction n as [n IH] using lt_wf_ind. intros lineDiffs Hn st total Hst H.
  destruct lineDiffs as [|ld rest]; [by injection H as <- <-|].
  cbn [wordSegLoop] in H. simpl in Hn.
  assert (Hwhole : (change ← wordSpan pL1 ld;
                    st1 ← addChange b1 change st;
                    wordSegLoop DiffCalcChar IsCharAlphaNumericA options v1 v2 lo1 lo2 pL1 pL2
                      b1 b2 size rest st1 total) = Some (st', total') -> pairOpen before st').
  { intros Hw. destruct (wordSpan pL1 ld) as [change|]; [|done]. cbn [mbind option_bind] in Hw.
    destruct (addChange b1 change st) as [st1|] eqn:E; [|done]. cbn [mbind option_bind] in Hw.
    eapply (IH (length rest)); [lia|done| |exact Hw]. by eapply addChange_pairOpen. }
  destruct (sg_type ld).
  - destruct (addWordLens _ _ _ _) as [t|]; [|done]. cbn [mbind option_bind] in H.
    eapply (IH (length rest)); [lia|done|exact Hst|exact H].
  - destruct rest as [|ld2 rest']; [by apply Hwhole|].
    destruct (charPrecision options && eqb_diff_type (sg_type ld2) DIFF_IN_2);
      [|by apply Hwhole].
    destruct (refineSubstitution _ _ _ _ _ _ _ _ _ _ _ _ _ st total) as [r|] eqn:Er; [|done].
    cbn [mbind option_bind] in H. pose proof (refineSubstitution_pairOpen _ _ _ _ _ _ _ _ _ _ _ _ _ _ _ Hst Er) as Hr.
    destruct r as [st1 t1|st1 t1|].
    + eapply (IH (length rest')); [simpl in Hn; lia|done|exact Hr|exact H].
    + eapply (IH (length rest')); [simpl in Hn; lia|done|exact Hr|exact H].
    + destruct (size =? 2); [by simplify_eq|by apply Hwhole].
  - destruct (wordSpan pL2 ld) as [change|]; [|done]. cbn [mbind option_bind] in H.
    destruct (addChange b2 change st) as [st1|] eqn:E; [|done]. cbn [mbind option_bind] in H.
    eapply (IH (length rest)); [lia|done| |exact H]. by eapply addChange_pairOpen.
Qed.

Lemma comparePairBody_pairOpen doc1 doc2 off1 off2 options line1 line2 st st' total maxLen sw :
  comparePairBody DiffCalcWord DiffCalcChar IsCharAlphaNumericA doc1 doc2 off1 off2 options
    line1 line2 st = Some (st', total, maxLen, sw) ->
  pairOpen st st'.
Proof.
  unfold comparePairBody. intros H.
  destruct (vat (lines doc1) (off1 + line1)) as [l1|]; [|done]. cbn in H.
  destruct (vat (lines doc2) (off2 + line2)) as [l2|]; [|done]. cbn in H.
  destruct (DiffCalcWord _ _) as [lineDiffs swapped].
  destruct swapped.
  - destruct (wordSegLoop _ _ _ _ _ _ _ _ _ _ _ _ _ _ _) as [[st1 t1]|] eqn:E; [|done].
    cbn in H. injection H as <- <- <- <-.
    eapply wordSegLoop_pairOpen; [|exact E].
    apply (pushLine_pairOpen st true).
  - destruct (wordSegLoop _ _ _ _ _ _ _ _ _ _ _ _ _ _ _) as [[st1 t1]|] eqn:E; [|done].
    cbn in H. injection H as <- <- <- <-.
    eapply wordSegLoop_pairOpen; [|exact E].
    apply (pushLine_pairOpen st false).
Qed.

Lemma comparePair_lockstep doc1 doc2 off1 off2 options line1 line2 st st' :
  comparePair DiffCalcWord DiffCalcChar IsCharAlphaNumericA doc1 doc2 off1 off2 options
    line1 line2 st = Some st' ->
  st' = st \/ pairOpen st st'.
Proof.
  unfold comparePair. intros H.
  destruct (comparePairBody _ _ _ _ _ _ _ _ _ _ _) as [[[[st1 total] maxLen] sw]|] eqn:E;
    [|done].
  apply comparePairBody_pairOpen in E. cbn [mbind option_bind] in H.
  destruct (maxLen =? 0); [done|].
  destruct (_ <? _).
  - rewrite (popLine_pairOpen st sw st1 E) in H. left. by injection H.
  - right. by injection H as <-.
Qed.

Lemma compareLines_lockstep doc1 doc2 off1 off2 options
    (lineMappings : list (Z * (F * Z))) lastLine2 st st' :
  compareLines DiffCalcWord DiffCalcChar IsCharAlphaNumericA doc1 doc2 off1 off2 options
    lineMappings lastLine2 st = Some st' ->
  exists n, length st'.1 = (length st.1 + n)%nat /\ length st'.2 = (length st.2 + n)%nat.
Proof.
  revert lastLine2 st. induction lineMappings as [|lm rest IH]; intros lastLine2 st H.
  - injection H as <-. exists 0%nat. lia.
  - cbn [compareLines] in H. destruct (lm.2.2 <=? lastLine2); [by eapply IH|].
    destruct (comparePair _ _ _ _ _ _ _ _ _ _ _) as [st1|] eqn:E; [|done].
    cbn [mbind option_bind] in H. apply IH in H as (n & H1 & H2).
    apply comparePair_lockstep in E as [->|(e1 & e2 & ->)].
    + by exists n.
    + exists (S n). cbn [fst snd] in *. rewrite !length_app in *. simpl in *. lia.
Qed.

Variable F_of_int : Z -> F.
Variables Fadd Fmul Fdiv : F -> F -> F.
Variables Fltb Feqb Fleb : F -> F -> bool.

Lemma compareBlocks_lockstep doc1 doc2 blockDiff1 blockDiff2 options st :
  compareBlocks F_of_int Fadd Fmul Fdiv Fltb Feqb Fleb DiffCalcWord DiffCalcChar
    IsCharAlphaNumericA doc1 doc2 blockDiff1 blockDiff2 options = Some st ->
  exists n, length st.1 = (length (changedLines (d_info blockDiff1)) + n)%nat
            /\ length st.2 = (length (changedLines (d_info blockDiff2)) + n)%nat.
Proof.
  unfold compareBlocks. intros H.
  destruct (getChars _ doc1 _ _ _) as [chunk1|]; cbn [mbind option_bind] in H; [|done].
  destruct (getChars _ doc2 _ _ _) as [chunk2|]; cbn [mbind option_bind] in H; [|done].
  destruct (orderedLinesConvergence _ _ _ _ _ _ _ _ _ _ _ _ _) as [s|];
    cbn [mbind option_bind] in H; [|done].
  destruct (bestLineMappings _ _ _ _ _ _) as [best|]; cbn [mbind option_bind] in H; [|done].
  destruct (length best =? 0)%nat.
  - injection H as <-. exists 0%nat. cbn [fst snd]. lia.
  - apply compareLines_lockstep in H. exact H.
Qed.

Lemma eqb_diff_type_true a b : eqb_diff_type a b = true -> a = b.
Proof. by destruct a, b. Qed.

Lemma blockCompareLoop_linked m i c options progress c' finished :
  (1 <= i)%nat ->
  unlinkedEmpty (blockDiffs c) -> linkedInStep i (blockDiffs c) ->
  blockCompareLoop F_of_int Fadd Fmul Fdiv Fltb Feqb Fleb DiffCalcWord DiffCalcChar
    IsCharAlphaNumericA (seq i m) c options progress = Some (c', finished) ->
  unlinkedEmpty (blockDiffs c') /\ exists i', linkedInStep i' (blockDiffs c').
Proof.
  revert i c progress. induction m as [|m IH]; intros i c progress Hi HA HB H.
  { injection H as <- <-. eauto. }
  cbn [seq blockCompareLoop] in H.
  destruct (blockDiffs c !! i) as [bd2|] eqn:E2; cbn [mbind option_bind] in H; [|done].
  destruct (blockDiffs c !! (i - 1)%nat) as [bd1|] eqn:E1; cbn [mbind option_bind] in H; [|done].
  match type of H with (?a ≫= _) = _ => destruct a as [c1|] eqn:Ec1 end;
    cbn [mbind option_bind] in H; [|done].
  assert (unlinkedEmpty (blockDiffs c1) /\ linkedInStep (S i) (blockDiffs c1)) as [HA1 HB1].
  { destruct (eqb_diff_type (d_type bd2) DIFF_IN_2 && eqb_diff_type (d_type bd1) DIFF_IN_1)
      eqn:Et.
    2:{ injection Ec1 as <-. split; [done|]. intros k d j Hk Hj.
        destruct (HB k d j Hk Hj) as (? & ? & ? & ?). repeat split; try lia; done. }
    apply andb_true_iff in Et as [Et2 Et1].
    apply eqb_diff_type_true in Et1, Et2.
    match type of Ec1 with (?a ≫= _) = _ => destruct a as [st|] eqn:Est end;
      cbn [mbind option_bind] in Ec1; [|done].
    injection Ec1 as <-. cbn [blockDiffs].
    apply compareBlocks_lockstep in Est as (n & Hn1 & Hn2).
    cbn [linkBlock d_info changedLines] in Hn1, Hn2.
    assert (matchBlock (d_info bd2) = None) as Hu2.
    { destruct (matchBlock (d_info bd2)) as [j|] eqn:Ej; [|done].
      destruct (HB i bd2 j E2 Ej) as (? & _). lia. }
    assert (matchBlock (d_info bd1) = None) as Hu1.
    { destruct (matchBlock (d_info bd1)) as [j|] eqn:Ej; [|done].
      destruct (HB (i - 1)%nat bd1 j E1 Ej) as (_ & Hj & [[_ ->]|[Ht _]] & _); [lia|congruence]. }
    rewrite (HA _ _ E1 Hu1) in Hn1. rewrite (HA _ _ E2 Hu2) in Hn2. simpl in Hn1, Hn2.
    set (L1 := linkBlock (linkBlock bd1 i (changedLines (d_info bd1))) i st.1).
    set (L2 := linkBlock (linkBlock bd2 (i - 1) (changedLines (d_info bd2))) (i - 1) st.2).
    assert (Hlt2 : (i < length (blockDiffs c))%nat) by (by eapply lookup_lt_Some).
    assert (Hlt1 : (i - 1 < length (blockDiffs c))%nat) by (by eapply lookup_lt_Some).
    assert (Hlook : forall k,
               (<[i := L2]> (<[(i - 1)%nat := L1]> (blockDiffs c))) !! k
               = if decide (k = i) then Some L2
                 else if decide (k = (i - 1)%nat) then Some L1 else blockDiffs c !! k).
    { intros k. destruct (decide (k = i)) as [->|Hki].
      - rewrite list_lookup_insert_eq; [done|]. by rewrite length_insert.
      - rewrite list_lookup_insert_ne by done.
        destruct (decide (k = (i - 1)%nat)) as [->|Hki1].
        + by rewrite list_lookup_insert_eq.
        + by rewrite list_lookup_insert_ne. }
    split.
    - intros k d Hk Hm. rewrite Hlook in Hk.
      destruct (decide (k = i)); [by simplify_eq|].
      destruct (decide (k = (i - 1)%nat)); [by simplify_eq|].
      by eapply HA.
    - intros k d j Hk Hm. rewrite Hlook in Hk.
      destruct (decide (k = i)) as [->|Hki].
      { injection Hk as <-. cbn in Hm. injection Hm as <-.
        split; [lia|]. split; [lia|]. split; [right; split; [done|lia]|].
        exists L1. rewrite Hlook. rewrite decide_False by lia. rewrite decide_True by done.
        split; [done|]. split; [cbn; f_equal; lia|]. cbn. lia. }
      destruct (decide (k = (i - 1)%nat)) as [->|Hki1].
      { injection Hk as <-. cbn in Hm. injection Hm as <-.
        split; [lia|]. split; [lia|]. split; [left; split; [done|lia]|].
        exists L2. rewrite Hlook. rewrite decide_True by done.
        split; [done|]. split; [done|]. cbn. lia. }
      destruct (HB k d j Hk Hm) as (Hk1 & Hj1 & Hty & d' & Hd' & Hm' & Hlen).
      split; [lia|]. split; [lia|]. split; [done|].
      exists d'. rewrite Hlook.
      destruct (decide (j = i)) as [->|]; [lia|].
      destruct (decide (j = (i - 1)%nat)) as [->|]; [congruence|]. done. }
  destruct (poll progress) as [go progress'].
  destruct go; cbn [negb] in H.
  - eapply (IH (S i)); [lia|exact HA1|exact HB1|exact H].
  - injection H as <- <-. eauto.
Qed.
End RealignFacts.





Lemma matchEnds_not_whole pSec1 pSec2 off1 end1 off2 end2 pBD1 pBD2 st total r :
  matchEnds pSec1 pSec2 off1 end1 off2 end2 pBD1 pBD2 st total = Some r ->
  forall st' t, r <> MatchWhole st' t.
Proof.
  unfold matchEnds. intros H st' t.
  destruct (startMatchLoop pSec1 pSec2) as [startMatch|]; cbn [mbind option_bind] in H; [|done].
  destruct (endMatchLoop _ _ _ _ _) as [endMatch|]; cbn [mbind option_bind] in H; [|done].
  destruct (negb (startMatch =? 0) || negb (endMatch =? 0)); [|by injection H as <-].
  match type of H with (?a ≫= _) = _ => destruct a as [st1|] end;
    cbn [mbind option_bind] in H; [|done].
  match type of H with (?a ≫= _) = _ => destruct a as [st2|] end;
    cbn [mbind option_bind] in H; [|done].
  by injection H as <-.
Qed.





(** The same pair of words at threshold 75 takes the first branch, and the
    two branches leave the same changes and the same match length. *)
Example refineSubstitution_whole_and_ends_agree :
  let d1 := textView MAIN_VIEW [[97; 98; 99; 88]] in
  let d2 := textView SUB_VIEW [[97; 98; 99; 89]] in
  let ld := {| sg_type := DIFF_IN_1; sg_off := 0; sg_len := 1 |} in
  let ld2 := {| sg_type := DIFF_IN_2; sg_off := 0; sg_len := 1 |} in
  let st := ([ {| dl_line := 0; dl_changes := [] |} ], [ {| dl_line := 0; dl_changes := [] |} ]) in
  let one := [ {| dl_line := 0; dl_changes := [ {| s_off := 3; s_len := 1 |} ] |} ] in
  let run thr :=
    refineSubstitution charEngine asciiAlphaNumeric (sampleOptions false false false thr) d1 d2 0 0
      (getLineWords asciiAlphaNumeric d1 0 (sampleOptions false false false thr))
      (getLineWords asciiAlphaNumeric d2 0 (sampleOptions false false false thr))
      false true ld ld2 st 0 in
  run 75 = Some (MatchWhole (one, one) 3) /\ run 76 = Some (MatchEnds (one, one) 3).
Proof. vm_compute. split; reflexivity. Qed.

(** C8: when, after all word and char segments of a line pair,
    [totalLineMatchLen * 100 / max(lineLen1, lineLen2)] is below
    [matchPercentThreshold], the two entries appended for the pair are
    removed again and both [changedLines] lists are what they were before
    the pair. *)
Theorem C8_rejected_pair_leaves_changedLines_as_before
    (DiffCalcWord : list Word -> list Word -> list segment * bool)
    (DiffCalcChar : list Char -> list Char -> list segment * bool)
    (IsCharAlphaNumericA : Z -> bool)
    (doc1 doc2 : DocCmpInfo) (off1 off2 : Z) (options : CompareOptions) (line1 line2 : Z)
    (st st' : ChangedPair) (totalLineMatchLen maxLineLen : Z) (pBlockDiff1 : bool) :
  comparePairBody DiffCalcWord DiffCalcChar IsCharAlphaNumericA doc1 doc2 off1 off2 options
    line1 line2 st = Some (st', totalLineMatchLen, maxLineLen, pBlockDiff1) ->
  maxLineLen <> 0 ->
  (totalLineMatchLen * 100) `quot` maxLineLen < matchPercentThreshold options ->
  (exists e1 e2, st' = (st.1 ++ [e1], st.2 ++ [e2]))
  /\ comparePair DiffCalcWord DiffCalcChar IsCharAlphaNumericA doc1 doc2 off1 off2 options
       line1 line2 st = Some st.
Proof.
  intros Hbody Hmax Hlow.
  pose proof (comparePairBody_pairOpen _ _ _ _ _ _ _ _ _ _ _ _ _ _ _ Hbody) as Hopen.
  split; [exact Hopen|].
  unfold comparePair. rewrite Hbody. cbn [mbind option_bind].
  destruct (maxLineLen =? 0) eqn:E; [apply Z.eqb_eq in E; done|].
  destruct (_ <? _) eqn:E2; [|apply Z.ltb_ge in E2; lia].
  by apply popLine_pairOpen.
Qed.

Lemma C8_witness :
  let options := sampleOptions false false false 50 in
  let d1 := textDoc MAIN_VIEW [[97]] options in
  let d2 := textDoc SUB_VIEW [[98]] options in
  comparePair wordEngine charEngine asciiAlphaNumeric d1 d2 0 0 options 0 0
    ([ {| dl_line := 7; dl_changes := [] |} ], [ {| dl_line := 9; dl_changes := [] |} ])
  = Some ([ {| dl_line := 7; dl_changes := [] |} ], [ {| dl_line := 9; dl_changes := [] |} ]).
Proof.
  cbv zeta.
  refine (proj2 (C8_rejected_pair_leaves_changedLines_as_before
            wordEngine charEngine asciiAlphaNumeric
            (textDoc MAIN_VIEW [[97]] (sampleOptions false false false 50))
            (textDoc SUB_VIEW [[98]] (sampleOptions false false false 50))
            0 0 (sampleOptions false false false 50) 0 0
            ([ {| dl_line := 7; dl_changes := [] |} ], [ {| dl_line := 9; dl_changes := [] |} ])
            ([ {| dl_line := 7; dl_changes := [] |}; {| dl_line := 0; dl_changes := [] |} ],
             [ {| dl_line := 9; dl_changes := [] |}; {| dl_line := 0; dl_changes := [] |} ])
            0 1 false _ _ _)).
  - vm_compute. reflexivity.
  - discriminate.
  - vm_compute. reflexivity.
Defined.

(** C9: after the block compares, on blocks fresh from the line diff, two
    blocks linked by [matchBlock] point at each other and their
    [changedLines] are equally long, so that every index [k] below
    [changedLines.size()] of the one is an index of both. *)
Theorem C9_linked_blocks_changedLines_equally_long
    (F : Type) (F_of_int : Z -> F) (Fadd Fmul Fdiv : F -> F -> F)
    (Fltb Feqb Fleb : F -> F -> bool)
    (DiffCalcWord : list Word -> list Word -> list segment * bool)
    (DiffCalcChar : list Char -> list Char -> list segment * bool)
    (IsCharAlphaNumericA : Z -> bool)
    (cmpInfo cmpInfo' : CompareInfo) (options : CompareOptions) (progress : Progress)
    (finished : bool) :
  (forall d, d ∈ blockDiffs cmpInfo ->
             matchBlock (d_info d) = None /\ changedLines (d_info d) = []) ->
  compareAllBlocks F_of_int Fadd Fmul Fdiv Fltb Feqb Fleb DiffCalcWord DiffCalcChar
    IsCharAlphaNumericA cmpInfo options progress = Some (cmpInfo', finished) ->
  forall i bd j,
    blockDiffs cmpInfo' !! i = Some bd -> matchBlock (d_info bd) = Some j ->
    exists mb,
      blockDiffs cmpInfo' !! j = Some mb
      /\ matchBlock (d_info mb) = Some i
      /\ length (changedLines (d_info bd)) = length (changedLines (d_info mb))
      /\ forall k, (k < length (changedLines (d_info bd)))%nat ->
           is_Some (changedLines (d_info bd) !! k) /\ is_Some (changedLines (d_info mb) !! k).
Proof.
  intros Hfresh Hrun i bd j Hbd Hj. unfold compareAllBlocks in Hrun.
  eapply blockCompareLoop_linked in Hrun as [_ [i' HB]]; [|lia| |].
  - destruct (HB i bd j Hbd Hj) as (_ & _ & _ & mb & Hmb & Hback & Hlen).
    exists mb. split; [done|]. split; [done|]. split; [done|].
    intros k Hk. split; apply lookup_lt_is_Some; lia.
  - intros k d Hk _. apply (Hfresh d). by eapply list_elem_of_lookup_2.
  - intros k d j' Hk Hm. destruct (Hfresh d) as [Hn _]; [by eapply list_elem_of_lookup_2|].
    congruence.
Qed.

Lemma C9_witness :
  let options := sampleOptions false false false 50 in
  let result := default (changedLinePair options, false)
                  (sampleCompareAllBlocks (changedLinePair options) options None) in
  exists bd mb,
    blockDiffs result.1 !! 0%nat = Some bd
    /\ blockDiffs result.1 !! 1%nat = Some mb
    /\ matchBlock (d_info mb) = Some 0%nat
    /\ length (changedLines (d_info bd)) = 1%nat
    /\ length (changedLines (d_info bd)) = length (changedLines (d_info mb)).
Proof.
  cbv zeta.
  set (options := sampleOptions false false false 50).
  set (result := default (changedLinePair options, false)
                   (sampleCompareAllBlocks (changedLinePair options) options None)).
  assert (Hfresh : forall d, d ∈ blockDiffs (changedLinePair options) ->
                     matchBlock (d_info d) = None /\ changedLines (d_info d) = []).
  { intros d Hd. cbn [changedLinePair blockDiffs] in Hd.
    apply elem_of_cons in Hd as [->|Hd]; [done|].
    apply elem_of_cons in Hd as [->|Hd]; [done|].
    by apply elem_of_nil in Hd. }
  assert (Hrun : sampleCompareAllBlocks (changedLinePair options) options None
                 = Some (result.1, true)) by (vm_compute; reflexivity).
  destruct (blockDiffs result.1 !! 0%nat) as [bd|] eqn:Ebd; [|vm_compute in Ebd; discriminate].
  assert (Hj : matchBlock (d_info bd) = Some 1%nat).
  { vm_compute in Ebd. injection Ebd as <-. reflexivity. }
  destruct (C9_linked_blocks_changedLines_equally_long
              spec_float f32_of_int f32_add f32_mul f32_div SFltb SFeqb SFleb
              wordEngine charEngine asciiAlphaNumeric
              (changedLinePair options) result.1 options None true Hfresh Hrun
              0%nat bd 1%nat Ebd Hj) as (mb & Hmb & Hback & Hlen & _).
  exists bd, mb. split; [done|]. split; [done|]. split; [done|]. split; [|done].
  vm_compute in Ebd. injection Ebd as <-. reflexivity.
Defined.

(** ** Block re-aligner: the candidate set *)

Section CandidateSet.
Context {F : Type}.
Variable F_of_int : Z -> F.
Variables Fadd Fmul Fdiv : F -> F -> F.
Variables Fltb Feqb Fleb : F -> F -> bool.
Variable DiffCalcChar : list Char -> list Char -> list segment * bool.

Lemma conv_key_lt_keyBefore (a b : conv_key F) :
  conv_key_lt Fltb Feqb a b = true <-> keyBefore Fltb Feqb a b.
Proof.
  unfold conv_key_lt, keyBefore.
  rewrite orb_true_iff, andb_true_iff, orb_true_iff, andb_true_iff.
  rewrite !Z.ltb_lt, Z.eqb_eq. done.
Qed.

Lemma set_emplace_HdRel (x k : conv_key F) rest :
  conv_key_lt Fltb Feqb x k = true ->
  HdRel (fun a b => conv_key_lt Fltb Feqb a b = true) x rest ->
  HdRel (fun a b => conv_key_lt Fltb Feqb a b = true) x (set_emplace Fltb Feqb k rest).
Proof.
  intros Hxk Hrest. destruct rest as [|y rest]; simpl; [by constructor|].
  destruct (conv_key_lt Fltb Feqb k y); [by constructor|].
  inversion Hrest; subst.
  destruct (conv_key_lt Fltb Feqb y k); by constructor.
Qed.

Lemma set_emplace_Sorted (k : conv_key F) s :
  Sorted (fun a b => conv_key_lt Fltb Feqb a b = true) s ->
  Sorted (fun a b => conv_key_lt Fltb Feqb a b = true) (set_emplace Fltb Feqb k s).
Proof.
  induction s as [|x rest IH]; intros Hs; simpl.
  - repeat constructor.
  - destruct (conv_key_lt Fltb Feqb k x) eqn:E1.
    + constructor; [done|]. by constructor.
    + destruct (conv_key_lt Fltb Feqb x k) eqn:E2; [|done].
      inversion Hs; subst. constructor; [by apply IH|].
      by apply set_emplace_HdRel.
Qed.

Lemma set_emplace_Forall (P : conv_key F -> Prop) k s :
  P k -> Forall P s -> Forall P (set_emplace Fltb Feqb k s).
Proof.
  intros Hk. induction s as [|x rest IH]; intros Hs; simpl.
  - by constructor.
  - destruct (conv_key_lt Fltb Feqb k x); [by constructor|].
    destruct (conv_key_lt Fltb Feqb x k); [|done].
    inversion Hs; subst. constructor; [done|by apply IH].
Qed.

Lemma lineConvergenceOf_sum lineDiffs maxSize :
  lineConvergenceOf F_of_int Fadd Fmul Fdiv lineDiffs maxSize
  = Fdiv (Fmul (fold_left Fadd
                  (map (fun ld => F_of_int (sg_len ld)) (List.filter isMatch lineDiffs))
                  (F_of_int 0))
               (F_of_int 100))
         (F_of_int maxSize).
Proof.
  unfold lineConvergenceOf. do 2 f_equal.
  generalize (F_of_int 0). induction lineDiffs as [|ld rest IH]; intros acc; [done|].
  simpl. destruct (isMatch ld); simpl; apply IH.
Qed.

Lemma considerPair_ok options chunk1 chunk2 info1 info2 line1 line2 pLine1 pLine2 s :
  vat chunk1 line1 = Some pLine1 -> vat chunk2 line2 = Some pLine2 ->
  pLine1 <> [] -> pLine2 <> [] ->
  getNextUnmoved info1 line1 = None -> getNextUnmoved info2 line2 = None ->
  Forall (candidateOk F_of_int Fadd Fmul Fdiv Fleb DiffCalcChar options chunk1 chunk2 info1 info2) s /\ Sorted (fun a b => conv_key_lt Fltb Feqb a b = true) s ->
  Forall (candidateOk F_of_int Fadd Fmul Fdiv Fleb DiffCalcChar options chunk1 chunk2 info1 info2)
    (considerPair F_of_int Fadd Fmul Fdiv Fltb Feqb Fleb DiffCalcChar options line1 line2
       pLine1 pLine2 s)
  /\ Sorted (fun a b => conv_key_lt Fltb Feqb a b = true)
       (considerPair F_of_int Fadd Fmul Fdiv Fltb Feqb Fleb DiffCalcChar options line1 line2
          pLine1 pLine2 s).
Proof.
  intros H1 H2 Hn1 Hn2 Hu1 Hu2 [Hok Hs]. unfold considerPair.
  destruct (_ <? _) eqn:Epre; [done|]. apply Z.ltb_ge in Epre.
  destruct (Fleb _ _) eqn:Ethr; [|done].
  split; [|by apply set_emplace_Sorted].
  apply set_emplace_Forall; [|done].
  exists pLine1, pLine2. cbn [ck_line1 ck_line2 convergence].
  repeat split; try done. apply lineConvergenceOf_sum.
Qed.

Lemma line2Loop_ok steps options chunk1 chunk2 info1 info2 line1 pLine1 line2 s s' :
  vat chunk1 line1 = Some pLine1 -> pLine1 <> [] -> getNextUnmoved info1 line1 = None ->
  Forall (candidateOk F_of_int Fadd Fmul Fdiv Fleb DiffCalcChar options chunk1 chunk2 info1 info2) s /\ Sorted (fun a b => conv_key_lt Fltb Feqb a b = true) s ->
  line2Loop F_of_int Fadd Fmul Fdiv Fltb Feqb Fleb DiffCalcChar steps options chunk2 info2
    line1 pLine1 line2 s = Some s' ->
  Forall (candidateOk F_of_int Fadd Fmul Fdiv Fleb DiffCalcChar options chunk1 chunk2 info1 info2) s' /\ Sorted (fun a b => conv_key_lt Fltb Feqb a b = true) s'.
Proof.
  intros H1 Hn1 Hu1. revert line2 s.
  induction steps as [|n IH]; intros line2 s Hs H; [by injection H as <-|].
  cbn [line2Loop] in H.
  destruct (line2 <? Z.of_nat (length chunk2)); [|by injection H as <-].
  destruct (vat chunk2 line2) as [pLine2|] eqn:E2; cbn [mbind option_bind] in H; [|done].
  destruct (length pLine2 =? 0)%nat eqn:Ez; [by eapply IH|].
  destruct (getNextUnmoved info2 line2) as [next|] eqn:Eu; [by eapply IH|].
  eapply IH; [|exact H]. apply considerPair_ok; try done.
  intros ->. done.
Qed.

Lemma line1Loop_ok steps options chunk1 chunk2 info1 info2 line1 s s' :
  Forall (candidateOk F_of_int Fadd Fmul Fdiv Fleb DiffCalcChar options chunk1 chunk2 info1 info2) s /\ Sorted (fun a b => conv_key_lt Fltb Feqb a b = true) s ->
  line1Loop F_of_int Fadd Fmul Fdiv Fltb Feqb Fleb DiffCalcChar steps options chunk1 chunk2
    info1 info2 line1 s = Some s' ->
  Forall (candidateOk F_of_int Fadd Fmul Fdiv Fleb DiffCalcChar options chunk1 chunk2 info1 info2) s' /\ Sorted (fun a b => conv_key_lt Fltb Feqb a b = true) s'.
Proof.
  revert line1 s. induction steps as [|n IH]; intros line1 s Hs H; [by injection H as <-|].
  cbn [line1Loop] in H.
  destruct (line1 <? Z.of_nat (length chunk1)); [|by injection H as <-].
  destruct (vat chunk1 line1) as [pLine1|] eqn:E1; cbn [mbind option_bind] in H; [|done].
  destruct (length pLine1 =? 0)%nat eqn:Ez; [by eapply IH|].
  destruct (getNextUnmoved info1 line1) as [next|] eqn:Eu; [by eapply IH|].
  destruct (line2Loop _ _ _ _ _ _ _ _ _ _ _ _ _ _ _ _) as [s1|] eqn:E2;
    cbn [mbind option_bind] in H; [|done].
  eapply IH; [|exact H]. eapply line2Loop_ok; [exact E1| |exact Eu|exact Hs|exact E2].
  intros ->. done.
Qed.
(** *** Every pair that passes is in the set *)

Lemma set_emplace_keeps (k y : conv_key F) s :
  In y s -> In y (set_emplace Fltb Feqb k s).
Proof.
  induction s as [|x rest IH]; intros Hy; [done|]. simpl.
  destruct (conv_key_lt Fltb Feqb k x); [by right|].
  destruct (conv_key_lt Fltb Feqb x k); [|done].
  destruct Hy as [->|Hy]; [by left|right; by apply IH].
Qed.

Lemma set_emplace_in (k : conv_key F) s :
  In k (set_emplace Fltb Feqb k s)
  \/ exists x, In x s /\ conv_key_lt Fltb Feqb k x = false
               /\ conv_key_lt Fltb Feqb x k = false.
Proof.
  induction s as [|x rest IH]; simpl; [left; by left|].
  destruct (conv_key_lt Fltb Feqb k x) eqn:E1; [left; by left|].
  destruct (conv_key_lt Fltb Feqb x k) eqn:E2.
  - destruct IH as [IH|(y & Hy & H1 & H2)]; [left; by right|].
    right. exists y. split; [by right|done].
  - right. exists x. split; [by left|done].
Qed.

Lemma present_keeps c line1 line2 (s s' : list (conv_key F)) :
  (forall y, In y s -> In y s') -> present Fltb Feqb c line1 line2 s -> present Fltb Feqb c line1 line2 s'.
Proof.
  intros Hk [H|(x & Hx & Hu)]; [left; by apply Hk|right; exists x; split; [by apply Hk|done]].
Qed.

Lemma considerPair_keeps options line1 line2 pLine1 pLine2 s (y : conv_key F) :
  In y s ->
  In y (considerPair F_of_int Fadd Fmul Fdiv Fltb Feqb Fleb DiffCalcChar options line1 line2
          pLine1 pLine2 s).
Proof.
  intros Hy. unfold considerPair. destruct (_ <? _); [done|].
  destruct (Fleb _ _); [by apply set_emplace_keeps|done].
Qed.

Lemma line2Loop_keeps steps options chunk2 info2 line1 pLine1 line2 s s' (y : conv_key F) :
  line2Loop F_of_int Fadd Fmul Fdiv Fltb Feqb Fleb DiffCalcChar steps options chunk2 info2
    line1 pLine1 line2 s = Some s' ->
  In y s -> In y s'.
Proof.
  revert line2 s. induction steps as [|n IH]; intros line2 s H Hy; [by injection H as <-|].
  cbn [line2Loop] in H.
  destruct (line2 <? Z.of_nat (length chunk2)); [|by injection H as <-].
  destruct (vat chunk2 line2) as [pLine2|]; cbn [mbind option_bind] in H; [|done].
  destruct (length pLine2 =? 0)%nat; [by eapply IH|].
  destruct (getNextUnmoved info2 line2) as [next|]; [by eapply IH|].
  eapply IH; [exact H|]. by apply considerPair_keeps.
Qed.

Lemma line1Loop_keeps steps options chunk1 chunk2 info1 info2 line1 s s' (y : conv_key F) :
  line1Loop F_of_int Fadd Fmul Fdiv Fltb Feqb Fleb DiffCalcChar steps options chunk1 chunk2
    info1 info2 line1 s = Some s' ->
  In y s -> In y s'.
Proof.
  revert line1 s. induction steps as [|n IH]; intros line1 s H Hy; [by injection H as <-|].
  cbn [line1Loop] in H.
  destruct (line1 <? Z.of_nat (length chunk1)); [|by injection H as <-].
  destruct (vat chunk1 line1) as [pLine1|]; cbn [mbind option_bind] in H; [|done].
  destruct (length pLine1 =? 0)%nat; [by eapply IH|].
  destruct (getNextUnmoved info1 line1) as [next|]; [by eapply IH|].
  destruct (line2Loop _ _ _ _ _ _ _ _ _ _ _ _ _ _ _ _) as [s1|] eqn:E2;
    cbn [mbind option_bind] in H; [|done].
  eapply IH; [exact H|]. by eapply line2Loop_keeps.
Qed.

(** The lines [getNextUnmoved] jumps over are all inside the move it
    found. *)
Lemma getNextUnmoved_skips info line next l :
  getNextUnmoved info line = Some next -> line <= l < next ->
  getNextUnmoved info l <> None.
Proof.
  unfold getNextUnmoved.
  destruct (List.find (inMove line) (moves info)) as [mv|] eqn:E; [|done].
  intros [= <-] Hl. apply find_some in E as [Hin Hm].
  unfold inMove in Hm. apply andb_true_iff in Hm as [H1 H2].
  apply Z.leb_le in H1. apply Z.ltb_lt in H2.
  destruct (List.find (inMove l) (moves info)) as [mv'|] eqn:E'; [done|].
  exfalso. eapply find_none in E'; [|exact Hin].
  unfold inMove in E'. apply andb_false_iff in E' as [E'|E'].
  - apply Z.leb_gt in E'. lia.
  - apply Z.ltb_ge in E'. lia.
Qed.

Lemma vat_some_lt {A : Type} (l : list A) i x : vat l i = Some x -> 0 <= i < Z.of_nat (length l).
Proof.
  unfold vat. destruct (i <? 0) eqn:E; [done|]. apply Z.ltb_ge in E.
  intros H. apply lookup_lt_Some in H. lia.
Qed.

Lemma considerPair_present options chunk1 chunk2 info1 info2 line1 line2 pLine1 pLine2 s :
  vat chunk1 line1 = Some pLine1 -> vat chunk2 line2 = Some pLine2 ->
  Forall (candidateOk F_of_int Fadd Fmul Fdiv Fleb DiffCalcChar options chunk1 chunk2
            info1 info2) s ->
  matchPercentThreshold options
  <= (Z.min (Z.of_nat (length pLine1)) (Z.of_nat (length pLine2)) * 100)
       `quot` Z.max (Z.of_nat (length pLine1)) (Z.of_nat (length pLine2)) ->
  Fleb (F_of_int (matchPercentThreshold options))
    (lineConvergenceOf F_of_int Fadd Fmul Fdiv (DiffCalcChar pLine1 pLine2).1
       (Z.max (Z.of_nat (length pLine1)) (Z.of_nat (length pLine2)))) = true ->
  present Fltb Feqb (lineConvergenceOf F_of_int Fadd Fmul Fdiv (DiffCalcChar pLine1 pLine2).1
             (Z.max (Z.of_nat (length pLine1)) (Z.of_nat (length pLine2))))
    line1 line2
    (considerPair F_of_int Fadd Fmul Fdiv Fltb Feqb Fleb DiffCalcChar options line1 line2
       pLine1 pLine2 s).
Proof.
  intros H1 H2 Hok Hpre Hthr. unfold considerPair.
  destruct (_ <? _) eqn:Epre; [apply Z.ltb_lt in Epre; lia|].
  rewrite Hthr.
  set (c := lineConvergenceOf _ _ _ _ _ _) in *.
  destruct (set_emplace_in {| convergence := c; ck_line1 := line1; ck_line2 := line2 |} s)
    as [Hin|(x & Hx & Hkx & Hxk)]; [by left|].
  unfold conv_key_lt in Hkx, Hxk. cbn [convergence ck_line1 ck_line2] in Hkx, Hxk.
  apply orb_false_iff in Hkx as [Hlt1 Hkx]. apply orb_false_iff in Hxk as [Hlt2 Hxk].
  destruct (Feqb c (convergence x)) eqn:Eq1; [|right; exists x; split;
    [by apply set_emplace_keeps|split; [done|split; [done|by left]]]].
  destruct (Feqb (convergence x) c) eqn:Eq2; [|right; exists x; split;
    [by apply set_emplace_keeps|split; [done|split; [done|by right]]]].
  cbn [andb] in Hkx, Hxk.
  assert (ck_line1 x = line1 /\ ck_line2 x = line2) as [E1 E2].
  { apply orb_false_iff in Hkx as [A1 A2]. apply orb_false_iff in Hxk as [B1 B2].
    apply Z.ltb_ge in A1, B1.
    assert (ck_line1 x = line1) as Ex by lia. split; [done|].
    rewrite Ex, Z.eqb_refl in A2, B2. cbn [andb] in A2, B2.
    apply Z.ltb_ge in A2, B2. lia. }
  left. apply set_emplace_keeps.
  rewrite Forall_forall in Hok. apply list_elem_of_In in Hx.
  destruct (Hok x Hx) as (q1 & q2 & Q1 & Q2 & _ & _ & _ & _ & [_ Qc] & _).
  rewrite E1, H1 in Q1. rewrite E2, H2 in Q2. injection Q1 as <-. injection Q2 as <-.
  apply list_elem_of_In in Hx.
  replace {| convergence := c; ck_line1 := line1; ck_line2 := line2 |} with x; [done|].
  destruct x as [cx x1 x2]. cbn [convergence ck_line1 ck_line2] in *. subst x1 x2.
  f_equal. rewrite Qc. unfold c. by rewrite lineConvergenceOf_sum.
Qed.

Lemma line2Loop_complete steps options chunk1 chunk2 info1 info2 line1 pLine1 start s s' :
  vat chunk1 line1 = Some pLine1 -> pLine1 <> [] -> getNextUnmoved info1 line1 = None ->
  Forall (candidateOk F_of_int Fadd Fmul Fdiv Fleb DiffCalcChar options chunk1 chunk2
            info1 info2) s
  /\ Sorted (fun a b => conv_key_lt Fltb Feqb a b = true) s ->
  line2Loop F_of_int Fadd Fmul Fdiv Fltb Feqb Fleb DiffCalcChar steps options chunk2 info2
    line1 pLine1 start s = Some s' ->
  Z.of_nat (length chunk2) - start <= Z.of_nat steps ->
  forall line2 pLine2,
    start <= line2 -> vat chunk2 line2 = Some pLine2 -> pLine2 <> [] ->
    getNextUnmoved info2 line2 = None ->
    matchPercentThreshold options
    <= (Z.min (Z.of_nat (length pLine1)) (Z.of_nat (length pLine2)) * 100)
         `quot` Z.max (Z.of_nat (length pLine1)) (Z.of_nat (length pLine2)) ->
    Fleb (F_of_int (matchPercentThreshold options))
      (lineConvergenceOf F_of_int Fadd Fmul Fdiv (DiffCalcChar pLine1 pLine2).1
         (Z.max (Z.of_nat (length pLine1)) (Z.of_nat (length pLine2)))) = true ->
    present Fltb Feqb (lineConvergenceOf F_of_int Fadd Fmul Fdiv (DiffCalcChar pLine1 pLine2).1
               (Z.max (Z.of_nat (length pLine1)) (Z.of_nat (length pLine2))))
      line1 line2 s'.
Proof.
  intros H1 Hn1 Hu1. revert start s.
  induction steps as [|n IH]; intros start s Hs H Hfuel line2 pLine2 Hge H2 Hn2 Hu2 Hpre Hthr.
  { apply vat_some_lt in H2. lia. }
  cbn [line2Loop] in H.
  destruct (start <? Z.of_nat (length chunk2)) eqn:Elt.
  2:{ apply Z.ltb_ge in Elt. apply vat_some_lt in H2. lia. }
  destruct (vat chunk2 start) as [pStart|] eqn:E2; cbn [mbind option_bind] in H; [|done].
  destruct (length pStart =? 0)%nat eqn:Ez.
  { eapply IH; try done; [lia|].
    destruct (Z.eq_dec line2 start) as [->|]; [|lia].
    rewrite H2 in E2. injection E2 as <-. apply Nat.eqb_eq in Ez.
    destruct pLine2; [done|simpl in Ez; lia]. }
  destruct (getNextUnmoved info2 start) as [next|] eqn:Eu.
  { pose proof (getNextUnmoved_gt _ _ _ Eu) as Hgt.
    eapply IH; try done; [lia|].
    destruct (Z_lt_ge_dec line2 next) as [Hlt|]; [|lia].
    exfalso. by eapply (getNextUnmoved_skips info2 start next line2). }
  assert (Hs1 : Forall (candidateOk F_of_int Fadd Fmul Fdiv Fleb DiffCalcChar options chunk1
                          chunk2 info1 info2)
                  (considerPair F_of_int Fadd Fmul Fdiv Fltb Feqb Fleb DiffCalcChar options
                     line1 start pLine1 pStart s)
                /\ Sorted (fun a b => conv_key_lt Fltb Feqb a b = true)
                     (considerPair F_of_int Fadd Fmul Fdiv Fltb Feqb Fleb DiffCalcChar options
                        line1 start pLine1 pStart s)).
  { apply considerPair_ok; try done. intros ->. done. }
  destruct (Z.eq_dec line2 start) as [->|Hne].
  - rewrite H2 in E2. injection E2 as <-.
    eapply present_keeps; [intros y; eapply line2Loop_keeps; exact H|].
    eapply considerPair_present; try done. apply Hs.
  - eapply IH; try done; lia.
Qed.

Lemma line1Loop_complete steps options chunk1 chunk2 info1 info2 start s s' :
  Forall (candidateOk F_of_int Fadd Fmul Fdiv Fleb DiffCalcChar options chunk1 chunk2
            info1 info2) s
  /\ Sorted (fun a b => conv_key_lt Fltb Feqb a b = true) s ->
  line1Loop F_of_int Fadd Fmul Fdiv Fltb Feqb Fleb DiffCalcChar steps options chunk1 chunk2
    info1 info2 start s = Some s' ->
  Z.of_nat (length chunk1) - start <= Z.of_nat steps ->
  forall line1 line2 pLine1 pLine2,
    start <= line1 -> vat chunk1 line1 = Some pLine1 -> vat chunk2 line2 = Some pLine2 ->
    pLine1 <> [] -> pLine2 <> [] ->
    getNextUnmoved info1 line1 = None -> getNextUnmoved info2 line2 = None ->
    matchPercentThreshold options
    <= (Z.min (Z.of_nat (length pLine1)) (Z.of_nat (length pLine2)) * 100)
         `quot` Z.max (Z.of_nat (length pLine1)) (Z.of_nat (length pLine2)) ->
    Fleb (F_of_int (matchPercentThreshold options))
      (lineConvergenceOf F_of_int Fadd Fmul Fdiv (DiffCalcChar pLine1 pLine2).1
         (Z.max (Z.of_nat (length pLine1)) (Z.of_nat (length pLine2)))) = true ->
    present Fltb Feqb (lineConvergenceOf F_of_int Fadd Fmul Fdiv (DiffCalcChar pLine1 pLine2).1
               (Z.max (Z.of_nat (length pLine1)) (Z.of_nat (length pLine2))))
      line1 line2 s'.
Proof.
  revert start s.
  induction steps as [|n IH];
    intros start s Hs H Hfuel line1 line2 pLine1 pLine2 Hge H1 H2 Hn1 Hn2 Hu1 Hu2 Hpre Hthr.
  { apply vat_some_lt in H1. lia. }
  cbn [line1Loop] in H.
  destruct (start <? Z.of_nat (length chunk1)) eqn:Elt.
  2:{ apply Z.ltb_ge in Elt. apply vat_some_lt in H1. lia. }
  destruct (vat chunk1 start) as [pStart|] eqn:E1; cbn [mbind option_bind] in H; [|done].
  destruct (length pStart =? 0)%nat eqn:Ez.
  { eapply IH; try done; [lia|].
    destruct (Z.eq_dec line1 start) as [->|]; [|lia].
    rewrite H1 in E1. injection E1 as <-. apply Nat.eqb_eq in Ez.
    destruct pLine1; [done|simpl in Ez; lia]. }
  destruct (getNextUnmoved info1 start) as [next|] eqn:Eu.
  { pose proof (getNextUnmoved_gt _ _ _ Eu) as Hgt.
    eapply IH; try done; [lia|].
    destruct (Z_lt_ge_dec line1 next) as [Hlt|]; [|lia].
    exfalso. by eapply (getNextUnmoved_skips info1 start next line1). }
  destruct (line2Loop _ _ _ _ _ _ _ _ _ _ _ _ _ _ _ _) as [s1|] eqn:E2;
    cbn [mbind option_bind] in H; [|done].
  assert (Hnz : pStart <> []) by (intros ->; done).
  pose proof (line2Loop_ok _ _ _ _ _ _ _ _ _ _ _ E1 Hnz Eu Hs E2) as Hs1.
  destruct (Z.eq_dec line1 start) as [->|Hne].
  - rewrite H1 in E1. injection E1 as <-.
    eapply present_keeps; [intros y; eapply line1Loop_keeps; exact H|].
    eapply (line2Loop_complete _ _ _ _ _ _ _ _ 0 s s1); try done; [lia|].
    apply vat_some_lt in H2. lia.
  - eapply IH; try done; lia.
Qed.
End CandidateSet.

(** In binary32 only a NaN is unordered with another value. *)
Lemma f32_unordered_nan (a b : spec_float) :
  unordered SFltb SFeqb a b -> a = S754_nan \/ b = S754_nan.
Proof.
  unfold unordered, SFltb, SFeqb, SFcompare.
  destruct a as [sa|sa| |sa ma ea], b as [sb|sb| |sb mb eb];
    try (intros _; by left); try (intros _; by right);
    repeat match goal with s : bool |- _ => destruct s end;
    intros (Hab & Hba & Heq); exfalso; revert Hab Hba Heq;
    change (PosDef.Pos.compare_cont Eq) with Pos.compare;
    repeat match goal with
           | |- context [Z.compare ?x ?y] => destruct (Z.compare_spec x y)
           end;
    repeat match goal with
           | |- context [Pos.compare ?x ?y] => destruct (Pos.compare_spec x y)
           end;
    simpl; intros Hab Hba Heq; try discriminate; try (destruct Heq; discriminate); try lia.
Qed.

(** C6: every key of the candidate set is a pair of two non-empty lines
    that no move has consumed, which passes the char-count prefilter
    [min * 100 / max >= matchPercentThreshold], whose convergence is the sum
    of the MATCH char lengths times 100 divided by the longer length (in
    [float] arithmetic) and is at least [matchPercentThreshold]; the set
    is ordered by descending convergence, ties going to the smaller [line1],
    then to the smaller [line2]; and every pair of two non-empty lines that
    no move has consumed and that passes the prefilter and the threshold
    has its key in the set, unless a key of the set holds a convergence
    that [float] comparison leaves unordered with the pair's (a NaN). *)
Theorem C6_candidate_set_filtered_scored_ordered
    (F : Type) (F_of_int : Z -> F) (Fadd Fmul Fdiv : F -> F -> F)
    (Fltb Feqb Fleb : F -> F -> bool)
    (DiffCalcChar : list Char -> list Char -> list segment * bool)
    (options : CompareOptions) (chunk1 chunk2 : list (list Char))
    (info1 info2 : blockDiffInfo) (s : list (conv_key F)) :
  orderedLinesConvergence F_of_int Fadd Fmul Fdiv Fltb Feqb Fleb DiffCalcChar options
    chunk1 chunk2 info1 info2 = Some s ->
  Forall (candidateOk F_of_int Fadd Fmul Fdiv Fleb DiffCalcChar options chunk1 chunk2
            info1 info2) s
  /\ Sorted (keyBefore Fltb Feqb) s
  /\ (forall line1 line2 pLine1 pLine2,
        vat chunk1 line1 = Some pLine1 -> vat chunk2 line2 = Some pLine2 ->
        pLine1 <> [] -> pLine2 <> [] ->
        getNextUnmoved info1 line1 = None -> getNextUnmoved info2 line2 = None ->
        let minSize := Z.min (Z.of_nat (length pLine1)) (Z.of_nat (length pLine2)) in
        let maxSize := Z.max (Z.of_nat (length pLine1)) (Z.of_nat (length pLine2)) in
        let lineConvergence :=
          Fdiv (Fmul (fold_left Fadd
                        (map (fun ld => F_of_int (sg_len ld))
                             (List.filter isMatch (DiffCalcChar pLine1 pLine2).1))
                        (F_of_int 0))
                     (F_of_int 100))
               (F_of_int maxSize) in
        matchPercentThreshold options <= (minSize * 100) `quot` maxSize ->
        Fleb (F_of_int (matchPercentThreshold options)) lineConvergence = true ->
        In {| convergence := lineConvergence; ck_line1 := line1; ck_line2 := line2 |} s
        \/ exists x, In x s /\ unordered Fltb Feqb lineConvergence (convergence x)).
Proof.
  unfold orderedLinesConvergence. intros H.
  pose proof H as Hc.
  eapply line1Loop_ok in H as [Hok Hs]; [|split; constructor].
  split; [exact Hok|]. split.
  - clear Hc. induction Hs as [|a l Hl IH Hd]; constructor.
    + apply IH. by inversion Hok.
    + destruct Hd; constructor. by apply conv_key_lt_keyBefore.
  - cbv zeta. intros line1 line2 pLine1 pLine2 H1 H2 Hn1 Hn2 Hu1 Hu2 Hpre Hthr.
    rewrite <- lineConvergenceOf_sum in *.
    eapply (line1Loop_complete F_of_int Fadd Fmul Fdiv Fltb Feqb Fleb DiffCalcChar _ options
              chunk1 chunk2 info1 info2 0 [] s); try done;
      first [ by split; constructor | lia | apply vat_some_lt in H1; lia ].
Qed.

Lemma C6_witness :
  let options := sampleOptions false false false 50 in
  let c := crossedLinePairs options in
  let chunk1 := default [] (getChars asciiAlphaNumeric (doc1 c) 0 2 options) in
  let chunk2 := default [] (getChars asciiAlphaNumeric (doc2 c) 0 2 options) in
  let s := [ {| convergence := f32_of_int 90; ck_line1 := 1; ck_line2 := 0 |};
             {| convergence := f32_of_int 80; ck_line1 := 0; ck_line2 := 0 |};
             {| convergence := f32_of_int 80; ck_line1 := 0; ck_line2 := 1 |};
             {| convergence := f32_of_int 80; ck_line1 := 1; ck_line2 := 1 |} ] in
  Forall (candidateOk f32_of_int f32_add f32_mul f32_div SFleb charEngine options chunk1 chunk2
            (d_info (freshBlock DIFF_IN_1 0 2)) (d_info (freshBlock DIFF_IN_2 0 2))) s
  /\ Sorted (keyBefore SFltb SFeqb) s
  /\ In {| convergence := f32_of_int 80; ck_line1 := 1; ck_line2 := 1 |} s.
Proof.
  cbv zeta.
  destruct (C6_candidate_set_filtered_scored_ordered
              spec_float f32_of_int f32_add f32_mul f32_div SFltb SFeqb SFleb charEngine
              (sampleOptions false false false 50)
              (default [] (getChars asciiAlphaNumeric
                             (doc1 (crossedLinePairs (sampleOptions false false false 50))) 0 2
                             (sampleOptions false false false 50)))
              (default [] (getChars asciiAlphaNumeric
                             (doc2 (crossedLinePairs (sampleOptions false false false 50))) 0 2
                             (sampleOptions false false false 50)))
              (d_info (freshBlock DIFF_IN_1 0 2)) (d_info (freshBlock DIFF_IN_2 0 2))
              [ {| convergence := f32_of_int 90; ck_line1 := 1; ck_line2 := 0 |};
                {| convergence := f32_of_int 80; ck_line1 := 0; ck_line2 := 0 |};
                {| convergence := f32_of_int 80; ck_line1 := 0; ck_line2 := 1 |};
                {| convergence := f32_of_int 80; ck_line1 := 1; ck_line2 := 1 |} ])
    as (Hok & Hsorted & Hall).
  - vm_compute. reflexivity.
  - split; [exact Hok|]. split; [exact Hsorted|].
    destruct (Hall 1 1
                (map (fun ic : nat * Z => {| c_ch := ic.2; c_pos := Z.of_nat ic.1 |})
                     (imap pair [97; 97; 97; 97; 97; 97; 97; 97; 97; 113]))
                (map (fun ic : nat * Z => {| c_ch := ic.2; c_pos := Z.of_nat ic.1 |})
                     (imap pair [97; 97; 97; 97; 97; 97; 97; 97; 117; 118])))
      as [Hin|(x & Hx & Hu)].
    + vm_compute. reflexivity.
    + vm_compute. reflexivity.
    + discriminate.
    + discriminate.
    + reflexivity.
    + reflexivity.
    + vm_compute. discriminate.
    + vm_compute. reflexivity.
    + exact Hin.
    + exfalso. apply f32_unordered_nan in Hu as [Hn|Hn]; [vm_compute in Hn; discriminate Hn|].
      repeat (destruct Hx as [<-|Hx]; [vm_compute in Hn; discriminate Hn|]). destruct Hx.
Defined.

(** ** Block re-aligner: the assignment search *)

Lemma SFltb_irrefl a : SFltb a a = false.
Proof.
  unfold SFltb, SFcompare.
  destruct a as [s|s| |s m e]; [destruct s; reflexivity|destruct s; reflexivity|reflexivity|].
  rewrite Z.compare_refl. change (PosDef.Pos.compare_cont Eq m m) with (Pos.compare m m).
  rewrite Pos.compare_refl. destruct s; reflexivity.
Qed.

Lemma SFltb_trans a b c : SFltb a b = true -> SFltb b c = true -> SFltb a c = true.
Proof.
  unfold SFltb, SFcompare.
  destruct a as [sa|sa| |sa ma ea], b as [sb|sb| |sb mb eb], c as [sc|sc| |sc mc ec];
    try discriminate; try reflexivity;
    repeat match goal with s : bool |- _ => destruct s end;
    try discriminate; try reflexivity;
    change (PosDef.Pos.compare_cont Eq) with Pos.compare;
    repeat match goal with
           | |- context [Z.compare ?x ?y] => destruct (Z.compare_spec x y)
           end;
    repeat match goal with
           | |- context [Pos.compare ?x ?y] => destruct (Pos.compare_spec x y)
           end;
    simpl; intros; try discriminate; try reflexivity; try lia.
Qed.

Lemma vat_Some_range {A} (l : list A) i x :
  vat l i = Some x -> 0 <= i /\ (Z.to_nat i < length l)%nat.
Proof.
  unfold vat. destruct (i <? 0) eqn:E; [done|]. apply Z.ltb_ge in E.
  intros H. split; [done|]. by eapply lookup_lt_Some.
Qed.

Lemma vat_insert_true (l : list bool) j i b :
  0 <= j -> (Z.to_nat j < length l)%nat ->
  vat (<[Z.to_nat j := true]> l) i = Some b ->
  exists b0, vat l i = Some b0 /\ b = (i =? j) || b0.
Proof.
  intros Hj Hlt. unfold vat. destruct (i <? 0) eqn:E; [done|]. apply Z.ltb_ge in E.
  destruct (decide (i = j)) as [->|Hne].
  - rewrite list_lookup_insert_eq by done. intros [= <-].
    destruct (lookup_lt_is_Some_2 l (Z.to_nat j) Hlt) as [b0 Hb0].
    exists b0. rewrite Z.eqb_refl. done.
  - rewrite list_lookup_insert_ne by lia. intros H. exists b.
    split; [done|]. apply Z.eqb_neq in Hne. by rewrite Hne.
Qed.

Section Search.
Context {F : Type}.
Variable F_of_int : Z -> F.
Variable Fadd : F -> F -> F.
Variable Fltb : F -> F -> bool.

Lemma blockConvergence_spec (lineMappings : list (Z * (F * Z))) acc lastLine2 :
  blockConvergence Fadd lineMappings acc lastLine2
  = fold_left Fadd (map (fun lm : Z * (F * Z) => lm.2.1)
                        (increasingOnLine2 lineMappings lastLine2)) acc.
Proof.
  revert acc lastLine2. induction lineMappings as [|lm rest IH]; intros acc lastLine2; [done|].
  simpl. destruct (lastLine2 <? lm.2.2); simpl; apply IH.
Qed.

Lemma scoreOf_spec (lineMappings : list (Z * (F * Z))) :
  scoreOf F_of_int Fadd lineMappings = spec_score F_of_int Fadd lineMappings.
Proof. apply blockConvergence_spec. Qed.

Lemma negb_existsb_forallb (accepted : list (conv_key F)) (p : conv_key F -> bool) :
  negb (existsb p accepted) = forallb (fun a => negb (p a)) accepted.
Proof.
  induction accepted as [|a l IH]; [done|]. simpl. rewrite negb_orb. by rewrite IH.
Qed.

Lemma greedyWalk_spec linesCount1 linesCount2 walk (accepted : list (conv_key F))
    lineMappings m1 m2 c1 c2 r :
  walkInv accepted lineMappings m1 m2 c1 c2 ->
  greedyWalk linesCount1 linesCount2 walk lineMappings m1 m2 c1 c2 = Some r ->
  r = mappingOf (greedySpec linesCount1 linesCount2 walk accepted).
Proof.
  revert accepted lineMappings m1 m2 c1 c2.
  induction walk as [|oc rest IH]; intros accepted lineMappings m1 m2 c1 c2 Hinv H.
  { injection H as <-. apply Hinv. }
  destruct Hinv as (Hlm & Hc1 & Hc2 & Hm1 & Hm2).
  cbn [greedyWalk greedySpec] in *.
  destruct (vat m1 (ck_line1 oc)) as [b1|] eqn:E1; cbn [mbind option_bind] in H; [|done].
  destruct (vat m2 (ck_line2 oc)) as [b2|] eqn:E2; cbn [mbind option_bind] in H; [|done].
  rewrite (Hm1 _ _ E1), (Hm2 _ _ E2) in H. rewrite !negb_existsb_forallb in H.
  assert (forall p q : conv_key F -> Z,
             forallb (fun a => negb (p a =? q oc)) accepted
             = forallb (fun a => negb (p a =? q oc)) accepted) as _ by done.
  destruct (forallb (fun a => negb (ck_line1 a =? ck_line1 oc)) accepted
            && forallb (fun a => negb (ck_line2 a =? ck_line2 oc)) accepted) eqn:Efree.
  2:{ eapply IH; [|exact H]. done. }
  rewrite length_app. cbn [length].
  replace (Z.of_nat (length accepted + 1)) with (c1 + 1) by lia.
  assert (Hlm' : map_emplace (ck_line1 oc) (convergence oc, ck_line2 oc) lineMappings
                 = mappingOf (accepted ++ [oc])).
  { unfold mappingOf. rewrite fold_left_app. cbn [fold_left]. by rewrite Hlm. }
  destruct (c1 + 1 =? linesCount1) eqn:En1; cbn [orb].
  { injection H as <-. done. }
  replace (c1 + 1) with (c2 + 1) by lia.
  destruct (c2 + 1 =? linesCount2) eqn:En2.
  { injection H as <-. done. }
  eapply IH; [|exact H].
  apply vat_Some_range in E1 as E1r. apply vat_Some_range in E2 as E2r.
  split; [done|]. rewrite length_app. cbn [length]. split; [lia|]. split; [lia|].
  split.
  - intros i b Hb. apply vat_insert_true in Hb as (b0 & Hb0 & ->); [|lia|lia].
    rewrite existsb_app. cbn [existsb]. rewrite (Hm1 _ _ Hb0).
    rewrite orb_false_r. rewrite (Z.eqb_sym i). apply orb_comm.
  - intros i b Hb. apply vat_insert_true in Hb as (b0 & Hb0 & ->); [|lia|lia].
    rewrite existsb_app. cbn [existsb]. rewrite (Hm2 _ _ Hb0).
    rewrite orb_false_r. rewrite (Z.eqb_sym i). apply orb_comm.
Qed.

Lemma vat_replicate_false n i b : vat (replicate n false) i = Some b -> b = false.
Proof.
  unfold vat. destruct (i <? 0); [done|]. intros H.
  apply lookup_replicate in H as [-> _]. done.
Qed.

Lemma greedyRun_spec linesCount1 linesCount2 (walk : list (conv_key F)) r :
  greedyRun linesCount1 linesCount2 walk = Some r ->
  r = mappingOf (greedySpec linesCount1 linesCount2 walk []).
Proof.
  unfold greedyRun. apply greedyWalk_spec.
  split; [done|]. split; [done|]. split; [done|].
  split; intros i b Hb; by apply vat_replicate_false in Hb.
Qed.

Lemma searchLoop_runs linesCount1 linesCount2 (s : list (conv_key F)) best r :
  searchLoop F_of_int Fadd Fltb linesCount1 linesCount2 s best = Some r ->
  exists runs,
    mapM (greedyRun linesCount1 linesCount2) (startingPoints s) = Some runs
    /\ r = fold_left (keepBetter F_of_int Fadd Fltb) runs best.
Proof.
  revert best. induction s as [|k rest IH]; intros best H.
  - injection H as <-. by exists [].
  - cbn [searchLoop] in H.
    destruct (greedyRun linesCount1 linesCount2 (k :: rest)) as [run|] eqn:Er;
      cbn [mbind option_bind] in H; [|done].
    apply IH in H as (runs & Hruns & ->).
    exists (run :: runs). split; [|done].
    cbn [startingPoints mapM]. rewrite Er. cbn [mbind option_bind]. rewrite Hruns. done.
Qed.

Lemma keepBetter_fold_best
    (Hirr : forall a, Fltb a a = false)
    (Htrans : forall a b c, Fltb a b = true -> Fltb b c = true -> Fltb a c = true)
    (runs : list (list (Z * (F * Z)))) best :
  let r := fold_left (keepBetter F_of_int Fadd Fltb) runs best in
  (forall run, run ∈ runs -> Fltb r.1 (scoreOf F_of_int Fadd run) = false)
  /\ (r = best
      \/ (r.2 ∈ runs /\ r.1 = scoreOf F_of_int Fadd r.2 /\ Fltb best.1 r.1 = true))
  /\ (forall x, Fltb r.1 x = true -> Fltb best.1 x = true).
Proof.
  revert best. induction runs as [|run runs IH]; intros best; cbn [fold_left].
  - split; [by intros run Hin; apply elem_of_nil in Hin|]. split; [by left|done].
  - destruct (IH (keepBetter F_of_int Fadd Fltb best run)) as (H1 & H2 & H3).
    set (r := fold_left (keepBetter F_of_int Fadd Fltb) runs
                (keepBetter F_of_int Fadd Fltb best run)) in *.
    cbv zeta. unfold keepBetter in H2, H3 |- *.
    destruct (Fltb best.1 (scoreOf F_of_int Fadd run)) eqn:Eb; cbn [fst snd] in H2, H3.
    + split; [|split].
      * intros run' Hin. apply elem_of_cons in Hin as [->|Hin]; [|by apply H1].
        destruct (Fltb r.1 (scoreOf F_of_int Fadd run)) eqn:E; [|done].
        apply H3 in E. by rewrite Hirr in E.
      * right. destruct H2 as [->|(Hin & Hs & Hlt)].
        -- cbn [fst snd]. split; [by left|]. done.
        -- split; [by right|]. split; [done|]. by eapply Htrans.
      * intros x Hx. apply H3 in Hx. by eapply Htrans.
    + split; [|split].
      * intros run' Hin. apply elem_of_cons in Hin as [->|Hin]; [|by apply H1].
        destruct (Fltb r.1 (scoreOf F_of_int Fadd run)) eqn:E; [|done].
        apply H3 in E. congruence.
      * destruct H2 as [->|(Hin & Hs & Hlt)]; [by left|].
        right. split; [by right|]. done.
      * done.
Qed.
End Search.

Lemma map_emplace_nonempty {F} k (v : F * Z) m : map_emplace k v m <> [].
Proof.
  destruct m as [|[k' v'] m]; simpl; [done|].
  destruct (k <? k'); [done|]. destruct (k' <? k); done.
Qed.

Lemma mappingOf_nonempty {F} (accepted : list (conv_key F)) :
  accepted <> [] -> mappingOf accepted <> [].
Proof.
  unfold mappingOf. intros Hne.
  assert (forall l m, m <> [] ->
            fold_left (fun m (a : conv_key F) =>
                         map_emplace (ck_line1 a) (convergence a, ck_line2 a) m) l m <> []) as Hfold.
  { induction l as [|a l IH]; intros m Hm; [done|]. simpl. apply IH, map_emplace_nonempty. }
  destruct accepted as [|a l]; [done|]. cbn [fold_left]. apply Hfold, map_emplace_nonempty.
Qed.

Lemma greedySpec_nonempty {F} linesCount1 linesCount2 (walk accepted : list (conv_key F)) :
  accepted <> [] -> greedySpec linesCount1 linesCount2 walk accepted <> [].
Proof.
  revert accepted. induction walk as [|oc rest IH]; intros accepted Hne; [done|].
  cbn [greedySpec]. destruct (_ && _); [|by apply IH].
  destruct (_ || _); [by destruct accepted|]. apply IH. by destruct accepted.
Qed.

Lemma greedyRun_nonempty {F} linesCount1 linesCount2 (k : conv_key F) rest r :
  greedyRun linesCount1 linesCount2 (k :: rest) = Some r -> r <> [].
Proof.
  intros H. apply greedyRun_spec in H as ->. apply mappingOf_nonempty.
  cbn [greedySpec forallb andb app length].
  destruct (_ || _); [done|]. by apply greedySpec_nonempty.
Qed.

(** C7, as stated, fails: with [matchPercentThreshold = 0] the lines "a"
    and "b" make one candidate of convergence 0; the one run of the search
    yields the assignment of line 0 to line 0, the highest scoring one, and
    yet it is not used: [compareBlocks] compares no lines, where the line
    comparison of that assignment would record a changed line on both
    sides. *)
Lemma C7_counterexample :
  let options := sampleOptions false false false 0 in
  let c := unrelatedLinePair options in
  let run := [(0, (S754_zero false, 0))] in
  let entry := [ {| dl_line := 0; dl_changes := [] |} ] in
  (chunk1 ← getChars asciiAlphaNumeric (doc1 c) 0 1 options;
   chunk2 ← getChars asciiAlphaNumeric (doc2 c) 0 1 options;
   s ← orderedLinesConvergence f32_of_int f32_add f32_mul f32_div SFltb SFeqb SFleb charEngine
         options chunk1 chunk2 (d_info (freshBlock DIFF_IN_1 0 1))
         (d_info (freshBlock DIFF_IN_2 0 1));
   mapM (greedyRun 1 1) (startingPoints s)) = Some [run]
  /\ sampleCompareBlocks (doc1 c) (doc2 c) (freshBlock DIFF_IN_1 0 1) (freshBlock DIFF_IN_2 0 1)
       options = Some ([], [])
  /\ compareLines wordEngine charEngine asciiAlphaNumeric (doc1 c) (doc2 c) 0 0 options run (-1)
       ([], []) = Some (entry, entry).
Proof. cbv zeta. split; [|split]; vm_compute; reflexivity. Qed.

(** C7, amended: the search makes one greedy run per starting element of
    the ordered set; a run accepts, in set order from its start, each
    candidate whose two lines are still free and stops when one side is
    used up; its score is the sum of the convergences of the pairs whose
    [line2] rises along ascending [line1]; no run scores above the score
    retained. The assignment retained is used for the line comparison when
    its score is above 0; when no run scores above 0, none is retained and
    no lines are compared. *)
Theorem C7_search_retains_no_lower_score_and_uses_it_when_positive
    (F : Type) (F_of_int : Z -> F) (Fadd Fmul Fdiv : F -> F -> F)
    (Fltb Feqb Fleb : F -> F -> bool)
    (DiffCalcWord : list Word -> list Word -> list segment * bool)
    (DiffCalcChar : list Char -> list Char -> list segment * bool)
    (IsCharAlphaNumericA : Z -> bool)
    (doc1 doc2 : DocCmpInfo) (blockDiff1 blockDiff2 : diffInfo) (options : CompareOptions)
    (st : ChangedPair) :
  (forall a, Fltb a a = false) ->
  (forall a b c, Fltb a b = true -> Fltb b c = true -> Fltb a c = true) ->
  compareBlocks F_of_int Fadd Fmul Fdiv Fltb Feqb Fleb DiffCalcWord DiffCalcChar
    IsCharAlphaNumericA doc1 doc2 blockDiff1 blockDiff2 options = Some st ->
  let before := (changedLines (d_info blockDiff1), changedLines (d_info blockDiff2)) in
  exists chunk1 chunk2 s runs score best,
    getChars IsCharAlphaNumericA doc1 (d_off blockDiff1) (d_len blockDiff1) options = Some chunk1
    /\ getChars IsCharAlphaNumericA doc2 (d_off blockDiff2) (d_len blockDiff2) options
       = Some chunk2
    /\ orderedLinesConvergence F_of_int Fadd Fmul Fdiv Fltb Feqb Fleb DiffCalcChar options
         chunk1 chunk2 (d_info blockDiff1) (d_info blockDiff2) = Some s
    /\ Forall2 (fun from run =>
                  greedyRun (Z.of_nat (length chunk1)) (Z.of_nat (length chunk2)) from = Some run
                  /\ run = mappingOf (greedySpec (Z.of_nat (length chunk1))
                                        (Z.of_nat (length chunk2)) from []))
               (startingPoints s) runs
    /\ (forall run, scoreOf F_of_int Fadd run = spec_score F_of_int Fadd run)
    /\ (forall run, run ∈ runs -> Fltb score (scoreOf F_of_int Fadd run) = false)
    /\ ((score = F_of_int 0 /\ best = [] /\ st = before)
        \/ (best ∈ runs /\ score = scoreOf F_of_int Fadd best
            /\ Fltb (F_of_int 0) score = true
            /\ compareLines DiffCalcWord DiffCalcChar IsCharAlphaNumericA doc1 doc2
                 (d_off blockDiff1) (d_off blockDiff2) options best (-1) before = Some st)).
Proof.
  intros Hirr Htrans H. cbv zeta. unfold compareBlocks in H.
  destruct (getChars _ doc1 _ _ _) as [chunk1|] eqn:Ec1; cbn [mbind option_bind] in H; [|done].
  destruct (getChars _ doc2 _ _ _) as [chunk2|] eqn:Ec2; cbn [mbind option_bind] in H; [|done].
  destruct (orderedLinesConvergence _ _ _ _ _ _ _ _ _ _ _ _ _) as [s|] eqn:Eset;
    cbn [mbind option_bind] in H; [|done].
  unfold bestLineMappings in H.
  destruct (searchLoop _ _ _ _ _ _ _) as [[score best]|] eqn:Es;
    cbn [mbind option_bind fmap option_fmap option_map snd] in H; [|done].
  apply searchLoop_runs in Es as (runs & Hruns & Hfold).
  exists chunk1, chunk2, s, runs, score, best.
  split; [done|]. split; [done|]. split; [done|].
  apply mapM_Some_1 in Hruns as Hall.
  split.
  { eapply Forall2_impl; [exact Hall|]. intros from run Hr. split; [done|].
    by apply greedyRun_spec. }
  split; [apply scoreOf_spec|].
  destruct (keepBetter_fold_best F_of_int Fadd Fltb Hirr Htrans runs (F_of_int 0, []))
    as (H1 & H2 & _).
  rewrite <- Hfold in H1, H2. cbn [fst snd] in H1, H2.
  split; [exact H1|].
  destruct H2 as [[= -> ->]|(Hin & Hs & Hlt)].
  - left. cbn in H. by injection H as <-.
  - right. split; [done|]. split; [done|]. split; [done|].
    assert (best <> []) as Hne.
    { apply list_elem_of_lookup in Hin as [i Hi].
      destruct (Forall2_lookup_r _ _ _ _ _ Hall Hi) as (from & Hfrom & Hrun).
      assert (from <> []) as Hf.
      { clear -Hfrom. revert i Hfrom. induction s as [|k rest IH]; intros i Hi; [done|].
        destruct i; cbn in Hi; [by injection Hi as <-|by eapply IH]. }
      destruct from as [|k rest]; [done|]. by eapply greedyRun_nonempty. }
    destruct best; [done|]. exact H.
Qed.

Lemma C7_witness :
  let options := sampleOptions false false false 50 in
  let c := crossedLinePairs options in
  let r0 := [(0, (f32_of_int 80, 1)); (1, (f32_of_int 90, 0))] in
  let r1 := [(0, (f32_of_int 80, 0)); (1, (f32_of_int 80, 1))] in
  let r2 := [(0, (f32_of_int 80, 1))] in
  let r3 := [(1, (f32_of_int 80, 1))] in
  let changed := [ {| dl_line := 0; dl_changes := [ {| s_off := 8; s_len := 2 |} ] |};
                   {| dl_line := 1; dl_changes := [ {| s_off := 8; s_len := 2 |} ] |} ] in
  exists (runs : list (list (Z * (spec_float * Z)))) score best,
    runs = [r0; r1; r2; r3]
    /\ map (scoreOf f32_of_int f32_add) runs
       = [f32_of_int 80; f32_of_int 160; f32_of_int 80; f32_of_int 80]
    /\ best = r1 /\ score = f32_of_int 160
    /\ compareLines wordEngine charEngine asciiAlphaNumeric (doc1 c) (doc2 c) 0 0 options
         best (-1) ([], [])
       = Some (changed, changed).
Proof.
  cbv zeta.
  destruct (C7_search_retains_no_lower_score_and_uses_it_when_positive
              spec_float f32_of_int f32_add f32_mul f32_div SFltb SFeqb SFleb
              wordEngine charEngine asciiAlphaNumeric
              (doc1 (crossedLinePairs (sampleOptions false false false 50)))
              (doc2 (crossedLinePairs (sampleOptions false false false 50)))
              (freshBlock DIFF_IN_1 0 2) (freshBlock DIFF_IN_2 0 2)
              (sampleOptions false false false 50)
              ([ {| dl_line := 0; dl_changes := [ {| s_off := 8; s_len := 2 |} ] |};
                 {| dl_line := 1; dl_changes := [ {| s_off := 8; s_len := 2 |} ] |} ],
               [ {| dl_line := 0; dl_changes := [ {| s_off := 8; s_len := 2 |} ] |};
                 {| dl_line := 1; dl_changes := [ {| s_off := 8; s_len := 2 |} ] |} ])
              SFltb_irrefl SFltb_trans)
    as (chunk1 & chunk2 & s & runs & score & best & Hc1 & Hc2 & Hs & Hruns & _ & Htop & Hbest).
  - vm_compute. reflexivity.
  - vm_compute in Hc1. injection Hc1 as <-. vm_compute in Hc2. injection Hc2 as <-.
    vm_compute in Hs. injection Hs as <-.
    cbn [startingPoints] in Hruns.
    apply Forall2_cons_inv_l in Hruns as (run0 & runs0 & [Hrun0 _] & Hruns & ->).
    apply Forall2_cons_inv_l in Hruns as (run1 & runs1 & [Hrun1 _] & Hruns & ->).
    apply Forall2_cons_inv_l in Hruns as (run2 & runs2 & [Hrun2 _] & Hruns & ->).
    apply Forall2_cons_inv_l in Hruns as (run3 & runs3 & [Hrun3 _] & Hruns & ->).
    apply Forall2_nil_inv_l in Hruns as ->.
    vm_compute in Hrun0. injection Hrun0 as <-.
    vm_compute in Hrun1. injection Hrun1 as <-.
    vm_compute in Hrun2. injection Hrun2 as <-.
    vm_compute in Hrun3. injection Hrun3 as <-.
    destruct Hbest as [(_ & _ & Hst)|(Hin & Hscore & Hlt & Hcmp)]; [discriminate Hst|].
    assert (Hone : SFltb score (scoreOf f32_of_int f32_add
                                  [(0, (f32_of_int 80, 0)); (1, (f32_of_int 80, 1))]) = false).
    { apply Htop. right. left. }
    assert (best = [(0, (f32_of_int 80, 0)); (1, (f32_of_int 80, 1))]) as Hb.
    { rewrite !elem_of_cons, elem_of_nil in Hin.
      destruct Hin as [->|[->|[->|[->|[]]]]]; [|reflexivity| |];
        subst score; vm_compute in Hone; discriminate Hone. }
    subst best.
    eexists _, score, _. split; [reflexivity|]. split; [vm_compute; reflexivity|].
    split; [reflexivity|]. split; [rewrite Hscore; vm_compute; reflexivity|exact Hcmp].
Defined.

(** ** Further properties: hasher and line extractor *)

Lemma lxor_u64_range a b : 0 <= a < 2 ^ 64 -> 0 <= b < 2 ^ 64 -> 0 <= Z.lxor a b < 2 ^ 64.
Proof.
  intros Ha Hb.
  assert (0 <= Z.lxor a b) as Hnn by (apply Z.lxor_nonneg; lia).
  split; [done|].
  destruct (Z.eq_dec (Z.lxor a b) 0) as [->|Hz]; [lia|].
  apply Z.log2_lt_pow2; [lia|].
  pose proof (Z.log2_lxor a b ltac:(lia) ltac:(lia)) as Hl.
  assert (Z.log2 a < 64) as Hla.
  { destruct (Z.eq_dec a 0) as [->|]; [simpl; lia|]. apply Z.log2_lt_pow2; lia. }
  assert (Z.log2 b < 64) as Hlb.
  { destruct (Z.eq_dec b 0) as [->|]; [simpl; lia|]. apply Z.log2_lt_pow2; lia. }
  lia.
Qed.

Lemma u64_range z : 0 <= u64 z < 2 ^ 64.
Proof. unfold u64. apply Z.mod_pos_bound. lia. Qed.

Lemma FNV_prime_invertible x :
  0 <= x < 2 ^ 64 -> ((x * FNV_prime) mod 2 ^ 64 * 14886173955864302971) mod 2 ^ 64 = x.
Proof.
  intros Hx. rewrite Z.mul_mod_idemp_l by lia. rewrite <- Z.mul_assoc.
  replace (FNV_prime * 14886173955864302971)
    with (1 + 887285111055 * 2 ^ 64) by (unfold FNV_prime; lia).
  replace (x * (1 + 887285111055 * 2 ^ 64))
    with (x + (x * 887285111055) * 2 ^ 64) by lia.
  rewrite Z_mod_plus_full. apply Z.mod_small. lia.
Qed.

Lemma Hash_mixed_state hval1 hval2 c1 c2 :
  0 <= hval1 < 2 ^ 64 -> 0 <= hval2 < 2 ^ 64 ->
  Hash hval1 c1 = Hash hval2 c2 -> Z.lxor hval1 (u64 c1) = Z.lxor hval2 (u64 c2).
Proof.
  intros H1 H2. rewrite !Hash_spec_mix, !spec_mix_FNV. intros E.
  rewrite <- (FNV_prime_invertible (Z.lxor hval1 (u64 c1)))
    by (apply lxor_u64_range; [done|apply u64_range]).
  rewrite <- (FNV_prime_invertible (Z.lxor hval2 (u64 c2)))
    by (apply lxor_u64_range; [done|apply u64_range]).
  by rewrite E.
Qed.

Lemma lxor_cancel_l a b c : Z.lxor a b = Z.lxor a c -> b = c.
Proof.
  intros E. rewrite <- (Z.lxor_0_l b), <- (Z.lxor_0_l c).
  rewrite <- (Z.lxor_nilpotent a), !Z.lxor_assoc. by rewrite E.
Qed.

Lemma lxor_cancel_r a b c : Z.lxor a c = Z.lxor b c -> a = b.
Proof. rewrite (Z.lxor_comm a), (Z.lxor_comm b). apply lxor_cancel_l. Qed.

(** X1: one step of the hash loses nothing: from the same 64-bit state two
    chars give the same hash only when they are the same 64-bit value, and
    two 64-bit states give the same hash on the same char only when they
    are equal. *)
Theorem Hash_step_is_injective (hval1 hval2 c1 c2 : Z) :
  0 <= hval1 < 2 ^ 64 -> 0 <= hval2 < 2 ^ 64 ->
  Hash hval1 c1 = Hash hval2 c2 ->
  (hval1 = hval2 -> u64 c1 = u64 c2) /\ (u64 c1 = u64 c2 -> hval1 = hval2).
Proof.
  intros H1 H2 E. apply Hash_mixed_state in E; [|done|done]. split.
  - intros ->. by apply lxor_cancel_l in E.
  - intros Ec. rewrite Ec in E. by apply lxor_cancel_r in E.
Qed.

Lemma Hash_step_is_injective_witness :
  (cHashSeed = cHashSeed -> u64 97 = u64 97) /\ (u64 97 = u64 97 -> cHashSeed = cHashSeed).
Proof.
  apply (Hash_step_is_injective cHashSeed cHashSeed 97 97); [| |reflexivity];
    unfold cHashSeed; lia.
Defined.

Lemma getLines_loop_all_or_nothing v options secOff lineNums progress acc :
  fst (getLines_loop v options secOff lineNums progress acc) = None
  \/ fst (getLines_loop v options secOff lineNums progress acc)
     = fst (getLines_loop v options secOff lineNums None acc).
Proof.
  revert progress acc. induction lineNums as [|n rest IH]; intros progress acc; [by right|].
  cbn [getLines_loop].
  set (pp := match progress with
             | Some _ => if n `rem` monitorCancelEveryXLine =? 0 then poll progress
                         else (true, progress)
             | None => (true, progress) end).
  destruct pp as [go progress']. destruct go; cbn [negb]; [|by left].
  cbv zeta. destruct (IH progress' (if negb (ignoreEmptyLines options)
                     || negb (ln_hash {| ln_line := n + secOff;
                                         ln_hash := lineHashOf v options
                                                      (getLineStart v (n + secOff))
                                                      (getLineEnd v (n + secOff)) |}
                              =? cHashSeed)
                  then acc ++ [ {| ln_line := n + secOff;
                                   ln_hash := lineHashOf v options
                                                (getLineStart v (n + secOff))
                                                (getLineEnd v (n + secOff)) |} ]
                  else acc)) as [H|H]; [by left|].
  right. rewrite H. clear H.
  generalize (if negb (ignoreEmptyLines options)
                     || negb (ln_hash {| ln_line := n + secOff;
                                         ln_hash := lineHashOf v options
                                                      (getLineStart v (n + secOff))
                                                      (getLineEnd v (n + secOff)) |}
                              =? cHashSeed)
                  then acc ++ [ {| ln_line := n + secOff;
                                   ln_hash := lineHashOf v options
                                                (getLineStart v (n + secOff))
                                                (getLineEnd v (n + secOff)) |} ]
                  else acc). intros acc'.
  pose proof (getLines_loop_spec v options secOff rest None acc' I) as E1.
  pose proof (getLines_loop_spec v options secOff rest None acc' I) as E2.
  done.
Qed.

(** X2: whatever the progress dialog answers, [getLines] leaves either no
    line at all (the run was cancelled) or the complete result of the
    uncancelled run, never a part of it; and a document of length 0 has no
    lines, also when empty lines are not ignored. *)
Theorem getLines_all_or_nothing (doc : DocCmpInfo) (options : CompareOptions)
    (progress : Progress) :
  (lines (getLines doc options progress).1 = []
   \/ lines (getLines doc options progress).1 = lines (getLines doc options None).1)
  /\ (docLength (view doc) = 0 -> lines (getLines doc options progress).1 = []).
Proof.
  unfold getLines. destruct (docLength (view doc) =? 0) eqn:E.
  { split; [by left|done]. }
  apply Z.eqb_neq in E. split; [|done].
  set (sec := if (_ || _) then _ else _).
  destruct (s_len sec <? 0); [by left|].
  destruct (getLines_loop_all_or_nothing (view doc) options (s_off sec) (seqZ 0 (s_len sec))
              progress []) as [H|H].
  - left. destruct (getLines_loop _ _ _ _ progress _) as [r p]. simpl in H. by subst r.
  - right. destruct (getLines_loop _ _ _ _ progress _) as [r p].
    destruct (getLines_loop _ _ _ _ None _) as [r' p']. simpl in *. by subst r.
Qed.

Lemma spec_getLines_sorted v options secOff secLen :
  StronglySorted (fun a b => ln_line a < ln_line b) (spec_getLines v options secOff secLen)
  /\ Forall (fun l => secOff <= ln_line l < secOff + secLen)
            (spec_getLines v options secOff secLen).
Proof.
  unfold spec_getLines.
  assert (Hgen : forall (n : nat) (start : Z),
             let out := omap (fun lineNum =>
                           let i := lineNum + secOff in
                           let h := spec_lineHash v options i in
                           if ignoreEmptyLines options && (h =? 0x84222325) then None
                           else Some {| ln_line := i; ln_hash := h |})
                         (seqZ start (Z.of_nat n)) in
             StronglySorted (fun a b => ln_line a < ln_line b) out
             /\ Forall (fun l => start + secOff <= ln_line l < start + Z.of_nat n + secOff) out).
  { induction n as [|n IH]; intros start; cbv zeta.
    - simpl. split; constructor.
    - replace (Z.of_nat (S n)) with (Z.succ (Z.of_nat n)) by lia.
      rewrite seqZ_cons by lia. rewrite Z.pred_succ. cbn [omap list_omap].
      destruct (IH (Z.succ start)) as [IH1 IH2].
      assert (Forall (fun l => start + secOff < ln_line l
                               /\ start + secOff <= ln_line l < start + Z.succ (Z.of_nat n) + secOff)
                (omap (fun lineNum =>
                         let i := lineNum + secOff in
                         let h := spec_lineHash v options i in
                         if ignoreEmptyLines options && (h =? 0x84222325) then None
                         else Some {| ln_line := i; ln_hash := h |})
                      (seqZ (Z.succ start) (Z.of_nat n)))) as Hall.
      { eapply Forall_impl; [exact IH2|]. intros l Hl. simpl in Hl. lia. }
      destruct (ignoreEmptyLines options && _).
      + split; [done|]. eapply Forall_impl; [exact Hall|]. intros l Hl. simpl in *. lia.
      + split.
        * constructor; [done|]. eapply Forall_impl; [exact Hall|]. intros l [Hl _]. done.
        * constructor; [simpl; lia|]. eapply Forall_impl; [exact Hall|]. by intros l [_ Hl]. }
  destruct (Z_le_gt_dec 0 secLen) as [Hnn|Hneg].
  - specialize (Hgen (Z.to_nat secLen) 0). cbv zeta in Hgen.
    rewrite Z2Nat.id in Hgen by done. destruct Hgen as [H1 H2]. split; [done|].
    eapply Forall_impl; [exact H2|]. intros l Hl. simpl in Hl. lia.
  - replace (seqZ 0 secLen) with (@nil Z).
    + split; constructor.
    + unfold seqZ. replace (Z.to_nat secLen) with 0%nat by lia. done.
Qed.

(** X3: the normalized lines of a document are strictly ordered by their
    original line index, and every one of them comes from the section
    [off, off + len) that [getLines] settles on. *)
Theorem getLines_strictly_ordered_within_section (doc : DocCmpInfo)
    (options : CompareOptions) (progress : Progress) :
  let doc' := (getLines doc options progress).1 in
  StronglySorted (fun a b => ln_line a < ln_line b) (lines doc')
  /\ Forall (fun l => s_off (section doc') <= ln_line l
                      < s_off (section doc') + s_len (section doc')) (lines doc').
Proof.
  cbv zeta. unfold getLines. destruct (docLength (view doc) =? 0) eqn:E.
  { simpl. split; constructor. }
  set (sec := if (_ || _) then _ else _).
  destruct (s_len sec <? 0); [simpl; split; constructor|].
  destruct (getLines_loop_all_or_nothing (view doc) options (s_off sec) (seqZ 0 (s_len sec))
              progress []) as [H|H].
  - destruct (getLines_loop _ _ _ _ progress _) as [r p]. simpl in H. subst r.
    simpl. split; constructor.
  - pose proof (getLines_loop_spec (view doc) options (s_off sec) (seqZ 0 (s_len sec))
                  None [] I) as Hs.
    rewrite <- H in Hs. destruct (getLines_loop _ _ _ _ progress _) as [r p].
    simpl in Hs. subst r. cbn [fst lines section default app].
    apply spec_getLines_sorted.
Qed.

(** X28: [getLines] ends in the exception of [reserve] exactly when the
    document is not empty and its section starts behind the last line. It
    then has polled the dialog not once and leaves the document without
    lines, its section as long as the (negative) distance from the start of
    the section to the line count. *)
Theorem getLines_throws_iff_section_behind_last_line (doc : DocCmpInfo)
    (options : CompareOptions) (progress : Progress) :
  ((getLines doc options progress).2.2 = Thrown
   <-> docLength (view doc) <> 0 /\ lineCount (view doc) < s_off (section doc))
  /\ ((getLines doc options progress).2.2 = Thrown ->
      lines (getLines doc options progress).1 = []
      /\ (getLines doc options progress).2.1 = progress
      /\ s_off (section (getLines doc options progress).1) = s_off (section doc)
      /\ s_len (section (getLines doc options progress).1)
         = lineCount (view doc) - s_off (section doc)).
Proof.
  split; [apply getLines_exit|].
  intros Ht. pose proof Ht as Hc. apply getLines_exit in Hc as [Hne Hlt].
  revert Ht. unfold getLines. destruct (docLength (view doc) =? 0); [done|].
  destruct ((s_len (section doc) <=? 0)
            || (lineCount (view doc) <? s_off (section doc) + s_len (section doc))) eqn:Ec.
  - cbn [s_len s_off]. destruct (lineCount (view doc) - s_off (section doc) <? 0); [done|].
    destruct (getLines_loop _ _ _ _ _ _). done.
  - destruct (s_len (section doc) <? 0) eqn:En.
    + apply orb_false_iff in Ec as [E1 _]. apply Z.leb_gt in E1. apply Z.ltb_lt in En. lia.
    + destruct (getLines_loop _ _ _ _ _ _). done.
Qed.

(** ** Further properties: tokenizer *)

Lemma vat_lookup {A} (l : list A) (k : nat) : vat l (Z.of_nat k) = l !! k.
Proof.
  unfold vat. destruct (Z.of_nat k <? 0) eqn:E; [apply Z.ltb_lt in E; lia|].
  by rewrite Nat2Z.id.
Qed.

Lemma eqb_charType_true a b : eqb_charType a b = true <-> a = b.
Proof. destruct a, b; simpl; split; congruence. Qed.

Lemma eqb_charType_false a b : eqb_charType a b = false <-> a <> b.
Proof. destruct a, b; simpl; split; congruence. Qed.

Section Tokenizer.
Variable IsCharAlphaNumericA : Z -> bool.
Variable options : CompareOptions.
Variable B : list Z.

Lemma wordsLoop_tiles (k : nat) (Bk : list Z) (currentWordType : charType) (word : Word)
    (words : list Word) :
  drop k B = Bk ->
  w_pos word + w_len word = Z.of_nat k ->
  1 <= w_len word -> 0 <= w_pos word ->
  (forall i, w_pos word <= i < Z.of_nat k ->
     getCharType IsCharAlphaNumericA <$> vat B i = Some currentWordType) ->
  w_hash word
  = fold_left Hash (take (Z.to_nat (w_len word)) (drop (Z.to_nat (w_pos word)) B)) cHashSeed ->
  exists T,
    tiles (getCharType IsCharAlphaNumericA) B (w_pos word) T
    /\ wordsLoop IsCharAlphaNumericA options
         (imap (fun j c => ((k + j)%nat, c)) Bk) currentWordType word words
       = words ++ List.filter (keptWord (getCharType IsCharAlphaNumericA) options B) T.
Proof.
  revert k currentWordType word words.
  induction Bk as [|c Bk' IH]; intros k cur word words Hdrop Hk Hlen Hpos Hcls Hhash.
  - assert (Hend : Z.of_nat k = Z.of_nat (length B) \/ (length B < k)%nat).
    { destruct (decide (k <= length B)%nat) as [Hle|]; [|right; lia].
      left. apply (f_equal length) in Hdrop. rewrite length_drop in Hdrop. simpl in Hdrop. lia. }
    assert (Hk' : Z.of_nat k = Z.of_nat (length B)).
    { destruct Hend as [|Hgt]; [done|]. exfalso.
      specialize (Hcls (Z.of_nat k - 1) ltac:(lia)).
      replace (Z.of_nat k - 1) with (Z.of_nat (k - 1)) in Hcls by lia.
      rewrite vat_lookup in Hcls. rewrite lookup_ge_None_2 in Hcls by lia. done. }
    exists [word]. split.
    + eapply tiles_word with (t := cur); try done.
      * intros i Hi. apply Hcls. lia.
      * rewrite Hk, Hk'. rewrite vat_lookup. by rewrite lookup_ge_None_2 by lia.
      * rewrite Hk, Hk'. constructor.
    + cbn [imap wordsLoop List.filter]. unfold keptWord.
      rewrite (Hcls (w_pos word) ltac:(lia)).
      destruct (ignoreSpaces options); cbn [negb orb]; [|done].
      destruct cur; cbn; by rewrite ?app_nil_r.
  - assert (Hc : B !! k = Some c).
    { rewrite <- (Nat.add_0_r k), <- lookup_drop, Hdrop. done. }
    assert (Hdrop' : drop (S k) B = Bk').
    { rewrite <- (Nat.add_1_r k), <- drop_drop, Hdrop. done. }
    rewrite imap_cons. cbn [wordsLoop]. rewrite Nat.add_0_r.
    assert (Himap : imap ((fun j c0 => ((k + j)%nat, c0)) ∘ S) Bk'
                    = imap (fun j c0 => ((S k + j)%nat, c0)) Bk').
    { apply imap_ext. intros j x _. simpl. f_equal. lia. }
    rewrite Himap.
    destruct (eqb_charType (getCharType IsCharAlphaNumericA c) cur) eqn:Ecls.
    + apply eqb_charType_true in Ecls.
      destruct (IH (S k) cur
                  {| w_pos := w_pos word; w_len := w_len word + 1;
                     w_hash := Hash (w_hash word) c |} words) as (T & HT & Hloop);
        cbn [w_pos w_len w_hash]; try done; try lia.
      * intros i Hi. destruct (decide (i = Z.of_nat k)) as [->|Hne].
        -- rewrite vat_lookup, Hc. simpl. by rewrite Ecls.
        -- apply Hcls. lia.
      * rewrite Hhash.
        replace (Z.to_nat (w_len word + 1)) with (S (Z.to_nat (w_len word))) by lia.
        assert (drop (Z.to_nat (w_pos word)) B !! Z.to_nat (w_len word) = Some c) as Hx.
        { rewrite lookup_drop. replace (Z.to_nat (w_pos word) + Z.to_nat (w_len word))%nat
            with k by lia. done. }
        rewrite (take_S_r _ _ _ Hx). rewrite fold_left_app. done.
      * exists T. split; [exact HT|exact Hloop].
    + apply eqb_charType_false in Ecls.
      set (kept := if negb (ignoreSpaces options) || negb (eqb_charType cur SPACECHAR)
                   then words ++ [word] else words).
      destruct (IH (S k) (getCharType IsCharAlphaNumericA c)
                  {| w_pos := Z.of_nat k; w_len := 1; w_hash := Hash cHashSeed c |}
                  kept) as (T & HT & Hloop); cbn [w_pos w_len w_hash]; try done; try lia.
      * intros i Hi. assert (i = Z.of_nat k) as -> by lia.
        rewrite vat_lookup, Hc. done.
      * rewrite Nat2Z.id. change (Z.to_nat 1) with 1%nat.
        rewrite (drop_S _ _ _ Hc). done.
      * exists (word :: T). split.
        -- eapply tiles_word with (t := cur); try done.
           ++ intros i Hi. apply Hcls. lia.
           ++ rewrite Hk, vat_lookup, Hc. simpl. congruence.
           ++ rewrite Hk. exact HT.
        -- rewrite Hloop. cbn [List.filter]. unfold kept, keptWord at 2.
           rewrite (Hcls (w_pos word) ltac:(lia)). cbn [fmap option_fmap option_map].
           destruct (ignoreSpaces options); cbn [negb orb].
           ++ destruct cur; cbn; by rewrite <- ?app_assoc.
           ++ by rewrite <- app_assoc.
Qed.
End Tokenizer.

Lemma foldedBytes_length v options a b :
  length (foldedBytes v options a b) = Z.to_nat (b - a).
Proof.
  unfold foldedBytes. destruct (ignoreCase options);
    rewrite ?toLowerCase_length, length_map, length_seqZ; done.
Qed.

Lemma getText_folded v options a b :
  take (length (getText v a b) - 1)
       (if ignoreCase options then toLowerCase (getText v a b) else getText v a b)
  = foldedBytes v options a b.
Proof.
  unfold getText, foldedBytes.
  set (raw := map (byteAt v) (seqZ a (b - a))).
  rewrite length_app. cbn [length]. replace (length raw + 1 - 1)%nat with (length raw) by lia.
  destruct (ignoreCase options).
  - rewrite toLowerCase_app. rewrite <- (toLowerCase_length raw). by rewrite take_app_length.
  - by rewrite take_app_length.
Qed.

Lemma getLineWords_tiles (IsCharAlphaNumericA : Z -> bool) (v : View)
    (lineNum : Z) (options : CompareOptions) :
  getLineStart v lineNum < getLineEnd v lineNum ->
  let B := foldedBytes v options (getLineStart v lineNum) (getLineEnd v lineNum) in
  exists T,
    tiles (getCharType IsCharAlphaNumericA) B 0 T
    /\ getLineWords IsCharAlphaNumericA v lineNum options
       = List.filter (keptWord (getCharType IsCharAlphaNumericA) options B) T.
Proof.
  intros Hlt. unfold getLineWords. cbv zeta.
  destruct (_ - _ =? 0) eqn:E; [apply Z.eqb_eq in E; lia|].
  pose proof (getText_folded v options (getLineStart v lineNum) (getLineEnd v lineNum)) as Hf.
  pose proof (foldedBytes_length v options (getLineStart v lineNum) (getLineEnd v lineNum)) as HB.
  revert Hf HB.
  generalize (foldedBytes v options (getLineStart v lineNum) (getLineEnd v lineNum)).
  intros B Hf HB. rewrite Hf.
  assert (Hhead : head (if ignoreCase options
                        then toLowerCase (getText v (getLineStart v lineNum) (getLineEnd v lineNum))
                        else getText v (getLineStart v lineNum) (getLineEnd v lineNum))
                  = head B).
  { revert Hf. generalize (if ignoreCase options
                        then toLowerCase (getText v (getLineStart v lineNum) (getLineEnd v lineNum))
                        else getText v (getLineStart v lineNum) (getLineEnd v lineNum)).
    intros L Hf. rewrite <- Hf in *.
    destruct L as [|x L]; [rewrite take_nil in HB; simpl in HB; lia|].
    destruct (length (getText v (getLineStart v lineNum) (getLineEnd v lineNum)) - 1)%nat;
      [simpl in HB; lia|]. done. }
  rewrite Hhead. destruct B as [|c0 B']; [simpl in HB; lia|]. cbn [head default].
  assert (Himap : drop 1 (imap pair (c0 :: B')) = imap (fun j c => ((1 + j)%nat, c)) B').
  { rewrite imap_cons. cbn [drop]. apply imap_ext. by intros j x _. }
  rewrite Himap.
  destruct (wordsLoop_tiles IsCharAlphaNumericA options (c0 :: B') 1 B'
              (getCharType IsCharAlphaNumericA c0)
              {| w_pos := 0; w_len := 1; w_hash := Hash cHashSeed c0 |} [])
    as (T & HT & Hloop); cbn [w_pos w_len w_hash]; try done; try lia.
  - intros i Hi. assert (i = 0) as -> by lia. done.
  - exists T. split; [exact HT|exact Hloop].
Qed.

(** X4: the words of a non-empty line tile the line: taken in order, every
    word is a maximal run of bytes of one class (space or tab, letter,
    digit or underscore, other), starts at 0 or where the word before it
    ends, the last one ends at the end of the line, and its hash is the
    hash of its bytes from the seed; with [ignoreSpaces] the blank words
    are left out of the result, and nothing else is. *)
Theorem getLineWords_tiles_the_line (IsCharAlphaNumericA : Z -> bool) (v : View)
    (lineNum : Z) (options : CompareOptions) :
  getLineStart v lineNum < getLineEnd v lineNum ->
  let B := foldedBytes v options (getLineStart v lineNum) (getLineEnd v lineNum) in
  exists T,
    tiles (getCharType IsCharAlphaNumericA) B 0 T
    /\ getLineWords IsCharAlphaNumericA v lineNum options
       = List.filter (keptWord (getCharType IsCharAlphaNumericA) options B) T.
Proof. apply getLineWords_tiles. Qed.

Lemma getLineWords_tiles_the_line_witness :
  exists T,
    tiles (getCharType asciiAlphaNumeric)
          (foldedBytes sampleLineView (sampleOptions true true false 0) 0 8) 0 T
    /\ getLineWords asciiAlphaNumeric sampleLineView 0 (sampleOptions true true false 0)
       = List.filter (keptWord (getCharType asciiAlphaNumeric) (sampleOptions true true false 0)
                        (foldedBytes sampleLineView (sampleOptions true true false 0) 0 8)) T.
Proof.
  apply (getLineWords_tiles_the_line asciiAlphaNumeric sampleLineView 0
           (sampleOptions true true false 0)).
  vm_compute. reflexivity.
Defined.

Lemma tiles_bounds cls B p T :
  tiles cls B p T ->
  0 <= p ->
  Forall (fun w => p <= w_pos w /\ 1 <= w_len w /\ w_pos w + w_len w <= Z.of_nat (length B)) T
  /\ StronglySorted (fun a b => w_pos a + w_len a <= w_pos b) T
  /\ (p <= Z.of_nat (length B) -> p + wordsLen T = Z.of_nat (length B)).
Proof.
  induction 1 as [|w rest t Hlen Hpos Hcls Hend Hhash Hrest IH]; intros Hp.
  - repeat split; [constructor|constructor|simpl; lia].
  - destruct IH as (Hall & Hsorted & Hsum); [lia|].
    assert (Hin : w_pos w + w_len w <= Z.of_nat (length B)).
    { specialize (Hcls (w_pos w + w_len w - 1) ltac:(lia)).
      unfold vat in Hcls. destruct (_ <? 0) eqn:E; [done|].
      destruct (B !! _) eqn:El; [|done]. apply lookup_lt_Some in El. lia. }
    repeat split.
    + constructor; [lia|]. eapply Forall_impl; [exact Hall|]. simpl. intros x ?. lia.
    + constructor; [exact Hsorted|]. eapply Forall_impl; [exact Hall|]. simpl. intros x ?. lia.
    + intros _. simpl. specialize (Hsum Hin). lia.
Qed.

Lemma StronglySorted_filter {A} (R : A -> A -> Prop) (f : A -> bool) l :
  StronglySorted R l -> StronglySorted R (List.filter f l).
Proof.
  induction 1 as [|x l Hs IH Hall]; simpl; [constructor|].
  destruct (f x); [|exact IH]. constructor; [exact IH|].
  apply List.Forall_forall. intros y Hy. apply filter_In in Hy as [Hy _].
  rewrite List.Forall_forall in Hall. by apply Hall.
Qed.

Lemma Forall_filter_keep {A} (P : A -> Prop) (f : A -> bool) l :
  Forall P l -> Forall P (List.filter f l).
Proof.
  intros H. apply List.Forall_forall. intros y Hy. apply filter_In in Hy as [Hy _].
  rewrite List.Forall_forall in H. by apply H.
Qed.

(** X5: on a line whose end is not before its start, the words come in
    ascending order and do not overlap (each starts at or after the end of
    the one before), each is at least one byte long and lies within the
    line. *)
Theorem getLineWords_ordered_within_line (IsCharAlphaNumericA : Z -> bool) (v : View)
    (lineNum : Z) (options : CompareOptions) :
  getLineStart v lineNum <= getLineEnd v lineNum ->
  StronglySorted (fun a b => w_pos a + w_len a <= w_pos b)
                 (getLineWords IsCharAlphaNumericA v lineNum options)
  /\ Forall (fun w => 0 <= w_pos w /\ 1 <= w_len w
                      /\ w_pos w + w_len w <= getLineEnd v lineNum - getLineStart v lineNum)
            (getLineWords IsCharAlphaNumericA v lineNum options).
Proof.
  intros Hle.
  destruct (decide (getLineStart v lineNum = getLineEnd v lineNum)) as [Heq|Hne].
  - unfold getLineWords. rewrite Heq, Z.sub_diag. simpl. split; constructor.
  - destruct (getLineWords_tiles IsCharAlphaNumericA v lineNum options ltac:(lia))
      as (T & HT & ->).
    apply tiles_bounds in HT as (Hall & Hsorted & _); [|lia].
    rewrite foldedBytes_length in Hall.
    split; [by apply StronglySorted_filter|].
    apply Forall_filter_keep. eapply Forall_impl; [exact Hall|]. simpl. intros w ?. lia.
Qed.

Lemma getLineWords_ordered_within_line_witness :
  StronglySorted (fun a b => w_pos a + w_len a <= w_pos b)
                 (getLineWords asciiAlphaNumeric sampleLineView 0 (sampleOptions true true false 0))
  /\ Forall (fun w => 0 <= w_pos w /\ 1 <= w_len w /\ w_pos w + w_len w <= 8 - 0)
            (getLineWords asciiAlphaNumeric sampleLineView 0 (sampleOptions true true false 0)).
Proof.
  apply (getLineWords_ordered_within_line asciiAlphaNumeric sampleLineView 0
           (sampleOptions true true false 0)).
  vm_compute. discriminate.
Defined.

(** X6: when spaces are not ignored the words cover the line: their
    lengths add up to the length of the line in bytes. *)
Theorem getLineWords_cover_the_line (IsCharAlphaNumericA : Z -> bool) (v : View)
    (lineNum : Z) (options : CompareOptions) :
  ignoreSpaces options = false ->
  getLineStart v lineNum <= getLineEnd v lineNum ->
  wordsLen (getLineWords IsCharAlphaNumericA v lineNum options)
  = getLineEnd v lineNum - getLineStart v lineNum.
Proof.
  intros Hsp Hle.
  destruct (decide (getLineStart v lineNum = getLineEnd v lineNum)) as [Heq|Hne].
  - unfold getLineWords. rewrite Heq, Z.sub_diag. simpl. done.
  - destruct (getLineWords_tiles IsCharAlphaNumericA v lineNum options ltac:(lia))
      as (T & HT & ->).
    apply tiles_bounds in HT as (_ & _ & Hsum); [|lia].
    rewrite foldedBytes_length in Hsum.
    assert (Hf : List.filter
                   (keptWord (getCharType IsCharAlphaNumericA) options
                      (foldedBytes v options (getLineStart v lineNum) (getLineEnd v lineNum))) T
                 = T).
    { apply forallb_filter_id. apply forallb_forall. intros w _. unfold keptWord.
      by rewrite Hsp. }
    rewrite Hf. lia.
Qed.

Lemma getLineWords_cover_the_line_witness :
  wordsLen (getLineWords asciiAlphaNumeric sampleLineView 0 (sampleOptions true false false 0))
  = 8 - 0.
Proof.
  apply (getLineWords_cover_the_line asciiAlphaNumeric sampleLineView 0
           (sampleOptions true false false 0)).
  - reflexivity.
  - vm_compute. discriminate.
Defined.

(** ** Further properties: char extraction *)

Lemma omap_imap_sorted (f : Z -> bool) (k : nat) (Bk : list Z) :
  StronglySorted (fun a b => c_pos a < c_pos b)
    (omap (fun ic : nat * Z =>
             if f ic.2 then Some {| c_ch := ic.2; c_pos := Z.of_nat ic.1 |} else None)
          (imap (fun j c => ((k + j)%nat, c)) Bk))
  /\ Forall (fun c => Z.of_nat k <= c_pos c)
    (omap (fun ic : nat * Z =>
             if f ic.2 then Some {| c_ch := ic.2; c_pos := Z.of_nat ic.1 |} else None)
          (imap (fun j c => ((k + j)%nat, c)) Bk)).
Proof.
  revert k. induction Bk as [|c Bk' IH]; intros k; [split; constructor|].
  rewrite imap_cons.
  assert (Himap : imap ((fun j c0 => ((k + j)%nat, c0)) ∘ S) Bk'
                  = imap (fun j c0 => ((S k + j)%nat, c0)) Bk').
  { apply imap_ext. intros j x _. simpl. f_equal. lia. }
  rewrite Himap. destruct (IH (S k)) as [Hs Hall]. cbn [omap list_omap].
  cbn [snd fst]. destruct (f c).
  - split.
    + constructor; [exact Hs|]. eapply Forall_impl; [exact Hall|]. simpl. intros x ?. lia.
    + constructor; [simpl; lia|]. eapply Forall_impl; [exact Hall|]. simpl. intros x ?. lia.
  - split; [exact Hs|]. eapply Forall_impl; [exact Hall|]. simpl. intros x ?. lia.
Qed.

(** X7: the chars of a section whose end is not before its start are the
    bytes of the section after case folding, each with its offset in the
    section, in ascending order of offset; with [ignoreSpaces] exactly the
    spaces and tabs are left out. *)
Theorem getSectionChars_are_the_kept_bytes (IsCharAlphaNumericA : Z -> bool) (v : View)
    (secStart secEnd : Z) (options : CompareOptions) :
  secStart <= secEnd ->
  StronglySorted (fun a b => c_pos a < c_pos b)
                 (getSectionChars IsCharAlphaNumericA v secStart secEnd options)
  /\ forall ch pos,
       In {| c_ch := ch; c_pos := pos |}
          (getSectionChars IsCharAlphaNumericA v secStart secEnd options)
       <-> vat (foldedBytes v options secStart secEnd) pos = Some ch
           /\ keptChar (getCharType IsCharAlphaNumericA) options ch = true.
Proof.
  intros Hle. unfold getSectionChars.
  destruct (secEnd - secStart =? 0) eqn:E.
  - apply Z.eqb_eq in E. split; [constructor|]. intros ch pos. split; [intros []|].
    intros [Hv _]. unfold vat in Hv. destruct (pos <? 0); [done|].
    apply lookup_lt_Some in Hv. rewrite foldedBytes_length in Hv. lia.
  - cbv zeta. rewrite getText_folded.
    generalize (foldedBytes v options secStart secEnd). intros B.
    assert (Himap : imap pair B = imap (fun j c => ((0 + j)%nat, c)) B) by done.
    split.
    { rewrite Himap. apply omap_imap_sorted with
        (f := fun c => negb (ignoreSpaces options)
                       || negb (eqb_charType (getCharType IsCharAlphaNumericA c) SPACECHAR)). }
    intros ch pos. rewrite <- list_elem_of_In, list_elem_of_omap. split.
    + intros ((i & c) & Hin & Hf). apply elem_of_lookup_imap in Hin as (j & y & [= -> ->] & Hl).
      cbn [fst snd] in Hf. destruct (negb _ || negb _) eqn:Ek; [|done].
      injection Hf as -> <-. rewrite vat_lookup. split; [done|].
      unfold keptChar. destruct (ignoreSpaces options); [|done]. cbn [negb orb] in *.
      by destruct (getCharType IsCharAlphaNumericA ch).
    + intros [Hv Hk]. unfold vat in Hv. destruct (pos <? 0) eqn:Ep; [done|].
      apply Z.ltb_ge in Ep. exists (Z.to_nat pos, ch). split.
      * apply elem_of_lookup_imap. by exists (Z.to_nat pos), ch.
      * cbn [fst snd]. unfold keptChar in Hk.
        assert (Hk' : negb (ignoreSpaces options)
                      || negb (eqb_charType (getCharType IsCharAlphaNumericA ch) SPACECHAR) = true).
        { destruct (ignoreSpaces options); [|done]. cbn [negb orb] in *.
          by destruct (getCharType IsCharAlphaNumericA ch). }
        rewrite Hk'. by rewrite Z2Nat.id.
Qed.

Lemma getSectionChars_are_the_kept_bytes_witness :
  StronglySorted (fun a b => c_pos a < c_pos b)
                 (getSectionChars asciiAlphaNumeric sampleLineView 0 8
                    (sampleOptions true true false 0))
  /\ forall ch pos,
       In {| c_ch := ch; c_pos := pos |}
          (getSectionChars asciiAlphaNumeric sampleLineView 0 8 (sampleOptions true true false 0))
       <-> vat (foldedBytes sampleLineView (sampleOptions true true false 0) 0 8) pos = Some ch
           /\ keptChar (getCharType asciiAlphaNumeric) (sampleOptions true true false 0) ch = true.
Proof.
  apply (getSectionChars_are_the_kept_bytes asciiAlphaNumeric sampleLineView 0 8
           (sampleOptions true true false 0)).
  lia.
Defined.

(** ** Further properties: moved sections *)

(** X8: the two lookups in the list of moves agree. When [getNextUnmoved]
    answers true, the line lies in a move, [movedSection] gives the length
    of that same move, and the updated line is the first one behind it;
    when it answers false the line lies in no move and [movedSection]
    gives 0. *)
Theorem movedSection_agrees_with_getNextUnmoved (info : blockDiffInfo) (line : Z) :
  match getNextUnmoved info line with
  | Some next =>
      0 < movedSection info line
      /\ next - movedSection info line <= line < next
      /\ In {| s_off := next - movedSection info line; s_len := movedSection info line |}
            (moves info)
  | None =>
      movedSection info line = 0
      /\ Forall (fun move => ~ (s_off move <= line < s_off move + s_len move)) (moves info)
  end.
Proof.
  unfold getNextUnmoved, movedSection.
  destruct (List.find (inMove line) (moves info)) as [mv|] eqn:E.
  - apply find_some in E as [Hin E]. unfold inMove in E.
    apply andb_true_iff in E as [E1 E2]. apply Z.leb_le in E1. apply Z.ltb_lt in E2.
    repeat split; try lia.
    replace (s_off mv + s_len mv - s_len mv) with (s_off mv) by lia.
    by destruct mv.
  - split; [done|]. apply List.Forall_forall. intros mv Hin Hr.
    apply (find_none _ _ E) in Hin. unfold inMove in Hin.
    apply andb_false_iff in Hin as [Hin|Hin]; [apply Z.leb_gt in Hin|apply Z.ltb_ge in Hin]; lia.
Qed.

(** ** Further properties: lines with a counterpart *)

Lemma groupLines_snoc ls l : groupLines (ls ++ [l]) = emplaceLine (groupLines ls) l.
Proof. unfold groupLines. by rewrite fold_left_app. Qed.

Lemma linesOf_snoc h ls l :
  linesOf h (ls ++ [l]) = linesOf h ls ++ (if ln_hash l =? h then [ln_line l] else []).
Proof.
  unfold linesOf. rewrite List.filter_app, map_app. simpl. by destruct (ln_hash l =? h).
Qed.

Lemma groupLines_lookup ls h :
  groupLines ls !! h = match linesOf h ls with [] => None | _ :: _ => Some (linesOf h ls) end.
Proof.
  induction ls as [|l ls IH] using rev_ind; [unfold groupLines; simpl; by rewrite lookup_empty|].
  rewrite groupLines_snoc, linesOf_snoc. unfold emplaceLine.
  destruct (decide (ln_hash l = h)) as [<-|Hne].
  - rewrite Z.eqb_refl. rewrite IH.
    destruct (linesOf (ln_hash l) ls) as [|x v]; rewrite lookup_insert_eq; done.
  - assert ((ln_hash l =? h) = false) as -> by (by apply Z.eqb_neq).
    rewrite app_nil_r.
    destruct (groupLines ls !! ln_hash l); by rewrite lookup_insert_ne.
Qed.

Lemma linesOf_elem h ls n :
  n ∈ linesOf h ls <-> exists l, In l ls /\ ln_line l = n /\ ln_hash l = h.
Proof.
  unfold linesOf. rewrite list_elem_of_In, in_map_iff. split.
  - intros (l & Hn & Hin). apply filter_In in Hin as [Hin Hh]. apply Z.eqb_eq in Hh. eauto.
  - intros (l & Hin & Hn & Hh). exists l. split; [done|]. apply filter_In.
    split; [done|]. by apply Z.eqb_eq.
Qed.

Lemma hashSet_elem ls h : h ∈ hashSet ls <-> exists l, In l ls /\ ln_hash l = h.
Proof.
  unfold hashSet. rewrite elem_of_list_to_set, list_elem_of_In, in_map_iff.
  split; intros (l & ? & ?); eauto.
Qed.

Lemma linesOf_nonempty h ls : linesOf h ls <> [] <-> h ∈ hashSet ls.
Proof.
  rewrite hashSet_elem. split.
  - intros Hne. destruct (linesOf h ls) as [|n v] eqn:E; [done|].
    assert (Hn : n ∈ linesOf h ls) by (rewrite E; by left).
    apply linesOf_elem in Hn as (l & ? & ? & ?). eauto.
  - intros (l & Hin & Hh) E.
    assert (Hn : ln_line l ∈ linesOf h ls) by (apply linesOf_elem; eauto).
    rewrite E in Hn. by apply elem_of_nil in Hn.
Qed.

Lemma fold_emplace_elem (v : list Z) (s : gset Z) x :
  x ∈ fold_left (fun s l => {[l]} ∪ s) v s <-> x ∈ v \/ x ∈ s.
Proof.
  revert s. induction v as [|y v IH]; intros s; simpl.
  - split; [by right|]. intros [H|H]; [by apply elem_of_nil in H|done].
  - rewrite IH, elem_of_union, elem_of_singleton, elem_of_cons. tauto.
Qed.

Lemma NoDup_line_hash L1 x y :
  NoDup (map ln_line L1) -> In x L1 -> In y L1 -> ln_line x = ln_line y -> x = y.
Proof.
  induction L1 as [|a L1 IH]; [done|]. simpl. intros Hnd Hx Hy Heq.
  apply NoDup_cons in Hnd as [Ha Hnd].
  destruct Hx as [->|Hx], Hy as [->|Hy]; [done| | |by apply IH].
  - exfalso. apply Ha. rewrite Heq. apply list_elem_of_In, in_map, Hy.
  - exfalso. apply Ha. rewrite <- Heq. apply list_elem_of_In, in_map, Hx.
Qed.

Lemma findUniqueLoop_spec L1 ls nu1 nu2 P :
  NoDup (map ln_line L1) ->
  (forall n, n ∈ nu1 <-> exists l, In l P /\ n ∈ linesOf (ln_hash l) L1) ->
  exists nu1' nu2',
    findUniqueLoop (groupLines L1) ls (nu1, nu2) = Some (nu1', nu2')
    /\ (forall n, n ∈ nu1' <-> exists l, In l (P ++ ls) /\ n ∈ linesOf (ln_hash l) L1)
    /\ (forall n, n ∈ nu2' <-> n ∈ nu2 \/ exists l, In l ls /\ ln_line l = n
                                                    /\ linesOf (ln_hash l) L1 <> []).
Proof.
  intros Hnd. revert nu1 nu2 P. induction ls as [|line ls IH]; intros nu1 nu2 P Hinv.
  - exists nu1, nu2. split; [done|]. rewrite app_nil_r. split; [done|].
    intros n. split; [by left|]. intros [H|(l & [] & _)]. done.
  - cbn [findUniqueLoop findUniqueStep]. rewrite groupLines_lookup.
    assert (Hshift : forall (Q : Line -> Prop),
               (exists l, In l ((P ++ [line]) ++ ls) /\ Q l)
               <-> (exists l, In l (P ++ line :: ls) /\ Q l)).
    { intros Q. by rewrite <- app_assoc. }
    destruct (linesOf (ln_hash line) L1) as [|first v] eqn:E.
    + cbn [mbind option_bind].
      destruct (IH nu1 nu2 (P ++ [line])) as (nu1' & nu2' & Hf & H1 & H2).
      { intros n. rewrite Hinv. split.
        - intros (l & Hl & Hn). exists l. split; [apply in_or_app; by left|done].
        - intros (l & Hl & Hn). apply in_app_or in Hl as [Hl|[<-|[]]]; [eauto|].
          rewrite E in Hn. by apply elem_of_nil in Hn. }
      exists nu1', nu2'. split; [done|]. split.
      * intros n. rewrite H1. apply Hshift.
      * intros n. rewrite H2. split.
        -- intros [H|(l & Hl & Hn & Hne)]; [by left|]. right. exists l. split; [by right|done].
        -- intros [H|(l & [<-|Hl] & Hn & Hne)]; [by left|done|]. right. eauto.
    + change (vat (first :: v) 0) with (Some first). cbn [mbind option_bind drop].
      assert (Hgroup : forall n, n ∈ first :: v
                                 <-> exists l, In l L1 /\ ln_line l = n
                                               /\ ln_hash l = ln_hash line).
      { intros n. rewrite <- E. apply linesOf_elem. }
      destruct (bool_decide (first ∈ nu1)) eqn:Eb.
      * apply bool_decide_eq_true in Eb.
        destruct (IH nu1 ({[ln_line line]} ∪ nu2) (P ++ [line])) as (nu1' & nu2' & Hf & H1 & H2).
        { intros n. rewrite Hinv. split.
          - intros (l & Hl & Hn). exists l. split; [apply in_or_app; by left|done].
          - intros (l & Hl & Hn). apply in_app_or in Hl as [Hl|[<-|[]]]; [eauto|].
            apply Hinv in Eb as (l' & Hl' & Hfirst). exists l'. split; [done|].
            apply linesOf_elem in Hfirst as (x & Hx & Hxn & Hxh).
            assert (Hf' : first ∈ first :: v) by by left.
            apply Hgroup in Hf' as (y & Hy & Hyn & Hyh).
            assert (x = y) by (eapply NoDup_line_hash; eauto; congruence). subst y.
            rewrite <- Hxh, Hyh. done. }
        exists nu1', nu2'. split; [done|]. split.
        -- intros n. rewrite H1. apply Hshift.
        -- intros n. rewrite H2, elem_of_union, elem_of_singleton. split.
           ++ intros [[->|H]|(l & Hl & Hn & Hne)]; [right|by left|right].
              ** exists line. split; [by left|]. split; [done|]. by rewrite E.
              ** exists l. split; [by right|done].
           ++ intros [H|(l & [<-|Hl] & Hn & Hne)]; [left; by right|left; by left|].
              right. eauto.
      * apply bool_decide_eq_false in Eb.
        destruct (IH (fold_left (fun s l => {[l]} ∪ s) v ({[first]} ∪ nu1))
                    ({[ln_line line]} ∪ nu2) (P ++ [line])) as (nu1' & nu2' & Hf & H1 & H2).
        { intros n. rewrite fold_emplace_elem, elem_of_union, elem_of_singleton, Hinv. split.
          - intros [Hn|[->|(l & Hl & Hn)]].
            + exists line. split; [apply in_or_app; right; by left|]. rewrite E. by right.
            + exists line. split; [apply in_or_app; right; by left|]. rewrite E. by left.
            + exists l. split; [apply in_or_app; by left|done].
          - intros (l & Hl & Hn). apply in_app_or in Hl as [Hl|[<-|[]]]; [right; right; eauto|].
            rewrite E in Hn. apply elem_of_cons in Hn as [->|Hn]; [right; by left|by left]. }
        exists nu1', nu2'. split; [done|]. split.
        -- intros n. rewrite H1. apply Hshift.
        -- intros n. rewrite H2, elem_of_union, elem_of_singleton. split.
           ++ intros [[->|H]|(l & Hl & Hn & Hne)]; [right|by left|right].
              ** exists line. split; [by left|]. split; [done|]. by rewrite E.
              ** exists l. split; [by right|done].
           ++ intros [H|(l & [<-|Hl] & Hn & Hne)]; [left; by right|left; by left|].
              right. eauto.
Qed.

(** X9: on two documents whose sets of non-unique lines are still empty
    and with the line numbers of [doc1] distinct, [findUniqueLines] reads
    no vector outside its bounds, leaves everything but the two sets as it
    is, and puts into [nonUniqueLines] of either document exactly the
    numbers of its lines whose hash occurs among the lines of the other
    document. *)
Theorem findUniqueLines_marks_lines_with_counterpart (cmpInfo : CompareInfo) :
  nonUniqueLines (doc1 cmpInfo) = ∅ ->
  nonUniqueLines (doc2 cmpInfo) = ∅ ->
  NoDup (map ln_line (lines (doc1 cmpInfo))) ->
  exists cmpInfo',
    findUniqueLines cmpInfo = Some cmpInfo'
    /\ lines (doc1 cmpInfo') = lines (doc1 cmpInfo)
    /\ lines (doc2 cmpInfo') = lines (doc2 cmpInfo)
    /\ blockDiffs cmpInfo' = blockDiffs cmpInfo
    /\ (forall n, n ∈ nonUniqueLines (doc1 cmpInfo')
                  <-> hasCounterpart (lines (doc1 cmpInfo)) (lines (doc2 cmpInfo)) n)
    /\ (forall n, n ∈ nonUniqueLines (doc2 cmpInfo')
                  <-> hasCounterpart (lines (doc2 cmpInfo)) (lines (doc1 cmpInfo)) n).
Proof.
  intros He1 He2 Hnd. unfold findUniqueLines.
  destruct (findUniqueLoop_spec (lines (doc1 cmpInfo)) (lines (doc2 cmpInfo))
              (nonUniqueLines (doc1 cmpInfo)) (nonUniqueLines (doc2 cmpInfo)) [] Hnd)
    as (nu1 & nu2 & Hf & H1 & H2).
  { intros n. rewrite He1. split; [intros H; by apply elem_of_empty in H|].
    by intros (l & [] & _). }
  rewrite Hf. cbn [mbind option_bind]. eexists. split; [reflexivity|].
  cbn [doc1 doc2 lines blockDiffs nonUniqueLines fst snd]. repeat split; try done.
  - intros Hn. apply H1 in Hn as (l & Hl & Hn). simpl in Hl.
    apply linesOf_elem in Hn as (x & Hx & Hxn & Hxh).
    exists x. repeat split; [done..|]. apply hashSet_elem. eauto.
  - intros (x & Hx & Hxn & Hxh). apply hashSet_elem in Hxh as (l & Hl & Hh).
    apply H1. exists l. split; [done|]. apply linesOf_elem. eauto.
  - intros Hn. apply H2 in Hn as [Hn|(l & Hl & Hn & Hne)].
    + rewrite He2 in Hn. by apply elem_of_empty in Hn.
    + exists l. repeat split; [done..|]. by apply linesOf_nonempty.
  - intros (l & Hl & Hn & Hh). apply H2. right. exists l. repeat split; [done..|].
    by apply linesOf_nonempty.
Qed.

Lemma findUniqueLines_marks_lines_with_counterpart_witness :
  exists cmpInfo',
    findUniqueLines swappedPair = Some cmpInfo'
    /\ lines (doc1 cmpInfo') = lines (doc1 swappedPair)
    /\ lines (doc2 cmpInfo') = lines (doc2 swappedPair)
    /\ blockDiffs cmpInfo' = blockDiffs swappedPair
    /\ (forall n, n ∈ nonUniqueLines (doc1 cmpInfo')
                  <-> hasCounterpart (lines (doc1 swappedPair)) (lines (doc2 swappedPair)) n)
    /\ (forall n, n ∈ nonUniqueLines (doc2 cmpInfo')
                  <-> hasCounterpart (lines (doc2 swappedPair)) (lines (doc1 swappedPair)) n).
Proof.
  apply (findUniqueLines_marks_lines_with_counterpart swappedPair).
  - reflexivity.
  - reflexivity.
  - apply (bool_decide_unpack (NoDup (map ln_line (lines (doc1 swappedPair))))).
    vm_compute. exact I.
Defined.

(** ** Further properties: the markers of the find-unique mode *)

Lemma groupLines_lookup_Some ls h v :
  groupLines ls !! h = Some v <-> v = linesOf h ls /\ h ∈ hashSet ls.
Proof.
  rewrite groupLines_lookup, <- linesOf_nonempty.
  destruct (linesOf h ls) as [|x l]; split.
  - done.
  - by intros [_ ?].
  - intros [= <-]. done.
  - by intros [-> _].
Qed.

Lemma uniqueStep_fold_marks doc1 (kvs : list (Z * list Z)) d2 c mk :
  NoDup kvs.*1 ->
  exists d2' c' mk',
    fold_left (uniqueStep doc1) kvs (d2, c, mk) = (d2', c', mk')
    /\ forall x, x ∈ mk'
                 <-> x ∈ mk
                     \/ exists k l n, (k, l) ∈ kvs /\ d2 !! k = None /\ n ∈ l
                                      /\ x = (viewId (view doc1), n, blockDiffMask doc1).
Proof.
  revert d2 c mk. induction kvs as [|[k l] kvs IH]; intros d2 c mk Hnd.
  - exists d2, c, mk. split; [done|]. intros x. split; [by left|].
    intros [H|(k & l & n & Hin & _)]; [done|]. by apply elem_of_nil in Hin.
  - rewrite fmap_cons in Hnd. cbn [fst] in Hnd. apply NoDup_cons in Hnd as [Hk Hnd].
    cbn [fold_left uniqueStep fst snd].
    assert (Hother : forall k' l', (k', l') ∈ kvs -> k' <> k).
    { intros k' l' Hin ->. apply Hk. apply list_elem_of_fmap. by exists (k, l'). }
    destruct (d2 !! k) as [old|] eqn:E.
    + destruct (IH (delete k d2) c mk Hnd) as (d2' & c' & mk' & Hf & Hm).
      exists d2', c', mk'. split; [done|]. intros x. rewrite Hm. split.
      * intros [H|(k' & l' & n & Hin & Hd & Hn & ->)]; [by left|]. right.
        exists k', l', n. split; [by right|]. split; [|done].
        rewrite lookup_delete_ne in Hd; [done|]. intros ->. by eapply Hother.
      * intros [H|(k' & l' & n & Hin & Hd & Hn & ->)]; [by left|]. right.
        apply elem_of_cons in Hin as [[= -> ->]|Hin]; [congruence|].
        exists k', l', n. split; [done|]. split; [|done].
        rewrite lookup_delete_ne; [done|]. intros ->. by eapply Hother.
    + destruct (IH d2 (c + Z.of_nat (length l))
                  (mk ++ map (fun line => (viewId (view doc1), line, blockDiffMask doc1)) l)
                  Hnd) as (d2' & c' & mk' & Hf & Hm).
      exists d2', c', mk'. split; [done|]. intros x. rewrite Hm, elem_of_app.
      rewrite (list_elem_of_In (map _ l)), in_map_iff. split.
      * intros [[H|(n & <- & Hn)]|(k' & l' & n & Hin & Hd & Hn & ->)].
        -- by left.
        -- right. exists k, l, n. split; [by left|]. split; [done|].
           split; [by apply list_elem_of_In|done].
        -- right. exists k', l', n. split; [by right|done].
      * intros [H|(k' & l' & n & Hin & Hd & Hn & ->)]; [left; by left|].
        apply elem_of_cons in Hin as [[= -> ->]|Hin].
        -- left. right. exists n. split; [done|]. by apply list_elem_of_In.
        -- right. exists k', l', n. done.
Qed.

Lemma getLines_keeps_view doc options progress :
  view (getLines doc options progress).1 = view doc
  /\ blockDiffMask (getLines doc options progress).1 = blockDiffMask doc.
Proof.
  unfold getLines. destruct (docLength (view doc) =? 0); [done|].
  set (sec := if (_ || _) then _ else _).
  destruct (s_len sec <? 0); [done|].
  destruct (getLines_loop (view doc) options (s_off sec) (seqZ 0 (s_len sec)) progress []).
  done.
Qed.

Lemma findUniqueCore_marks doc1 doc2 progress :
  never_cancels progress ->
  forall vid n mask,
    (vid, n, mask) ∈ (findUniqueCore doc1 doc2 progress).1.2
    <-> (vid = viewId (view doc1) /\ mask = blockDiffMask doc1
         /\ hasNoCounterpart (lines doc1) (lines doc2) n)
        \/ (vid = viewId (view doc2) /\ mask = blockDiffMask doc2
            /\ hasNoCounterpart (lines doc2) (lines doc1) n).
Proof.
  intros Hp vid n mask. unfold findUniqueCore.
  destruct (poll_never_cancels progress Hp) as [Hgo Hp1].
  destruct (poll progress) as [go p1]. simpl in Hgo, Hp1. subst go. cbn [negb].
  destruct (poll_never_cancels p1 Hp1) as [Hgo Hp2].
  destruct (poll p1) as [go p2]. simpl in Hgo, Hp2. subst go. cbn [negb].
  destruct (uniqueStep_fold doc1 (map_to_list (groupLines (lines doc1)))
              (groupLines (lines doc2)) 0 [])
    as (d2' & c' & mk' & Hf & Hd & Hc & Hiff).
  { apply NoDup_fst_map_to_list. }
  { intros k l Hin. apply elem_of_map_to_list in Hin. by eapply groupLines_nonempty. }
  destruct (uniqueStep_fold_marks doc1 (map_to_list (groupLines (lines doc1)))
              (groupLines (lines doc2)) 0 [])
    as (d2'' & c'' & mk'' & Hf' & Hm).
  { apply NoDup_fst_map_to_list. }
  rewrite Hf in Hf'. injection Hf' as <- <- <-. rewrite Hf. clear Hf Hiff Hc.
  assert (Hkeys : forall k, k ∈ (map_to_list (groupLines (lines doc1))).*1
                            <-> k ∈ hashSet (lines doc1)).
  { intros k. rewrite <- groupLines_dom, elem_of_dom, list_elem_of_fmap. split.
    - intros ([k' l] & -> & Hin). apply elem_of_map_to_list in Hin. eauto.
    - intros [l Hl]. exists (k, l). split; [done|]. by apply elem_of_map_to_list. }
  assert (H1 : (vid, n, mask) ∈ mk'
               <-> vid = viewId (view doc1) /\ mask = blockDiffMask doc1
                   /\ hasNoCounterpart (lines doc1) (lines doc2) n).
  { rewrite Hm. split.
    - intros [H|(k & l & n' & Hin & Hd2 & Hn & [= -> -> ->])]; [by apply elem_of_nil in H|].
      split; [done|]. split; [done|].
      apply elem_of_map_to_list, groupLines_lookup_Some in Hin as [-> Hk].
      apply linesOf_elem in Hn as (x & Hx & Hxn & Hxh). exists x. repeat split; [done..|].
      rewrite Hxh. rewrite <- groupLines_dom. by apply not_elem_of_dom.
    - intros (-> & -> & x & Hx & Hxn & Hxh). right.
      exists (ln_hash x), (linesOf (ln_hash x) (lines doc1)), n. repeat split.
      + apply elem_of_map_to_list, groupLines_lookup_Some. split; [done|].
        apply hashSet_elem. eauto.
      + apply not_elem_of_dom. by rewrite groupLines_dom.
      + apply linesOf_elem. eauto. }
  assert (H2 : (vid, n, mask)
               ∈ flat_map (fun uniqueLine : Z * list Z =>
                             map (fun line => (viewId (view doc2), line, blockDiffMask doc2))
                                 uniqueLine.2) (map_to_list d2')
               <-> vid = viewId (view doc2) /\ mask = blockDiffMask doc2
                   /\ hasNoCounterpart (lines doc2) (lines doc1) n).
  { rewrite list_elem_of_In, in_flat_map. split.
    - intros ([k l] & Hin & Hx). cbn [snd] in Hx. apply in_map_iff in Hx as (n' & [= -> -> ->] & Hn).
      apply list_elem_of_In, elem_of_map_to_list in Hin. rewrite Hd in Hin.
      destruct (decide (k ∈ (map_to_list (groupLines (lines doc1))).*1)) as [|Hnk]; [done|].
      apply groupLines_lookup_Some in Hin as [-> Hk].
      apply list_elem_of_In, linesOf_elem in Hn as (x & Hx & Hxn & Hxh).
      split; [done|]. split; [done|]. exists x. repeat split; [done..|].
      rewrite Hxh. intros Hin. by apply Hnk, Hkeys.
    - intros (-> & -> & x & Hx & Hxn & Hxh).
      exists (ln_hash x, linesOf (ln_hash x) (lines doc2)). split.
      + apply list_elem_of_In, elem_of_map_to_list. rewrite Hd.
        rewrite decide_False by (intros Hin; by apply Hxh, Hkeys).
        apply groupLines_lookup_Some. split; [done|]. apply hashSet_elem. eauto.
      + cbn [snd]. apply in_map_iff. exists n. split; [done|].
        apply list_elem_of_In, linesOf_elem. eauto. }
  destruct ((c' =? 0) && bool_decide (d2' = ∅)) eqn:Eb; cbn [fst snd].
  - rewrite H1. apply andb_true_iff in Eb as [_ Eb]. apply bool_decide_eq_true in Eb.
    rewrite Eb, map_to_list_empty in H2. simpl in H2.
    split; [by left|]. intros [H|H]; [done|]. apply H2 in H. by apply elem_of_nil in H.
  - rewrite elem_of_app, H1, H2. done.
Qed.

(** X10: when both sections lie inside their documents (so that [getLines]
    returns) and the run is not cancelled, the find-unique mode sets a marker
    on a line of a view exactly when the line is among the extracted lines
    of that view and its hash occurs on no extracted line of the other
    view; the marker is the view's block mask: REMOVED in the view of the
    old file and ADDED in the other one. *)
Theorem runFindUnique_marks_lines_without_counterpart
    (mainView subView : View) (options : CompareOptions) (progress : Progress)
    (vid n : Z) (mask : MarkerMask) :
  sectionInside mainView options ->
  sectionInside subView options ->
  never_cancels progress ->
  (vid, n, mask) ∈ (runFindUnique mainView subView options progress).1.2
  <-> (vid = viewId mainView
       /\ mask = (if oldFileViewId options =? MAIN_VIEW
                  then MARKER_MASK_REMOVED else MARKER_MASK_ADDED)
       /\ hasNoCounterpart (extractedLines mainView options) (extractedLines subView options) n)
      \/ (vid = viewId subView
          /\ mask = (if oldFileViewId options =? MAIN_VIEW
                     then MARKER_MASK_ADDED else MARKER_MASK_REMOVED)
          /\ hasNoCounterpart (extractedLines subView options) (extractedLines mainView options)
               n).
Proof.
  intros Hin1 Hin2 Hp. unfold runFindUnique, extractedLines.
  set (m1 := if oldFileViewId options =? MAIN_VIEW then MARKER_MASK_REMOVED else MARKER_MASK_ADDED).
  set (m2 := if oldFileViewId options =? MAIN_VIEW then MARKER_MASK_ADDED else MARKER_MASK_REMOVED).
  rewrite (getLines_mask_irrelevant mainView options MARKER_MASK_ADDED m1).
  rewrite (getLines_mask_irrelevant subView options MARKER_MASK_ADDED m2).
  destruct (getLines_never_cancels (withSelection options (emptyDoc mainView) m1) options
              progress Hp) as [E1 Hp1].
  pose proof (getLines_keeps_view (withSelection options (emptyDoc mainView) m1) options
                progress) as [V1 M1].
  pose proof (getLines_returns_inside mainView options m1 progress Hin1) as Hx1.
  destruct (getLines (withSelection options (emptyDoc mainView) m1) options progress)
    as [doc1 [p1 x1]]. simpl in E1, Hp1, V1, M1, Hx1. rewrite <- E1. subst x1.
  destruct (poll_never_cancels p1 Hp1) as [Hgo Hp2].
  destruct (poll p1) as [go p2]. simpl in Hgo, Hp2. subst go. cbn [negb].
  destruct (getLines_never_cancels (withSelection options (emptyDoc subView) m2) options
              p2 Hp2) as [E2 Hp3].
  pose proof (getLines_keeps_view (withSelection options (emptyDoc subView) m2) options
                p2) as [V2 M2].
  pose proof (getLines_returns_inside subView options m2 p2 Hin2) as Hx2.
  destruct (getLines (withSelection options (emptyDoc subView) m2) options p2)
    as [doc2 [p3 x2]]. simpl in E2, Hp3, V2, M2, Hx2. rewrite <- E2. subst x2.
  destruct (poll_never_cancels p3 Hp3) as [Hgo Hp4].
  destruct (poll p3) as [go p4]. simpl in Hgo, Hp4. subst go. cbn [negb].
  pose proof (findUniqueCore_marks doc1 doc2 p4 Hp4 vid n mask) as Hcore.
  destruct (findUniqueCore doc1 doc2 p4) as [[result marks] alignmentInfo].
  cbn [fst snd] in Hcore |- *. rewrite Hcore. rewrite V1, V2, M1, M2. done.
Qed.

Lemma runFindUnique_marks_lines_without_counterpart_witness :
  (MAIN_VIEW, 1, MARKER_MASK_REMOVED)
  ∈ (runFindUnique (textView MAIN_VIEW [[97]; [98]]) (textView SUB_VIEW [[97]])
       (sampleOptions false false false 50) None).1.2.
Proof.
  apply (runFindUnique_marks_lines_without_counterpart
           (textView MAIN_VIEW [[97]; [98]]) (textView SUB_VIEW [[97]])
           (sampleOptions false false false 50) None MAIN_VIEW 1 MARKER_MASK_REMOVED);
    [right; vm_compute; discriminate|right; vm_compute; discriminate|exact I|].
  left. split; [reflexivity|]. split; [reflexivity|].
  exists {| ln_line := 1; ln_hash := Hash cHashSeed 98 |}.
  split; [vm_compute; right; left; reflexivity|]. split; [reflexivity|].
  intros Hin. apply hashSet_elem in Hin as (l & Hl & Hh).
  vm_compute in Hl. destruct Hl as [<-|[]]. vm_compute in Hh. discriminate.
Defined.

Lemma uniqueStep_fold_count doc1 (kvs : list (Z * list Z)) d2 c mk :
  c = Z.of_nat (length mk) ->
  (fold_left (uniqueStep doc1) kvs (d2, c, mk)).1.2
  = Z.of_nat (length (fold_left (uniqueStep doc1) kvs (d2, c, mk)).2).
Proof.
  revert d2 c mk. induction kvs as [|[k l] kvs IH]; intros d2 c mk Hc; [done|].
  cbn [fold_left uniqueStep fst snd]. destruct (d2 !! k); apply IH; [done|].
  rewrite length_app, length_map. lia.
Qed.

Lemma findUniqueCore_marks_only_on_mismatch doc1 doc2 progress :
  (findUniqueCore doc1 doc2 progress).1.1 = COMPARE_MISMATCH
  \/ (findUniqueCore doc1 doc2 progress).1.2 = [].
Proof.
  unfold findUniqueCore.
  destruct (poll progress) as [[] p1]; cbn [negb]; [|by right].
  destruct (poll p1) as [[] p2]; cbn [negb]; [|by right].
  pose proof (uniqueStep_fold_count doc1 (map_to_list (groupLines (lines doc1)))
                (groupLines (lines doc2)) 0 [] eq_refl) as Hc.
  destruct (fold_left _ _ _) as [[d2' c'] mk']. cbn [fst snd] in Hc.
  destruct (c' =? 0) eqn:E; cbn [andb]; [|by left].
  destruct (bool_decide (d2' = ∅)); [|by left]. right. cbn [fst snd].
  apply Z.eqb_eq in E. destruct mk'; [done|]. simpl in Hc. lia.
Qed.

(** X11: the find-unique mode sets markers only in a run that answers
    COMPARE_MISMATCH: a cancelled run, a run that finds the two documents to
    match and a run that an exception leaves set none. *)
Theorem runFindUnique_marks_only_on_mismatch
    (mainView subView : View) (options : CompareOptions) (progress : Progress) :
  (runFindUnique mainView subView options progress).1.1 = Returns COMPARE_MISMATCH
  \/ (runFindUnique mainView subView options progress).1.2 = [].
Proof.
  unfold runFindUnique.
  destruct (getLines _ options progress) as [doc1 [p1 x1]]. destruct x1; [|by right].
  destruct (poll p1) as [[] p2]; cbn [negb]; [|by right].
  destruct (getLines _ options p2) as [doc2 [p3 x2]]. destruct x2; [|by right].
  destruct (poll p3) as [[] p4]; cbn [negb]; [|by right].
  pose proof (findUniqueCore_marks_only_on_mismatch doc1 doc2 p4) as H.
  destruct (findUniqueCore doc1 doc2 p4) as [[result marks] alignmentInfo].
  cbn [fst snd] in H |- *. destruct H as [-> | ->]; [by left|by right].
Qed.

(** ** Further properties: what the move detector commits *)

Lemma scanBack_all steps cond l m l' m' :
  scanBack steps cond l m = (l', m') ->
  forall j, l' < j <= l -> cond j (m - (l - j)) = true.
Proof.
  revert l m. induction steps as [|n IH]; intros l m H j Hj; simpl in H.
  - injection H as <- <-. lia.
  - destruct (cond l m) eqn:E.
    + destruct (decide (j = l)) as [->|Hne].
      * by replace (m - (l - l)) with m by lia.
      * replace (m - (l - j)) with (m - 1 - (l - 1 - j)) by lia. eapply IH; [exact H|lia].
    + injection H as <- <-. lia.
Qed.

Lemma scanForth_all steps cond l m l' m' :
  scanForth steps cond l m = (l', m') ->
  forall j, l <= j < l' -> cond j (m + (j - l)) = true.
Proof.
  revert l m. induction steps as [|n IH]; intros l m H j Hj; simpl in H.
  - injection H as <- <-. lia.
  - destruct (cond l m) eqn:E.
    + destruct (decide (j = l)) as [->|Hne].
      * by replace (m + (l - l)) with m by lia.
      * replace (m + (j - l)) with (m + 1 + (j - (l + 1))) by lia. eapply IH; [exact H|lia].
    + injection H as <- <-. lia.
Qed.

Lemma runAt_equal pL pM lookupDiff lookupOff k matchDiff mlu matchOff :
  lineEq pL (d_off lookupDiff + lookupOff) pM (d_off matchDiff + matchOff) = true ->
  runEqual pL pM lookupDiff matchDiff (runAt pL pM lookupDiff lookupOff k matchDiff mlu matchOff).
Proof.
  intros Heq. unfold runAt, runEqual.
  destruct (scanBack _ _ _ _) as [ls ms] eqn:Eb.
  destruct (scanForth _ _ _ _) as [le me] eqn:Ef.
  pose proof (scanBack_spec _ _ _ _ _ _ Eb) as (Hb1 & Hb2 & _).
  pose proof (scanForth_spec _ _ _ _ _ _ Ef) as (Hf1 & Hf2 & _).
  pose proof (scanBack_all _ _ _ _ _ _ Eb) as Hback.
  pose proof (scanForth_all _ _ _ _ _ _ Ef) as Hforth.
  cbn [r_len r_lookupStart r_matchStart]. intros j Hj.
  destruct (Z.lt_trichotomy (ls + 1 + j) lookupOff) as [Hlt|[Heq'|Hgt]].
  - specialize (Hback (ls + 1 + j) ltac:(lia)). unfold backCond in Hback.
    apply andb_true_iff in Hback as [Hback _]. apply andb_true_iff in Hback as [_ Hback].
    replace (d_off lookupDiff + (ls + 1) + j) with (d_off lookupDiff + (ls + 1 + j)) by lia.
    replace (d_off matchDiff + (ms + 1) + j)
      with (d_off matchDiff + (matchOff - 1 - (lookupOff - 1 - (ls + 1 + j)))) by lia.
    exact Hback.
  - replace (d_off lookupDiff + (ls + 1) + j) with (d_off lookupDiff + lookupOff) by lia.
    replace (d_off matchDiff + (ms + 1) + j) with (d_off matchDiff + matchOff) by lia.
    exact Heq.
  - specialize (Hforth (ls + 1 + j) ltac:(lia)). unfold forthCond in Hforth.
    apply andb_true_iff in Hforth as [Hforth _]. apply andb_true_iff in Hforth as [Hforth _].
    apply andb_true_iff in Hforth as [_ Hforth].
    replace (d_off lookupDiff + (ls + 1) + j) with (d_off lookupDiff + (ls + 1 + j)) by lia.
    replace (d_off matchDiff + (ms + 1) + j)
      with (d_off matchDiff + (matchOff + 1 + (ls + 1 + j - (lookupOff + 1)))) by lia.
    exact Hforth.
Qed.

Lemma blockRuns_equal pL pM lookupDiff lookupOff steps k matchDiff mlu matchOff :
  Forall (runEqual pL pM lookupDiff matchDiff)
         (blockRuns pL pM lookupDiff lookupOff steps k matchDiff mlu matchOff).
Proof.
  revert mlu matchOff. induction steps as [|n IH]; intros mlu matchOff; simpl; [constructor|].
  destruct (matchOff <? d_len matchDiff) eqn:Elt; [|constructor].
  destruct (lineEq _ _ _ _) eqn:Eeq; cbn [negb]; [|apply IH].
  destruct (getNextUnmoved (d_info matchDiff) matchOff) as [next|] eqn:En; [apply IH|].
  constructor; [by apply runAt_equal|apply IH].
Qed.

Lemma eqb_diff_type_eq a b : eqb_diff_type a b = true <-> a = b.
Proof. destruct a, b; simpl; split; congruence. Qed.

Lemma allRuns_equal pL pM lookupDiff lookupOff matchType k blocks :
  Forall (fun run => exists matchDiff,
              blocks !! (r_diff run - k)%nat = Some matchDiff
              /\ (k <= r_diff run)%nat
              /\ d_type matchDiff = matchType
              /\ runEqual pL pM lookupDiff matchDiff run)
         (allRuns pL pM lookupDiff lookupOff matchType k blocks).
Proof.
  revert k. induction blocks as [|matchDiff rest IH]; intros k; simpl; [constructor|].
  apply Forall_app. split.
  - destruct (eqb_diff_type (d_type matchDiff) matchType) eqn:Et; [|constructor].
    apply eqb_diff_type_eq in Et.
    pose proof (blockRuns_inBlocks pL pM lookupDiff lookupOff (Z.to_nat (d_len matchDiff)) k
                  matchDiff 0 0 ltac:(lia)) as H1.
    pose proof (blockRuns_equal pL pM lookupDiff lookupOff (Z.to_nat (d_len matchDiff)) k
                  matchDiff 0 0) as H2.
    assert (H : Forall (fun run => (runInBlocks lookupDiff matchDiff lookupOff run /\ r_diff run = k)
                                   /\ runEqual pL pM lookupDiff matchDiff run)
                       (blockRuns pL pM lookupDiff lookupOff (Z.to_nat (d_len matchDiff)) k
                          matchDiff 0 0)) by (by apply Forall_and).
    eapply Forall_impl; [exact H|]. simpl.
    intros r [[_ ->] Hr]. exists matchDiff. rewrite Nat.sub_diag. done.
  - eapply Forall_impl; [apply IH|].
    intros r (md & H1 & H2 & H3). exists md. split; [|split; [lia|done]].
    replace (r_diff r - k)%nat with (S (r_diff r - S k)) by lia. done.
Qed.

Lemma lookupSides_sideLines c lb :
  d_type lb <> DIFF_MATCH ->
  lookupSides c lb = (sideLines c (d_type lb), sideLines c (opposite (d_type lb)),
                      opposite (d_type lb)).
Proof. unfold lookupSides, sideLines, opposite. by destruct (d_type lb). Qed.

Lemma findBestMatch_good c l lb lookupOff :
  blockDiffs c !! l = Some lb -> d_type lb <> DIFF_MATCH ->
  goodMatch c l (findBestMatch c lb lookupOff).
Proof.
  intros Hl Ht m Hm. rewrite findBestMatch_fold in Hm |- *.
  destruct (fold_considerRun_origin _ _ _ Hm) as [E|(run & Hin & E)].
  { rewrite E in Hm. done. }
  rewrite E in Hm |- *. cbn [miOfRun mi_matchDiff mi_matchLen mi_lookupOff mi_matchOff] in *.
  injection Hm as <-.
  pose proof (candidateRuns_inBlocks c lb lookupOff) as Hall.
  rewrite Forall_forall in Hall. destruct (Hall run ltac:(by apply list_elem_of_In))
    as (md & Hmd & Hrun).
  unfold candidateRuns in Hin. rewrite (lookupSides_sideLines c lb Ht) in Hin.
  pose proof (allRuns_equal (sideLines c (d_type lb)) (sideLines c (opposite (d_type lb)))
                lb lookupOff (opposite (d_type lb)) 0 (blockDiffs c)) as Heq.
  rewrite Forall_forall in Heq. destruct (Heq run ltac:(by apply list_elem_of_In))
    as (md' & Hmd' & _ & Htype & Hequal).
  rewrite Nat.sub_0_r in Hmd'. rewrite Hmd in Hmd'. injection Hmd' as <-.
  exists lb, md. repeat split; try done.
  - by destruct Hrun.
  - unfold equalSpans. rewrite Htype. exact Hequal.
Qed.

Lemma commits_trans c1 c2 c3 : commits c1 c2 -> commits c2 c3 -> commits c1 c3.
Proof. induction 1; [done|]. intros. eapply commits_more; eauto. Qed.

Lemma commitsPair_sameBlocks c c' : commitsPair c c' -> sameBlocks c c'.
Proof.
  intros [l m lb mb off1 off2 len _ _ _ _ _ _ ->].
  eapply sameBlocks_trans; apply addMove_sameBlocks.
Qed.

Lemma commits_sameBlocks c c' : commits c c' -> sameBlocks c c'.
Proof.
  induction 1 as [|c c1 c2 H1 _ IH]; [apply sameBlocks_refl|].
  eapply sameBlocks_trans; [by apply commitsPair_sameBlocks|exact IH].
Qed.

Lemma resolveMatch_commits fuel c l lookupOff mi ret c' mi' :
  goodMatch c l mi ->
  resolveMatch fuel c l lookupOff mi = Some (ret, c', mi') ->
  commits c c'.
Proof.
  revert c l lookupOff mi ret c' mi'.
  induction fuel as [|n IH]; intros c l lookupOff mi ret c' mi' Hg H; [done|].
  cbn [resolveMatch] in H.
  destruct (mi_matchDiff mi) as [m|] eqn:Em.
  2:{ injection H as <- <- <-. constructor. }
  destruct (Hg m Em) as (lb & mb & Hl & Hmb & G1 & G2 & G3 & G4).
  rewrite Hmb in H. cbn [mbind option_bind] in H.
  set (off' := mi_matchOff mi + (lookupOff - mi_lookupOff mi)) in *.
  destruct (mi_matchDiff (findBestMatch c mb off')) as [r|] eqn:Er.
  2:{ injection H as <- <- <-. constructor. }
  destruct (bool_decide (r = l)) eqn:Erl.
  - injection H as <- <- <-. eapply commits_more; [|constructor].
    by eapply (commitsPair_intro c _ l m lb mb).
  - destruct (resolveMatch n c m off' (findBestMatch c mb off')) as [[[ret1 c1] mi1]|] eqn:Erec;
      [|done].
    cbn [mbind option_bind] in H. injection H as <- <- <-.
    eapply IH; [|exact Erec]. apply findBestMatch_good; [done|].
    rewrite G2. unfold opposite. by destruct (eqb_diff_type (d_type lb) DIFF_IN_1).
Qed.

Lemma lookupLoop_commits fuel c l lookupEi repeat :
  (forall lb, blockDiffs c !! l = Some lb -> d_type lb <> DIFF_MATCH) ->
  commits c (lookupLoop fuel c l lookupEi repeat).1.1.
Proof.
  revert c lookupEi repeat.
  induction fuel as [|n IH]; intros c lookupEi repeat Ht; [constructor|].
  cbn [lookupLoop].
  destruct (blockDiffs c !! l) as [lb|] eqn:El; [|constructor].
  destruct (lookupEi <? d_len lb) eqn:Elt; [|constructor].
  destruct (getNextUnmoved (d_info lb) lookupEi) as [next|] eqn:En;
    [apply IH; by rewrite El|].
  pose proof (findBestMatch_good c l lb lookupEi El (Ht lb eq_refl)) as Hg.
  destruct (resolveMatch n c l lookupEi (findBestMatch c lb lookupEi))
    as [[[ret c1] mi1]|] eqn:Er; [|constructor].
  pose proof (resolveMatch_commits _ _ _ _ _ _ _ _ Hg Er) as Hc.
  assert (Ht1 : forall lb1, blockDiffs c1 !! l = Some lb1 -> d_type lb1 <> DIFF_MATCH).
  { intros lb1 Hl1. destruct (commits_sameBlocks _ _ Hc) as (_ & _ & _ & Hs).
    destruct (Hs l lb El) as (d' & Hd' & _ & Et & _). rewrite Hd' in Hl1.
    injection Hl1 as <-. rewrite Et. by apply (Ht lb). }
  destruct ret; (eapply commits_trans; [exact Hc|by apply IH]).
Qed.

Lemma blocksLoop_commits fuel c ls repeat :
  commits c (blocksLoop fuel c ls repeat).1.1.
Proof.
  revert c repeat. induction ls as [|l rest IH]; intros c repeat; [constructor|].
  cbn [blocksLoop].
  destruct (blockDiffs c !! l) as [lb|] eqn:El; [|apply IH].
  destruct (eqb_diff_type (d_type lb) DIFF_IN_1) eqn:Et; [|apply IH].
  apply eqb_diff_type_eq in Et.
  pose proof (lookupLoop_commits fuel c l 0 repeat) as Hc.
  destruct (lookupLoop fuel c l 0 repeat) as [[c1 repeat1] finished].
  cbn [fst] in Hc.
  assert (Hc' : commits c c1).
  { apply Hc. intros lb' Hlb'. rewrite El in Hlb'. injection Hlb' as <-. by rewrite Et. }
  destruct finished; [|done]. eapply commits_trans; [exact Hc'|apply IH].
Qed.

Lemma findMoves_commits fuel c : commits c (findMoves fuel c).1.
Proof.
  revert c. induction fuel as [|n IH]; intros c; [constructor|].
  cbn [findMoves].
  pose proof (blocksLoop_commits (S n) c (seq 0 (length (blockDiffs c))) false) as Hc.
  destruct (blocksLoop (S n) c (seq 0 (length (blockDiffs c))) false) as [[c1 repeat] finished].
  cbn [fst] in Hc. destruct finished; cbn [negb]; [|done].
  destruct repeat; [|done]. eapply commits_trans; [exact Hc|apply IH].
Qed.

Lemma addMove_lookup_eq k off len c d :
  blockDiffs c !! k = Some d ->
  blockDiffs (addMove k off len c) !! k = Some (withMove off len d).
Proof. intros H. unfold addMove. cbn [blockDiffs]. by rewrite list_lookup_alter_eq, H. Qed.

Lemma addMove_lookup_ne k j off len c :
  j <> k -> blockDiffs (addMove k off len c) !! j = blockDiffs c !! j.
Proof.
  intros H. unfold addMove. cbn [blockDiffs]. by rewrite list_lookup_alter_ne.
Qed.

Lemma opposite_ne t : t <> DIFF_MATCH -> opposite t <> t /\ opposite t <> DIFF_MATCH
                                         /\ opposite (opposite t) = t.
Proof. by destruct t. Qed.

Lemma commitsPair_lookup c c' :
  commitsPair c c' ->
  exists l m lb mb off1 off2 len,
    blockDiffs c !! l = Some lb /\ blockDiffs c !! m = Some mb
    /\ l <> m /\ d_type lb <> DIFF_MATCH /\ d_type mb = opposite (d_type lb)
    /\ 1 <= len /\ equalSpans c lb mb off1 off2 len
    /\ doc1 c' = doc1 c /\ doc2 c' = doc2 c
    /\ length (blockDiffs c') = length (blockDiffs c)
    /\ blockDiffs c' !! l = Some (withMove off1 len lb)
    /\ blockDiffs c' !! m = Some (withMove off2 len mb)
    /\ forall k, k <> l -> k <> m -> blockDiffs c' !! k = blockDiffs c !! k.
Proof.
  intros [l m lb mb off1 off2 len Hl Hm Ht Hopp Hlen Heq ->].
  assert (Hlm : l <> m).
  { intros ->. rewrite Hl in Hm. injection Hm as ->.
    destruct (opposite_ne _ Ht) as [Hne _]. congruence. }
  exists l, m, lb, mb, off1, off2, len. repeat split; try done.
  - unfold addMove. cbn [blockDiffs]. by rewrite !length_alter.
  - rewrite addMove_lookup_ne by done. by apply addMove_lookup_eq.
  - apply addMove_lookup_eq. by rewrite addMove_lookup_ne by done.
  - intros k Hkl Hkm. by rewrite !addMove_lookup_ne by done.
Qed.

Lemma onlyMovesGrow_refl c : onlyMovesGrow c c.
Proof.
  repeat split. intros k d Hd. exists d. repeat split; try done. exists []. by rewrite app_nil_r.
Qed.

Lemma onlyMovesGrow_trans c1 c2 c3 :
  onlyMovesGrow c1 c2 -> onlyMovesGrow c2 c3 -> onlyMovesGrow c1 c3.
Proof.
  intros (A1 & A2 & A3 & A4) (B1 & B2 & B3 & B4).
  split; [congruence|]. split; [congruence|]. split; [congruence|].
  intros k d Hd. destruct (A4 k d Hd) as (d' & Hd' & E1 & E2 & E3 & E4 & E5 & [x1 E6] & E7).
  destruct (B4 k d' Hd') as (d'' & Hd'' & F1 & F2 & F3 & F4 & F5 & [x2 F6] & F7).
  exists d''. repeat split; try congruence.
  - exists (x1 ++ x2). rewrite F6, E6. by rewrite app_assoc.
  - intros Ht. rewrite <- (E7 Ht). apply F7. rewrite (E7 Ht). done.
Qed.

Lemma commitsPair_onlyMovesGrow c c' : commitsPair c c' -> onlyMovesGrow c c'.
Proof.
  intros H. apply commitsPair_lookup in H
    as (l & m & lb & mb & off1 & off2 & len & Hl & Hm & Hlm & Ht & Hopp & Hlen & Heq
        & D1 & D2 & Dl & Cl & Cm & Ck).
  repeat split; try done. intros k d Hd.
  destruct (decide (k = l)) as [->|Hkl]; [|destruct (decide (k = m)) as [->|Hkm]].
  - rewrite Hl in Hd. injection Hd as <-. exists (withMove off1 len lb).
    repeat split; try done. by eexists.
  - rewrite Hm in Hd. injection Hd as <-. exists (withMove off2 len mb).
    repeat split; try done; [by eexists|].
    intros Hmatch. destruct (opposite_ne _ Ht) as (_ & Hne & _). congruence.
  - exists d. rewrite Ck by done. repeat split; try done. exists []. by rewrite app_nil_r.
Qed.

Lemma commits_onlyMovesGrow c c' : commits c c' -> onlyMovesGrow c c'.
Proof.
  induction 1 as [|c c1 c2 H1 _ IH]; [apply onlyMovesGrow_refl|].
  eapply onlyMovesGrow_trans; [by apply commitsPair_onlyMovesGrow|exact IH].
Qed.

Lemma findBestMatch_equal c lb lookupOff m :
  d_type lb <> DIFF_MATCH ->
  mi_matchDiff (findBestMatch c lb lookupOff) = Some m ->
  exists mb,
    blockDiffs c !! m = Some mb
    /\ d_type mb = opposite (d_type lb)
    /\ 1 <= mi_matchLen (findBestMatch c lb lookupOff)
    /\ mi_lookupOff (findBestMatch c lb lookupOff) <= lookupOff
       < mi_lookupOff (findBestMatch c lb lookupOff) + mi_matchLen (findBestMatch c lb lookupOff)
    /\ equalSpans c lb mb (mi_lookupOff (findBestMatch c lb lookupOff))
         (mi_matchOff (findBestMatch c lb lookupOff))
         (mi_matchLen (findBestMatch c lb lookupOff)).
Proof.
  intros Ht Hm. rewrite findBestMatch_fold in Hm |- *.
  destruct (fold_considerRun_origin _ _ _ Hm) as [E|(run & Hin & E)].
  { rewrite E in Hm. done. }
  rewrite E in Hm |- *. cbn [miOfRun mi_matchDiff mi_matchLen mi_lookupOff mi_matchOff] in *.
  injection Hm as <-.
  pose proof (candidateRuns_inBlocks c lb lookupOff) as Hall.
  rewrite Forall_forall in Hall. destruct (Hall run ltac:(by apply list_elem_of_In))
    as (md & Hmd & Hrun).
  unfold candidateRuns in Hin. rewrite (lookupSides_sideLines c lb Ht) in Hin.
  pose proof (allRuns_equal (sideLines c (d_type lb)) (sideLines c (opposite (d_type lb)))
                lb lookupOff (opposite (d_type lb)) 0 (blockDiffs c)) as Heq.
  rewrite Forall_forall in Heq. destruct (Heq run ltac:(by apply list_elem_of_In))
    as (md' & Hmd' & _ & Htype & Hequal).
  rewrite Nat.sub_0_r in Hmd'. rewrite Hmd in Hmd'. injection Hmd' as <-.
  destruct Hrun as (R1 & R2 & _).
  exists md. repeat split; try done; try lia.
  unfold equalSpans. rewrite Htype. exact Hequal.
Qed.

(** X12: a match found for a lookup line of an added or removed block
    lies in a block of the other side, holds the lookup line, and pairs
    lines that are inside their documents and equal one by one: the run on
    the lookup side and the run on the match side have the same hashes in
    the same order. *)
Theorem findBestMatch_matches_equal_lines (cmpInfo : CompareInfo) (lookupDiff : diffInfo)
    (lookupOff : Z) (m : nat) :
  d_type lookupDiff <> DIFF_MATCH ->
  mi_matchDiff (findBestMatch cmpInfo lookupDiff lookupOff) = Some m ->
  exists matchDiff,
    blockDiffs cmpInfo !! m = Some matchDiff
    /\ d_type matchDiff = opposite (d_type lookupDiff)
    /\ mi_lookupOff (findBestMatch cmpInfo lookupDiff lookupOff) <= lookupOff
       < mi_lookupOff (findBestMatch cmpInfo lookupDiff lookupOff)
         + mi_matchLen (findBestMatch cmpInfo lookupDiff lookupOff)
    /\ equalSpans cmpInfo lookupDiff matchDiff
         (mi_lookupOff (findBestMatch cmpInfo lookupDiff lookupOff))
         (mi_matchOff (findBestMatch cmpInfo lookupDiff lookupOff))
         (mi_matchLen (findBestMatch cmpInfo lookupDiff lookupOff)).
Proof.
  intros Ht Hm. destruct (findBestMatch_equal _ _ _ _ Ht Hm) as (mb & H1 & H2 & _ & H3 & H4).
  exists mb. done.
Qed.

Lemma findBestMatch_matches_equal_lines_witness :
  exists matchDiff,
    blockDiffs swappedPair !! 2%nat = Some matchDiff
    /\ d_type matchDiff = opposite (d_type (freshBlock DIFF_IN_1 0 2))
    /\ mi_lookupOff (findBestMatch swappedPair (freshBlock DIFF_IN_1 0 2) 0) <= 0
       < mi_lookupOff (findBestMatch swappedPair (freshBlock DIFF_IN_1 0 2) 0)
         + mi_matchLen (findBestMatch swappedPair (freshBlock DIFF_IN_1 0 2) 0)
    /\ equalSpans swappedPair (freshBlock DIFF_IN_1 0 2) matchDiff
         (mi_lookupOff (findBestMatch swappedPair (freshBlock DIFF_IN_1 0 2) 0))
         (mi_matchOff (findBestMatch swappedPair (freshBlock DIFF_IN_1 0 2) 0))
         (mi_matchLen (findBestMatch swappedPair (freshBlock DIFF_IN_1 0 2) 0)).
Proof.
  apply (findBestMatch_matches_equal_lines swappedPair (freshBlock DIFF_IN_1 0 2) 0 2).
  - discriminate.
  - vm_compute. reflexivity.
Defined.

(** X13: the move detector changes nothing but lists of moves: the two
    documents, the number of blocks, and the type, offset, length, linked
    block and changed lines of every block stay as they are; the moves of
    a block are only extended at their end; a matching block is left
    exactly as it is. *)
Theorem findMoves_only_extends_moves (fuel : nat) (cmpInfo : CompareInfo) :
  onlyMovesGrow cmpInfo (findMoves fuel cmpInfo).1.
Proof. apply commits_onlyMovesGrow, findMoves_commits. Qed.

Lemma movedTotal_cons t b blocks :
  movedTotal t (b :: blocks)
  = (if eqb_diff_type (d_type b) t
     then fold_right (fun mv k => s_len mv + k) 0 (moves (d_info b)) else 0)
    + movedTotal t blocks.
Proof. reflexivity. Qed.

Lemma movedTotal_alter t k off len blocks d :
  blocks !! k = Some d ->
  movedTotal t (alter (withMove off len) k blocks)
  = movedTotal t blocks + (if eqb_diff_type (d_type d) t then len else 0).
Proof.
  revert k. induction blocks as [|b blocks IH]; intros k Hk; [done|].
  destruct k as [|k]; simpl in Hk.
  - injection Hk as ->.
    change (alter (withMove off len) 0%nat (d :: blocks)) with (withMove off len d :: blocks).
    rewrite !movedTotal_cons. cbn [withMove d_type d_info moves].
    destruct (eqb_diff_type (d_type d) t); [|lia].
    assert (Hsum : forall ms, fold_right (fun mv n => s_len mv + n) 0
                                (ms ++ [ {| s_off := off; s_len := len |} ])
                              = fold_right (fun mv n => s_len mv + n) 0 ms + len).
    { induction ms as [|x ms IHm]; simpl; [lia|]. rewrite IHm. lia. }
    rewrite Hsum. lia.
  - change (alter (withMove off len) (S k) (b :: blocks))
      with (b :: alter (withMove off len) k blocks).
    rewrite !movedTotal_cons. rewrite (IH k Hk). lia.
Qed.

Lemma commitsPair_balanced c c' :
  commitsPair c c' ->
  movedTotal DIFF_IN_1 (blockDiffs c') - movedTotal DIFF_IN_2 (blockDiffs c')
  = movedTotal DIFF_IN_1 (blockDiffs c) - movedTotal DIFF_IN_2 (blockDiffs c).
Proof.
  intros [l m lb mb off1 off2 len Hl Hm Ht Hopp Hlen Heq ->].
  assert (Hm1 : blockDiffs (addMove l off1 len c) !! m = Some mb \/
                exists mb', blockDiffs (addMove l off1 len c) !! m = Some mb'
                            /\ d_type mb' = d_type mb).
  { destruct (decide (m = l)) as [->|Hne].
    - right. exists (withMove off1 len mb). split; [by apply addMove_lookup_eq|done].
    - left. by rewrite addMove_lookup_ne. }
  assert (Hm1' : exists mb', blockDiffs (addMove l off1 len c) !! m = Some mb'
                             /\ d_type mb' = d_type mb).
  { destruct Hm1 as [H|H]; [by exists mb|done]. }
  destruct Hm1' as (mb' & Hmb' & Hty).
  assert (E2 : forall t, movedTotal t (blockDiffs (addMove m off2 len (addMove l off1 len c)))
                         = movedTotal t (blockDiffs (addMove l off1 len c))
                           + (if eqb_diff_type (d_type mb') t then len else 0)).
  { intros t. apply (movedTotal_alter t m off2 len _ mb' Hmb'). }
  assert (E1 : forall t, movedTotal t (blockDiffs (addMove l off1 len c))
                         = movedTotal t (blockDiffs c)
                           + (if eqb_diff_type (d_type lb) t then len else 0)).
  { intros t. apply (movedTotal_alter t l off1 len _ lb Hl). }
  rewrite !E2, !E1, Hty, Hopp. unfold opposite. destruct (d_type lb); simpl; [done|lia|lia].
Qed.

Lemma commits_balanced c c' :
  commits c c' ->
  movedTotal DIFF_IN_1 (blockDiffs c') - movedTotal DIFF_IN_2 (blockDiffs c')
  = movedTotal DIFF_IN_1 (blockDiffs c) - movedTotal DIFF_IN_2 (blockDiffs c).
Proof.
  induction 1 as [|c c1 c2 H1 _ IH]; [done|]. rewrite IH. by apply commitsPair_balanced.
Qed.

(** X14: the move detector keeps the two sides in balance: when the
    lengths of the moves recorded in the removed blocks sum to the same as
    the lengths of the moves recorded in the added blocks before it runs (0
    and 0, after the line diff), the two sums are equal after it, and at
    every step of its run. The sums count a line once for every move that
    covers it: on [twoSources] both are 5, while the added block has only
    4 lines inside its two moves, which overlap. *)
Theorem findMoves_moves_balanced (fuel : nat) (cmpInfo : CompareInfo) :
  movedTotal DIFF_IN_1 (blockDiffs cmpInfo) = movedTotal DIFF_IN_2 (blockDiffs cmpInfo) ->
  movedTotal DIFF_IN_1 (blockDiffs (findMoves fuel cmpInfo).1)
  = movedTotal DIFF_IN_2 (blockDiffs (findMoves fuel cmpInfo).1).
Proof.
  intros H. pose proof (commits_balanced _ _ (findMoves_commits fuel cmpInfo)). lia.
Qed.

Lemma findMoves_moves_balanced_witness :
  movedTotal DIFF_IN_2 (blockDiffs (findMoves 10 twoSources).1) = 5
  /\ map (fun d => moves (d_info d)) (blockDiffs (findMoves 10 twoSources).1)
     = [ [ {| s_off := 0; s_len := 3 |} ]; []; [ {| s_off := 0; s_len := 2 |} ]; [];
         [ {| s_off := 0; s_len := 3 |}; {| s_off := 2; s_len := 2 |} ] ].
Proof.
  split; [|vm_compute; reflexivity].
  rewrite <- (findMoves_moves_balanced 10 twoSources); [vm_compute|]; reflexivity.
Defined.

Lemma lineEq_sym a i b j : lineEq a i b j = lineEq b j a i.
Proof.
  unfold lineEq. destruct (vat a i), (vat b j); try done. apply Z.eqb_sym.
Qed.

Lemma hasPartner_grow c c' d d' mv :
  onlyMovesGrow c c' ->
  d_type d' = d_type d -> d_off d' = d_off d ->
  hasPartner c d mv -> hasPartner c' d' mv.
Proof.
  intros (D1 & D2 & _ & Hb) Et Eo (m & mb & mv2 & Hm & Ht & Hopp & Hin & Hlen & Heq).
  destruct (Hb m mb Hm) as (mb' & Hmb' & F1 & F2 & _ & _ & _ & [extra F3] & _).
  exists m, mb', mv2. repeat split.
  - done.
  - by rewrite Et.
  - by rewrite F1, Et.
  - rewrite F3. apply in_or_app. by left.
  - done.
  - intros j Hj. specialize (Heq j Hj). unfold sideLines in *.
    rewrite Et, Eo, F1, F2, D1, D2. exact Heq.
Qed.

Lemma commitsPair_partners c c' :
  commitsPair c c' ->
  (forall k d mv, blockDiffs c !! k = Some d -> In mv (moves (d_info d)) -> hasPartner c d mv) ->
  forall k d mv, blockDiffs c' !! k = Some d -> In mv (moves (d_info d)) -> hasPartner c' d mv.
Proof.
  intros Hc Hinv k d' mv Hd' Hmv.
  pose proof (commitsPair_onlyMovesGrow _ _ Hc) as Hgrow.
  apply commitsPair_lookup in Hc
    as (l & m & lb & mb & off1 & off2 & len & Hl & Hm & Hlm & Ht & Hopp & Hlen & Heq
        & D1 & D2 & Dl & Cl & Cm & Ck).
  destruct (opposite_ne _ Ht) as (O1 & O2 & O3).
  assert (Heq' : forall j, 0 <= j < len ->
             lineEq (sideLines c' (d_type lb)) (d_off lb + off1 + j)
                    (sideLines c' (d_type mb)) (d_off mb + off2 + j) = true).
  { intros j Hj. unfold sideLines. rewrite D1, D2. by apply Heq. }
  destruct (decide (k = l)) as [->|Hkl]; [|destruct (decide (k = m)) as [->|Hkm]].
  - rewrite Cl in Hd'. injection Hd' as <-. cbn [withMove d_info moves] in Hmv.
    apply in_app_or in Hmv as [Hold|[<-|[]]].
    + apply (hasPartner_grow c c' lb _ mv Hgrow); [done|done|exact (Hinv l lb mv Hl Hold)].
    + exists m, (withMove off2 len mb), {| s_off := off2; s_len := len |}.
      repeat split; try done.
      cbn [withMove d_info moves]. apply in_or_app. right. by left.
  - rewrite Cm in Hd'. injection Hd' as <-. cbn [withMove d_info moves] in Hmv.
    apply in_app_or in Hmv as [Hold|[<-|[]]].
    + apply (hasPartner_grow c c' mb _ mv Hgrow); [done|done|exact (Hinv m mb mv Hm Hold)].
    + exists l, (withMove off1 len lb), {| s_off := off1; s_len := len |}.
      repeat split.
      * done.
      * cbn [withMove d_type]. congruence.
      * cbn [withMove d_type]. by rewrite Hopp, O3.
      * cbn [withMove d_info moves]. apply in_or_app. right. by left.
      * intros j Hj. cbn [withMove d_type d_off s_off s_len] in *.
        rewrite lineEq_sym. by apply Heq'.
  - rewrite Ck in Hd' by done.
    apply (hasPartner_grow c c' d' d' mv Hgrow); [done|done|exact (Hinv k d' mv Hd' Hmv)].
Qed.

Lemma commits_partners c c' :
  commits c c' ->
  (forall k d mv, blockDiffs c !! k = Some d -> In mv (moves (d_info d)) -> hasPartner c d mv) ->
  forall k d mv, blockDiffs c' !! k = Some d -> In mv (moves (d_info d)) -> hasPartner c' d mv.
Proof.
  induction 1 as [|c c1 c2 H1 _ IH]; [done|]. intros Hinv. apply IH.
  by apply (commitsPair_partners c c1).
Qed.

(** X15: after the move detector has run on blocks without moves (as the
    line diff leaves them), every move of every block has a partner: a
    move of the same length in a block of the other side whose lines are
    equal to the lines of the move, one by one. *)
Theorem findMoves_moves_have_partners (fuel : nat) (cmpInfo : CompareInfo)
    (k : nat) (d : diffInfo) (mv : section_t) :
  noMoves cmpInfo ->
  blockDiffs (findMoves fuel cmpInfo).1 !! k = Some d ->
  In mv (moves (d_info d)) ->
  hasPartner (findMoves fuel cmpInfo).1 d mv.
Proof.
  intros Hno. apply (commits_partners cmpInfo); [apply findMoves_commits|].
  intros k' d' mv' Hd' Hmv'. unfold noMoves in Hno. rewrite Forall_lookup in Hno.
  rewrite (Hno k' d' Hd') in Hmv'. destruct Hmv'.
Qed.

Lemma findMoves_moves_have_partners_witness :
  hasPartner (findMoves 10 swappedPair).1
    (withMove 1 1 (withMove 0 1 (freshBlock DIFF_IN_1 0 2))) {| s_off := 1; s_len := 1 |}.
Proof.
  apply (findMoves_moves_have_partners 10 swappedPair 0
           (withMove 1 1 (withMove 0 1 (freshBlock DIFF_IN_1 0 2))) {| s_off := 1; s_len := 1 |}).
  - repeat constructor.
  - vm_compute. reflexivity.
  - simpl. right. left. reflexivity.
Defined.

Lemma resolveMatch_once fuel c l lookupOff mi ret c' mi' :
  goodMatch c l mi ->
  resolveMatch fuel c l lookupOff mi = Some (ret, c', mi') ->
  if ret then commitsPair c c' else c' = c.
Proof.
  revert c l lookupOff mi ret c' mi'.
  induction fuel as [|n IH]; intros c l lookupOff mi ret c' mi' Hg H; [done|].
  cbn [resolveMatch] in H.
  destruct (mi_matchDiff mi) as [m|] eqn:Em.
  2:{ by injection H as <- <- <-. }
  destruct (Hg m Em) as (lb & mb & Hl & Hmb & G1 & G2 & G3 & G4).
  rewrite Hmb in H. cbn [mbind option_bind] in H.
  set (off' := mi_matchOff mi + (lookupOff - mi_lookupOff mi)) in *.
  destruct (mi_matchDiff (findBestMatch c mb off')) as [r|] eqn:Er.
  2:{ by injection H as <- <- <-. }
  destruct (bool_decide (r = l)) eqn:Erl.
  - injection H as <- <- <-. by eapply (commitsPair_intro c _ l m lb mb).
  - destruct (resolveMatch n c m off' (findBestMatch c mb off')) as [[[ret1 c1] mi1]|] eqn:Erec;
      [|done].
    cbn [mbind option_bind] in H. injection H as <- <- <-.
    eapply IH; [|exact Erec]. apply findBestMatch_good; [done|].
    rewrite G2. unfold opposite. by destruct (eqb_diff_type (d_type lb) DIFF_IN_1).
Qed.

(** X25: [resolveMatch] on the best match of a lookup line of an added or
    removed block answers true exactly when it has committed one pair of
    moves: a span in a block that is not a match and one as long, over
    equal lines, in a block of the other side, wherever along the chain of
    reverse matches the pair was found; when it answers false the blocks
    are as before. *)
Theorem resolveMatch_commits_one_pair_or_nothing (fuel : nat) (cmpInfo : CompareInfo)
    (l : nat) (lookupDiff : diffInfo) (lookupOff : Z) (ret : bool) (cmpInfo' : CompareInfo)
    (mi' : MatchInfo) :
  blockDiffs cmpInfo !! l = Some lookupDiff ->
  d_type lookupDiff <> DIFF_MATCH ->
  resolveMatch fuel cmpInfo l lookupOff (findBestMatch cmpInfo lookupDiff lookupOff)
  = Some (ret, cmpInfo', mi') ->
  if ret then commitsPair cmpInfo cmpInfo' else cmpInfo' = cmpInfo.
Proof.
  intros Hl Ht H. eapply resolveMatch_once; [|exact H]. by apply findBestMatch_good.
Qed.

Lemma resolveMatch_commits_one_pair_or_nothing_witness :
  commitsPair swappedPair
    (addMove 2 1 1 (addMove 0 0 1 swappedPair)).
Proof.
  apply (resolveMatch_commits_one_pair_or_nothing 5 swappedPair 0 (freshBlock DIFF_IN_1 0 2) 0
           true (addMove 2 1 1 (addMove 0 0 1 swappedPair))
           (findBestMatch swappedPair (freshBlock DIFF_IN_1 0 2) 0)).
  - reflexivity.
  - discriminate.
  - vm_compute. reflexivity.
Defined.

(** ** Further properties: alignment lines *)

Lemma sorted_lines_lookup (ls : list Line) (i j : nat) a b :
  StronglySorted (fun x y => ln_line x < ln_line y) ls ->
  ls !! i = Some a -> ls !! j = Some b -> (i < j)%nat -> ln_line a < ln_line b.
Proof.
  intros Hs. revert i j. induction Hs as [|x ls Hs IH Hall]; intros i j Hi Hj Hlt; [done|].
  destruct j as [|j]; [lia|]. simpl in Hj. destruct i as [|i]; simpl in Hi.
  - injection Hi as ->. rewrite List.Forall_forall in Hall. apply Hall.
    apply list_elem_of_In. by eapply list_elem_of_lookup_2.
  - eapply IH; eauto. lia.
Qed.

Lemma toAlignmentLine_mono (doc : DocCmpInfo) (a b : Z) :
  StronglySorted (fun x y => ln_line x < ln_line y) (lines doc) ->
  lines doc <> [] ->
  a <= b ->
  exists la lb,
    toAlignmentLine doc a = Some la /\ toAlignmentLine doc b = Some lb
    /\ la <= lb
    /\ (0 <= a -> a < b -> b <= Z.of_nat (length (lines doc)) -> la < lb).
Proof.
  intros Hs Hne Hab. unfold toAlignmentLine.
  destruct (lines doc) as [|x ls] eqn:El; [done|]. rewrite <- El in *.
  assert (Hlast : exists y, last (lines doc) = Some y
                            /\ lines doc !! (length (lines doc) - 1)%nat = Some y).
  { rewrite last_lookup. replace (pred (length (lines doc))) with (length (lines doc) - 1)%nat
      by lia. destruct (lines doc !! (length (lines doc) - 1)%nat) as [y|] eqn:E; [eauto|].
    apply lookup_ge_None in E. rewrite El in E. simpl in E. lia. }
  destruct Hlast as (y & Hy & Hyl).
  assert (Hhead : head (lines doc) = Some x /\ lines doc !! 0%nat = Some x) by by rewrite El.
  destruct Hhead as [Hx Hxl].
  assert (Hin : forall i, 0 <= i < Z.of_nat (length (lines doc)) ->
                  exists l, vat (lines doc) i = Some l /\ lines doc !! Z.to_nat i = Some l).
  { intros i Hi. unfold vat. destruct (i <? 0) eqn:E; [apply Z.ltb_lt in E; lia|].
    destruct (lines doc !! Z.to_nat i) as [l|] eqn:El'; [eauto|].
    apply lookup_ge_None in El'. lia. }
  assert (Hle : forall (i j : nat) p q, lines doc !! i = Some p -> lines doc !! j = Some q ->
                  (i <= j)%nat -> ln_line p <= ln_line q).
  { intros i j p q Hp Hq Hij. destruct (decide (i = j)) as [->|Hne'].
    - rewrite Hp in Hq. injection Hq as ->. lia.
    - pose proof (sorted_lines_lookup _ i j p q Hs Hp Hq ltac:(lia)). lia. }
  rewrite Hx, Hy. cbn [fmap option_fmap option_map].
  destruct (a <? 0) eqn:Ea; [apply Z.ltb_lt in Ea|apply Z.ltb_ge in Ea].
  - destruct (b <? 0) eqn:Eb; [apply Z.ltb_lt in Eb|apply Z.ltb_ge in Eb].
    + exists (ln_line x), (ln_line x). repeat split; lia.
    + destruct (b <? Z.of_nat (length (lines doc))) eqn:Eb2;
        [apply Z.ltb_lt in Eb2|apply Z.ltb_ge in Eb2].
      * destruct (Hin b ltac:(lia)) as (l & -> & Hl). exists (ln_line x), (ln_line l).
        repeat split; [|lia]. eapply (Hle 0%nat); eauto. lia.
      * exists (ln_line x), (ln_line y + 1). repeat split; [|lia].
        pose proof (Hle 0%nat _ x y Hxl Hyl ltac:(lia)). lia.
  - destruct (b <? 0) eqn:Eb; [apply Z.ltb_lt in Eb; lia|].
    destruct (a <? Z.of_nat (length (lines doc))) eqn:Ea2;
      [apply Z.ltb_lt in Ea2|apply Z.ltb_ge in Ea2].
    + destruct (Hin a ltac:(lia)) as (la & -> & Hla).
      destruct (b <? Z.of_nat (length (lines doc))) eqn:Eb2;
        [apply Z.ltb_lt in Eb2|apply Z.ltb_ge in Eb2].
      * destruct (Hin b ltac:(lia)) as (lb & -> & Hlb). exists (ln_line la), (ln_line lb).
        repeat split; [eapply Hle; eauto; lia|].
        intros _ Hlt _. eapply sorted_lines_lookup; eauto. lia.
      * exists (ln_line la), (ln_line y + 1). repeat split.
        -- pose proof (Hle _ _ la y Hla Hyl ltac:(lia)). lia.
        -- intros _ _ _. pose proof (Hle _ _ la y Hla Hyl ltac:(lia)). lia.
    + destruct (b <? Z.of_nat (length (lines doc))) eqn:Eb2; [apply Z.ltb_lt in Eb2; lia|].
      exists (ln_line y + 1), (ln_line y + 1). repeat split; lia.
Qed.

(** X16: on a document whose lines are in strictly ascending order (as
    [getLines] leaves them) and not empty, [toAlignmentLine] reads no
    vector outside its bounds, is monotone in the block line, and strictly
    ascending from 0 to the number of lines. *)
Theorem toAlignmentLine_monotone (doc : DocCmpInfo) (a b : Z) :
  StronglySorted (fun x y => ln_line x < ln_line y) (lines doc) ->
  lines doc <> [] ->
  a <= b ->
  exists la lb,
    toAlignmentLine doc a = Some la /\ toAlignmentLine doc b = Some lb
    /\ la <= lb
    /\ (0 <= a -> a < b -> b <= Z.of_nat (length (lines doc)) -> la < lb).
Proof. apply toAlignmentLine_mono. Qed.

Lemma toAlignmentLine_monotone_witness :
  exists la lb,
    toAlignmentLine (docOfHashes [7; 8; 9]) 1 = Some la
    /\ toAlignmentLine (docOfHashes [7; 8; 9]) 3 = Some lb
    /\ la <= lb
    /\ (0 <= 1 -> 1 < 3 -> 3 <= Z.of_nat (length (lines (docOfHashes [7; 8; 9]))) -> la < lb).
Proof.
  apply (toAlignmentLine_monotone (docOfHashes [7; 8; 9]) 1 3).
  - simpl. repeat constructor; simpl; lia.
  - discriminate.
  - lia.
Defined.

(** ** Further properties: the lines recorded for a pair *)

Lemma addChange_lines side change st st' :
  addChange side change st = Some st' -> linesOfPair st' = linesOfPair st.
Proof.
  unfold addChange, changedOn, setChangedOn, linesOfPair. intros H.
  destruct side; cbn [fst snd] in *.
  - destruct (last st.2) as [dl|] eqn:El; [|done]. injection H as <-. cbn [fst snd].
    f_equal. apply last_Some in El as [l' El]. rewrite El, removelast_last.
    rewrite !map_app. done.
  - destruct (last st.1) as [dl|] eqn:El; [|done]. injection H as <-. cbn [fst snd].
    f_equal. apply last_Some in El as [l' El]. rewrite El, removelast_last.
    rewrite !map_app. done.
Qed.

Section KeptByChanges.
Context {F : Type}.
Variable DiffCalcWord : list Word -> list Word -> list segment * bool.
Variable DiffCalcChar : list Char -> list Char -> list segment * bool.
Variable IsCharAlphaNumericA : Z -> bool.

(** A property of the two [changedLines] that adding a change to the
    last entry of either preserves. *)
Variable P : ChangedPair -> Prop.
Hypothesis P_addChange :
  forall side change st st', P st -> addChange side change st = Some st' -> P st'.

Lemma charSegLoop_keeps pSec1 pSec2 off1 off2 pBD1 pBD2 sectionDiffs st st' :
  P st ->
  charSegLoop pSec1 pSec2 off1 off2 pBD1 pBD2 sectionDiffs st = Some st' ->
  P st'.
Proof.
  revert st. induction sectionDiffs as [|sd rest IH]; intros st Hst H; simpl in H.
  - by injection H as <-.
  - destruct (sg_type sd).
    + by eapply IH.
    + destruct (charSpan pSec1 off1 sd) as [change|]; [|done]. cbn in H.
      destruct (addChange pBD1 change st) as [st1|] eqn:E; [|done]. cbn in H.
      eapply IH; [|exact H]. by eapply P_addChange.
    + destruct (charSpan pSec2 off2 sd) as [change|]; [|done]. cbn in H.
      destruct (addChange pBD2 change st) as [st1|] eqn:E; [|done]. cbn in H.
      eapply IH; [|exact H]. by eapply P_addChange.
Qed.

Lemma matchEnds_keeps pSec1 pSec2 off1 end1 off2 end2 pBD1 pBD2 st total r :
  P st ->
  matchEnds pSec1 pSec2 off1 end1 off2 end2 pBD1 pBD2 st total = Some r ->
  match r with
  | MatchWhole st' _ | MatchEnds st' _ => P st'
  | NoRefinement => True
  end.
Proof.
  intros Hst H. unfold matchEnds in H.
  destruct (startMatchLoop pSec1 pSec2) as [startMatch|]; [|done]. cbn in H.
  destruct (endMatchLoop _ _ _ _ _) as [endMatch|]; [|done]. cbn in H.
  destruct (negb (startMatch =? 0) || negb (endMatch =? 0)); [|by injection H as <-].
  match type of H with (?a ≫= _) = _ => destruct a as [st1|] eqn:E1; [|done] end.
  cbn in H.
  match type of H with (?a ≫= _) = _ => destruct a as [st2|] eqn:E2; [|done] end.
  cbn in H. injection H as <-.
  assert (P st1) as H1.
  { destruct (if negb (startMatch =? 0) then _ else _) as [co|]; [|done]. cbn in E1.
    destruct (if negb (endMatch =? 0) then _ else _) as [ce|]; [|done]. cbn in E1.
    destruct (0 <? ce - co); [eapply P_addChange; [exact Hst|exact E1]|by injection E1 as <-]. }
  clear E1.
  destruct (if negb (startMatch =? 0) then _ else _) as [co|]; [|done]. cbn in E2.
  destruct (if negb (endMatch =? 0) then _ else _) as [ce|]; [|done]. cbn in E2.
  destruct (0 <? ce - co); [eapply P_addChange; [exact H1|exact E2]|by injection E2 as <-].
Qed.

Lemma refineSubstitution_keeps options v1 v2 lo1 lo2 pL1 pL2 b1 b2 ld ld2 st total r :
  P st ->
  refineSubstitution DiffCalcChar IsCharAlphaNumericA options v1 v2 lo1 lo2 pL1 pL2 b1 b2
    ld ld2 st total = Some r ->
  match r with
  | MatchWhole st' _ | MatchEnds st' _ => P st'
  | NoRefinement => True
  end.
Proof.
  intros Hst H. unfold refineSubstitution in H.
  destruct (substitutionSides _ _ _ _ _ _ _ _ _ _ _ _ _) as [ss|];
    cbn [mbind option_bind] in H; [|done].
  destruct (negb _); [|by injection H as <-].
  destruct (_ =? _)%nat; [done|].
  destruct (_ <=? _).
  - destruct (charSegLoop _ _ _ _ _ _ _ _) as [st'|] eqn:E;
      cbn [mbind option_bind] in H; [|done].
    injection H as <-. by eapply charSegLoop_keeps.
  - by eapply matchEnds_keeps.
Qed.

Lemma wordSegLoop_keeps options v1 v2 lo1 lo2 pL1 pL2 b1 b2 size lineDiffs
    st total st' total' :
  P st ->
  wordSegLoop DiffCalcChar IsCharAlphaNumericA options v1 v2 lo1 lo2 pL1 pL2 b1 b2 size
    lineDiffs st total = Some (st', total') ->
  P st'.
Proof.
  remember (length lineDiffs) as n eqn:Hn.
  revert lineDiffs Hn st total.
  induction n as [n IH] using lt_wf_ind. intros lineDiffs Hn st total Hst H.
  destruct lineDiffs as [|ld rest]; [by injection H as <- <-|].
  cbn [wordSegLoop] in H. simpl in Hn.
  assert (Hwhole : (change ← wordSpan pL1 ld;
                    st1 ← addChange b1 change st;
                    wordSegLoop DiffCalcChar IsCharAlphaNumericA options v1 v2 lo1 lo2 pL1 pL2
                      b1 b2 size rest st1 total) = Some (st', total') -> P st').
  { intros Hw. destruct (wordSpan pL1 ld) as [change|]; [|done]. cbn [mbind option_bind] in Hw.
    destruct (addChange b1 change st) as [st1|] eqn:E; [|done]. cbn [mbind option_bind] in Hw.
    eapply (IH (length rest)); [lia|done| |exact Hw]. by eapply P_addChange. }
  destruct (sg_type ld).
  - destruct (addWordLens _ _ _ _) as [t|]; [|done]. cbn [mbind option_bind] in H.
    eapply (IH (length rest)); [lia|done|exact Hst|exact H].
  - destruct rest as [|ld2 rest']; [by apply Hwhole|].
    destruct (charPrecision options && eqb_diff_type (sg_type ld2) DIFF_IN_2);
      [|by apply Hwhole].
    destruct (refineSubstitution _ _ _ _ _ _ _ _ _ _ _ _ _ st total) as [r|] eqn:Er; [|done].
    cbn [mbind option_bind] in H.
    pose proof (refineSubstitution_keeps _ _ _ _ _ _ _ _ _ _ _ _ _ _ Hst Er) as Hr.
    destruct r as [st1 t1|st1 t1|].
    + eapply (IH (length rest')); [simpl in Hn; lia|done|exact Hr|exact H].
    + eapply (IH (length rest')); [simpl in Hn; lia|done|exact Hr|exact H].
    + destruct (size =? 2); [by simplify_eq|by apply Hwhole].
  - destruct (wordSpan pL2 ld) as [change|]; [|done]. cbn [mbind option_bind] in H.
    destruct (addChange b2 change st) as [st1|] eqn:E; [|done]. cbn [mbind option_bind] in H.
    eapply (IH (length rest)); [lia|done| |exact H]. by eapply P_addChange.
Qed.
End KeptByChanges.

Section RecordedLines.
Context {F : Type}.
Variable DiffCalcWord : list Word -> list Word -> list segment * bool.
Variable DiffCalcChar : list Char -> list Char -> list segment * bool.
Variable IsCharAlphaNumericA : Z -> bool.

Lemma comparePairBody_lines doc1 doc2 off1 off2 options line1 line2 st st' total maxLen sw :
  comparePairBody DiffCalcWord DiffCalcChar IsCharAlphaNumericA doc1 doc2 off1 off2 options
    line1 line2 st = Some (st', total, maxLen, sw) ->
  linesOfPair st' = ((linesOfPair st).1 ++ [line1], (linesOfPair st).2 ++ [line2]).
Proof.
  unfold comparePairBody. intros H.
  destruct (vat (lines doc1) (off1 + line1)) as [l1|]; [|done]. cbn in H.
  destruct (vat (lines doc2) (off2 + line2)) as [l2|]; [|done]. cbn in H.
  destruct (DiffCalcWord _ _) as [lineDiffs swapped].
  destruct swapped.
  - destruct (wordSegLoop _ _ _ _ _ _ _ _ _ _ _ _ _ _ _) as [[st1 t1]|] eqn:E; [|done].
    cbn in H. injection H as <- <- <- <-.
    eapply (wordSegLoop_keeps DiffCalcChar IsCharAlphaNumericA
              (fun s => linesOfPair s
                        = ((linesOfPair st).1 ++ [line1], (linesOfPair st).2 ++ [line2])));
      [| |exact E].
    + intros side change s s' Hs Hadd. by rewrite (addChange_lines _ _ _ _ Hadd).
    + destruct st as [a b]. unfold linesOfPair, pushLine, changedOn, setChangedOn.
      cbn [fst snd negb]. by rewrite !map_app.
  - destruct (wordSegLoop _ _ _ _ _ _ _ _ _ _ _ _ _ _ _) as [[st1 t1]|] eqn:E; [|done].
    cbn in H. injection H as <- <- <- <-.
    eapply (wordSegLoop_keeps DiffCalcChar IsCharAlphaNumericA
              (fun s => linesOfPair s
                        = ((linesOfPair st).1 ++ [line1], (linesOfPair st).2 ++ [line2])));
      [| |exact E].
    + intros side change s s' Hs Hadd. by rewrite (addChange_lines _ _ _ _ Hadd).
    + destruct st as [a b]. unfold linesOfPair, pushLine, changedOn, setChangedOn.
      cbn [fst snd negb]. by rewrite !map_app.
Qed.

Lemma comparePair_lines doc1 doc2 off1 off2 options line1 line2 st st' :
  comparePair DiffCalcWord DiffCalcChar IsCharAlphaNumericA doc1 doc2 off1 off2 options
    line1 line2 st = Some st' ->
  st' = st
  \/ linesOfPair st' = ((linesOfPair st).1 ++ [line1], (linesOfPair st).2 ++ [line2]).
Proof.
  unfold comparePair. intros H.
  destruct (comparePairBody _ _ _ _ _ _ _ _ _ _ _) as [[[[st1 total] maxLen] sw]|] eqn:E;
    [|done].
  pose proof (comparePairBody_pairOpen _ _ _ _ _ _ _ _ _ _ _ _ _ _ _ E) as Hopen.
  apply comparePairBody_lines in E. cbn [mbind option_bind] in H.
  destruct (maxLen =? 0); [done|].
  destruct (_ <? _).
  - rewrite (popLine_pairOpen st sw st1 Hopen) in H. left. by injection H.
  - right. by injection H as <-.
Qed.

Lemma StronglySorted_lt_weaken (a b : Z) (l : list Z) :
  a < b -> StronglySorted Z.lt (b :: l) -> StronglySorted Z.lt (a :: l).
Proof.
  intros Hab Hs. apply StronglySorted_inv in Hs as [Hs Hall].
  constructor; [done|]. eapply Forall_impl; [exact Hall|]. simpl. intros x ?. lia.
Qed.

Lemma compareLines_lines doc1 doc2 off1 off2 options
    (lineMappings : list (Z * (F * Z))) lastLine2 st st' :
  compareLines DiffCalcWord DiffCalcChar IsCharAlphaNumericA doc1 doc2 off1 off2 options
    lineMappings lastLine2 st = Some st' ->
  exists accepted : list (Z * Z),
    sublist accepted (pairsOf lineMappings)
    /\ StronglySorted Z.lt (lastLine2 :: accepted.*2)
    /\ (linesOfPair st').1 = (linesOfPair st).1 ++ accepted.*1
    /\ (linesOfPair st').2 = (linesOfPair st).2 ++ accepted.*2.
Proof.
  revert lastLine2 st. induction lineMappings as [|lm rest IH]; intros lastLine2 st H.
  - injection H as <-. exists []. rewrite !app_nil_r. repeat split; try done.
    repeat constructor.
  - cbn [compareLines] in H. destruct (lm.2.2 <=? lastLine2) eqn:Ele.
    + destruct (IH _ _ H) as (acc & H1 & H2 & H3 & H4). exists acc.
      split; [|done]. by apply sublist_cons.
    + apply Z.leb_gt in Ele.
      destruct (comparePair _ _ _ _ _ _ _ _ _ _ _) as [st1|] eqn:E; [|done].
      cbn [mbind option_bind] in H. destruct (IH _ _ H) as (acc & H1 & H2 & H3 & H4).
      apply comparePair_lines in E as [->|E].
      * exists acc. split; [by apply sublist_cons|]. split; [|done].
        by apply (StronglySorted_lt_weaken lastLine2 lm.2.2).
      * exists ((lm.1, lm.2.2) :: acc). split; [by apply sublist_skip|].
        rewrite E in H3, H4. cbn [fst snd] in H3, H4.
        rewrite !fmap_cons. cbn [fst snd]. split.
        -- constructor; [done|]. constructor; [lia|].
           apply StronglySorted_inv in H2 as [_ Hall].
           eapply Forall_impl; [exact Hall|]. simpl. intros x ?. lia.
        -- rewrite H3, H4, <- !app_assoc. done.
Qed.
End RecordedLines.

(** X17: whatever the engine answers and whichever way a pair is swapped,
    the first block records in its changed lines the line of the first
    block and the second block the line of the second block; the lines a
    run of [compareLines] appends to the two lists are, index by index,
    pairs of the mapping in its order, and the lines of the second block
    among them ascend strictly from above [lastLine2]. *)
Theorem compareLines_records_mapped_pairs_in_order {F : Type}
    (DiffCalcWord : list Word -> list Word -> list segment * bool)
    (DiffCalcChar : list Char -> list Char -> list segment * bool)
    (IsCharAlphaNumericA : Z -> bool)
    (doc1 doc2 : DocCmpInfo) (off1 off2 : Z) (options : CompareOptions)
    (lineMappings : list (Z * (F * Z))) (lastLine2 : Z) (st st' : ChangedPair) :
  compareLines DiffCalcWord DiffCalcChar IsCharAlphaNumericA doc1 doc2 off1 off2 options
    lineMappings lastLine2 st = Some st' ->
  exists accepted : list (Z * Z),
    sublist accepted (pairsOf lineMappings)
    /\ StronglySorted Z.lt (lastLine2 :: accepted.*2)
    /\ map dl_line st'.1 = map dl_line st.1 ++ accepted.*1
    /\ map dl_line st'.2 = map dl_line st.2 ++ accepted.*2.
Proof. apply compareLines_lines. Qed.

Lemma compareLines_records_mapped_pairs_in_order_witness :
  let options := sampleOptions false false false 50 in
  let lineMappings := [(0, (f32_of_int 63, 1)); (1, (f32_of_int 50, 0)); (2, (f32_of_int 85, 2))] in
  let st' := ([ {| dl_line := 0; dl_changes := [ {| s_off := 7; s_len := 4 |} ] |};
                {| dl_line := 2; dl_changes := [ {| s_off := 6; s_len := 1 |} ] |} ],
              [ {| dl_line := 1; dl_changes := [] |};
                {| dl_line := 2; dl_changes := [ {| s_off := 6; s_len := 1 |} ] |} ]) in
  compareLines swappingWordEngine charEngine asciiAlphaNumeric
    (textDoc MAIN_VIEW threeLines1 options) (textDoc SUB_VIEW threeLines2 options) 0 0 options
    lineMappings (-1) ([], []) = Some st'
  /\ (swappingWordEngine
        (getLineWords asciiAlphaNumeric (textView MAIN_VIEW threeLines1) 0 options)
        (getLineWords asciiAlphaNumeric (textView SUB_VIEW threeLines2) 1 options)).2 = true
  /\ exists accepted : list (Z * Z),
       accepted = [(0, 1); (2, 2)]
       /\ sublist accepted (pairsOf lineMappings)
       /\ StronglySorted Z.lt (-1 :: accepted.*2)
       /\ map dl_line st'.1 = accepted.*1
       /\ map dl_line st'.2 = accepted.*2.
Proof.
  cbv zeta. split; [vm_compute; reflexivity|]. split; [vm_compute; reflexivity|].
  destruct (compareLines_records_mapped_pairs_in_order swappingWordEngine charEngine
              asciiAlphaNumeric
              (textDoc MAIN_VIEW threeLines1 (sampleOptions false false false 50))
              (textDoc SUB_VIEW threeLines2 (sampleOptions false false false 50))
              0 0 (sampleOptions false false false 50)
              [(0, (f32_of_int 63, 1)); (1, (f32_of_int 50, 0)); (2, (f32_of_int 85, 2))] (-1)
              ([], [])
              ([ {| dl_line := 0; dl_changes := [ {| s_off := 7; s_len := 4 |} ] |};
                 {| dl_line := 2; dl_changes := [ {| s_off := 6; s_len := 1 |} ] |} ],
               [ {| dl_line := 1; dl_changes := [] |};
                 {| dl_line := 2; dl_changes := [ {| s_off := 6; s_len := 1 |} ] |} ]))
    as (accepted & Hsub & Hsorted & H1 & H2).
  - vm_compute. reflexivity.
  - exists accepted. cbn [fst snd map dl_line app] in H1, H2.
    assert (accepted = [(0, 1); (2, 2)]) as Ha.
    { destruct accepted as [|[a b] [|[a' b'] [|[a'' b''] rest]]]; try discriminate.
      cbn in H1, H2. injection H1 as <- <-. injection H2 as <- <-. reflexivity. }
    split; [exact Ha|]. split; [exact Hsub|]. split; [exact Hsorted|].
    rewrite Ha. split; reflexivity.
Defined.

(** ** Further properties: the retained assignment is a matching *)

Section Matching.
Context {F : Type}.

Lemma map_emplace_elem k (v : F * Z) m e :
  e ∈ map_emplace k v m -> e = (k, v) \/ e ∈ m.
Proof.
  induction m as [|[k' v'] m IH]; simpl.
  - intros H. apply list_elem_of_singleton in H. by left.
  - destruct (k <? k').
    + intros H. apply elem_of_cons in H as [->|H]; [by left|by right].
    + destruct (k' <? k); [|by right].
      intros H. apply elem_of_cons in H as [->|H]; [right; by left|].
      destruct (IH H) as [->|Hm]; [by left|right; by right].
Qed.

Lemma map_emplace_sorted k (v : F * Z) m :
  StronglySorted Z.lt m.*1 -> StronglySorted Z.lt (map_emplace k v m).*1.
Proof.
  induction m as [|[k' v'] m IH]; simpl; intros Hs.
  - repeat constructor.
  - apply StronglySorted_inv in Hs as [Hs Hall].
    destruct (k <? k') eqn:E1.
    + apply Z.ltb_lt in E1. rewrite !fmap_cons. cbn [fst].
      constructor; [constructor; done|].
      constructor; [done|]. eapply Forall_impl; [exact Hall|]. simpl. intros x ?. lia.
    + destruct (k' <? k) eqn:E2.
      * apply Z.ltb_lt in E2. rewrite fmap_cons. cbn [fst].
        constructor; [by apply IH|].
        apply Forall_forall. intros x Hx. apply list_elem_of_fmap in Hx as (e & -> & He).
        apply map_emplace_elem in He as [->|He]; [done|].
        rewrite Forall_forall in Hall. apply Hall. apply list_elem_of_fmap. eauto.
      * rewrite fmap_cons. by constructor.
Qed.

Lemma map_emplace_perm k (v : F * Z) m :
  k ∉ m.*1 -> map_emplace k v m ≡ₚ (k, v) :: m.
Proof.
  induction m as [|[k' v'] m IH]; simpl; intros Hk; [done|].
  apply not_elem_of_cons in Hk as [Hne Hk].
  destruct (k <? k') eqn:E1; [done|].
  destruct (k' <? k) eqn:E2.
  - rewrite (IH Hk). apply Permutation_swap.
  - apply Z.ltb_ge in E1, E2. lia.
Qed.

Lemma vat_insert_keeps_true (l : list bool) (j : nat) i :
  vat l i = Some true -> vat (<[j := true]> l) i = Some true.
Proof.
  unfold vat. destruct (i <? 0); [done|]. intros H.
  destruct (decide (Z.to_nat i = j)) as [<-|Hne].
  - rewrite list_lookup_insert_eq; [done|]. by eapply lookup_lt_Some.
  - by rewrite list_lookup_insert_ne.
Qed.

Lemma walkState_accept n1 n2 (s : list (conv_key F)) lm m1 m2 (oc : conv_key F) :
  walkState n1 n2 s lm m1 m2 ->
  In oc s ->
  vat m1 (ck_line1 oc) = Some false -> vat m2 (ck_line2 oc) = Some false ->
  walkState n1 n2 s (map_emplace (ck_line1 oc) (convergence oc, ck_line2 oc) lm)
    (<[Z.to_nat (ck_line1 oc) := true]> m1) (<[Z.to_nat (ck_line2 oc) := true]> m2).
Proof.
  intros ((Hs & Hnd & Hall) & Hflag & L1 & L2) Hin V1 V2.
  assert (Hk : ck_line1 oc ∉ lm.*1).
  { intros Hk. apply list_elem_of_fmap in Hk as (e & He1 & He).
    rewrite Forall_forall in Hflag. destruct (Hflag e He) as [T1 _]. congruence. }
  pose proof (map_emplace_perm (ck_line1 oc) (convergence oc, ck_line2 oc) lm Hk) as Hperm.
  pose proof (vat_Some_range _ _ _ V1) as [R1 R1'].
  pose proof (vat_Some_range _ _ _ V2) as [R2 R2'].
  split; [split; [|split]|split; [|split]].
  - by apply map_emplace_sorted.
  - rewrite Hperm. cbn [map snd]. apply NoDup_cons. split; [|done].
    intros Hl. apply list_elem_of_In, in_map_iff in Hl as (e & He1 & He).
    rewrite Forall_forall in Hflag. destruct (Hflag e ltac:(by apply list_elem_of_In)) as [_ T2].
    congruence.
  - rewrite Hperm. constructor; [|done]. unfold keyOf. cbn [fst snd].
    split; [by destruct oc|]. lia.
  - rewrite Hperm. constructor.
    + cbn [fst snd]. unfold vat.
      destruct (ck_line1 oc <? 0) eqn:E1; [apply Z.ltb_lt in E1; lia|].
      destruct (ck_line2 oc <? 0) eqn:E2; [apply Z.ltb_lt in E2; lia|].
      by rewrite !list_lookup_insert_eq.
    + eapply Forall_impl; [exact Hflag|]. simpl. intros e [T1 T2].
      split; by apply vat_insert_keeps_true.
  - by rewrite length_insert.
  - by rewrite length_insert.
Qed.

Lemma greedyWalk_matching n1 n2 (s walk : list (conv_key F)) lm m1 m2 c1 c2 r :
  (forall k, In k walk -> In k s) ->
  walkState n1 n2 s lm m1 m2 ->
  greedyWalk n1 n2 walk lm m1 m2 c1 c2 = Some r ->
  matchingWithin n1 n2 s r.
Proof.
  revert lm m1 m2 c1 c2. induction walk as [|oc rest IH]; intros lm m1 m2 c1 c2 Hsub Hst H.
  - injection H as <-. by destruct Hst.
  - cbn [greedyWalk] in H.
    destruct (vat m1 (ck_line1 oc)) as [b1|] eqn:V1; [|done].
    destruct (vat m2 (ck_line2 oc)) as [b2|] eqn:V2; [|done].
    cbn [mbind option_bind] in H.
    assert (Hsub' : forall k, In k rest -> In k s) by (intros k Hk; apply Hsub; by right).
    destruct b1, b2; cbn [negb andb] in H; try by (eapply IH; eauto).
    pose proof (walkState_accept n1 n2 s lm m1 m2 oc Hst (Hsub oc ltac:(by left)) V1 V2)
      as Hst'.
    destruct (c1 + 1 =? n1); [injection H as <-; by destruct Hst'|].
    destruct (c2 + 1 =? n2); [injection H as <-; by destruct Hst'|].
    eapply IH; eauto.
Qed.

Lemma greedyRun_matching n1 n2 (s walk : list (conv_key F)) r :
  (forall k, In k walk -> In k s) ->
  greedyRun n1 n2 walk = Some r -> matchingWithin n1 n2 s r.
Proof.
  intros Hsub. unfold greedyRun. apply greedyWalk_matching; [done|].
  split; [split; [|split]|split; [|split]]; try by constructor.
  - by rewrite length_replicate.
  - by rewrite length_replicate.
Qed.

Lemma startingPoints_suffix (s walk : list (conv_key F)) :
  walk ∈ startingPoints s -> forall k, In k walk -> In k s.
Proof.
  induction s as [|x s IH]; simpl; intros H; [by apply elem_of_nil in H|].
  apply elem_of_cons in H as [->|H]; [done|].
  intros k Hk. right. by apply IH.
Qed.

Variable F_of_int : Z -> F.
Variable Fadd : F -> F -> F.
Variable Fltb : F -> F -> bool.

Lemma keepBetter_fold_origin (runs : list (list (Z * (F * Z)))) best :
  (fold_left (keepBetter F_of_int Fadd Fltb) runs best).2 = best.2
  \/ (fold_left (keepBetter F_of_int Fadd Fltb) runs best).2 ∈ runs.
Proof.
  revert best. induction runs as [|run runs IH]; intros best; [by left|].
  cbn [fold_left]. destruct (IH (keepBetter F_of_int Fadd Fltb best run)) as [E|Hin].
  - rewrite E. unfold keepBetter. destruct (Fltb _ _); [right; by left|by left].
  - right. by right.
Qed.
End Matching.

Lemma bestLineMappings_matching {F : Type}
    (F_of_int : Z -> F) (Fadd : F -> F -> F) (Fltb : F -> F -> bool)
    (linesCount1 linesCount2 : Z) (s : list (conv_key F)) (best : list (Z * (F * Z))) :
  bestLineMappings F_of_int Fadd Fltb linesCount1 linesCount2 s = Some best ->
  matchingWithin linesCount1 linesCount2 s best.
Proof.
  unfold bestLineMappings. intros H.
  destruct (searchLoop _ _ _ _ _ _ _) as [r|] eqn:E; [|done].
  cbn in H. injection H as <-.
  apply searchLoop_runs in E as (runs & Hruns & ->).
  destruct (keepBetter_fold_origin F_of_int Fadd Fltb runs (F_of_int 0, [])) as [->|Hin].
  - cbn [snd]. split; [|split]; constructor.
  - apply mapM_Some in Hruns.
    apply list_elem_of_lookup in Hin as [i Hi].
    destruct (Forall2_lookup_r _ _ _ _ _ Hruns Hi) as (walk & Hwalk & Hrun).
    eapply greedyRun_matching; [|exact Hrun].
    apply startingPoints_suffix. by eapply list_elem_of_lookup_2.
Qed.

(** X18: the assignment the search retains is a matching drawn from the
    candidate set: its entries ascend strictly by [line1], no [line2] is
    assigned twice, and every entry is a key of the set with both lines
    inside their blocks. *)
Theorem bestLineMappings_is_a_matching {F : Type}
    (F_of_int : Z -> F) (Fadd : F -> F -> F) (Fltb : F -> F -> bool)
    (linesCount1 linesCount2 : Z) (s : list (conv_key F)) (best : list (Z * (F * Z))) :
  bestLineMappings F_of_int Fadd Fltb linesCount1 linesCount2 s = Some best ->
  matchingWithin linesCount1 linesCount2 s best.
Proof. apply bestLineMappings_matching. Qed.

Lemma bestLineMappings_is_a_matching_witness :
  matchingWithin 2 2
    [ {| convergence := f32_of_int 90; ck_line1 := 1; ck_line2 := 0 |};
      {| convergence := f32_of_int 80; ck_line1 := 0; ck_line2 := 0 |};
      {| convergence := f32_of_int 80; ck_line1 := 0; ck_line2 := 1 |};
      {| convergence := f32_of_int 80; ck_line1 := 1; ck_line2 := 1 |} ]
    [(0, (f32_of_int 80, 0)); (1, (f32_of_int 80, 1))].
Proof.
  apply (bestLineMappings_is_a_matching f32_of_int f32_add SFltb 2 2
           [ {| convergence := f32_of_int 90; ck_line1 := 1; ck_line2 := 0 |};
             {| convergence := f32_of_int 80; ck_line1 := 0; ck_line2 := 0 |};
             {| convergence := f32_of_int 80; ck_line1 := 0; ck_line2 := 1 |};
             {| convergence := f32_of_int 80; ck_line1 := 1; ck_line2 := 1 |} ]
           [(0, (f32_of_int 80, 0)); (1, (f32_of_int 80, 1))]).
  vm_compute. reflexivity.
Defined.

(** ** Further properties: markers of a section *)

Lemma skipUnmoved_to_end steps info endOff i :
  steps = Z.to_nat (endOff - i) -> i <= endOff ->
  (forall k, i <= k < endOff -> movedSection info k = 0) ->
  skipUnmoved steps info endOff i = endOff.
Proof.
  revert i. induction steps as [|n IH]; intros i Hs Hle Hall; simpl.
  - lia.
  - destruct (i <? endOff) eqn:E; [apply Z.ltb_lt in E|apply Z.ltb_ge in E; lia].
    rewrite (Hall i) by lia. simpl. apply IH; [lia|lia|]. intros k Hk. apply Hall. lia.
Qed.

Lemma markSectionLoop_done fuel doc bd i calls :
  s_off (section doc) + s_len (section doc) <= i ->
  markSectionLoop fuel doc bd i calls = Some calls.
Proof.
  intros H. destruct fuel; simpl;
    (destruct (i <? _) eqn:E; [apply Z.ltb_lt in E; lia|done]).
Qed.

(** X19: a section of a block none of whose lines is in a move: every line
    of the document from the first line of the section to its last one,
    the lines left out of the comparison between them included, gets one
    marker, in ascending order: the block mask of the document, or its
    local variant when the line is among the non-unique lines. *)
Theorem markSection_marks_every_line_of_an_unmoved_section
    (doc : DocCmpInfo) (bd : diffInfo) (first last : Line) :
  0 < s_len (section doc) ->
  (forall k, s_off (section doc) <= k < s_off (section doc) + s_len (section doc) ->
             movedSection (d_info bd) k = 0) ->
  vat (lines doc) (d_off bd + s_off (section doc)) = Some first ->
  vat (lines doc) (d_off bd + (s_off (section doc) + s_len (section doc) - 1)) = Some last ->
  markSection doc bd
  = Some (map (fun dl => MarkerAdd (viewId (view doc)) dl (blockMark doc dl))
              (seqZ (ln_line first) (ln_line last + 1 - ln_line first))).
Proof.
  intros Hlen Hun Hfirst Hlast. unfold markSection.
  destruct (Z.to_nat (s_len (section doc))) as [|n] eqn:En; [lia|].
  cbn [markSectionLoop].
  destruct (s_off (section doc) <? _) eqn:E; [|apply Z.ltb_ge in E; lia].
  rewrite Hfirst. cbn [mbind option_bind].
  rewrite (Hun (s_off (section doc))) by lia.
  destruct (s_len (section doc) <? 0) eqn:E0; [apply Z.ltb_lt in E0; lia|].
  cbn [Z.eqb].
  rewrite skipUnmoved_to_end; [|done|lia|intros k Hk; apply Hun; lia].
  rewrite Hlast. cbn [mbind option_bind app].
  apply markSectionLoop_done. lia.
Qed.

Lemma markSection_marks_every_line_of_an_unmoved_section_witness :
  markSection (withSection (docOfHashes [7; 8; 9]) 1 2) (freshBlock DIFF_IN_1 0 3)
  = Some (map (fun dl => MarkerAdd (viewId (view (withSection (docOfHashes [7; 8; 9]) 1 2))) dl
                           (blockMark (withSection (docOfHashes [7; 8; 9]) 1 2) dl))
              (seqZ (ln_line {| ln_line := 1; ln_hash := 8 |})
                    (ln_line {| ln_line := 2; ln_hash := 9 |} + 1
                     - ln_line {| ln_line := 1; ln_hash := 8 |}))).
Proof.
  apply (markSection_marks_every_line_of_an_unmoved_section
           (withSection (docOfHashes [7; 8; 9]) 1 2) (freshBlock DIFF_IN_1 0 3)
           {| ln_line := 1; ln_hash := 8 |} {| ln_line := 2; ln_hash := 9 |}).
  - simpl. lia.
  - intros k _. reflexivity.
  - reflexivity.
  - reflexivity.
Defined.

(** X20: a section that is one move of two lines or more: the first line
    gets MOVED_BEGIN, every line of the document between the first and the
    last line of the move gets MOVED_MID, and MOVED_END goes to the last
    line of the move (to the line behind the first one, should the last
    line not lie behind the first). *)
Theorem markSection_marks_a_moved_span (doc : DocCmpInfo) (bd : diffInfo)
    (first last : Line) :
  2 <= s_len (section doc) ->
  movedSection (d_info bd) (s_off (section doc)) = s_len (section doc) ->
  vat (lines doc) (d_off bd + s_off (section doc)) = Some first ->
  vat (lines doc) (d_off bd + (s_off (section doc) + (s_len (section doc) - 1))) = Some last ->
  markSection doc bd
  = Some ([MarkerAdd (viewId (view doc)) (ln_line first) MARKER_MASK_MOVED_BEGIN]
            ++ map (fun dl => MarkerAdd (viewId (view doc)) dl MARKER_MASK_MOVED_MID)
                   (seqZ (ln_line first + 1) (ln_line last - (ln_line first + 1)))
            ++ [MarkerAdd (viewId (view doc)) (Z.max (ln_line first + 1) (ln_line last))
                  MARKER_MASK_MOVED_END]).
Proof.
  intros Hlen Hmoved Hfirst Hlast. unfold markSection.
  destruct (Z.to_nat (s_len (section doc))) as [|n] eqn:En; [lia|].
  cbn [markSectionLoop].
  destruct (s_off (section doc) <? _) eqn:E; [|apply Z.ltb_ge in E; lia].
  rewrite Hfirst. cbn [mbind option_bind]. rewrite Hmoved.
  rewrite Z.ltb_irrefl.
  destruct (s_len (section doc) =? 0) eqn:E0; [apply Z.eqb_eq in E0; lia|].
  destruct (s_len (section doc) =? 1) eqn:E1; [apply Z.eqb_eq in E1; lia|].
  rewrite Hlast. cbn [mbind option_bind app].
  apply markSectionLoop_done. lia.
Qed.

Lemma markSection_marks_a_moved_span_witness :
  markSection (withSection (docOfHashes [7; 8; 9]) 0 3) (withMove 0 3 (freshBlock DIFF_IN_1 0 3))
  = Some ([MarkerAdd (viewId (view (withSection (docOfHashes [7; 8; 9]) 0 3)))
             (ln_line {| ln_line := 0; ln_hash := 7 |}) MARKER_MASK_MOVED_BEGIN]
            ++ map (fun dl => MarkerAdd (viewId (view (withSection (docOfHashes [7; 8; 9]) 0 3)))
                                dl MARKER_MASK_MOVED_MID)
                   (seqZ (ln_line {| ln_line := 0; ln_hash := 7 |} + 1)
                         (ln_line {| ln_line := 2; ln_hash := 9 |}
                          - (ln_line {| ln_line := 0; ln_hash := 7 |} + 1)))
            ++ [MarkerAdd (viewId (view (withSection (docOfHashes [7; 8; 9]) 0 3)))
                  (Z.max (ln_line {| ln_line := 0; ln_hash := 7 |} + 1)
                         (ln_line {| ln_line := 2; ln_hash := 9 |}))
                  MARKER_MASK_MOVED_END]).
Proof.
  apply (markSection_marks_a_moved_span
           (withSection (docOfHashes [7; 8; 9]) 0 3) (withMove 0 3 (freshBlock DIFF_IN_1 0 3))
           {| ln_line := 0; ln_hash := 7 |} {| ln_line := 2; ln_hash := 9 |}).
  - simpl. lia.
  - reflexivity.
  - reflexivity.
  - reflexivity.
Defined.

(** ** Further properties: the alignment cursor *)

Lemma emitPair_align c flag m1 m2 st st' :
  emitPair c flag m1 m2 st = Some st' ->
  e_align1 st' = e_align1 st /\ e_align2 st' = e_align2 st.
Proof.
  unfold emitPair. intros H.
  destruct (toAlignmentLine (doc1 c) (e_align1 st)); [|done].
  destruct (toAlignmentLine (doc2 c) (e_align2 st)); [|done].
  cbn in H. by injection H as <-.
Qed.

Lemma emitResidual_align c flag bd mb off1 len1 off2 len2 st st' :
  emitResidual c flag bd mb off1 len1 off2 len2 st = Some st' ->
  e_align1 st' = e_align1 st + len1 /\ e_align2 st' = e_align2 st + len2.
Proof.
  unfold emitResidual. intros H.
  destruct (len1 =? 0) eqn:E1; destruct (len2 =? 0) eqn:E2; cbn [negb orb] in H;
    try apply Z.eqb_eq in E1; try apply Z.eqb_eq in E2.
  - injection H as <-. lia.
  - destruct (emitPair _ _ _ _ _) as [st1|] eqn:Ep; [|done]. cbn [mbind option_bind] in H.
    apply emitPair_align in Ep as [A1 A2].
    destruct (markSection _ mb) as [calls|]; [|done]. cbn [mbind option_bind] in H.
    injection H as <-. cbn [addCalls e_align1 e_align2]. lia.
  - destruct (emitPair _ _ _ _ _) as [st1|] eqn:Ep; [|done]. cbn [mbind option_bind] in H.
    apply emitPair_align in Ep as [A1 A2].
    destruct (markSection _ bd) as [calls|]; [|done]. cbn [mbind option_bind] in H.
    injection H as <-. cbn [addCalls e_align1 e_align2]. lia.
  - destruct (emitPair _ _ _ _ _) as [st1|] eqn:Ep; [|done]. cbn [mbind option_bind] in H.
    apply emitPair_align in Ep as [A1 A2].
    destruct (markSection _ bd) as [calls|]; [|done]. cbn [mbind option_bind] in H.
    destruct (markSection _ mb) as [calls2|]; [|done]. cbn [mbind option_bind] in H.
    injection H as <-. cbn [addCalls e_align1 e_align2]. lia.
Qed.

Lemma emitChangedLines_align c flag bd mb changed j off1 off2 st st' off1' off2' :
  emitChangedLines c flag bd mb changed j off1 off2 st = Some (st', off1', off2') ->
  e_align1 st' - off1' = e_align1 st - off1 /\ e_align2 st' - off2' = e_align2 st - off2.
Proof.
  revert j off1 off2 st. induction changed as [|cl1 rest IH]; intros j off1 off2 st H.
  - injection H as <- <- <-. lia.
  - cbn [emitChangedLines] in H.
    destruct (vat (changedLines (d_info mb)) j) as [cl2|]; [|done].
    cbn [mbind option_bind] in H.
    destruct (emitResidual _ _ _ _ _ _ _ _ _) as [st1|] eqn:Er; [|done].
    cbn [mbind option_bind] in H.
    destruct (emitPair _ _ _ _ _) as [st2|] eqn:Ep; [|done]. cbn [mbind option_bind] in H.
    destruct (markLineDiffs _ _ _) as [calls|]; [|done]. cbn [mbind option_bind] in H.
    apply emitResidual_align in Er as [R1 R2]. apply emitPair_align in Ep as [P1 P2].
    apply IH in H as [H1 H2]. cbn [addCalls e_align1 e_align2] in H1, H2. lia.
Qed.

Lemma sideTotal_cons t bd blocks :
  sideTotal t (bd :: blocks)
  = (if eqb_diff_type (d_type bd) DIFF_MATCH || eqb_diff_type (d_type bd) t
     then d_len bd else 0) + sideTotal t blocks.
Proof. reflexivity. Qed.

Lemma emitBlocks_align c flag blocks st progress st' progress' :
  linkedPairs c blocks ->
  emitBlocks c flag blocks st progress = Some (st', true, progress') ->
  e_align1 st' = e_align1 st + sideTotal DIFF_IN_1 blocks
  /\ e_align2 st' = e_align2 st + sideTotal DIFF_IN_2 blocks.
Proof.
  remember (length blocks) as n eqn:Hn. revert blocks Hn st progress.
  induction n as [n IH] using lt_wf_ind. intros blocks Hn st progress Hlinked H.
  destruct blocks as [|bd rest]; [injection H as <- _; simpl; lia|].
  cbn [emitBlocks] in H. rewrite !sideTotal_cons.
  destruct (emitBlock c flag bd st) as [[st1 skipNext]|] eqn:Eb; [|done].
  cbn [mbind option_bind] in H.
  destruct (poll progress) as [go p1]. destruct go; cbn [negb] in H; [|done].
  unfold emitBlock in Eb. cbn [linkedPairs] in Hlinked.
  destruct (d_type bd) eqn:Et; cbn [eqb_diff_type orb].
  - destruct (emitPair _ _ _ _ _) as [st2|] eqn:Ep; [|done]. cbn [mbind option_bind] in Eb.
    injection Eb as <- <-. apply emitPair_align in Ep as [P1 P2].
    assert (Hrest : e_align1 st' = e_align1 (addCalls [] (d_len bd) (d_len bd) st2)
                                   + sideTotal DIFF_IN_1 rest
                    /\ e_align2 st' = e_align2 (addCalls [] (d_len bd) (d_len bd) st2)
                                      + sideTotal DIFF_IN_2 rest).
    { destruct rest as [|next rest']; [injection H as <- _; simpl; lia|].
      eapply (IH (length (next :: rest'))); [simpl in *; lia|done| |exact H].
      by destruct (matchBlock (d_info bd)). }
    cbn [addCalls e_align1 e_align2] in Hrest. lia.
  - destruct (matchBlock (d_info bd)) as [m|] eqn:Em.
    + destruct rest as [|mb rest']; [done|]. destruct Hlinked as (Hmb & Hty & Hlinked).
      rewrite Hmb in Eb. cbn [mbind option_bind] in Eb.
      destruct (emitChangedLines _ _ _ _ _ _ _ _ _) as [[[st2 off1] off2]|] eqn:Ec; [|done].
      cbn [mbind option_bind] in Eb.
      destruct (emitResidual _ _ _ _ _ _ _ _ _) as [st3|] eqn:Er; [|done].
      cbn [mbind option_bind] in Eb. injection Eb as <- <-.
      apply emitChangedLines_align in Ec as [C1 C2].
      apply emitResidual_align in Er as [R1 R2].
      rewrite !sideTotal_cons, Hty. cbn [eqb_diff_type orb].
      assert (Hrest : e_align1 st' = e_align1 st3 + sideTotal DIFF_IN_1 rest'
                      /\ e_align2 st' = e_align2 st3 + sideTotal DIFF_IN_2 rest').
      { eapply (IH (length rest')); [simpl in *; lia|done|done|exact H]. }
      lia.
    + destruct (markSection _ bd) as [calls|]; [|done]. cbn [mbind option_bind] in Eb.
      destruct (emitPair _ _ _ _ _) as [st2|] eqn:Ep; [|done]. cbn [mbind option_bind] in Eb.
      injection Eb as <- <-. apply emitPair_align in Ep as [P1 P2].
      cbn [addCalls e_align1 e_align2] in P1, P2.
      assert (Hrest : e_align1 st' = e_align1 (addCalls [] (d_len bd) 0 st2)
                                     + sideTotal DIFF_IN_1 rest
                      /\ e_align2 st' = e_align2 (addCalls [] (d_len bd) 0 st2)
                                        + sideTotal DIFF_IN_2 rest).
      { destruct rest as [|next rest']; [injection H as <- _; simpl; lia|].
        eapply (IH (length (next :: rest'))); [simpl in *; lia|done|done|exact H]. }
      cbn [addCalls e_align1 e_align2] in Hrest. lia.
  - destruct (markSection _ bd) as [calls|]; [|done]. cbn [mbind option_bind] in Eb.
    destruct (emitPair _ _ _ _ _) as [st2|] eqn:Ep; [|done]. cbn [mbind option_bind] in Eb.
    injection Eb as <- <-. apply emitPair_align in Ep as [P1 P2].
    cbn [addCalls e_align1 e_align2] in P1, P2.
    assert (Hrest : e_align1 st' = e_align1 (addCalls [] 0 (d_len bd) st2)
                                   + sideTotal DIFF_IN_1 rest
                    /\ e_align2 st' = e_align2 (addCalls [] 0 (d_len bd) st2)
                                      + sideTotal DIFF_IN_2 rest).
    { destruct rest as [|next rest']; [injection H as <- _; simpl; lia|].
      eapply (IH (length (next :: rest'))); [simpl in *; lia|done| |exact H].
      by destruct (matchBlock (d_info bd)). }
    cbn [addCalls e_align1 e_align2] in Hrest. lia.
Qed.

(** X21: when the emitter has run to its end over blocks in which every
    linked removed block is followed by the added block it is linked to,
    the alignment cursor of either side has advanced by the number of
    lines of the blocks of that side: the matching blocks and the removed
    blocks for the first document, the matching blocks and the added
    blocks for the second; the changed lines and the lines between them
    add up to the length of their block. *)
Theorem markAllDiffs_cursor_covers_both_sides (cmpInfo : CompareInfo)
    (options : CompareOptions) (progress : Progress) (st : EmitState) :
  linkedPairs cmpInfo (blockDiffs cmpInfo) ->
  markAllDiffs cmpInfo options progress = Some (st, true) ->
  e_align1 st = sideTotal DIFF_IN_1 (blockDiffs cmpInfo)
  /\ e_align2 st = sideTotal DIFF_IN_2 (blockDiffs cmpInfo).
Proof.
  intros Hlinked H. unfold markAllDiffs in H.
  destruct (emitBlocks _ _ _ _ _) as [[[st1 finished] p1]|] eqn:Eb; [|done].
  cbn [mbind option_bind] in H. destruct finished; cbn [negb] in H; [|done].
  apply emitBlocks_align in Eb as [A1 A2]; [|done]. cbn [e_align1 e_align2] in A1, A2.
  destruct (selectionCompare options).
  - destruct (emitPair _ _ _ _ _) as [st2|] eqn:Ep; [|done]. cbn [mbind option_bind] in H.
    apply emitPair_align in Ep as [P1 P2]. destruct (poll p1) as [go p2].
    injection H as <- _. cbn [e_align1 e_align2]. lia.
  - cbn [mbind option_bind] in H. destruct (poll p1) as [go p2]. injection H as <- _. lia.
Qed.

Lemma emitBlocks_never_cancels c flag blocks st progress st' finished progress' :
  never_cancels progress ->
  emitBlocks c flag blocks st progress = Some (st', finished, progress') ->
  finished = true /\ never_cancels progress'.
Proof.
  remember (length blocks) as n eqn:Hn. revert blocks Hn st progress.
  induction n as [n IH] using lt_wf_ind. intros blocks Hn st progress Hp H.
  destruct blocks as [|bd rest]; [by injection H as <- <- <-|].
  cbn [emitBlocks] in H.
  destruct (emitBlock c flag bd st) as [[st1 skipNext]|]; [|done].
  cbn [mbind option_bind] in H.
  destruct (poll_never_cancels progress Hp) as [Hgo Hp1].
  destruct (poll progress) as [go p1]. simpl in Hgo, Hp1. subst go. cbn [negb] in H.
  destruct rest as [|next rest']; [by injection H as <- <- <-|].
  destruct skipNext.
  - eapply (IH (length rest')); [simpl in *; lia|done|exact Hp1|exact H].
  - eapply (IH (length (next :: rest'))); [simpl in *; lia|done|exact Hp1|exact H].
Qed.

Lemma markAllDiffs_finishes (cmpInfo : CompareInfo) (options : CompareOptions)
    (progress : Progress) (st : EmitState) (finished : bool) :
  never_cancels progress ->
  markAllDiffs cmpInfo options progress = Some (st, finished) ->
  finished = true.
Proof.
  intros Hp H. unfold markAllDiffs in H.
  destruct (emitBlocks _ _ _ _ _) as [[[st1 fin] p1]|] eqn:Eb; [|done].
  cbn [mbind option_bind] in H.
  apply emitBlocks_never_cancels in Eb as [-> Hp1]; [|done]. cbn [negb] in H.
  destruct (poll_never_cancels p1 Hp1) as [Hgo _].
  destruct (if selectionCompare options then _ else _) as [st2|]; [|done].
  cbn [mbind option_bind] in H. destruct (poll p1) as [go p2]. simpl in Hgo.
  injection H as _ <-. done.
Qed.

(** X22: the emitter answers false only when the progress dialog cancels:
    with a dialog that never cancels (or none), a run that reads no vector
    outside its bounds goes to its end. *)
Theorem markAllDiffs_stops_only_on_cancel (cmpInfo : CompareInfo) (options : CompareOptions)
    (progress : Progress) (st : EmitState) (finished : bool) :
  never_cancels progress ->
  markAllDiffs cmpInfo options progress = Some (st, finished) ->
  finished = true.
Proof. apply markAllDiffs_finishes. Qed.

Lemma markAllDiffs_cursor_covers_both_sides_witness :
  e_align1 linkedChangedPairEmitted = sideTotal DIFF_IN_1 (blockDiffs linkedChangedPair)
  /\ e_align2 linkedChangedPairEmitted = sideTotal DIFF_IN_2 (blockDiffs linkedChangedPair).
Proof.
  apply (markAllDiffs_cursor_covers_both_sides linkedChangedPair
           (sampleOptions false false false 50) None linkedChangedPairEmitted).
  - simpl. repeat split.
  - vm_compute. reflexivity.
Defined.

Lemma markAllDiffs_stops_only_on_cancel_witness : true = true.
Proof.
  apply (markAllDiffs_stops_only_on_cancel linkedChangedPair
           (sampleOptions false false false 50) None linkedChangedPairEmitted true).
  - exact I.
  - vm_compute. reflexivity.
Defined.

(** ** Further properties: the alignment entries ascend *)

Lemma toAlignmentLine_mono_Some doc a b lb :
  StronglySorted (fun x y => ln_line x < ln_line y) (lines doc) ->
  a <= b ->
  toAlignmentLine doc b = Some lb ->
  exists la, toAlignmentLine doc a = Some la /\ la <= lb.
Proof.
  intros Hs Hab Hb.
  assert (Hne : lines doc <> []).
  { intros E. unfold toAlignmentLine in Hb. rewrite E in Hb. simpl in Hb.
    destruct (b <? 0); [done|]. change (Z.of_nat 0) with 0 in Hb.
    destruct (b <? 0) eqn:E0; [|done]. unfold vat in Hb. by rewrite E0 in Hb. }
  destruct (toAlignmentLine_mono doc a b Hs Hne Hab) as (la & lb' & Ha & Hb' & Hle & _).
  exists la. split; [done|]. congruence.
Qed.

Lemma snoc_sorted_le (l : list Z) (y : Z) :
  StronglySorted Z.le l -> Forall (fun x => x <= y) l -> StronglySorted Z.le (l ++ [y]).
Proof.
  induction 1 as [|x l Hs IH Hall]; intros Hy; simpl; [repeat constructor|].
  apply Forall_cons in Hy as [Hx Hy]. constructor; [by apply IH|].
  apply Forall_app. split; [done|]. by constructor.
Qed.

Lemma alignedLines_snoc c al l1 m1 l2 m2 :
  alignedLines1 c (al ++ [alignPairOf (viewId (view (doc1 c)) =? SUB_VIEW) l1 m1 l2 m2])
  = alignedLines1 c al ++ [l1]
  /\ alignedLines2 c (al ++ [alignPairOf (viewId (view (doc1 c)) =? SUB_VIEW) l1 m1 l2 m2])
     = alignedLines2 c al ++ [l2].
Proof.
  unfold alignedLines1, alignedLines2, alignPairOf. rewrite !map_app. cbn [map].
  by destruct (viewId (view (doc1 c)) =? SUB_VIEW).
Qed.

Section AlignmentOrder.
Variable c : CompareInfo.
Hypothesis sorted1 : StronglySorted (fun a b => ln_line a < ln_line b) (lines (doc1 c)).
Hypothesis sorted2 : StronglySorted (fun a b => ln_line a < ln_line b) (lines (doc2 c)).

Lemma emitPair_order m1 m2 st st' :
  alignedInOrder c st ->
  emitPair c (viewId (view (doc1 c)) =? SUB_VIEW) m1 m2 st = Some st' ->
  alignedInOrder c st'.
Proof.
  intros (I1 & I2 & I3 & I4) H. unfold emitPair in H.
  destruct (toAlignmentLine (doc1 c) (e_align1 st)) as [l1|] eqn:E1; [|done].
  destruct (toAlignmentLine (doc2 c) (e_align2 st)) as [l2|] eqn:E2; [|done].
  cbn in H. injection H as <-. unfold alignedInOrder. cbn [e_alignment e_align1 e_align2].
  destruct (alignedLines_snoc c (e_alignment st) l1 m1 l2 m2) as [-> ->].
  split; [|split; [|split]].
  - apply snoc_sorted_le; [done|by apply I3].
  - apply snoc_sorted_le; [done|by apply I4].
  - intros la Hla. rewrite E1 in Hla. injection Hla as <-.
    apply Forall_app. split; [by apply I3|]. constructor; [lia|constructor].
  - intros lb Hlb. rewrite E2 in Hlb. injection Hlb as <-.
    apply Forall_app. split; [by apply I4|]. constructor; [lia|constructor].
Qed.

Lemma addCalls_order calls d1 d2 st :
  0 <= d1 -> 0 <= d2 -> alignedInOrder c st -> alignedInOrder c (addCalls calls d1 d2 st).
Proof.
  intros H1 H2 (I1 & I2 & I3 & I4). unfold alignedInOrder, addCalls.
  cbn [e_alignment e_align1 e_align2]. split; [done|]. split; [done|]. split.
  - intros la' Hla'.
    destruct (toAlignmentLine_mono_Some (doc1 c) (e_align1 st) (e_align1 st + d1) la' sorted1
                ltac:(lia) Hla')
      as (la & Hla & Hle).
    eapply Forall_impl; [by apply I3|]. simpl. intros x ?. lia.
  - intros lb' Hlb'.
    destruct (toAlignmentLine_mono_Some (doc2 c) (e_align2 st) (e_align2 st + d2) lb' sorted2
                ltac:(lia) Hlb')
      as (lb & Hlb & Hle).
    eapply Forall_impl; [by apply I4|]. simpl. intros x ?. lia.
Qed.

Lemma emitResidual_order bd mb off1 len1 off2 len2 st st' :
  0 <= len1 -> 0 <= len2 ->
  alignedInOrder c st ->
  emitResidual c (viewId (view (doc1 c)) =? SUB_VIEW) bd mb off1 len1 off2 len2 st = Some st' ->
  alignedInOrder c st'.
Proof.
  intros H1 H2 Hinv H. unfold emitResidual in H.
  destruct (negb (len1 =? 0) || negb (len2 =? 0)); [|by injection H as <-].
  destruct (emitPair _ _ _ _ _) as [st1|] eqn:Ep; [|done]. cbn [mbind option_bind] in H.
  apply emitPair_order in Ep; [|done].
  assert (Hstep1 : forall st2,
             (if negb (len1 =? 0)
              then calls ← markSection (withSection (doc1 c) off1 len1) bd;
                   Some (addCalls calls len1 0 st1)
              else Some st1) = Some st2 -> alignedInOrder c st2).
  { intros st2 Hs. destruct (negb (len1 =? 0)); [|by injection Hs as <-].
    destruct (markSection _ bd) as [calls|]; [|done]. cbn [mbind option_bind] in Hs.
    injection Hs as <-. by apply addCalls_order. }
  destruct (if negb (len1 =? 0) then _ else _) as [st2|] eqn:E2; [|done].
  cbn [mbind option_bind] in H. specialize (Hstep1 st2 eq_refl).
  destruct (negb (len2 =? 0)); [|by injection H as <-].
  destruct (markSection _ mb) as [calls|]; [|done]. cbn [mbind option_bind] in H.
  injection H as <-. by apply addCalls_order.
Qed.

Lemma emitChangedLines_order bd mb changed j off1 off2 st st' off1' off2' :
  0 <= j ->
  StronglySorted Z.lt ((off1 - 1) :: map dl_line changed ++ [d_len bd]) ->
  StronglySorted Z.lt ((off2 - 1)
                         :: map dl_line (drop (Z.to_nat j) (changedLines (d_info mb)))
                         ++ [d_len mb]) ->
  alignedInOrder c st ->
  emitChangedLines c (viewId (view (doc1 c)) =? SUB_VIEW) bd mb changed j off1 off2 st
  = Some (st', off1', off2') ->
  alignedInOrder c st' /\ off1' <= d_len bd /\ off2' <= d_len mb.
Proof.
  revert j off1 off2 st. induction changed as [|cl1 rest IH];
    intros j off1 off2 st Hj Hs1 Hs2 Hinv H.
  - injection H as <- <- <-. split; [done|].
    apply StronglySorted_inv in Hs1 as [_ Hall1]. apply StronglySorted_inv in Hs2 as [_ Hall2].
    simpl in Hall1. apply Forall_cons in Hall1 as [Hall1 _].
    apply Forall_app in Hall2 as [_ Hall2]. apply Forall_cons in Hall2 as [Hall2 _]. lia.
  - cbn [emitChangedLines] in H.
    destruct (vat (changedLines (d_info mb)) j) as [cl2|] eqn:Ecl2; [|done].
    cbn [mbind option_bind] in H.
    assert (Hdrop : drop (Z.to_nat j) (changedLines (d_info mb))
                    = cl2 :: drop (Z.to_nat (j + 1)) (changedLines (d_info mb))).
    { unfold vat in Ecl2. destruct (j <? 0); [done|].
      replace (Z.to_nat (j + 1)) with (S (Z.to_nat j)) by lia. by apply drop_S. }
    rewrite Hdrop in Hs2. cbn [map app] in Hs1, Hs2.
    apply StronglySorted_inv in Hs1 as [Hs1 Hall1]. apply StronglySorted_inv in Hs2 as [Hs2 Hall2].
    apply Forall_cons in Hall1 as [Hlt1 _]. apply Forall_cons in Hall2 as [Hlt2 _].
    destruct (emitResidual _ _ _ _ _ _ _ _ _) as [st1|] eqn:Er; [|done].
    cbn [mbind option_bind] in H.
    apply emitResidual_order in Er; [|lia|lia|done].
    destruct (emitPair _ _ _ _ _) as [st2|] eqn:Ep; [|done]. cbn [mbind option_bind] in H.
    apply emitPair_order in Ep; [|done].
    destruct (markLineDiffs _ _ _) as [calls|]; [|done]. cbn [mbind option_bind] in H.
    eapply IH; [| | | |exact H].
    + lia.
    + by replace (dl_line cl1 + 1 - 1) with (dl_line cl1) by lia.
    + by replace (dl_line cl2 + 1 - 1) with (dl_line cl2) by lia.
    + apply addCalls_order; [lia|lia|done].
Qed.

Lemma emitBlock_order bd st st' skipNext :
  0 <= d_len bd ->
  (forall m mb, d_type bd = DIFF_IN_1 -> matchBlock (d_info bd) = Some m ->
     blockDiffs c !! m = Some mb -> changedWithin bd /\ changedWithin mb) ->
  alignedInOrder c st ->
  emitBlock c (viewId (view (doc1 c)) =? SUB_VIEW) bd st = Some (st', skipNext) ->
  alignedInOrder c st'.
Proof.
  intros Hlen Hch Hinv H. unfold emitBlock in H.
  destruct (d_type bd) eqn:Et.
  - destruct (emitPair _ _ _ _ _) as [st1|] eqn:Ep; [|done]. cbn [mbind option_bind] in H.
    injection H as <- _. apply addCalls_order; [done|done|]. by eapply emitPair_order.
  - destruct (matchBlock (d_info bd)) as [m|] eqn:Em.
    + destruct (blockDiffs c !! m) as [mb|] eqn:Emb; [|done]. cbn [mbind option_bind] in H.
      destruct (Hch m mb eq_refl eq_refl Emb) as [C1 C2].
      destruct (emitChangedLines _ _ _ _ _ _ _ _ _) as [[[st1 off1] off2]|] eqn:Ec; [|done].
      cbn [mbind option_bind] in H.
      apply emitChangedLines_order in Ec as (Hinv1 & Ho1 & Ho2); [|lia|exact C1|exact C2|done].
      destruct (emitResidual _ _ _ _ _ _ _ _ _) as [st2|] eqn:Er; [|done].
      cbn [mbind option_bind] in H. injection H as <- _.
      eapply emitResidual_order; [| | |exact Er]; [lia|lia|done].
    + destruct (markSection _ bd) as [calls|]; [|done]. cbn [mbind option_bind] in H.
      destruct (emitPair _ _ _ _ _) as [st1|] eqn:Ep; [|done]. cbn [mbind option_bind] in H.
      injection H as <- _. apply addCalls_order; [done|lia|].
      eapply emitPair_order; [|exact Ep]. apply addCalls_order; [lia|lia|done].
  - destruct (markSection _ bd) as [calls|]; [|done]. cbn [mbind option_bind] in H.
    destruct (emitPair _ _ _ _ _) as [st1|] eqn:Ep; [|done]. cbn [mbind option_bind] in H.
    injection H as <- _. apply addCalls_order; [lia|done|].
    eapply emitPair_order; [|exact Ep]. apply addCalls_order; [lia|lia|done].
Qed.

Lemma emitBlocks_order blocks st progress st' finished progress' :
  Forall (fun d =>
            0 <= d_len d
            /\ forall m mb, d_type d = DIFF_IN_1 -> matchBlock (d_info d) = Some m ->
                 blockDiffs c !! m = Some mb -> changedWithin d /\ changedWithin mb) blocks ->
  alignedInOrder c st ->
  emitBlocks c (viewId (view (doc1 c)) =? SUB_VIEW) blocks st progress
  = Some (st', finished, progress') ->
  alignedInOrder c st'.
Proof.
  remember (length blocks) as n eqn:Hn. revert blocks Hn st progress.
  induction n as [n IH] using lt_wf_ind. intros blocks Hn st progress Hall Hinv H.
  destruct blocks as [|bd rest]; [by injection H as <- _ _|].
  cbn [emitBlocks] in H. apply Forall_cons in Hall as [[Hlen Hch] Hall].
  destruct (emitBlock _ _ bd st) as [[st1 skipNext]|] eqn:Eb; [|done].
  cbn [mbind option_bind] in H.
  apply emitBlock_order in Eb; [|done..].
  destruct (poll progress) as [go p1]. destruct go; cbn [negb] in H;
    [|by injection H as <- _ _].
  destruct rest as [|next rest']; [by injection H as <- _ _|].
  destruct skipNext.
  - eapply (IH (length rest')); [simpl in *; lia|done| |done|exact H].
    apply Forall_cons in Hall as [_ Hall]. done.
  - eapply (IH (length (next :: rest'))); [simpl in *; lia|done|done|done|exact H].
Qed.
End AlignmentOrder.

(** X23: handed the lines of both documents in ascending order, blocks of
    no negative length and, in linked blocks, changed lines that ascend
    inside their block, the emitter outside of a selection compare
    produces alignment entries whose lines never descend, on the side of
    the first document and on the side of the second, up to wherever the
    run ends. *)
Theorem markAllDiffs_alignment_ascends (cmpInfo : CompareInfo) (options : CompareOptions)
    (progress : Progress) (st : EmitState) (finished : bool) :
  emitReady cmpInfo (blockDiffs cmpInfo) ->
  selectionCompare options = false ->
  markAllDiffs cmpInfo options progress = Some (st, finished) ->
  StronglySorted Z.le (alignedLines1 cmpInfo (e_alignment st))
  /\ StronglySorted Z.le (alignedLines2 cmpInfo (e_alignment st)).
Proof.
  intros (S1 & S2 & Hall) Hsel H. unfold markAllDiffs in H. rewrite Hsel in H.
  destruct (emitBlocks _ _ _ _ _) as [[[st1 fin] p1]|] eqn:Eb; [|done].
  cbn [mbind option_bind] in H.
  apply (emitBlocks_order cmpInfo S1 S2) in Eb; [|done|].
  - destruct Eb as (I1 & I2 & _).
    destruct fin; cbn [negb] in H.
    + destruct (poll p1) as [go p2]. by injection H as <- _.
    + by injection H as <- _.
  - repeat split; try constructor; intros; constructor.
Qed.

Lemma markAllDiffs_alignment_ascends_witness :
  markAllDiffs linkedThreeLines (sampleOptions false false false 50) None
  = Some (linkedThreeLinesEmitted, true)
  /\ alignedLines1 linkedThreeLines (e_alignment linkedThreeLinesEmitted) = [0; 1; 1; 2; 3; 4]
  /\ alignedLines2 linkedThreeLines (e_alignment linkedThreeLinesEmitted) = [0; 1; 2; 3; 3; 4]
  /\ StronglySorted Z.le (alignedLines1 linkedThreeLines (e_alignment linkedThreeLinesEmitted))
  /\ StronglySorted Z.le (alignedLines2 linkedThreeLines (e_alignment linkedThreeLinesEmitted)).
Proof.
  split; [vm_compute; reflexivity|]. split; [vm_compute; reflexivity|].
  split; [vm_compute; reflexivity|].
  apply (markAllDiffs_alignment_ascends linkedThreeLines
           (sampleOptions false false false 50) None linkedThreeLinesEmitted true).
  - split; [|split].
    + vm_compute. repeat constructor.
    + vm_compute. repeat constructor.
    + repeat (apply Forall_cons; split); [| | | |by constructor];
        (split; [simpl; lia|]); intros m mb Ht Hm Hmb; try discriminate Ht.
      simpl in Hm. injection Hm as <-. simpl in Hmb. injection Hmb as <-.
      split; unfold changedWithin; simpl; repeat constructor; lia.
  - reflexivity.
  - vm_compute. reflexivity.
Defined.

(** ** Further properties: what the block compare hands to the emitter *)

Lemma StronglySorted_sublist {A} (R : A -> A -> Prop) (l1 l2 : list A) :
  sublist l1 l2 -> StronglySorted R l2 -> StronglySorted R l1.
Proof.
  induction 1 as [|x l1 l2 Hsub IH|x l1 l2 Hsub IH]; intros Hs; [constructor| |].
  - apply StronglySorted_inv in Hs as [Hs Hall]. constructor; [by apply IH|].
    apply Forall_forall. intros y Hy. rewrite Forall_forall in Hall. apply Hall.
    by eapply elem_of_sublist.
  - apply StronglySorted_inv in Hs as [Hs _]. by apply IH.
Qed.

Lemma sorted_between (lo hi : Z) (l : list Z) :
  lo < hi -> StronglySorted Z.lt l -> Forall (fun x => lo < x < hi) l ->
  StronglySorted Z.lt (lo :: l ++ [hi]).
Proof.
  intros Hlh Hs Hall. constructor.
  - induction Hs as [|x l Hs IH Hx]; simpl; [repeat constructor|].
    apply Forall_cons in Hall as [Hx' Hall]. constructor; [by apply IH|].
    apply Forall_app. split; [done|]. constructor; [lia|constructor].
  - apply Forall_app. split.
    + eapply Forall_impl; [exact Hall|]. simpl. intros x ?. lia.
    + constructor; [lia|constructor].
Qed.

Section BlockCompare.
Context {F : Type}.
Variable F_of_int : Z -> F.
Variables Fadd Fmul Fdiv : F -> F -> F.
Variables Fltb Feqb Fleb : F -> F -> bool.
Variable DiffCalcWord : list Word -> list Word -> list segment * bool.
Variable DiffCalcChar : list Char -> list Char -> list segment * bool.
Variable IsCharAlphaNumericA : Z -> bool.

Lemma getChars_length doc lineOffset linesCount options chunk :
  getChars IsCharAlphaNumericA doc lineOffset linesCount options = Some chunk ->
  length chunk = Z.to_nat linesCount.
Proof.
  unfold getChars. intros H. apply length_mapM in H. by rewrite length_seqZ in H.
Qed.

Lemma compareBlocks_in_order doc1 doc2 blockDiff1 blockDiff2 options st :
  changedLines (d_info blockDiff1) = [] -> changedLines (d_info blockDiff2) = [] ->
  0 <= d_len blockDiff1 -> 0 <= d_len blockDiff2 ->
  compareBlocks F_of_int Fadd Fmul Fdiv Fltb Feqb Fleb DiffCalcWord DiffCalcChar
    IsCharAlphaNumericA doc1 doc2 blockDiff1 blockDiff2 options = Some st ->
  StronglySorted Z.lt ((-1) :: map dl_line st.1 ++ [d_len blockDiff1])
  /\ StronglySorted Z.lt ((-1) :: map dl_line st.2 ++ [d_len blockDiff2]).
Proof.
  intros He1 He2 Hl1 Hl2. unfold compareBlocks. intros H.
  destruct (getChars _ doc1 _ _ _) as [chunk1|] eqn:Ec1; cbn [mbind option_bind] in H; [|done].
  destruct (getChars _ doc2 _ _ _) as [chunk2|] eqn:Ec2; cbn [mbind option_bind] in H; [|done].
  apply getChars_length in Ec1, Ec2.
  destruct (orderedLinesConvergence _ _ _ _ _ _ _ _ _ _ _ _ _) as [s|];
    cbn [mbind option_bind] in H; [|done].
  destruct (bestLineMappings _ _ _ _ _ _) as [best|] eqn:Eb;
    cbn [mbind option_bind] in H; [|done].
  rewrite He1, He2 in H.
  destruct (length best =? 0)%nat.
  { injection H as <-. cbn [fst snd map app]. split; repeat constructor; lia. }
  apply bestLineMappings_matching in Eb as (Hsorted & _ & Hall).
  apply compareLines_lines in H as (acc & Hsub & Hs2 & H1 & H2).
  cbn [linesOfPair fst snd map app] in H1, H2. rewrite H1, H2.
  assert (Hin : forall p, p ∈ acc -> 0 <= p.1 < d_len blockDiff1 /\ 0 <= p.2 < d_len blockDiff2).
  { intros p Hp. eapply elem_of_sublist in Hp; [|exact Hsub].
    unfold pairsOf in Hp. apply list_elem_of_In, in_map_iff in Hp as (lm & <- & Hlm).
    rewrite List.Forall_forall in Hall. destruct (Hall lm Hlm) as (_ & R1 & R2).
    cbn [fst snd]. lia. }
  split.
  - apply sorted_between; [lia| |].
    + eapply StronglySorted_sublist; [|exact Hsorted].
      replace (best.*1) with ((pairsOf best).*1).
      * by apply fmap_sublist.
      * unfold pairsOf. rewrite <- list_fmap_compose. done.
    + apply Forall_forall. intros x Hx. apply list_elem_of_fmap in Hx as (p & -> & Hp).
      destruct (Hin p Hp). lia.
  - apply StronglySorted_inv in Hs2 as [Hs2 _]. apply sorted_between; [lia|done|].
    apply Forall_forall. intros x Hx. apply list_elem_of_fmap in Hx as (p & -> & Hp).
    destruct (Hin p Hp). lia.
Qed.
End BlockCompare.

(** X24: the block compare of two blocks that have no changed lines yet
    (as every pair has when the loop links it) and no negative length
    leaves in either block changed lines that ascend strictly and lie
    inside the block: what the emitter relies on when it takes the lines
    between two changed lines as a section. *)
Theorem compareBlocks_leaves_changed_lines_in_order {F : Type}
    (F_of_int : Z -> F) (Fadd Fmul Fdiv : F -> F -> F) (Fltb Feqb Fleb : F -> F -> bool)
    (DiffCalcWord : list Word -> list Word -> list segment * bool)
    (DiffCalcChar : list Char -> list Char -> list segment * bool)
    (IsCharAlphaNumericA : Z -> bool)
    (doc1 doc2 : DocCmpInfo) (blockDiff1 blockDiff2 : diffInfo) (options : CompareOptions)
    (st : ChangedPair) :
  changedLines (d_info blockDiff1) = [] -> changedLines (d_info blockDiff2) = [] ->
  0 <= d_len blockDiff1 -> 0 <= d_len blockDiff2 ->
  compareBlocks F_of_int Fadd Fmul Fdiv Fltb Feqb Fleb DiffCalcWord DiffCalcChar
    IsCharAlphaNumericA doc1 doc2 blockDiff1 blockDiff2 options = Some st ->
  changedWithin (linkBlock blockDiff1 0 st.1) /\ changedWithin (linkBlock blockDiff2 0 st.2).
Proof.
  intros He1 He2 Hl1 Hl2 H. unfold changedWithin, linkBlock. cbn [d_info changedLines d_len].
  by eapply compareBlocks_in_order.
Qed.

Lemma compareBlocks_leaves_changed_lines_in_order_witness :
  let options := sampleOptions false false false 50 in
  let st := ([ {| dl_line := 0; dl_changes := [ {| s_off := 7; s_len := 4 |} ] |};
               {| dl_line := 2; dl_changes := [ {| s_off := 6; s_len := 1 |} ] |} ],
             [ {| dl_line := 1; dl_changes := [] |};
               {| dl_line := 2; dl_changes := [ {| s_off := 6; s_len := 1 |} ] |} ]) in
  compareBlocks f32_of_int f32_add f32_mul f32_div SFltb SFeqb SFleb
    swappingWordEngine charEngine asciiAlphaNumeric
    (textDoc MAIN_VIEW threeLines1 options) (textDoc SUB_VIEW threeLines2 options)
    (freshBlock DIFF_IN_1 0 3) (freshBlock DIFF_IN_2 0 3) options = Some st
  /\ changedWithin (linkBlock (freshBlock DIFF_IN_1 0 3) 0 st.1)
  /\ changedWithin (linkBlock (freshBlock DIFF_IN_2 0 3) 0 st.2).
Proof.
  cbv zeta. split; [vm_compute; reflexivity|].
  apply (compareBlocks_leaves_changed_lines_in_order
           f32_of_int f32_add f32_mul f32_div SFltb SFeqb SFleb
           swappingWordEngine charEngine asciiAlphaNumeric
           (textDoc MAIN_VIEW threeLines1 (sampleOptions false false false 50))
           (textDoc SUB_VIEW threeLines2 (sampleOptions false false false 50))
           (freshBlock DIFF_IN_1 0 3) (freshBlock DIFF_IN_2 0 3)
           (sampleOptions false false false 50)
           ([ {| dl_line := 0; dl_changes := [ {| s_off := 7; s_len := 4 |} ] |};
              {| dl_line := 2; dl_changes := [ {| s_off := 6; s_len := 1 |} ] |} ],
            [ {| dl_line := 1; dl_changes := [] |};
              {| dl_line := 2; dl_changes := [ {| s_off := 6; s_len := 1 |} ] |} ])).
  - reflexivity.
  - reflexivity.
  - simpl. lia.
  - simpl. lia.
  - vm_compute. reflexivity.
Defined.

(** ** Further properties: the compare run *)

Section CompareRun.
Context {F : Type}.
Variable F_of_int : Z -> F.
Variables Fadd Fmul Fdiv : F -> F -> F.
Variables Fltb Feqb Fleb : F -> F -> bool.
Variable DiffCalcWord : list Word -> list Word -> list segment * bool.
Variable DiffCalcChar : list Char -> list Char -> list segment * bool.
Variable IsCharAlphaNumericA : Z -> bool.
Variable DiffCalcLine : list Line -> list Line -> list diffInfo * bool.

(** The loop with the dialog it leaves behind is the loop "Do block
    compares". *)
Lemma blockCompareRun_loop idxs c options progress :
  (fun r : CompareInfo * bool * Progress => r.1)
    <$> blockCompareRun F_of_int Fadd Fmul Fdiv Fltb Feqb Fleb DiffCalcWord DiffCalcChar
          IsCharAlphaNumericA idxs c options progress
  = blockCompareLoop F_of_int Fadd Fmul Fdiv Fltb Feqb Fleb DiffCalcWord DiffCalcChar
      IsCharAlphaNumericA idxs c options progress.
Proof.
  revert c progress. induction idxs as [|i rest IH]; intros c progress; [done|].
  cbn [blockCompareRun blockCompareLoop].
  destruct (blockDiffs c !! i) as [bd2|]; [|done]. cbn [mbind option_bind].
  destruct (blockDiffs c !! (i - 1)%nat) as [bd1|]; [|done]. cbn [mbind option_bind].
  match goal with |- _ <$> (?a ≫= _) = _ => destruct a as [c1|] end; [|done].
  cbn [mbind option_bind]. destruct (poll progress) as [go p1].
  destruct go; cbn [negb]; [apply IH|done].
Qed.

Lemma blockCompareRun_never_cancels idxs c options progress c' finished progress' :
  never_cancels progress ->
  blockCompareRun F_of_int Fadd Fmul Fdiv Fltb Feqb Fleb DiffCalcWord DiffCalcChar
    IsCharAlphaNumericA idxs c options progress = Some (c', finished, progress') ->
  finished = true /\ never_cancels progress'.
Proof.
  revert c progress. induction idxs as [|i rest IH]; intros c progress Hp H.
  - by injection H as <- <- <-.
  - cbn [blockCompareRun] in H.
    destruct (blockDiffs c !! i) as [bd2|]; [|done]. cbn [mbind option_bind] in H.
    destruct (blockDiffs c !! (i - 1)%nat) as [bd1|]; [|done]. cbn [mbind option_bind] in H.
    match type of H with (?a ≫= _) = _ => destruct a as [c1|] end; [|done].
    cbn [mbind option_bind] in H.
    destruct (poll_never_cancels progress Hp) as [Hgo Hp1].
    destruct (poll progress) as [go p1]. simpl in Hgo, Hp1. subst go. cbn [negb] in H.
    by eapply IH.
Qed.

Lemma noDifference_test (blocks : list diffInfo) :
  (length blocks =? 0)%nat
  || ((length blocks =? 1)%nat
      && match head blocks with
         | Some first => eqb_diff_type (d_type first) DIFF_MATCH
         | None => false
         end) = true
  <-> noDifference blocks.
Proof.
  unfold noDifference. destruct blocks as [|b [|b' rest]]; cbn.
  - split; [by left|done].
  - rewrite eqb_diff_type_eq. split.
    + intros Ht. right. by exists b.
    + intros [|(only & [= <-] & Ht)]; done.
  - split; [done|]. intros [|(only & ? & _)]; done.
Qed.

Lemma sectionInside_dec v options : sectionInside v options \/ ~ sectionInside v options.
Proof.
  unfold sectionInside.
  destruct (Z.eq_dec (docLength v) 0) as [E|E]; [left; by left|].
  destruct (Z_le_gt_dec (if selectionCompare options
                         then (selections options (viewId v)).1 else 0) (lineCount v))
    as [H|H]; [left; by right|].
  right. intros [H0|Hle]; [done|lia].
Qed.

Lemma getLines_exit_inside v options m progress :
  (getLines (withSelection options (emptyDoc v) m) options progress).2.2 = Returned
  <-> sectionInside v options.
Proof.
  split; [|apply getLines_returns_inside].
  intros Hr. destruct (sectionInside_dec v options) as [H|H]; [done|].
  rewrite (getLines_throws_outside v options m progress H) in Hr. done.
Qed.

Lemma runCompare_answers fuel mainView subView options progress :
  never_cancels progress ->
  (sectionInside mainView options -> sectionInside subView options ->
   noDifference (DiffCalcLine (extractedLines mainView options)
                              (extractedLines subView options)).1 ->
   runCompare F_of_int Fadd Fmul Fdiv Fltb Feqb Fleb DiffCalcWord DiffCalcChar
     IsCharAlphaNumericA DiffCalcLine fuel mainView subView options progress
   = Some (Returns COMPARE_MATCH, [], None))
  /\ (forall res calls al,
        runCompare F_of_int Fadd Fmul Fdiv Fltb Feqb Fleb DiffCalcWord DiffCalcChar
          IsCharAlphaNumericA DiffCalcLine fuel mainView subView options progress
        = Some (Returns res, calls, al) ->
        sectionInside mainView options /\ sectionInside subView options
        /\ ((noDifference (DiffCalcLine (extractedLines mainView options)
                                        (extractedLines subView options)).1
             /\ res = COMPARE_MATCH /\ calls = [] /\ al = None)
            \/ (~ noDifference (DiffCalcLine (extractedLines mainView options)
                                             (extractedLines subView options)).1
                /\ res = COMPARE_MISMATCH /\ al <> None)))
  /\ (~ (sectionInside mainView options /\ sectionInside subView options) ->
      runCompare F_of_int Fadd Fmul Fdiv Fltb Feqb Fleb DiffCalcWord DiffCalcChar
        IsCharAlphaNumericA DiffCalcLine fuel mainView subView options progress
      = Some (Throws, [], None))
  /\ (forall calls al,
        runCompare F_of_int Fadd Fmul Fdiv Fltb Feqb Fleb DiffCalcWord DiffCalcChar
          IsCharAlphaNumericA DiffCalcLine fuel mainView subView options progress
        = Some (Throws, calls, al) ->
        ~ (sectionInside mainView options /\ sectionInside subView options)).
Proof.
  intros Hp. unfold runCompare. unfold extractedLines.
  set (m1 := if oldFileViewId options =? MAIN_VIEW
             then MARKER_MASK_REMOVED else MARKER_MASK_ADDED) in *.
  set (m2 := if oldFileViewId options =? MAIN_VIEW
             then MARKER_MASK_ADDED else MARKER_MASK_REMOVED) in *.
  rewrite (getLines_mask_irrelevant mainView options MARKER_MASK_ADDED m1).
  rewrite (getLines_mask_irrelevant subView options MARKER_MASK_ADDED m2).
  destruct (getLines_never_cancels (withSelection options (emptyDoc mainView) m1) options
              progress Hp) as [E1 Hp1].
  pose proof (getLines_exit_inside mainView options m1 progress) as Hx1.
  destruct (getLines (withSelection options (emptyDoc mainView) m1) options progress)
    as [d1 [p1 x1]]. simpl in E1, Hp1, Hx1. rewrite <- E1.
  destruct x1.
  2:{ assert (Hout : ~ sectionInside mainView options) by (intros H; by apply Hx1 in H).
      split; [intros H; by destruct Hout|]. split; [intros ??? [=]|].
      split; [done|]. intros _ _ _ [H _]. done. }
  assert (Hin1 : sectionInside mainView options) by by apply Hx1.
  clear Hx1.
  destruct (poll_never_cancels p1 Hp1) as [Hgo Hp2].
  destruct (poll p1) as [go p2]. simpl in Hgo, Hp2. subst go. cbn [negb].
  destruct (getLines_never_cancels (withSelection options (emptyDoc subView) m2) options
              p2 Hp2) as [E2 Hp3].
  pose proof (getLines_exit_inside subView options m2 p2) as Hx2.
  destruct (getLines (withSelection options (emptyDoc subView) m2) options p2)
    as [d2 [p3 x2]]. simpl in E2, Hp3, Hx2. rewrite <- E2.
  destruct x2.
  2:{ assert (Hout : ~ sectionInside subView options) by (intros H; by apply Hx2 in H).
      split; [intros _ H; by destruct Hout|]. split; [intros ??? [=]|].
      split; [done|]. intros _ _ _ [_ H]. done. }
  assert (Hin2 : sectionInside subView options) by by apply Hx2.
  clear Hx2.
  destruct (poll_never_cancels p3 Hp3) as [Hgo Hp4].
  destruct (poll p3) as [go p4]. simpl in Hgo, Hp4. subst go. cbn [negb].
  destruct (DiffCalcLine (lines d1) (lines d2)) as [blocks swapped]. cbn [fst].
  pose proof (noDifference_test blocks) as Htest.
  split; [|split; [|split; [intros Hn; destruct Hn; done|]]].
  { intros _ _ Hn. apply Htest in Hn. by rewrite Hn. }
  2:{ intros calls al H. exfalso.
      destruct (_ || _); [done|].
      destruct (findUniqueLines _) as [c1|]; [|done]. cbn [mbind option_bind] in H.
      destruct (if detectMoves options then _ else _) as [c2|]; [|done].
      cbn [mbind option_bind] in H.
      destruct (poll p4) as [[] p5]; cbn [negb] in H; [|done].
      destruct (blockCompareRun _ _ _ _ _ _ _ _ _ _ _ _ _ _) as [[[c3 fin] p6]|]; [|done].
      cbn [mbind option_bind] in H.
      destruct fin; cbn [negb] in H; [|done].
      destruct (poll p6) as [[] p7]; cbn [negb] in H; [|done].
      destruct (markAllDiffs c3 options p7) as [[st fin]|]; [|done].
      cbn [mbind option_bind] in H. done. }
  intros res calls al H. split; [done|]. split; [done|].
  destruct (_ || _) eqn:Et.
  { injection H as <- <- <-. left. split; [by apply Htest|done]. }
  right. split; [intros Hn; apply Htest in Hn; congruence|].
  destruct (findUniqueLines _) as [c1|]; [|done]. cbn [mbind option_bind] in H.
  destruct (if detectMoves options then _ else _) as [c2|]; [|done].
  cbn [mbind option_bind] in H.
  destruct (poll_never_cancels p4 Hp4) as [Hgo Hp5].
  destruct (poll p4) as [go p5]. simpl in Hgo, Hp5. subst go. cbn [negb] in H.
  destruct (blockCompareRun _ _ _ _ _ _ _ _ _ _ _ _ _ _) as [[[c3 fin] p6]|] eqn:Eb; [|done].
  cbn [mbind option_bind] in H.
  apply blockCompareRun_never_cancels in Eb as [-> Hp6]; [|done]. cbn [negb] in H.
  destruct (poll_never_cancels p6 Hp6) as [Hgo Hp7].
  destruct (poll p6) as [go p7]. simpl in Hgo, Hp7. subst go. cbn [negb] in H.
  destruct (markAllDiffs c3 options p7) as [[st fin]|] eqn:Em; [|done].
  cbn [mbind option_bind] in H.
  apply markAllDiffs_finishes in Em; [|done]. subst fin. by injection H as <- <- <-.
Qed.

Lemma runFindUnique_answers mainView subView options progress :
  never_cancels progress ->
  ((runFindUnique mainView subView options progress).1.1 = Throws
   <-> ~ (sectionInside mainView options /\ sectionInside subView options))
  /\ (runFindUnique mainView subView options progress).1.1 <> Returns COMPARE_ERROR.
Proof.
  intros Hp. unfold runFindUnique.
  set (m1 := if oldFileViewId options =? MAIN_VIEW
             then MARKER_MASK_REMOVED else MARKER_MASK_ADDED) in *.
  set (m2 := if oldFileViewId options =? MAIN_VIEW
             then MARKER_MASK_ADDED else MARKER_MASK_REMOVED) in *.
  destruct (getLines_never_cancels (withSelection options (emptyDoc mainView) m1) options
              progress Hp) as [_ Hp1].
  pose proof (getLines_exit_inside mainView options m1 progress) as Hx1.
  destruct (getLines (withSelection options (emptyDoc mainView) m1) options progress)
    as [d1 [p1 x1]]. simpl in Hp1, Hx1.
  destruct x1.
  2:{ simpl. split; [|done]. split; [|done]. intros _ [H _]. by apply Hx1 in H. }
  assert (Hin1 : sectionInside mainView options) by by apply Hx1.
  destruct (poll_never_cancels p1 Hp1) as [Hgo Hp2].
  destruct (poll p1) as [go p2]. simpl in Hgo, Hp2. subst go. cbn [negb].
  destruct (getLines_never_cancels (withSelection options (emptyDoc subView) m2) options
              p2 Hp2) as [_ Hp3].
  pose proof (getLines_exit_inside subView options m2 p2) as Hx2.
  destruct (getLines (withSelection options (emptyDoc subView) m2) options p2)
    as [d2 [p3 x2]]. simpl in Hp3, Hx2.
  destruct x2.
  2:{ simpl. split; [|done]. split; [|done]. intros _ [_ H]. by apply Hx2 in H. }
  assert (Hin2 : sectionInside subView options) by by apply Hx2.
  destruct (poll_never_cancels p3 Hp3) as [Hgo Hp4].
  destruct (poll p3) as [go p4]. simpl in Hgo, Hp4. subst go. cbn [negb].
  assert (Hc : (findUniqueCore d1 d2 p4).1.1 <> COMPARE_ERROR).
  { unfold findUniqueCore.
    destruct (poll p4) as [[] q1]; cbn [negb]; [|done].
    destruct (poll q1) as [[] q2]; cbn [negb]; [|done].
    destruct (fold_left _ _ _) as [[a b] c].
    destruct (_ && _); done. }
  destruct (findUniqueCore d1 d2 p4) as [[result marks] alignmentInfo].
  simpl in Hc |- *. split; [|congruence].
  split; [done|]. intros Hn. destruct Hn. done.
Qed.
End CompareRun.

(** X26: take a compare run that the progress dialog does not cancel.
    When both sections lie inside their documents and the line engine
    finds no difference between the extracted lines of the two views (no
    block, or one matching block), the run returns COMPARE_MATCH, whatever
    the bound on the move detector, calls the host not once and leaves the
    alignment as it was. Whatever else a run returns, it returns it with
    both sections inside their documents and a difference found, and it is
    COMPARE_MISMATCH with a new alignment: never COMPARE_MATCH,
    COMPARE_CANCELLED or COMPARE_ERROR. When the section of a view starts
    behind the last line of its document (and the document is not empty),
    and only then, the run returns nothing: the exception of [getLines]
    leaves it before any call to the host. *)
Theorem runCompare_answers_match_iff_no_difference {F : Type}
    (F_of_int : Z -> F) (Fadd Fmul Fdiv : F -> F -> F) (Fltb Feqb Fleb : F -> F -> bool)
    (DiffCalcWord : list Word -> list Word -> list segment * bool)
    (DiffCalcChar : list Char -> list Char -> list segment * bool)
    (IsCharAlphaNumericA : Z -> bool)
    (DiffCalcLine : list Line -> list Line -> list diffInfo * bool)
    (fuel : nat) (mainView subView : View) (options : CompareOptions) (progress : Progress) :
  never_cancels progress ->
  (sectionInside mainView options -> sectionInside subView options ->
   noDifference (DiffCalcLine (extractedLines mainView options)
                              (extractedLines subView options)).1 ->
   runCompare F_of_int Fadd Fmul Fdiv Fltb Feqb Fleb DiffCalcWord DiffCalcChar
     IsCharAlphaNumericA DiffCalcLine fuel mainView subView options progress
   = Some (Returns COMPARE_MATCH, [], None))
  /\ (forall res calls al,
        runCompare F_of_int Fadd Fmul Fdiv Fltb Feqb Fleb DiffCalcWord DiffCalcChar
          IsCharAlphaNumericA DiffCalcLine fuel mainView subView options progress
        = Some (Returns res, calls, al) ->
        sectionInside mainView options /\ sectionInside subView options
        /\ ((noDifference (DiffCalcLine (extractedLines mainView options)
                                        (extractedLines subView options)).1
             /\ res = COMPARE_MATCH /\ calls = [] /\ al = None)
            \/ (~ noDifference (DiffCalcLine (extractedLines mainView options)
                                             (extractedLines subView options)).1
                /\ res = COMPARE_MISMATCH /\ al <> None)))
  /\ (~ (sectionInside mainView options /\ sectionInside subView options) ->
      runCompare F_of_int Fadd Fmul Fdiv Fltb Feqb Fleb DiffCalcWord DiffCalcChar
        IsCharAlphaNumericA DiffCalcLine fuel mainView subView options progress
      = Some (Throws, [], None))
  /\ (forall calls al,
        runCompare F_of_int Fadd Fmul Fdiv Fltb Feqb Fleb DiffCalcWord DiffCalcChar
          IsCharAlphaNumericA DiffCalcLine fuel mainView subView options progress
        = Some (Throws, calls, al) ->
        ~ (sectionInside mainView options /\ sectionInside subView options)).
Proof. apply runCompare_answers. Qed.

Lemma runCompare_answers_match_iff_no_difference_witness :
  sampleRunCompare 0 (textView MAIN_VIEW [[97]; [97; 98; 99; 88]])
    (textView SUB_VIEW [[97]; [97; 98; 99; 88]]) (sampleOptions false false false 50)
    (Some [true; true])
  = Some (Returns COMPARE_MATCH, [], None).
Proof.
  apply (runCompare_answers_match_iff_no_difference
           f32_of_int f32_add f32_mul f32_div SFltb SFeqb SFleb
           wordEngine charEngine asciiAlphaNumeric lineEngine
           0 (textView MAIN_VIEW [[97]; [97; 98; 99; 88]])
           (textView SUB_VIEW [[97]; [97; 98; 99; 88]])
           (sampleOptions false false false 50) (Some [true; true])).
  - repeat constructor.
  - right. vm_compute. discriminate.
  - right. vm_compute. discriminate.
  - right. eexists. split; [vm_compute; reflexivity|reflexivity].
Defined.

(** X27: [compareViews] answers COMPARE_ERROR, in a run that the progress
    dialog does not cancel, exactly when [getLines] throws: the section of
    one of the two views starts behind the last line of a document that is
    not empty. (Memory exhaustion, the other way into the handlers, is
    outside the model.) *)
Theorem compareViews_error_iff_section_outside {F : Type}
    (F_of_int : Z -> F) (Fadd Fmul Fdiv : F -> F -> F) (Fltb Feqb Fleb : F -> F -> bool)
    (DiffCalcWord : list Word -> list Word -> list segment * bool)
    (DiffCalcChar : list Char -> list Char -> list segment * bool)
    (IsCharAlphaNumericA : Z -> bool)
    (DiffCalcLine : list Line -> list Line -> list diffInfo * bool)
    (fuel : nat) (mainView subView : View) (options : CompareOptions) (progress : Progress) :
  never_cancels progress ->
  compareViews F_of_int Fadd Fmul Fdiv Fltb Feqb Fleb DiffCalcWord DiffCalcChar
    IsCharAlphaNumericA DiffCalcLine fuel mainView subView options progress
  = Some COMPARE_ERROR
  <-> ~ (sectionInside mainView options /\ sectionInside subView options).
Proof.
  intros Hp. unfold compareViews. destruct (findUniqueMode options).
  - destruct (runFindUnique_answers mainView subView options progress Hp) as [Ht Hr].
    destruct ((runFindUnique mainView subView options progress).1.1) as [r|].
    + split; [intros [= ->]; done|]. intros Hn. by apply Ht in Hn.
    + split; [intros _; by apply Ht|done].
  - destruct (runCompare_answers F_of_int Fadd Fmul Fdiv Fltb Feqb Fleb DiffCalcWord
                DiffCalcChar IsCharAlphaNumericA DiffCalcLine fuel mainView subView options
                progress Hp) as (_ & Ha & Ht & Hti).
    destruct (runCompare _ _ _ _ _ _ _ _ _ _ _ _ _ _ _ _) as [[[[r|] calls] al]|].
    + destruct (Ha r calls al eq_refl) as (H1 & H2 & Hr).
      split; [|intros Hn; destruct Hn; done].
      intros [= ->]. destruct Hr as [(_ & ? & _)|(_ & ? & _)]; done.
    + split; [|done]. intros _. by eapply Hti.
    + split; [done|]. intros Hn. by apply Ht in Hn.
Qed.

Lemma compareViews_error_iff_section_outside_witness :
  compareViews f32_of_int f32_add f32_mul f32_div SFltb SFeqb SFleb
    wordEngine charEngine asciiAlphaNumeric lineEngine 10
    (textView MAIN_VIEW [[97]; [98]]) (textView SUB_VIEW [[97]; [98]])
    {| oldFileViewId := MAIN_VIEW; findUniqueMode := true;
       ignoreCase := false; ignoreSpaces := false; ignoreEmptyLines := false;
       detectMoves := true; charPrecision := true; matchPercentThreshold := 50;
       selectionCompare := true; selections := fun _ => (5, 6) |}
    (Some [true])
  = Some COMPARE_ERROR.
Proof.
  apply (compareViews_error_iff_section_outside
           f32_of_int f32_add f32_mul f32_div SFltb SFeqb SFleb
           wordEngine charEngine asciiAlphaNumeric lineEngine 10
           (textView MAIN_VIEW [[97]; [98]]) (textView SUB_VIEW [[97]; [98]])
           {| oldFileViewId := MAIN_VIEW; findUniqueMode := true;
              ignoreCase := false; ignoreSpaces := false; ignoreEmptyLines := false;
              detectMoves := true; charPrecision := true; matchPercentThreshold := 50;
              selectionCompare := true; selections := fun _ => (5, 6) |}
           (Some [true])).
  - repeat constructor.
  - intros [[H|H] _]; vm_compute in H; [discriminate|]. by apply H.
Defined.
